(** * NFL play decision tree: index sets, statistics, tree construction,
      lookup and pruning.

    A shallow embedding of [singlePlay.h], [playIndexSet.{h,cpp}],
    [playStats.{h,cpp}], [dataStore.{h,cpp}] and [decisionNode.{h,cpp}],
    of [PlayLoader::loadPlays] and of the argument handling of [main],
    followed by the properties established about them.

    Conventions of the embedding:
    - a C++ [short] / [unsigned short] / [unsigned char] is a [Z] with the
      wrap-around of every store written out ([to_short], [to_ushort],
      [to_uchar]);
    - a [double] is a binary64 [PrimFloat.float]; libm's [log2] is a
      parameter of the development;
    - a thrown exception, an out-of-bounds [operator[]], a division by zero
      and the use of a never-assigned field are results [Throw _];
      [Throw undefined_behaviour] marks a step to which C++ gives no
      meaning, where a run of the program may do anything, also carry on:
      it is not an error the program reports;
    - a [PlayIterator] is modelled by the play it refers to: the play store
      is immutable once the indexes exist, so a reference is determined by
      its referent (which carries its own [_refId]);
    - [std::map] is an association list kept in ascending key order;
      [std::set<PlayCharacteristic>] is its characteristic vector, iterated
      in enumeration order as the ordered set is. *)

From Stdlib Require Import String ZArith List Bool Lia Btauto PrimFloat Uint63
  Permutation Sorted.
Import ListNotations.
Local Open Scope Z_scope.

(* ================================================================== *)
(** ** Machine integers *)

Definition to_ushort (z : Z) : Z := z mod 65536.
Definition to_short (z : Z) : Z := (z + 32768) mod 65536 - 32768.
Definition to_uchar (z : Z) : Z := z mod 256.
Definition to_int (z : Z) : Z := (z + 2147483648) mod 4294967296 - 2147483648.

(* ================================================================== *)
(** ** Exceptions (baseException.h and the standard ones the code can raise) *)

Inductive exn : Type :=
| BaseException (message : string)
| out_of_range          (* std::out_of_range from vector::at / bitset::set *)
| undefined_behaviour   (* unchecked access outside a vector, unassigned field *)
| division_by_zero
| out_of_fuel.          (* artefact of the embedding: recursion budget spent *)

Inductive outcome (A : Type) : Type :=
| OK (a : A)
| Throw (e : exn).
Arguments OK {A} a.
Arguments Throw {A} e.

Definition bind {A B : Type} (r : outcome A) (k : A -> outcome B) : outcome B :=
  match r with
  | OK a => k a
  | Throw e => Throw e
  end.

Notation "x <- c1 ;; c2" := (bind c1 (fun x => c2))
  (at level 61, c1 at next level, right associativity).
Notation "' pat <- c1 ;; c2" := (bind c1 (fun x => match x with pat => c2 end))
  (at level 61, pat pattern, c1 at next level, right associativity).

Fixpoint mapM {A B : Type} (f : A -> outcome B) (l : list A) : outcome (list B) :=
  match l with
  | [] => OK []
  | a :: l' => b <- f a ;; bs <- mapM f l' ;; OK (b :: bs)
  end.

(* ================================================================== *)
(** ** singlePlay.h *)

Module SinglePlay.

Inductive PlayType : Type :=
| run_left | run_middle | run_right | pass_short_right | pass_short_middle
| pass_short_left | pass_deep_right | pass_deep_middle | pass_deep_left
| field_goal | punt.

Inductive PlayCharacteristic : Type :=
| down_number | distance_needed | field_location | time_remaining
| score_differential.

Inductive DistanceNeeded : Type :=
| over_twenty | twenty_to_ten | ten_to_four | four_to_one | one_or_less.

Inductive FieldLocation : Type := own_red_zone | middle | opp_red_zone.

Inductive TimeRemaining : Type := outside_two_minutes | inside_two_minutes.

Inductive ScoreDifferential : Type :=
| down_over_fourteen | down_over_seven | down_seven_less | even
| up_seven_less | up_over_seven | up_over_fourteen.

(** The numeric value of each enumerator (the casts to [short]). *)
Definition PlayType_val (p : PlayType) : Z :=
  match p with
  | run_left => 0 | run_middle => 1 | run_right => 2 | pass_short_right => 3
  | pass_short_middle => 4 | pass_short_left => 5 | pass_deep_right => 6
  | pass_deep_middle => 7 | pass_deep_left => 8 | field_goal => 9 | punt => 10
  end.

Definition PlayCharacteristic_val (c : PlayCharacteristic) : Z :=
  match c with
  | down_number => 0 | distance_needed => 1 | field_location => 2
  | time_remaining => 3 | score_differential => 4
  end.

Definition DistanceNeeded_val (d : DistanceNeeded) : Z :=
  match d with
  | over_twenty => 0 | twenty_to_ten => 1 | ten_to_four => 2
  | four_to_one => 3 | one_or_less => 4
  end.

Definition FieldLocation_val (f : FieldLocation) : Z :=
  match f with own_red_zone => 0 | middle => 1 | opp_red_zone => 2 end.

Definition TimeRemaining_val (t : TimeRemaining) : Z :=
  match t with outside_two_minutes => 0 | inside_two_minutes => 1 end.

Definition ScoreDifferential_val (s : ScoreDifferential) : Z :=
  match s with
  | down_over_fourteen => 0 | down_over_seven => 1 | down_seven_less => 2
  | even => 3 | up_seven_less => 4 | up_over_seven => 5
  | up_over_fourteen => 6
  end.

Definition all_play_types : list PlayType :=
  [run_left; run_middle; run_right; pass_short_right; pass_short_middle;
   pass_short_left; pass_deep_right; pass_deep_middle; pass_deep_left;
   field_goal; punt].

Definition all_characteristics : list PlayCharacteristic :=
  [down_number; distance_needed; field_location; time_remaining;
   score_differential].

Definition PlayType_eqb (a b : PlayType) : bool :=
  PlayType_val a =? PlayType_val b.

Definition PlayCharacteristic_eqb (a b : PlayCharacteristic) : bool :=
  PlayCharacteristic_val a =? PlayCharacteristic_val b.

Record t : Type := mk {
  _refId : Z;
  _playType : PlayType;
  _down : Z;                       (* unsigned char *)
  _distanceNeeded : DistanceNeeded;
  _fieldLocation : FieldLocation;
  _timeRemaining : TimeRemaining;
  _scoreDifferential : ScoreDifferential;
  _distanceGained : Z;             (* short *)
  _turnedOver : bool
}.

Definition getPlayTypeCount : Z := PlayType_val punt + 1.

Definition getCategoryCount (playCharacteristic : PlayCharacteristic) : Z :=
  match playCharacteristic with
  | down_number => 5
  | distance_needed => DistanceNeeded_val one_or_less + 1
  | field_location => FieldLocation_val opp_red_zone + 1
  | time_remaining => TimeRemaining_val inside_two_minutes + 1
  | score_differential => ScoreDifferential_val up_over_fourteen + 1
  end.

Definition distanceToDistanceNeeded (distanceNeeded : Z) : DistanceNeeded :=
  if distanceNeeded <=? 1 then one_or_less
  else if distanceNeeded <=? 4 then four_to_one
  else if distanceNeeded <=? 10 then ten_to_four
  else if distanceNeeded <? 20 then twenty_to_ten
  else over_twenty.

Definition yardsToFieldLocation (yardLine : Z) : FieldLocation :=
  if yardLine >=? 90 then own_red_zone
  else if yardLine >? 10 then middle
  else opp_red_zone.

Definition minutesToTimeRemaining (minutes : Z) : TimeRemaining :=
  if (minutes <? 2) || ((minutes >=? 30) && (minutes <? 32))
  then inside_two_minutes
  else outside_two_minutes.

Definition scoreToScoreDifferential (ownScore oppScore : Z) : ScoreDifferential :=
  let scoreDiff := to_short (ownScore - oppScore) in
  if scoreDiff <? -14 then down_over_fourteen
  else if scoreDiff <? -7 then down_over_seven
  else if scoreDiff <? 0 then down_seven_less
  else if scoreDiff =? 0 then even
  else if scoreDiff <=? 7 then up_seven_less
  else if scoreDiff <=? 14 then up_over_seven
  else up_over_fourteen.

(** The constructor: categories are derived once from the raw values. *)
Definition SinglePlay (refId : Z) (playType : PlayType)
    (down distanceNeeded yardLine minutes ownScore oppScore distanceGained : Z)
    (turnedOver : bool) : t :=
  {| _refId := refId;
     _playType := playType;
     _down := to_uchar down;
     _distanceNeeded := distanceToDistanceNeeded distanceNeeded;
     _fieldLocation := yardsToFieldLocation yardLine;
     _timeRemaining := minutesToTimeRemaining minutes;
     _scoreDifferential := scoreToScoreDifferential ownScore oppScore;
     _distanceGained := distanceGained;
     _turnedOver := turnedOver |}.

Definition getPlayType (p : t) : PlayType := _playType p.
Definition getDistanceGained (p : t) : Z := _distanceGained p.
Definition getTurnedOver (p : t) : bool := _turnedOver p.
Definition getDown (p : t) : Z := _down p.

Definition getValue (characteristic : PlayCharacteristic) (p : t) : Z :=
  match characteristic with
  | down_number => _down p
  | distance_needed => DistanceNeeded_val (_distanceNeeded p)
  | field_location => FieldLocation_val (_fieldLocation p)
  | time_remaining => TimeRemaining_val (_timeRemaining p)
  | score_differential => ScoreDifferential_val (_scoreDifferential p)
  end.

End SinglePlay.

Abbreviation PlayIterator := SinglePlay.t (only parsing).
Abbreviation PlayIndex := (list PlayIterator) (only parsing).
Abbreviation CategoryIndex := (list PlayIndex) (only parsing).

(** [std::set<SinglePlay::PlayCharacteristic>]. *)
Module PlayCharacteristicSet.
Import SinglePlay.

Record t : Type := mk {
  has_down_number : bool;
  has_distance_needed : bool;
  has_field_location : bool;
  has_time_remaining : bool;
  has_score_differential : bool
}.

Definition empty : t := mk false false false false false.

Definition mem (c : PlayCharacteristic) (s : t) : bool :=
  match c with
  | down_number => has_down_number s
  | distance_needed => has_distance_needed s
  | field_location => has_field_location s
  | time_remaining => has_time_remaining s
  | score_differential => has_score_differential s
  end.

Definition update (c : PlayCharacteristic) (b : bool) (s : t) : t :=
  match c with
  | down_number =>
      mk b (has_distance_needed s) (has_field_location s)
         (has_time_remaining s) (has_score_differential s)
  | distance_needed =>
      mk (has_down_number s) b (has_field_location s)
         (has_time_remaining s) (has_score_differential s)
  | field_location =>
      mk (has_down_number s) (has_distance_needed s) b
         (has_time_remaining s) (has_score_differential s)
  | time_remaining =>
      mk (has_down_number s) (has_distance_needed s) (has_field_location s)
         b (has_score_differential s)
  | score_differential =>
      mk (has_down_number s) (has_distance_needed s) (has_field_location s)
         (has_time_remaining s) b
  end.

Definition insert (c : PlayCharacteristic) (s : t) : t := update c true s.
Definition erase (c : PlayCharacteristic) (s : t) : t := update c false s.

(** Iteration from [begin()] to [end()]: ascending enumerator order. *)
Definition elements (s : t) : list PlayCharacteristic :=
  filter (fun c => mem c s) all_characteristics.

Definition size (s : t) : Z := Z.of_nat (length (elements s)).
Definition is_empty (s : t) : bool :=
  match elements s with [] => true | _ => false end.

End PlayCharacteristicSet.

(* ================================================================== *)
(** ** playIndexSet.h, playIndexSet.cpp *)

Module PlayIndexSet.
Import SinglePlay.

(** [_emptyCatIndex] is the stable empty index returned for a
    characteristic outside the enumeration; every enumerator has a field of
    its own, so it is never returned and is not carried here. *)
Record t : Type := mk {
  _indexes : PlayCharacteristicSet.t;
  _downIndex : CategoryIndex;
  _distanceNeededIndex : CategoryIndex;
  _fieldLocationIndex : CategoryIndex;
  _timeRemainingIndex : CategoryIndex;
  _scoreDifferentialIndex : CategoryIndex
}.

(** Default constructor. *)
Definition PlayIndexSet : t := mk PlayCharacteristicSet.empty [] [] [] [] [].

Definition getIndex (playCharacteristic : PlayCharacteristic) (s : t)
  : CategoryIndex :=
  match playCharacteristic with
  | down_number => _downIndex s
  | distance_needed => _distanceNeededIndex s
  | field_location => _fieldLocationIndex s
  | time_remaining => _timeRemainingIndex s
  | score_differential => _scoreDifferentialIndex s
  end.

(** Assignment through a reference to one of the five index fields. *)
Definition setIndex (playCharacteristic : PlayCharacteristic)
    (v : CategoryIndex) (s : t) : t :=
  match playCharacteristic with
  | down_number =>
      mk (_indexes s) v (_distanceNeededIndex s) (_fieldLocationIndex s)
         (_timeRemainingIndex s) (_scoreDifferentialIndex s)
  | distance_needed =>
      mk (_indexes s) (_downIndex s) v (_fieldLocationIndex s)
         (_timeRemainingIndex s) (_scoreDifferentialIndex s)
  | field_location =>
      mk (_indexes s) (_downIndex s) (_distanceNeededIndex s) v
         (_timeRemainingIndex s) (_scoreDifferentialIndex s)
  | time_remaining =>
      mk (_indexes s) (_downIndex s) (_distanceNeededIndex s)
         (_fieldLocationIndex s) v (_scoreDifferentialIndex s)
  | score_differential =>
      mk (_indexes s) (_downIndex s) (_distanceNeededIndex s)
         (_fieldLocationIndex s) (_timeRemainingIndex s) v
  end.

Definition setAvailable (i : PlayCharacteristicSet.t) (s : t) : t :=
  mk i (_downIndex s) (_distanceNeededIndex s) (_fieldLocationIndex s)
     (_timeRemainingIndex s) (_scoreDifferentialIndex s).

Definition getIndexesAvailable (s : t) : PlayCharacteristicSet.t := _indexes s.

Definition dropIndex (playCharacteristic : PlayCharacteristic) (s : t) : t :=
  (* If the index to drop is the last one in the set, leave it alone *)
  if PlayCharacteristicSet.size (_indexes s) =? 1 then s
  else
    let s1 := setIndex playCharacteristic [] s in
    setAvailable (PlayCharacteristicSet.erase playCharacteristic (_indexes s1)) s1.

Definition is_nil {A : Type} (l : list A) : bool :=
  match l with [] => true | _ => false end.

Definition setIndexes (downIndex distanceNeededIndex fieldLocationIndex
    timeRemainingIndex scoreDifferentialIndex : CategoryIndex) (s : t)
  : outcome t :=
  if is_nil downIndex || is_nil distanceNeededIndex
     || is_nil fieldLocationIndex || is_nil timeRemainingIndex
     || is_nil scoreDifferentialIndex
  then Throw (BaseException
                "Index create failed, some data indexes empty after build")
  else
    OK (mk (PlayCharacteristicSet.insert score_differential
             (PlayCharacteristicSet.insert time_remaining
               (PlayCharacteristicSet.insert field_location
                 (PlayCharacteristicSet.insert distance_needed
                   (PlayCharacteristicSet.insert down_number
                     PlayCharacteristicSet.empty)))))
           downIndex distanceNeededIndex fieldLocationIndex
           timeRemainingIndex scoreDifferentialIndex).

(** [v[i].push_back(x)] with the unchecked [operator[]]. *)
Fixpoint push_back_at {A : Type} (i : nat) (x : A) (v : list (list A))
  : outcome (list (list A)) :=
  match v, i with
  | [], _ => Throw undefined_behaviour
  | l :: v', O => OK ((l ++ [x]) :: v')
  | l :: v', S i' => r <- push_back_at i' x v' ;; OK (l :: r)
  end.

Fixpoint splitIndexHelper_loop (playCharacteristic : PlayCharacteristic)
    (existIndex : PlayIndex) (newIndexes : list PlayIndex)
  : outcome (list PlayIndex) :=
  match existIndex with
  | [] => OK newIndexes
  | index :: rest =>
      let v := getValue playCharacteristic index in
      if v <? 0 then Throw undefined_behaviour
      else
        n <- push_back_at (Z.to_nat v) index newIndexes ;;
        splitIndexHelper_loop playCharacteristic rest n
  end.

Definition splitIndexHelper (playCharacteristic : PlayCharacteristic)
    (existIndex : PlayIndex) : outcome (list PlayIndex) :=
  let newIndexes :=
    repeat ([] : PlayIndex) (Z.to_nat (getCategoryCount playCharacteristic)) in
  if is_nil newIndexes then OK newIndexes
  else splitIndexHelper_loop playCharacteristic existIndex newIndexes.

(** [splitCounts[index2] += results[index][index2].size()] for every
    [index2], on a [vector<short>]. *)
Fixpoint addSizes (splitCounts : list Z) (result : list PlayIndex) : list Z :=
  match splitCounts, result with
  | c :: cs, r :: rs => to_short (c + Z.of_nat (length r)) :: addSizes cs rs
  | cs, [] => cs
  | [], _ => []
  end.

(** The first loop of [splitIndex]: split every category of the existing
    index and accumulate the per-split-category counts. *)
Fixpoint splitAll (playCharacteristic : PlayCharacteristic)
    (existIndex : CategoryIndex) (splitCounts : list Z)
  : outcome (list (list PlayIndex) * list Z) :=
  match existIndex with
  | [] => OK ([], splitCounts)
  | idx :: rest =>
      r <- splitIndexHelper playCharacteristic idx ;;
      ' (rs, counts) <- splitAll playCharacteristic rest (addSizes splitCounts r) ;;
      OK (r :: rs, counts)
  end.

(** [while (index < splitCounts.size() && !splitCounts[index]) index++] *)
Fixpoint firstNonEmpty (splitCounts : list Z) (index : nat) : option nat :=
  match splitCounts with
  | [] => None
  | c :: cs => if c =? 0 then firstNonEmpty cs (S index) else Some index
  end.

(** The pieces [results[index3][index]] for every [index3], in order. *)
Definition piece (results : list (list PlayIndex)) (index : nat)
  : CategoryIndex :=
  map (fun r => nth index r []) results.

(** The last loop of [splitIndex]; [splitCounts] holds the counts from
    position [index] on and [newIndexes] the targets from [index2] on. *)
Fixpoint swapRemaining (results : list (list PlayIndex)) (splitCounts : list Z)
    (index : nat) (newIndexes : list CategoryIndex)
  : outcome (list CategoryIndex) :=
  match splitCounts with
  | [] =>
      match newIndexes with
      | [] => OK []
      | _ :: _ =>
          Throw (BaseException "Index split failed, generated too many pieces")
      end
  | c :: cs =>
      if c =? 0 then swapRemaining results cs (S index) newIndexes
      else
        match newIndexes with
        | [] =>
            Throw (BaseException
                     "Index split failed, generated too many pieces")
        | target :: targets =>
            r <- swapRemaining results cs (S index) targets ;;
            OK ((target ++ piece results index) :: r)
        end
  end.

(** Returns the new value of [existIndex] and of every index pointed to by
    [newIndexes]. *)
Definition splitIndex (playCharacteristic : PlayCharacteristic)
    (existIndex : CategoryIndex) (newIndexes : list CategoryIndex)
  : outcome (CategoryIndex * list CategoryIndex) :=
  if is_nil existIndex then OK (existIndex, newIndexes)
  else
    let zeros := repeat 0 (Z.to_nat (getCategoryCount playCharacteristic)) in
    ' (results, splitCounts) <- splitAll playCharacteristic existIndex zeros ;;
    match firstNonEmpty splitCounts 0 with
    | None =>
        Throw (BaseException
                 "Index split failed, generated pieces with no entries")
    | Some index =>
        others <- swapRemaining results (skipn (S index) splitCounts)
                    (S index) newIndexes ;;
        OK (piece results index, others)
    end.

Definition countNonEmpty (splitingIndex : CategoryIndex) : Z :=
  to_ushort (Z.of_nat (length (filter (fun i => negb (is_nil i)) splitingIndex))).

(** Write the split pieces of one index field into the siblings. *)
Fixpoint storeIndex (playCharacteristic : PlayCharacteristic)
    (pieces : list CategoryIndex) (result : list t) : list t :=
  match pieces, result with
  | p :: ps, r :: rs =>
      setIndex playCharacteristic p r :: storeIndex playCharacteristic ps rs
  | _, rs => rs
  end.

(** One of the five blocks: gather the field of every sibling, split the
    field of this set, store the pieces back. *)
Definition splitField (playCharacteristic field : PlayCharacteristic)
    (st : t * list t) : outcome (t * list t) :=
  let '(self, siblings) := st in
  ' (mine, others) <- splitIndex playCharacteristic (getIndex field self)
                        (map (getIndex field) siblings) ;;
  OK (setIndex field mine self, storeIndex field others siblings).

(** Returns this set as mutated and the vector of new sets. *)
Definition splitIndexByCharacteristic (playCharacteristic : PlayCharacteristic)
    (s : t) : outcome (t * list t) :=
  let splitingIndex := getIndex playCharacteristic s in
  let splitCount := countNonEmpty splitingIndex in
  let s1 := dropIndex playCharacteristic s in
  if splitCount <=? 1 then OK (s1, [])
  else
    let siblings :=
      repeat (setAvailable (_indexes s1) PlayIndexSet)
             (Z.to_nat (splitCount - 1)) in
    st <- splitField playCharacteristic down_number (s1, siblings) ;;
    st <- splitField playCharacteristic distance_needed st ;;
    st <- splitField playCharacteristic field_location st ;;
    st <- splitField playCharacteristic time_remaining st ;;
    splitField playCharacteristic score_differential st.

End PlayIndexSet.

(* ================================================================== *)
(** ** playStats.h, playStats.cpp *)

Abbreviation DistanceVector := (list Z) (only parsing).

(** [std::sort] on a vector of [short]. *)
Fixpoint sort_insert (x : Z) (l : list Z) : list Z :=
  match l with
  | [] => [x]
  | y :: l' => if x <=? y then x :: l else y :: sort_insert x l'
  end.

Definition sort (l : list Z) : list Z := fold_right sort_insert [] l.

(** Integer division of C++: truncating, undefined on a zero divisor. *)
Definition divide (a b : Z) : outcome Z :=
  if b =? 0 then Throw division_by_zero else OK (Z.quot a b).

Module OverallPlaySummary.

Record t : Type := mk {
  _averageDistance : Z;
  _distanceVariance : Z;
  _turnoverPercentage : Z;
  _totalCount : Z
}.

(** [totalVariance] is an [int], summed here with the wrap-around of the
    usual two's complement machines; [(short)sqrt(totalVariance)]
    truncates the root of a non-negative [int], which is its integer
    square root. *)
Definition OverallPlaySummary (playDistances : DistanceVector)
    (turnoverCount : Z) : t :=
  let totalCount := to_short (Z.of_nat (length playDistances)) in
  if totalCount >? 0 then
    let turnoverPercentage :=
      to_short (Z.quot (turnoverCount * 1000) totalCount) in
    let totalDistance :=
      fold_left (fun acc d => to_short (acc + d)) playDistances 0 in
    let averageDistance := to_short (Z.quot totalDistance totalCount) in
    let totalVariance :=
      fold_left
        (fun acc d =>
           to_int (acc + to_int ((d - averageDistance) * (d - averageDistance))))
        playDistances 0 in
    let totalVariance := Z.quot totalVariance totalCount in
    mk averageDistance (to_short (Z.sqrt totalVariance)) turnoverPercentage
       totalCount
  else mk 0 0 0 totalCount.

Definition getAverageDistance (s : t) : Z := _averageDistance s.
Definition getDistanceVariance (s : t) : Z := _distanceVariance s.
Definition getTurnoverPercentage (s : t) : Z := _turnoverPercentage s.
Definition getTotalCount (s : t) : Z := _totalCount s.

End OverallPlaySummary.

(** Indexed by play type. *)
Abbreviation OverallSummaryData := (list OverallPlaySummary.t) (only parsing).

Module DetailedPlaySummary.

Record t : Type := mk {
  _playDistances : DistanceVector;
  _turnoverCount : Z;
  _groupStats : OverallPlaySummary.t;
  _overallStats : OverallPlaySummary.t;
  _percentOfConditionPlays : Z;
  _percentOfTypePlays : Z
}.

Definition DetailedPlaySummary (playDistances : DistanceVector)
    (turnoverCount conditionPlayCount : Z)
    (overallTypeStatistics : OverallPlaySummary.t) : outcome t :=
  let groupStats :=
    OverallPlaySummary.OverallPlaySummary playDistances turnoverCount in
  let sorted := sort playDistances in
  let size := to_short (Z.of_nat (length sorted)) in
  percentOfConditionPlays <- divide (size * 1000) conditionPlayCount ;;
  percentOfTypePlays <-
    divide (size * 1000)
           (OverallPlaySummary.getTotalCount overallTypeStatistics) ;;
  OK (mk sorted turnoverCount groupStats overallTypeStatistics
         (to_short percentOfConditionPlays) (to_short percentOfTypePlays)).

Definition updateConditionStats (totalMergedPlays : Z) (s : t) : outcome t :=
  p <- divide (to_short (Z.of_nat (length (_playDistances s))) * 1000)
              totalMergedPlays ;;
  OK (mk (_playDistances s) (_turnoverCount s) (_groupStats s)
         (_overallStats s) (to_short p) (_percentOfTypePlays s)).

Definition merge (other : t) (totalMergedPlays : Z) (s : t) : outcome t :=
  let playDistances := sort (_playDistances s ++ _playDistances other) in
  let turnoverCount := to_short (_turnoverCount s + _turnoverCount other) in
  let groupStats :=
    OverallPlaySummary.OverallPlaySummary playDistances turnoverCount in
  percentOfTypePlays <-
    divide (to_short (Z.of_nat (length playDistances)) * 1000)
           (OverallPlaySummary.getTotalCount (_overallStats s)) ;;
  updateConditionStats totalMergedPlays
    (mk playDistances turnoverCount groupStats (_overallStats s)
        (_percentOfConditionPlays s) (to_short percentOfTypePlays)).

Definition getPlayDistances (s : t) : DistanceVector := _playDistances s.
Definition getPlayCount (s : t) : Z :=
  to_short (Z.of_nat (length (_playDistances s))).
Definition getTurnoverCount (s : t) : Z := _turnoverCount s.
Definition getPercentOfConditionPlays (s : t) : Z := _percentOfConditionPlays s.
Definition getPercentOfTypePlays (s : t) : Z := _percentOfTypePlays s.

End DetailedPlaySummary.

(** [map<SinglePlay::PlayType, DetailedPlaySummary>], in ascending key order. *)
Abbreviation DetailedPlayData :=
  (list (SinglePlay.PlayType * DetailedPlaySummary.t)) (only parsing).

Module PlaySummaryFactory.
Import SinglePlay.

(** [v.at(i)] *)
Definition at_ {A : Type} (v : list A) (i : Z) : outcome A :=
  if i <? 0 then Throw out_of_range
  else match nth_error v (Z.to_nat i) with
       | Some a => OK a
       | None => Throw out_of_range
       end.

(** [v.at(i) = f (v.at(i))] *)
Fixpoint modify_at {A : Type} (f : A -> A) (i : nat) (v : list A)
  : outcome (list A) :=
  match v, i with
  | [], _ => Throw out_of_range
  | a :: v', O => OK (f a :: v')
  | a :: v', S i' => r <- modify_at f i' v' ;; OK (a :: r)
  end.

Definition countPlay (acc : list DistanceVector * list Z) (play : PlayIterator)
  : outcome (list DistanceVector * list Z) :=
  let '(distances, turnoverCounts) := acc in
  let ty := Z.to_nat (PlayType_val (getPlayType play)) in
  distances <-
    modify_at (fun d => d ++ [getDistanceGained play]) ty distances ;;
  if getTurnedOver play then
    turnoverCounts <- modify_at (fun c => to_short (c + 1)) ty turnoverCounts ;;
    OK (distances, turnoverCounts)
  else OK (distances, turnoverCounts).

Fixpoint foldM {A B : Type} (f : A -> B -> outcome A) (l : list B) (a : A)
  : outcome A :=
  match l with
  | [] => OK a
  | b :: l' => a' <- f a b ;; foldM f l' a'
  end.

Definition indexesToCounts (indexes : PlayIndexSet.t)
    (distances : list DistanceVector) (turnoverCounts : list Z)
  : outcome (list DistanceVector * list Z) :=
  match PlayCharacteristicSet.elements (PlayIndexSet.getIndexesAvailable indexes) with
  | [] => OK (distances, turnoverCounts)
  | testIndex :: _ =>
      foldM (fun acc index1 => foldM countPlay index1 acc)
            (PlayIndexSet.getIndex testIndex indexes)
            (distances, turnoverCounts)
  end.

Fixpoint buildSummaryData_loop (distances : list DistanceVector)
    (turnoverCounts : list Z) : outcome OverallSummaryData :=
  match distances with
  | [] => OK []
  | d :: ds =>
      match turnoverCounts with
      | [] => Throw undefined_behaviour
      | c :: cs =>
          r <- buildSummaryData_loop ds cs ;;
          OK (OverallPlaySummary.OverallPlaySummary d c :: r)
      end
  end.

Definition buildSummaryData (indexes : PlayIndexSet.t)
  : outcome OverallSummaryData :=
  let n := Z.to_nat getPlayTypeCount in
  ' (distances, turnoverCounts) <-
      indexesToCounts indexes (repeat [] n) (repeat 0 n) ;;
  buildSummaryData_loop distances turnoverCounts.

(** The second loop of [buildDetailedData]; [index3] runs over the play
    types in ascending order, [types] being the enumerators from it on. *)
Fixpoint buildDetailedData_loop (types : list PlayType)
    (distances : list DistanceVector) (turnoverCounts : list Z)
    (totalPlayCount : Z) (overallData : OverallSummaryData)
  : outcome DetailedPlayData :=
  match distances with
  | [] => OK []
  | d :: ds =>
      match types, turnoverCounts with
      | ty :: types', c :: cs =>
          if PlayIndexSet.is_nil d
          then buildDetailedData_loop types' ds cs totalPlayCount overallData
          else
            overall <- at_ overallData (PlayType_val ty) ;;
            summary <- DetailedPlaySummary.DetailedPlaySummary
                         d c totalPlayCount overall ;;
            rest <- buildDetailedData_loop types' ds cs totalPlayCount
                      overallData ;;
            OK ((ty, summary) :: rest)
      | _, _ => Throw undefined_behaviour
      end
  end.

Definition buildDetailedData (indexes : PlayIndexSet.t)
    (overallData : OverallSummaryData) : outcome DetailedPlayData :=
  let n := Z.to_nat getPlayTypeCount in
  ' (distances, turnoverCounts) <-
      indexesToCounts indexes (repeat [] n) (repeat 0 n) ;;
  let totalPlayCount :=
    fold_left (fun acc d => to_short (acc + Z.of_nat (length d))) distances 0 in
  buildDetailedData_loop all_play_types distances turnoverCounts
    totalPlayCount overallData.

Definition sumPlayCounts (data : DetailedPlayData) (playCount : Z) : Z :=
  fold_left
    (fun acc e => to_short (acc + DetailedPlaySummary.getPlayCount (snd e)))
    data playCount.

(** The inner [while] of [mergeData]: entries of the result whose key is
    below the key being merged get their condition share updated and are
    stepped over.  Returns the entries stepped over and those from
    [resultPtr] on. *)
Fixpoint advance (playCount : Z) (key : PlayType) (result : DetailedPlayData)
  : outcome (DetailedPlayData * DetailedPlayData) :=
  match result with
  | [] => OK ([], [])
  | (k, s) :: rest =>
      if PlayType_val k <? PlayType_val key then
        s' <- DetailedPlaySummary.updateConditionStats playCount s ;;
        ' (passed, remaining) <- advance playCount key rest ;;
        OK ((k, s') :: passed, remaining)
      else OK ([], result)
  end.

(** The outer [for] of [mergeData].  [result] holds the entries from
    [resultPtr] on; the value is the whole tail of the map from there.
    The hinted [insert] puts the new entry at its ordered place, just
    before [resultPtr], and leaves [resultPtr] on it (the hint, the
    position before [resultPtr], only guides the search: the entry lands
    where the order puts it).  When [resultPtr] is the first entry of the
    map, the source obtains the hint by decrementing [begin()], to which
    the C++ standard gives no meaning; the embedding gives the insert its
    ordered place there as well, as with every valid hint, so that a
    return of [mergeData] through that step is a return of the embedding
    only.  Entries of [result] after the last key of [other] are not
    visited. *)
Fixpoint mergeData_loop (playCount : Z) (result other : DetailedPlayData)
  : outcome DetailedPlayData :=
  match other with
  | [] => OK result
  | (key, o) :: other' =>
      ' (passed, remaining) <- advance playCount key result ;;
      tail <-
        match remaining with
        | (k, s) :: rest =>
            if PlayType_eqb k key then
              s' <- DetailedPlaySummary.merge o playCount s ;;
              mergeData_loop playCount ((k, s') :: rest) other'
            else
              o' <- DetailedPlaySummary.updateConditionStats playCount o ;;
              mergeData_loop playCount ((key, o') :: (k, s) :: rest) other'
        | [] =>
            o' <- DetailedPlaySummary.updateConditionStats playCount o ;;
            mergeData_loop playCount [(key, o')] other'
        end ;;
      OK (passed ++ tail)
  end.

Definition mergeData (result other : DetailedPlayData)
  : outcome DetailedPlayData :=
  let playCount := sumPlayCounts other (sumPlayCounts result 0) in
  mergeData_loop playCount result other.

End PlaySummaryFactory.

(* ================================================================== *)
(** ** dataStore.h, dataStore.cpp *)

Module DataStore.
Import SinglePlay.

Record t : Type := mk {
  _data : list SinglePlay.t;
  _indexes : PlayIndexSet.t;
  _playSummaryStats : OverallSummaryData
}.

Definition DataStore : t := mk [] PlayIndexSet.PlayIndexSet [].

Definition insertPlay (playType : PlayType)
    (down distanceNeeded yardLine minutes ownScore oppScore distanceGained : Z)
    (turnedOver : bool) (d : t) : t :=
  mk (_data d ++
        [SinglePlay.SinglePlay (Z.of_nat (length (_data d))) playType down
           distanceNeeded yardLine minutes ownScore oppScore distanceGained
           turnedOver])
     (_indexes d) (_playSummaryStats d).

(** One index of [buildIndexes]: every play is appended to the category
    its value selects, with the unchecked [operator[]]. *)
Definition buildIndex (characteristic : PlayCharacteristic)
    (data : list SinglePlay.t) : outcome CategoryIndex :=
  PlaySummaryFactory.foldM
    (fun index indexValue =>
       PlayIndexSet.push_back_at
         (Z.to_nat (to_ushort (getValue characteristic indexValue)))
         indexValue index)
    data
    (repeat [] (Z.to_nat (getCategoryCount characteristic))).

Definition buildIndexes (d : t) : outcome t :=
  if PlayIndexSet.is_nil (_data d) then OK d
  else
    downIndex <- buildIndex down_number (_data d) ;;
    distanceNeededIndex <- buildIndex distance_needed (_data d) ;;
    fieldLocationIndex <- buildIndex field_location (_data d) ;;
    timeRemainingIndex <- buildIndex time_remaining (_data d) ;;
    scoreDifferentialIndex <- buildIndex score_differential (_data d) ;;
    indexes <- PlayIndexSet.setIndexes downIndex distanceNeededIndex
                 fieldLocationIndex timeRemainingIndex scoreDifferentialIndex
                 (_indexes d) ;;
    stats <- PlaySummaryFactory.buildSummaryData indexes ;;
    OK (mk (_data d) indexes stats).

Definition getIndexes (d : t) : PlayIndexSet.t := _indexes d.
Definition getPlaySummaryStats (d : t) : OverallSummaryData :=
  _playSummaryStats d.

End DataStore.

(* ================================================================== *)
(** ** decisionNode.h, decisionNode.cpp *)

(** [map<SinglePlay::PlayType, unsigned short>], in ascending key order. *)
Abbreviation PlayCountMap := (list (SinglePlay.PlayType * Z)) (only parsing).

(** [bitset<11>]: bit [i] of the integer is member [i]. *)
Module PlayTypeBitSet.
Definition t : Type := Z.
Definition none : t := 0.
Definition all : t := 2047.
Definition set (i : Z) (b : t) : t := Z.lor b (Z.shiftl 1 i).
Definition flip (b : t) : t := Z.lxor b all.
Definition test (i : Z) (b : t) : bool := Z.testbit b i.
(** [bitset::size()] is the number of bits the set holds, not how many are set. *)
Definition size (b : t) : Z := 11.
End PlayTypeBitSet.

Module DecisionNode.
Import SinglePlay.

(** One class for both roles; [_decisionValue] has no initialiser, [None]
    is the field before any assignment. *)
#[local] Unset Elimination Schemes.
Inductive t : Type :=
| mk (_childNodes : list t)
     (_decisionValue : option PlayCharacteristic)
     (_categoryChildMapping : list Z)
     (_playData : DetailedPlayData).
#[local] Set Elimination Schemes.

Definition _childNodes (n : t) : list t :=
  match n with mk c _ _ _ => c end.
Definition _decisionValue (n : t) : option PlayCharacteristic :=
  match n with mk _ d _ _ => d end.
Definition _categoryChildMapping (n : t) : list Z :=
  match n with mk _ _ m _ => m end.
Definition _playData (n : t) : DetailedPlayData :=
  match n with mk _ _ _ p => p end.

Definition isLeaf (n : t) : bool := PlayIndexSet.is_nil (_childNodes n).

(** The [double] nearest to 0.02. *)
Definition MinInformationGain : float := 0x1.47ae147ae147bp-6%float.

Definition double_of (z : Z) : float :=
  if z <? 0 then PrimFloat.opp (PrimFloat.of_uint63 (Uint63.of_Z (- z)))
  else PrimFloat.of_uint63 (Uint63.of_Z z).

(** [indexesToPlayCounts] on one play: find the type, increment or insert. *)
Fixpoint countType (ty : PlayType) (data : PlayCountMap) : PlayCountMap :=
  match data with
  | [] => [(ty, 1)]
  | (k, c) :: rest =>
      if PlayType_eqb k ty then (k, to_ushort (c + 1)) :: rest
      else if PlayType_val ty <? PlayType_val k then (ty, 1) :: data
      else (k, c) :: countType ty rest
  end.

Definition indexToPlayCounts (index : PlayIndex) (data : PlayCountMap)
  : PlayCountMap :=
  fold_left (fun d indexPtr => countType (getPlayType indexPtr) d) index data.

Definition indexesToPlayCounts (indexes : PlayIndexSet.t) : PlayCountMap :=
  match PlayCharacteristicSet.elements (PlayIndexSet.getIndexesAvailable indexes) with
  | [] => []
  | indexType :: _ =>
      fold_left (fun d tempPtr => indexToPlayCounts tempPtr d)
                (PlayIndexSet.getIndex indexType indexes) []
  end.

Section InformationGain.

(** [log2] of [<cmath>]. *)
Variable log2 : float -> float.

Definition getInformation (playCount groupCount : Z) : float :=
  let ratio := PrimFloat.div (double_of playCount) (double_of groupCount) in
  PrimFloat.mul (PrimFloat.opp ratio) (log2 ratio).

(** The caller always passes [splitPlayCounts] and [splitPlayTotals] of the
    same length, so the two are walked together. *)
Definition getInfoGainRatio (plays : PlayCountMap) (playTotal : Z)
    (splitPlayCounts : list (list Z)) (splitPlayTotals : list Z) : float :=
  let groupInformation :=
    fold_left
      (fun acc mapCounter =>
         PrimFloat.add acc (getInformation (to_short (snd mapCounter)) playTotal))
      plays 0%float in
  let groupInformation :=
    fold_left
      (fun acc split =>
         let splitInformation :=
           fold_left
             (fun a c =>
                if c =? 0 then a
                else PrimFloat.add a (getInformation c (snd split)))
             (fst split) 0%float in
         PrimFloat.sub acc
           (PrimFloat.div
              (PrimFloat.mul splitInformation (double_of (snd split)))
              (double_of playTotal)))
      (combine splitPlayCounts splitPlayTotals) groupInformation in
  let intrinsicValue :=
    fold_left
      (fun acc total => PrimFloat.add acc (getInformation total playTotal))
      splitPlayTotals 0%float in
  PrimFloat.div groupInformation intrinsicValue.

(** The play counts of one candidate split: for every non-empty category,
    the counts per play type, the category size, and the running total. *)
Definition tallyCategory (acc : list (list Z) * list Z * Z) (catIndex : PlayIndex)
  : outcome (list (list Z) * list Z * Z) :=
  let '(splitPlayCounts, splitPlayTotals, playTotals) := acc in
  if PlayIndexSet.is_nil catIndex then OK acc
  else
    counts <-
      PlaySummaryFactory.foldM
        (fun back playIndex =>
           PlaySummaryFactory.modify_at (fun c => to_short (c + 1))
             (Z.to_nat (PlayType_val (getPlayType playIndex))) back)
        catIndex (repeat 0 (Z.to_nat getPlayTypeCount)) ;;
    OK (splitPlayCounts ++ [counts],
        splitPlayTotals ++ [to_short (Z.of_nat (length catIndex))],
        to_short (playTotals + Z.of_nat (length catIndex))).

Definition candidateRatio (playTypeCounts : PlayCountMap)
    (splitIndex : CategoryIndex) : outcome float :=
  ' (splitPlayCounts, splitPlayTotals, playTotals) <-
      PlaySummaryFactory.foldM tallyCategory splitIndex ([], [], 0) ;;
  if (length splitPlayTotals <=? 1)%nat then OK 0%float
  else OK (getInfoGainRatio playTypeCounts playTotals splitPlayCounts
             splitPlayTotals).

(** The state the candidate loop works on: the index set, [_decisionValue]
    and [maxInfoRatio]. *)
Definition candidateState : Type :=
  (PlayIndexSet.t * option PlayCharacteristic * float)%type.

Definition testCandidate (playTypeCounts : PlayCountMap) (st : candidateState)
    (testIndex : PlayCharacteristic) : outcome candidateState :=
  let '(indexes, decisionValue, maxInfoRatio) := st in
  infoRatio <- candidateRatio playTypeCounts
                 (PlayIndexSet.getIndex testIndex indexes) ;;
  if PrimFloat.ltb infoRatio MinInformationGain
  then OK (PlayIndexSet.dropIndex testIndex indexes, decisionValue, maxInfoRatio)
  else OK (indexes, Some testIndex, infoRatio).

Definition testCandidates (playTypeCounts : PlayCountMap)
    (indexes : PlayIndexSet.t) : outcome candidateState :=
  let testCharacteristics :=
    PlayCharacteristicSet.elements (PlayIndexSet.getIndexesAvailable indexes) in
  PlaySummaryFactory.foldM (testCandidate playTypeCounts) testCharacteristics
    (indexes, None, 0%float).

Fixpoint categoryChildMapping (splitIndex : CategoryIndex) (valueCount : Z)
  : list Z :=
  match splitIndex with
  | [] => []
  | c :: rest =>
      if (0 <? length c)%nat
      then valueCount :: categoryChildMapping rest (to_short (valueCount + 1))
      else (-1) :: categoryChildMapping rest valueCount
  end.

(** The constructor.  [fuel] bounds the depth of the recursion. *)
Fixpoint DecisionNode (fuel : nat) (indexes : PlayIndexSet.t)
    (summaryData : OverallSummaryData) : outcome t :=
  match fuel with
  | O => Throw out_of_fuel
  | S fuel' =>
      let playTypeCounts := indexesToPlayCounts indexes in
      if PlayIndexSet.is_nil playTypeCounts
      then Throw (BaseException
                    "DecisionNode create failed, passed play store empty")
      else
        ' (indexes, decisionValue, maxInfoRatio) <-
            (if (1 <? length playTypeCounts)%nat
             then testCandidates playTypeCounts indexes
             else OK (indexes, None, 0%float)) ;;
        if PrimFloat.leb MinInformationGain maxInfoRatio then
          match decisionValue with
          | None => Throw undefined_behaviour
          | Some decisionValue =>
              let mapping :=
                categoryChildMapping
                  (PlayIndexSet.getIndex decisionValue indexes) 0 in
              ' (indexes, newIndexes) <-
                  PlayIndexSet.splitIndexByCharacteristic decisionValue indexes ;;
              if PlayIndexSet.is_nil newIndexes
              then Throw (BaseException
                     "DecisionNode create failed, split of play store data failed")
              else
                first <- DecisionNode fuel' indexes summaryData ;;
                rest <- mapM (fun i => DecisionNode fuel' i summaryData)
                          newIndexes ;;
                OK (mk (first :: rest) (Some decisionValue) mapping [])
          end
        else
          playData <- PlaySummaryFactory.buildDetailedData indexes summaryData ;;
          OK (mk [] decisionValue [] playData)
  end.

End InformationGain.

(** *** Lookup *)

Definition testValueOf (decisionValue : option PlayCharacteristic)
    (down distanceNeeded : Z) (fieldLocation : FieldLocation)
    (timeRemaining : TimeRemaining) (scoreDifferential : ScoreDifferential)
  : outcome Z :=
  match decisionValue with
  | Some down_number => OK down
  | Some distance_needed => OK distanceNeeded
  | Some field_location => OK (FieldLocation_val fieldLocation)
  | Some time_remaining => OK (TimeRemaining_val timeRemaining)
  | Some score_differential => OK (ScoreDifferential_val scoreDifferential)
  | None => Throw undefined_behaviour
  end.

(** The private overload, on category values. *)
Fixpoint findPlays_cat (n : t) (down distanceNeeded : Z)
    (fieldLocation : FieldLocation) (timeRemaining : TimeRemaining)
    (scoreDifferential : ScoreDifferential) : outcome DetailedPlayData :=
  match n with
  | mk childNodes decisionValue mapping playData =>
      if PlayIndexSet.is_nil childNodes then OK playData
      else
        testValue <- testValueOf decisionValue down distanceNeeded
                       fieldLocation timeRemaining scoreDifferential ;;
        childIndex <- PlaySummaryFactory.at_ mapping testValue ;;
        if childIndex >=? 0 then
          (fix at_child (cs : list t) (i : nat) : outcome DetailedPlayData :=
             match cs, i with
             | [], _ => Throw out_of_range
             | c :: _, O =>
                 findPlays_cat c down distanceNeeded fieldLocation
                   timeRemaining scoreDifferential
             | _ :: cs', S i' => at_child cs' i'
             end) childNodes (Z.to_nat childIndex)
        else OK playData
  end.

(** The public overload, on the raw situation. *)
Definition findPlays (n : t)
    (down distanceNeeded yardLine minutes ownScore oppScore : Z)
  : outcome DetailedPlayData :=
  findPlays_cat n down distanceNeeded (yardsToFieldLocation yardLine)
    (minutesToTimeRemaining minutes)
    (scoreToScoreDifferential ownScore oppScore).

(** *** Pruning *)

(** A child whose summary holds one play type with one play. *)
Definition singlePlayLeaf (child : t) : bool :=
  match _playData child with
  | [(_, s)] => DetailedPlaySummary.getPlayCount s =? 1
  | _ => false
  end.

(** What the scan over the children accumulates. *)
Record scan : Type := mkScan {
  totalPlayCount : Z;                  (* unsigned short *)
  singlePlays : PlayTypeBitSet.t;
  multiPlays : PlayTypeBitSet.t;
  anySignificant : PlayTypeBitSet.t;
  allSignificant : PlayTypeBitSet.t
}.

Definition countPlays (st : Z * PlayTypeBitSet.t * PlayTypeBitSet.t * Z)
    (playIndex : PlayType * DetailedPlaySummary.t)
  : Z * PlayTypeBitSet.t * PlayTypeBitSet.t * Z :=
  let '(total, single, multi, mostFrequentPlay) := st in
  let count := DetailedPlaySummary.getPlayCount (snd playIndex) in
  let ty := PlayType_val (fst playIndex) in
  (to_ushort (total + count),
   (if count >? 1 then single else PlayTypeBitSet.set ty single),
   (if count >? 1 then PlayTypeBitSet.set ty multi else multi),
   (if count >? mostFrequentPlay then count else mostFrequentPlay)).

Definition maxPercentageOf (playData : DetailedPlayData) : Z :=
  fold_left
    (fun maxPercentage playIndex =>
       let p := DetailedPlaySummary.getPercentOfConditionPlays (snd playIndex) in
       if p >? maxPercentage then to_ushort p else maxPercentage)
    playData 0.

Definition significantPlaysOf (playData : DetailedPlayData)
    (maxPercentage mostFrequentPlay : Z) : PlayTypeBitSet.t :=
  fold_left
    (fun significantPlays playIndex =>
       if (DetailedPlaySummary.getPercentOfConditionPlays (snd playIndex)
             >=? maxPercentage)
          || (mostFrequentPlay <=? 5)
       then PlayTypeBitSet.set (PlayType_val (fst playIndex)) significantPlays
       else significantPlays)
    playData PlayTypeBitSet.none.

Definition scanChild (st : scan) (child : t) : scan :=
  let '(total, single, multi, mostFrequentPlay) :=
    fold_left countPlays (_playData child)
      (totalPlayCount st, singlePlays st, multiPlays st, 0) in
  let maxPercentage := maxPercentageOf (_playData child) in
  let maxPercentage := to_ushort (maxPercentage * 3) in
  let maxPercentage := to_ushort (Z.quot maxPercentage 4) in
  let significantPlays :=
    significantPlaysOf (_playData child) maxPercentage mostFrequentPlay in
  mkScan total single multi
    (Z.lor (anySignificant st) significantPlays)
    (Z.land (allSignificant st) significantPlays).

(** [totalPlayCount] is declared without an initialiser and only ever
    added to; [garbage] is the value it happens to hold. *)
Definition scanChildren (garbage : Z) (childNodes : list t) : scan :=
  fold_left scanChild childNodes
    (mkScan (to_ushort garbage) PlayTypeBitSet.none PlayTypeBitSet.none
            PlayTypeBitSet.none (PlayTypeBitSet.flip PlayTypeBitSet.none)).

(** The first test: all children, or all but one, hold a single play. *)
Definition overfitSingle (childNodes : list t) : bool :=
  let singlePlayLeafCount :=
    to_ushort (Z.of_nat (length (filter singlePlayLeaf childNodes))) in
  singlePlayLeafCount >=? Z.of_nat (length childNodes) - 1.

(** The second test: the same significant play types in every child. *)
Definition uniformSignificance (st : scan) : bool :=
  anySignificant st =? allSignificant st.

(** The third test, on the sets as the [else] branch rewrites them. *)
Definition isolatedRare (st : scan) : bool :=
  let multiPlays := PlayTypeBitSet.flip (multiPlays st) in
  let singlePlays := Z.land (singlePlays st) multiPlays in
  let allSignificant := PlayTypeBitSet.flip (allSignificant st) in
  let anySignificant := Z.land (anySignificant st) allSignificant in
  let singlePlays := Z.land singlePlays anySignificant in
  (singlePlays =? anySignificant)
  && (PlayTypeBitSet.size anySignificant <=? Z.quot (totalPlayCount st) 2).

Definition shouldPrune (garbage : Z) (childNodes : list t) : bool :=
  if overfitSingle childNodes then true
  else
    let st := scanChildren garbage childNodes in
    if uniformSignificance st then true else isolatedRare st.

(** The statistics of the merged children: the first child's summary, then
    every other child's merged into it. *)
Definition mergeChildren (childNodes : list t) : outcome DetailedPlayData :=
  match childNodes with
  | [] => Throw undefined_behaviour
  | front :: others =>
      PlaySummaryFactory.foldM
        (fun playData nodeIndex =>
           PlaySummaryFactory.mergeData playData (_playData nodeIndex))
        others (_playData front)
  end.

(** The first loop of [pruneTree]: every child that is not a leaf is
    pruned in place; [prune] is the recursive call and [i] the position of
    the first child of [childNodes]. *)
Definition pruneChildren (prune : list nat -> t -> outcome t) (path : list nat)
  : list t -> nat -> outcome (list t) :=
  fix each (childNodes : list t) (i : nat) : outcome (list t) :=
    match childNodes with
    | [] => OK []
    | c :: cs =>
        c' <- (if isLeaf c then OK c else prune (i :: path) c) ;;
        r <- each cs (S i) ;;
        OK (c' :: r)
    end.

(** [garbage] gives, for the activation of [pruneTree] on the node reached
    from the root by the child positions [path] (innermost first), the
    value found in the uninitialised [totalPlayCount]. *)
Fixpoint pruneTree (garbage : list nat -> Z) (path : list nat) (n : t)
  : outcome t :=
  match n with
  | mk childNodes decisionValue mapping playData =>
      if PlayIndexSet.is_nil childNodes then OK n
      else
        childNodes <- pruneChildren (pruneTree garbage) path childNodes O ;;
        let haveLeaves := forallb isLeaf childNodes in
        if negb haveLeaves then OK (mk childNodes decisionValue mapping playData)
        else if shouldPrune (garbage path) childNodes then
          merged <- mergeChildren childNodes ;;
          OK (mk [] decisionValue mapping merged)
        else OK (mk childNodes decisionValue mapping playData)
  end.

End DecisionNode.

(* ================================================================== *)
(** ** Vocabulary of the statements *)

Module IndexSet.
Import SinglePlay.

(** Number of record references held by one partition. *)
Definition recordCount (index : CategoryIndex) : nat := length (concat index).

(** [index] is a partition by [c]: one slot per category, and the plays in
    slot [j] have value [j]. *)
Definition partitions (c : PlayCharacteristic) (index : CategoryIndex) : Prop :=
  Z.of_nat (length index) = getCategoryCount c
  /\ forall j r, In r (nth j index []) -> getValue c r = Z.of_nat j.

(** The invariant of an index set: a dropped characteristic has a cleared
    partition, a tracked one has a partition by that characteristic, and
    all tracked partitions hold the same plays. *)
Definition invariant (s : PlayIndexSet.t) : Prop :=
  (forall c, PlayCharacteristicSet.mem c (PlayIndexSet.getIndexesAvailable s) = false ->
             PlayIndexSet.getIndex c s = [])
  /\ (forall c, PlayCharacteristicSet.mem c (PlayIndexSet.getIndexesAvailable s) = true ->
                partitions c (PlayIndexSet.getIndex c s))
  /\ (forall c c',
        PlayCharacteristicSet.mem c (PlayIndexSet.getIndexesAvailable s) = true ->
        PlayCharacteristicSet.mem c' (PlayIndexSet.getIndexesAvailable s) = true ->
        Permutation (concat (PlayIndexSet.getIndex c s))
                    (concat (PlayIndexSet.getIndex c' s))).

(** The characteristic [a] is dropped from [x]: untracked, partition cleared. *)
Definition cleared (a : PlayCharacteristic) (x : PlayIndexSet.t) : Prop :=
  PlayCharacteristicSet.mem a (PlayIndexSet.getIndexesAvailable x) = false
  /\ PlayIndexSet.getIndex a x = [].

(** The plays an index set stands for, read where the code reads them:
    in the partition of the first tracked characteristic. *)
Definition records (s : PlayIndexSet.t) : list SinglePlay.t :=
  match PlayCharacteristicSet.elements (PlayIndexSet.getIndexesAvailable s) with
  | [] => []
  | c :: _ => concat (PlayIndexSet.getIndex c s)
  end.

End IndexSet.

Module Tree.

(** No node has exactly one child: a node is a leaf, without children, or
    a decision node with at least two. *)
Fixpoint wellShaped (n : DecisionNode.t) : bool :=
  match n with
  | DecisionNode.mk childNodes _ _ _ =>
      negb (length childNodes =? 1)%nat && forallb wellShaped childNodes
  end.

(** The trees the program can hold: what the constructor returns, and
    what [pruneTree] turns such a tree into. *)
Inductive reachable (log2 : float -> float) : DecisionNode.t -> Prop :=
| built (fuel : nat) (indexes : PlayIndexSet.t)
        (summaryData : OverallSummaryData) (n : DecisionNode.t) :
    DecisionNode.DecisionNode log2 fuel indexes summaryData = OK n ->
    reachable log2 n
| pruned (garbage : list nat -> Z) (n n' : DecisionNode.t) :
    reachable log2 n ->
    DecisionNode.pruneTree garbage [] n = OK n' ->
    reachable log2 n'.

End Tree.

(** Counting the plays a split moves. *)
Module Counting.
Import SinglePlay.

(** The plays of [l] whose value for [a] is [j]. *)
Definition bucket (a : PlayCharacteristic) (j : nat) (l : PlayIndex) : PlayIndex :=
  filter (fun p => getValue a p =? Z.of_nat j) l.

Definition inRange (a : PlayCharacteristic) (n : nat) (p : PlayIterator) : Prop :=
  0 <= getValue a p < Z.of_nat n.

(** Plays in category [j] of the split, over a whole index. *)
Definition weight (a : PlayCharacteristic) (X : CategoryIndex) (j : nat) : nat :=
  IndexSet.recordCount (map (bucket a j) X).

(** Sum of the weights of the categories whose (wrapped) count is non-zero,
    and their number. *)
Fixpoint visibleSum (w : nat -> nat) (counts : list Z) (index : nat) : nat :=
  match counts with
  | [] => 0
  | c :: cs => (if c =? 0 then 0 else w index) + visibleSum w cs (S index)
  end.

Fixpoint visibleCount (counts : list Z) : nat :=
  match counts with
  | [] => 0
  | c :: cs => (if c =? 0 then 0 else 1) + visibleCount cs
  end.

Definition total (l : list CategoryIndex) : nat :=
  list_sum (map IndexSet.recordCount l).

(** Sum of [w] over [len] consecutive categories from [start]. *)
Definition sumOver (w : nat -> nat) (start len : nat) : nat :=
  list_sum (map w (seq start len)).

(** The categories whose (wrapped) count is non-zero, numbered from
    [index]. *)
Fixpoint visibleFrom (counts : list Z) (index : nat) : list nat :=
  match counts with
  | [] => []
  | c :: cs =>
      if c =? 0 then visibleFrom cs (S index)
      else index :: visibleFrom cs (S index)
  end.

(** The populated categories of a partition. *)
Definition populated (A : CategoryIndex) : list nat :=
  filter (fun j => negb (PlayIndexSet.is_nil (nth j A []))) (seq 0 (length A)).

(** The index set [s] cut down to the plays whose value for [a] is [j]. *)
Definition restrict (a : PlayCharacteristic) (j : nat) (s : PlayIndexSet.t)
  : PlayIndexSet.t :=
  PlayIndexSet.mk (PlayIndexSet._indexes s)
    (map (bucket a j) (PlayIndexSet._downIndex s))
    (map (bucket a j) (PlayIndexSet._distanceNeededIndex s))
    (map (bucket a j) (PlayIndexSet._fieldLocationIndex s))
    (map (bucket a j) (PlayIndexSet._timeRemainingIndex s))
    (map (bucket a j) (PlayIndexSet._scoreDifferentialIndex s)).

End Counting.

(** Vectors indexed by play type. *)
Module Vectors.
Import SinglePlay.

(** The total counterpart of [modify_at]. *)
Fixpoint modify {A : Type} (f : A -> A) (i : nat) (v : list A) : list A :=
  match v, i with
  | [], _ => []
  | a :: v', O => f a :: v'
  | a :: v', S i' => a :: modify f i' v'
  end.

Definition slot (ty : PlayType) : nat := Z.to_nat (PlayType_val ty).

(** Turnovers counted on a [short]. *)
Definition turnovers (plays : list SinglePlay.t) (c : Z) : Z :=
  fold_left (fun c p => if getTurnedOver p then to_short (c + 1) else c) plays c.

End Vectors.

(** The third pruning test in the words of its description. *)
Module Heuristic.
Import SinglePlay.

Definition playCount (e : PlayType * DetailedPlaySummary.t) : Z :=
  DetailedPlaySummary.getPlayCount (snd e).

Definition share (e : PlayType * DetailedPlaySummary.t) : Z :=
  DetailedPlaySummary.getPercentOfConditionPlays (snd e).

(** The child has an entry for [ty] that [accept]s. *)
Definition hasEntry (ty : PlayType)
    (accept : PlayType * DetailedPlaySummary.t -> bool)
    (child : DecisionNode.t) : bool :=
  existsb (fun e => PlayType_eqb (fst e) ty && accept e)
          (DecisionNode._playData child).

Definition mostFrequentPlay (child : DecisionNode.t) : Z :=
  fold_left (fun m e => if playCount e >? m then playCount e else m)
            (DecisionNode._playData child) 0.

(** Three quarters of the child's largest share. *)
Definition threshold (child : DecisionNode.t) : Z :=
  to_ushort
    (Z.quot
       (to_ushort
          (DecisionNode.maxPercentageOf (DecisionNode._playData child) * 3))
       4).

Definition significantIn (child : DecisionNode.t) (ty : PlayType) : bool :=
  hasEntry ty
    (fun e => (share e >=? threshold child) || (mostFrequentPlay child <=? 5))
    child.

Definition singleIn (child : DecisionNode.t) (ty : PlayType) : bool :=
  hasEntry ty (fun e => playCount e =? 1) child.

Definition multiIn (child : DecisionNode.t) (ty : PlayType) : bool :=
  hasEntry ty (fun e => playCount e >? 1) child.


(** Set (i): single-occurrence in some child, multi-occurrence in none. *)
Definition singleOnly (children : list DecisionNode.t) (ty : PlayType) : bool :=
  existsb (fun c => singleIn c ty) children
  && negb (existsb (fun c => multiIn c ty) children).

(** Set (ii): significant in some child but not in all. *)
Definition someNotAll (children : list DecisionNode.t) (ty : PlayType) : bool :=
  existsb (fun c => significantIn c ty) children
  && negb (forallb (fun c => significantIn c ty) children).




End Heuristic.

Module Candidate.
Import SinglePlay.

(** The candidate [c] clears the threshold: its information gain ratio,
    computed as the constructor computes it, is not below
    [MinInformationGain]. *)
Definition clears (log2 : float -> float) (playTypeCounts : PlayCountMap)
    (indexes : PlayIndexSet.t) (c : PlayCharacteristic) : bool :=
  match DecisionNode.candidateRatio log2 playTypeCounts
          (PlayIndexSet.getIndex c indexes) with
  | OK infoRatio => negb (PrimFloat.ltb infoRatio DecisionNode.MinInformationGain)
  | Throw _ => false
  end.

End Candidate.

(* ================================================================== *)
(** ** Sample data *)

Module Samples.
Import SinglePlay.

(** A stand-in for libm's [log2], used only to run the construction on
    sample data: exponent plus the series of the logarithm of the mantissa.
    It is exact on powers of two. *)
Definition log2 (x : float) : float :=
  let '(m, e) := PrimFloat.frshiftexp x in
  let exponent := Uint63.to_Z e - 2101 in
  let y := PrimFloat.mul m 2%float in
  let z := PrimFloat.div (PrimFloat.sub y 1%float) (PrimFloat.add y 1%float) in
  let z2 := PrimFloat.mul z z in
  let series :=
    fix series (n : nat) (k : Z) (pow acc : float) : float :=
      match n with
      | O => acc
      | S n' =>
          series n' (k + 2) (PrimFloat.mul pow z2)
            (PrimFloat.add acc (PrimFloat.div pow (DecisionNode.double_of k)))
      end in
  PrimFloat.add (DecisionNode.double_of (exponent - 1))
    (PrimFloat.div (PrimFloat.mul 2%float (series 40%nat 1 z 0%float))
       0x1.62e42fefa39efp-1%float).

(** Two punts on fourth and fifteen, two runs on first and two. *)
Definition store : DataStore.t :=
  DataStore.insertPlay punt 4 15 50 10 0 0 40 false
    (DataStore.insertPlay run_left 1 2 50 10 0 0 3 false
       (DataStore.insertPlay run_left 1 2 50 10 0 0 5 true
          (DataStore.insertPlay punt 4 15 50 10 0 0 40 false
             DataStore.DataStore))).

Definition value {A : Type} (default : A) (r : outcome A) : A :=
  match r with OK a => a | Throw _ => default end.

Definition indexed : DataStore.t :=
  Eval vm_compute in value DataStore.DataStore (DataStore.buildIndexes store).

Definition indexes : PlayIndexSet.t := DataStore.getIndexes indexed.

(** The index set once every characteristic but the down has been found
    redundant and dropped. *)
Definition downOnly : PlayIndexSet.t :=
  Eval vm_compute in
    PlayIndexSet.dropIndex score_differential
      (PlayIndexSet.dropIndex time_remaining
         (PlayIndexSet.dropIndex field_location
            (PlayIndexSet.dropIndex distance_needed indexes))).

(** What [downOnly] becomes when it is split by the down: the first down
    plays stay, the fourth down plays go to the one sibling. *)
Definition firstDownOnly : PlayIndexSet.t :=
  Eval vm_compute in
    fst (value (downOnly, [])
           (PlayIndexSet.splitIndexByCharacteristic down_number downOnly)).

(** The sibling that splitting [indexes] by the down returns: the two
    fourth down plays, both punts. *)
Definition punts : PlayIndexSet.t :=
  Eval vm_compute in
    hd PlayIndexSet.PlayIndexSet
       (snd (value (indexes, [])
               (PlayIndexSet.splitIndexByCharacteristic down_number indexes))).

(** Three runs on first down, three punts on fourth down; the distance
    needed separates them only partly. *)
Definition mixedStore : DataStore.t :=
  DataStore.insertPlay punt 4 2 50 10 0 0 38 false
    (DataStore.insertPlay punt 4 15 50 10 0 0 41 false
       (DataStore.insertPlay punt 4 15 50 10 0 0 40 false
          (DataStore.insertPlay run_left 1 15 50 10 0 0 1 false
             (DataStore.insertPlay run_left 1 2 50 10 0 0 3 false
                (DataStore.insertPlay run_left 1 2 50 10 0 0 5 true
                   DataStore.DataStore))))).

Definition mixed : DataStore.t :=
  Eval vm_compute in value DataStore.DataStore (DataStore.buildIndexes mixedStore).

Definition emptyLeaf : DecisionNode.t := DecisionNode.mk [] None [] [].

(** The tree the constructor builds over [indexes]: the root decides on
    the distance needed, with one leaf for the punts (ten to twenty yards)
    and one for the runs (one to four yards). *)
Definition tree : DecisionNode.t :=
  Eval vm_compute in
    value emptyLeaf
      (DecisionNode.DecisionNode log2 7 indexes
         (DataStore.getPlaySummaryStats indexed)).

(** The tree the constructor builds over [mixed]. *)
Definition mixedTree : DecisionNode.t :=
  Eval vm_compute in
    value emptyLeaf
      (DecisionNode.DecisionNode log2 7 (DataStore.getIndexes mixed)
         (DataStore.getPlaySummaryStats mixed)).

(** [count] times the same play call with the same outcome. *)
Definition insertPlays (count : nat) (playType : PlayType) (down : Z)
    (d : DataStore.t) : DataStore.t :=
  Nat.iter count (DataStore.insertPlay playType down 5 50 10 0 0 4 false) d.

Definition buildTree (d : DataStore.t) : outcome DecisionNode.t :=
  ds <- DataStore.buildIndexes d ;;
  DecisionNode.DecisionNode log2 7 (DataStore.getIndexes ds)
    (DataStore.getPlaySummaryStats ds).

(** First down: a run and a punt.  Second down: a run. *)
Definition unevenStore : DataStore.t :=
  insertPlays 1 run_left 2
    (insertPlays 1 punt 1 (insertPlays 1 run_left 1 DataStore.DataStore)).

Definition unevenTree : DecisionNode.t :=
  Eval vm_compute in value emptyLeaf (buildTree unevenStore).

(** The summaries of the two leaves of [unevenTree]. *)
Definition unevenFirst : DetailedPlayData :=
  Eval vm_compute in
    DecisionNode._playData (nth 0 (DecisionNode._childNodes unevenTree) emptyLeaf).

Definition unevenSecond : DetailedPlayData :=
  Eval vm_compute in
    DecisionNode._playData (nth 1 (DecisionNode._childNodes unevenTree) emptyLeaf).

(** First down: six runs and a deep pass.  Second down: three runs and a
    field goal attempt. *)
Definition smallStore : DataStore.t :=
  insertPlays 1 field_goal 2
    (insertPlays 3 run_left 2
       (insertPlays 1 pass_deep_left 1
          (insertPlays 6 run_left 1 DataStore.DataStore))).

Definition smallTree : DecisionNode.t :=
  Eval vm_compute in value emptyLeaf (buildTree smallStore).




(** A leaf over 40000 plays of one type, each for four yards: the summary
    [DetailedPlaySummary] makes of them, against the baseline of these
    plays. *)
Definition wrappedLeaf (ty : PlayType) : DecisionNode.t :=
  let distances := repeat 4 (Z.to_nat 40000) in
  let overall := OverallPlaySummary.OverallPlaySummary distances 0 in
  DecisionNode.mk [] None []
    [(ty,
      value (DetailedPlaySummary.mk [] 0 overall overall 0 0)
        (DetailedPlaySummary.DetailedPlaySummary distances 0
           (to_short (Z.of_nat (length distances))) overall))].

(** Three such leaves, for the three kinds of run. *)
Definition wrappedLeaves : list DecisionNode.t :=
  [wrappedLeaf run_left; wrappedLeaf run_middle; wrappedLeaf run_right].

(** 32768 punts on fourth down, numbered from 0. *)
Definition manyPuntPlays : list SinglePlay.t :=
  map (fun k => SinglePlay.SinglePlay (Z.of_nat k) punt 4 15 50 10 0 0 40 false)
      (seq 0 (Z.to_nat 32768)).

(** An index set that tracks the down only and holds these punts. *)
Definition manyPunts : PlayIndexSet.t :=
  PlayIndexSet.mk
    (PlayCharacteristicSet.insert down_number PlayCharacteristicSet.empty)
    [[]; []; []; []; manyPuntPlays] [] [] [] [].

(** The baseline of these punts: the summary [OverallPlaySummary] makes of
    them for punts, and of no play for every other type. *)
Definition manyPuntsBaseline : OverallSummaryData :=
  repeat (OverallPlaySummary.OverallPlaySummary [] 0) 10
  ++ [OverallPlaySummary.OverallPlaySummary
        (map getDistanceGained manyPuntPlays) 0].

End Samples.

(* ================================================================== *)
(** ** Further vocabulary: plays by type, statistics, tree shape, lookup,
       store, loader and command line *)

(** Plays by type. *)
Module ByType.
Import SinglePlay.

(** The plays of [plays] that have type [ty], in order. *)
Definition ofType (ty : PlayType) (plays : list SinglePlay.t) : list SinglePlay.t :=
  filter (fun p => PlayType_eqb (getPlayType p) ty) plays.

(** The summary of one play type over [plays], as [buildSummaryData]
    computes it from the distances and the turnovers counted. *)
Definition summaryOf (ty : PlayType) (plays : list SinglePlay.t)
  : OverallPlaySummary.t :=
  OverallPlaySummary.OverallPlaySummary
    (map getDistanceGained (ofType ty plays))
    (Vectors.turnovers (ofType ty plays) 0).

End ByType.



(** Vocabulary for the statistics. *)
Module Stats.
Import SinglePlay.

(** The exact sum of the distances. *)
Definition sum (l : list Z) : Z := fold_right Z.add 0 l.

(** An entry of a summary map without its statistics: the key and the
    distances. *)
Definition bare (e : PlayType * DetailedPlaySummary.t) : PlayType * list Z :=
  (fst e, DetailedPlaySummary.getPlayDistances (snd e)).

(** The distances a summary map holds for a play type (a map holds at
    most one entry per key). *)
Definition distancesOf (ty : PlayType)
    (data : list (PlayType * DetailedPlaySummary.t)) : list Z :=
  concat (map snd (filter (fun b => PlayType_eqb (fst b) ty) (map bare data))).

(** The distances the entry with key [k] and distances [d] contributes
    to a play type. *)
Definition contribution (ty : PlayType) (k : PlayType) (d : list Z) : list Z :=
  if PlayType_eqb k ty then d else [].

(** The keys of a map are in ascending order, without repetition. *)
Definition ascending {V : Type} (data : list (PlayType * V)) : Prop :=
  StronglySorted Z.lt (map (fun e => PlayType_val (fst e)) data).

(** The count a play count map holds for a play type. *)
Definition countOf (ty : PlayType) (data : list (PlayType * Z)) : option Z :=
  match find (fun e => PlayType_eqb (fst e) ty) data with
  | Some e => Some (snd e)
  | None => None
  end.

(** The count a play count map holds for a type after [n] more plays of
    the type, from what it held before: a first play inserts 1, a further
    one increments. *)
Definition after (n : nat) (before : option Z) : option Z :=
  Nat.iter n (fun o => Some (match o with
                             | Some c => to_ushort (c + 1)
                             | None => 1
                             end)) before.

End Stats.

(** The plays a tree holds. *)
Module TreeStats.
Import SinglePlay.

(** The distances of the plays of a type summarised in the leaves of a
    tree, leaf by leaf. *)
Fixpoint distancesIn (ty : PlayType) (n : DecisionNode.t) : list Z :=
  match n with
  | DecisionNode.mk childNodes _ _ playData =>
      match childNodes with
      | [] => Stats.distancesOf ty playData
      | _ :: _ => concat (map (distancesIn ty) childNodes)
      end
  end.

End TreeStats.

(** Vocabulary for the construction of a tree. *)
Module Shape.
Import SinglePlay.

(** Number of characteristics an index set tracks. *)
Definition tracked (s : PlayIndexSet.t) : nat :=
  length (PlayCharacteristicSet.elements (PlayIndexSet.getIndexesAvailable s)).

(** The index set tracks one characteristic only, and all its plays have
    the same value for it. *)
Definition exhausted (s : PlayIndexSet.t) : Prop :=
  tracked s = 1%nat
  /\ forall c,
       PlayCharacteristicSet.mem c (PlayIndexSet.getIndexesAvailable s) = true ->
       (length (Counting.populated (PlayIndexSet.getIndex c s)) <= 1)%nat.

(** Number of decisions on the longest path from a node to a leaf. *)
Fixpoint depth (n : DecisionNode.t) : nat :=
  match n with
  | DecisionNode.mk childNodes _ _ _ =>
      match childNodes with
      | [] => O
      | _ :: _ => S (fold_right Nat.max O (map depth childNodes))
      end
  end.

(** Every decision node can route every category of its characteristic:
    its mapping has one entry per category, each -1 or the position of a
    child. *)
Fixpoint routable (n : DecisionNode.t) : bool :=
  match n with
  | DecisionNode.mk childNodes decisionValue mapping _ =>
      match childNodes with
      | [] => true
      | _ :: _ =>
          match decisionValue with
          | None => false
          | Some c =>
              (Z.of_nat (length mapping) =? getCategoryCount c)
              && forallb (fun m => (-1 <=? m)
                                   && (m <? Z.of_nat (length childNodes)))
                         mapping
              && forallb routable childNodes
          end
      end
  end.

(** What the index set [x] handed to a child of a split of [s] has to do
    with [s]: it is consistent, holds some of the plays of [s], and tracks
    one characteristic less, unless [s] tracked one only, and then [x] is
    exhausted. *)
Definition childOf (s x : PlayIndexSet.t) : Prop :=
  IndexSet.invariant x
  /\ IndexSet.records x <> []
  /\ incl (IndexSet.records x) (IndexSet.records s)
  /\ (length (IndexSet.records x) <= length (IndexSet.records s))%nat
  /\ (tracked s = 1%nat -> exhausted x)
  /\ ((2 <= tracked s)%nat -> tracked x = (tracked s - 1)%nat).

(** The baseline has, for every play type among [plays], an entry over at
    least one play. *)
Definition covers (summaryData : list OverallPlaySummary.t)
    (plays : list SinglePlay.t) : Prop :=
  forall ty, ByType.ofType ty plays <> [] ->
    exists ov,
      PlaySummaryFactory.at_ summaryData (PlayType_val ty) = OK ov
      /\ OverallPlaySummary.getTotalCount ov <> 0.

End Shape.

(** Vocabulary for the lookup. *)
Module Query.
Import SinglePlay.

(** The category value a lookup compares with the plays' for a
    characteristic: the argument of [findPlays] that characteristic
    selects. *)
Definition asked (c : PlayCharacteristic) (down distanceNeeded : Z)
    (fieldLocation : FieldLocation) (timeRemaining : TimeRemaining)
    (scoreDifferential : ScoreDifferential) : Z :=
  match c with
  | down_number => down
  | distance_needed => distanceNeeded
  | field_location => FieldLocation_val fieldLocation
  | time_remaining => TimeRemaining_val timeRemaining
  | score_differential => ScoreDifferential_val scoreDifferential
  end.

(** The play has the value asked for, for every characteristic of
    [tested]. *)
Definition agrees (tested : list PlayCharacteristic) (down distanceNeeded : Z)
    (fieldLocation : FieldLocation) (timeRemaining : TimeRemaining)
    (scoreDifferential : ScoreDifferential) (p : SinglePlay.t) : bool :=
  forallb (fun c => getValue c p
                    =? asked c down distanceNeeded fieldLocation timeRemaining
                         scoreDifferential)
          tested.

End Query.

(** The stores the interface can produce. *)
Module Store.
Import SinglePlay.

(** A store created empty and filled by [insertPlay] only. *)
Inductive filled : DataStore.t -> Prop :=
| filled_empty : filled DataStore.DataStore
| filled_insert (playType : PlayType)
    (down distanceNeeded yardLine minutes ownScore oppScore distanceGained : Z)
    (turnedOver : bool) (d : DataStore.t) :
    filled d ->
    filled (DataStore.insertPlay playType down distanceNeeded yardLine minutes
              ownScore oppScore distanceGained turnedOver d).

End Store.

(** [PlayLoader::loadPlays] (playLoader.h); reading one season's file is a
    parameter. *)
Module PlayLoader.

Section LoadPlays.

(** [loadSingleSeason], for the teams asked for: the store with the plays
    of the season's file inserted, or the exception raised. *)
Variable loadSingleSeason : Z -> DataStore.t -> outcome DataStore.t.

(** The [for] loop, [yearCounter] an [unsigned short] counting down;
    [fuel] bounds the iterations. *)
Fixpoint loadSeasons (fuel : nat) (yearCounter firstYear : Z)
    (dataStore : DataStore.t) : outcome DataStore.t :=
  match fuel with
  | O => Throw out_of_fuel
  | S fuel' =>
      if yearCounter >=? firstYear then
        dataStore <- loadSingleSeason yearCounter dataStore ;;
        loadSeasons fuel' (to_ushort (yearCounter - 1)) firstYear dataStore
      else OK dataStore
  end.

Definition loadPlays (fuel : nat) (yearRange : Z) (dataStore : DataStore.t)
  : outcome DataStore.t :=
  let firstYear := 2008 in
  let lastYear := 2011 in
  let firstYear :=
    if lastYear - yearRange + 1 >? firstYear
    then to_ushort (lastYear - yearRange + 1)
    else firstYear in
  dataStore <- loadSeasons fuel lastYear firstYear dataStore ;;
  DataStore.buildIndexes dataStore.

End LoadPlays.

End PlayLoader.

(** The argument handling of [main] (main.cpp). *)
Module Main.

(** The teams taken from the command line. *)
Record teams : Type := mkTeams {
  thisTeam : string;
  otherTeam : string;
  thisSimiliar : list string;
  otherSimiliar : list string
}.

(** The loop over the arguments from [argv[4]] on. *)
Fixpoint similiarTeams (args : list string) (usSimiliar : bool)
    (thisSimiliar otherSimiliar : list string) : list string * list string :=
  match args with
  | [] => (thisSimiliar, otherSimiliar)
  | newTeam :: rest =>
      if usSimiliar then
        if String.eqb newTeam "-o"
        then similiarTeams rest false thisSimiliar otherSimiliar
        else similiarTeams rest usSimiliar (thisSimiliar ++ [newTeam])
               otherSimiliar
      else
        if String.eqb newTeam "-u"
        then similiarTeams rest true thisSimiliar otherSimiliar
        else similiarTeams rest usSimiliar thisSimiliar
               (otherSimiliar ++ [newTeam])
  end.

(** [argv] holds the [argc] arguments, the program name first; [None] is
    the exit on invalid arguments. *)
Definition arguments (argv : list string) : option teams :=
  let argc := Z.of_nat (length argv) in
  let '(validInput, usSimiliar) :=
    if argc =? 3 then (true, false)
    else if argc >=? 5 then
      let flag := nth 3 argv EmptyString in
      if String.eqb flag "-u" then (true, true)
      else if String.eqb flag "-o" then (true, false)
      else (false, false)
    else (false, false) in
  if negb validInput then None
  else
    let thisTeam := nth 1 argv EmptyString in
    let otherTeam := nth 2 argv EmptyString in
    let '(thisSimiliar, otherSimiliar) :=
      if argc >=? 5
      then similiarTeams (skipn 4 argv) usSimiliar [] []
      else ([], []) in
    Some (mkTeams thisTeam otherTeam thisSimiliar otherSimiliar).

End Main.

(** Further sample data. *)
Module Examples.
Import SinglePlay.

(** What [Samples.indexes] becomes when it is split by the down: the two
    first down plays, both runs; [Samples.punts] is the sibling. *)
Definition runs : PlayIndexSet.t :=
  Eval vm_compute in
    fst (Samples.value (Samples.indexes, [])
           (PlayIndexSet.splitIndexByCharacteristic down_number Samples.indexes)).

(** The summary map of all four plays of [Samples.indexes]. *)
Definition allPlays : list (PlayType * DetailedPlaySummary.t) :=
  Eval vm_compute in
    Samples.value []
      (PlaySummaryFactory.buildDetailedData Samples.indexes
         (DataStore.getPlaySummaryStats Samples.indexed)).

(** The two leaf summaries of [Samples.unevenTree], merged. *)
Definition unevenMerged : list (PlayType * DetailedPlaySummary.t) :=
  Eval vm_compute in
    Samples.value []
      (PlaySummaryFactory.mergeData Samples.unevenFirst Samples.unevenSecond).

(** Two runs for three and five yards, one lost; a third run for four
    yards; against a baseline of four runs. *)
Definition runBaseline : OverallPlaySummary.t :=
  OverallPlaySummary.OverallPlaySummary [3; 5; 4; 7] 1.

Definition emptySummary : DetailedPlaySummary.t :=
  DetailedPlaySummary.mk [] 0 runBaseline runBaseline 0 0.

Definition firstGroup : DetailedPlaySummary.t :=
  Eval vm_compute in
    Samples.value emptySummary
      (DetailedPlaySummary.DetailedPlaySummary [3; 5] 1 2 runBaseline).

Definition secondGroup : DetailedPlaySummary.t :=
  Eval vm_compute in
    Samples.value emptySummary
      (DetailedPlaySummary.DetailedPlaySummary [4] 0 1 runBaseline).

(** The second group merged into the first. *)
Definition pooled : DetailedPlaySummary.t :=
  Eval vm_compute in
    Samples.value emptySummary
      (DetailedPlaySummary.merge secondGroup 3 firstGroup).

(** [Samples.unevenTree] once pruned: its two leaves are merged. *)
Definition unevenPruned : DecisionNode.t :=
  Eval vm_compute in
    Samples.value Samples.emptyLeaf
      (DecisionNode.pruneTree (fun _ => 0) [] Samples.unevenTree).

(** What a lookup in [Samples.tree] returns for a first down with three
    yards to go, in the middle of the field, outside two minutes, the score
    even. *)
Definition lookedUp : list (PlayType * DetailedPlaySummary.t) :=
  Eval vm_compute in
    Samples.value []
      (DecisionNode.findPlays_cat Samples.tree 1 3 middle outside_two_minutes
         even).

End Examples.


(* ================================================================== *)
(** * Properties *)

(** ** Outcomes *)

Lemma bind_OK {A B : Type} (r : outcome A) (k : A -> outcome B) (b : B) :
  bind r k = OK b -> exists a, r = OK a /\ k a = OK b.
Proof.
  destruct r as [a|e]; simpl; intro H; [exists a; split; auto | discriminate].
Qed.

(** Invert one [bind] in hypothesis [H]. *)
Ltac bind_inv H :=
  let x := fresh "x" in
  let Hx := fresh "Hx" in
  apply bind_OK in H; destruct H as [x [Hx H]].

Lemma mapM_length {A B : Type} (f : A -> outcome B) (l : list A) (r : list B) :
  mapM f l = OK r -> length r = length l.
Proof.
  revert r; induction l as [|a l IH]; simpl; intros r H.
  - inversion H; reflexivity.
  - bind_inv H. bind_inv H. inversion H; subst; simpl.
    f_equal; apply IH; assumption.
Qed.

(** ** The set of tracked characteristics *)

Module SetFacts.
Import SinglePlay PlayCharacteristicSet.

Lemma mem_update_same c b s : mem c (update c b s) = b.
Proof. destruct c; reflexivity. Qed.

Lemma mem_update_other c c' b s : c <> c' -> mem c (update c' b s) = mem c s.
Proof. destruct c, c'; simpl; intro H; try reflexivity; congruence. Qed.

Lemma mem_elements c s : In c (elements s) <-> mem c s = true.
Proof.
  unfold elements; rewrite filter_In; split.
  - intros [_ H]; exact H.
  - intro H; split; [destruct c; simpl; tauto | exact H].
Qed.

Lemma size_one_unique c c' s :
  size s = 1 -> mem c s = true -> mem c' s = true -> c = c'.
Proof.
  unfold size, elements, all_characteristics.
  destruct s as [[] [] [] [] []]; destruct c, c'; simpl; intros;
    try reflexivity; try discriminate.
Qed.

End SetFacts.

(** ** Index sets: access and dropping *)

Module IndexFacts.
Import SinglePlay PlayIndexSet.

Lemma getIndex_setIndex_same c v s : getIndex c (setIndex c v s) = v.
Proof. destruct c; reflexivity. Qed.

Lemma getIndex_setIndex_other c c' v s :
  c <> c' -> getIndex c (setIndex c' v s) = getIndex c s.
Proof. destruct c, c'; simpl; intro H; try reflexivity; congruence. Qed.

Lemma indexes_setIndex c v s : _indexes (setIndex c v s) = _indexes s.
Proof. destruct c; reflexivity. Qed.

Lemma getIndex_setAvailable c i s : getIndex c (setAvailable i s) = getIndex c s.
Proof. destruct c; reflexivity. Qed.

Lemma setIndex_getIndex c s : setIndex c (getIndex c s) s = s.
Proof. destruct s, c; reflexivity. Qed.

Lemma dropIndex_sole c s :
  PlayCharacteristicSet.size (_indexes s) = 1 -> dropIndex c s = s.
Proof. unfold dropIndex; intros ->; reflexivity. Qed.

Lemma dropIndex_drops c s :
  PlayCharacteristicSet.size (_indexes s) <> 1 ->
  getIndex c (dropIndex c s) = []
  /\ PlayCharacteristicSet.mem c (_indexes (dropIndex c s)) = false.
Proof.
  intro H; unfold dropIndex.
  destruct (Z.eqb_spec (PlayCharacteristicSet.size (_indexes s)) 1) as [E|_];
    [contradiction|].
  split.
  - rewrite getIndex_setAvailable; apply getIndex_setIndex_same.
  - simpl; unfold PlayCharacteristicSet.erase.
    destruct (setIndex c [] s); simpl. apply SetFacts.mem_update_same.
Qed.

Lemma dropIndex_frame c b s :
  b <> c ->
  getIndex b (dropIndex c s) = getIndex b s
  /\ PlayCharacteristicSet.mem b (_indexes (dropIndex c s))
     = PlayCharacteristicSet.mem b (_indexes s).
Proof.
  intro H; unfold dropIndex.
  destruct (PlayCharacteristicSet.size (_indexes s) =? 1); [split; reflexivity|].
  split.
  - rewrite getIndex_setAvailable; apply getIndex_setIndex_other; exact H.
  - replace (_indexes (setAvailable
               (PlayCharacteristicSet.erase c (_indexes (setIndex c [] s)))
               (setIndex c [] s)))
      with (PlayCharacteristicSet.erase c (_indexes (setIndex c [] s)))
      by (destruct (setIndex c [] s); reflexivity).
    rewrite indexes_setIndex.
    apply SetFacts.mem_update_other; exact H.
Qed.

Lemma dropIndex_mem_weaken c b s :
  PlayCharacteristicSet.mem b (_indexes (dropIndex c s)) = true ->
  PlayCharacteristicSet.mem b (_indexes s) = true.
Proof.
  unfold dropIndex.
  destruct (PlayCharacteristicSet.size (_indexes s) =? 1); [auto|].
  replace (_indexes (setAvailable
             (PlayCharacteristicSet.erase c (_indexes (setIndex c [] s)))
             (setIndex c [] s)))
    with (PlayCharacteristicSet.erase c (_indexes (setIndex c [] s)))
    by (destruct (setIndex c [] s); reflexivity).
  rewrite indexes_setIndex.
  destruct s as [[d1 d2 d3 d4 d5] ? ? ? ? ?]; destruct b, c; simpl; congruence.
Qed.

End IndexFacts.

(** ** Splitting an index set *)

Module SplitFacts.
Import SinglePlay PlayIndexSet IndexFacts IndexSet.

Lemma storeIndex_length f ps rs : length (storeIndex f ps rs) = length rs.
Proof.
  revert rs; induction ps as [|p ps IH]; intros [|r rs]; simpl; auto.
Qed.

(** A property of index sets that writing field [f] cannot break survives
    storing pieces into the siblings. *)
Lemma storeIndex_Forall (Q : PlayIndexSet.t -> Prop) (V : CategoryIndex -> Prop)
    f ps rs :
  (forall r v, Q r -> V v -> Q (setIndex f v r)) ->
  Forall Q rs -> Forall V ps -> Forall Q (storeIndex f ps rs).
Proof.
  intros HQ; revert rs; induction ps as [|p ps IH]; intros rs Hrs Hps.
  - destruct rs; exact Hrs.
  - destruct rs as [|r rs]; [constructor|].
    inversion Hrs; inversion Hps; subst; simpl.
    constructor; [apply HQ; assumption | apply IH; assumption].
Qed.

Lemma swapRemaining_length results cs index targets outs :
  swapRemaining results cs index targets = OK outs ->
  length outs = length targets.
Proof.
  revert index targets outs; induction cs as [|c cs IH]; simpl;
    intros index targets outs H.
  - destruct targets; [inversion H; reflexivity | discriminate].
  - destruct (c =? 0); [eapply IH; eassumption|].
    destruct targets as [|t targets]; [discriminate|].
    bind_inv H. inversion H; subst; simpl. f_equal; eapply IH; eassumption.
Qed.

Lemma splitIndex_length a X targets mine outs :
  splitIndex a X targets = OK (mine, outs) -> length outs = length targets.
Proof.
  unfold splitIndex. destruct (is_nil X).
  - intro H; inversion H; reflexivity.
  - intro H. bind_inv H. destruct x as [results counts].
    destruct (firstNonEmpty counts 0); [|discriminate].
    bind_inv H. inversion H; subst.
    eapply swapRemaining_length; eassumption.
Qed.

(** Splitting a cleared index does nothing. *)
Lemma splitIndex_cleared a targets :
  splitIndex a [] targets = OK ([], targets).
Proof. reflexivity. Qed.

Lemma splitField_cleared a f self sibs self' sibs' :
  splitField a f (self, sibs) = OK (self', sibs') ->
  cleared a self -> Forall (cleared a) sibs ->
  cleared a self' /\ Forall (cleared a) sibs'.
Proof.
  unfold splitField; intros H [Hm Hi] Hs.
  destruct (splitIndex a (getIndex f self) (map (getIndex f) sibs))
    as [[mine others]|e] eqn:E; simpl in H; [|discriminate].
  inversion H; subst; clear H.
  assert (Hdec : f = a \/ f <> a)
    by (destruct f, a; (left; reflexivity) || (right; discriminate)).
  destruct Hdec as [->|Hne].
  - rewrite Hi in E. rewrite splitIndex_cleared in E. inversion E; subst.
    split.
    + split; [rewrite indexes_setIndex; exact Hm | apply getIndex_setIndex_same].
    + apply storeIndex_Forall with (V := fun v => v = []).
      * intros r v [Hr1 Hr2] ->. split;
          [rewrite indexes_setIndex; exact Hr1 | apply getIndex_setIndex_same].
      * exact Hs.
      * rewrite Forall_map. eapply Forall_impl; [|exact Hs].
        intros x [_ Hx]; exact Hx.
  - split.
    + split; [rewrite indexes_setIndex; exact Hm|].
      rewrite getIndex_setIndex_other; auto.
    + apply storeIndex_Forall with (V := fun _ => True).
      * intros r v [Hr1 Hr2] _. split;
          [rewrite indexes_setIndex; exact Hr1|].
        rewrite getIndex_setIndex_other; auto.
      * exact Hs.
      * clear. induction others; constructor; auto.
Qed.

End SplitFacts.

Import SinglePlay.

(** C5, as stated, at a set whose only tracked characteristic is the one
    split on: the partition has one populated category, no siblings are
    returned, yet the characteristic is still tracked and its partition is
    still there. *)
Lemma splitBy_single_category_sole_kept :
  PlayIndexSet.countNonEmpty
    (PlayIndexSet.getIndex down_number Samples.firstDownOnly) <= 1
  /\ exists s',
       PlayIndexSet.splitIndexByCharacteristic down_number Samples.firstDownOnly
       = OK (s', [])
       /\ PlayCharacteristicSet.mem down_number
            (PlayIndexSet.getIndexesAvailable s') = true
       /\ PlayIndexSet.getIndex down_number s' <> [].
Proof.
  split; [vm_compute; discriminate|].
  eexists; split; [vm_compute; reflexivity|].
  split; [reflexivity | discriminate].
Qed.

(** C5 (amended): splitting by a characteristic whose partition has at most
    one populated category returns no siblings and has exactly the effect of
    [dropIndex]: nothing at all when a single characteristic is tracked,
    otherwise the characteristic is cleared and untracked and every other
    partition and tracking flag is as before. *)
Theorem splitBy_single_category_frame (s : PlayIndexSet.t) (a : PlayCharacteristic) :
  PlayIndexSet.countNonEmpty (PlayIndexSet.getIndex a s) <= 1 ->
  exists s',
    PlayIndexSet.splitIndexByCharacteristic a s = OK (s', [])
    /\ (PlayCharacteristicSet.size (PlayIndexSet.getIndexesAvailable s) = 1 ->
        s' = s)
    /\ (PlayCharacteristicSet.size (PlayIndexSet.getIndexesAvailable s) <> 1 ->
        PlayIndexSet.getIndex a s' = []
        /\ PlayCharacteristicSet.mem a (PlayIndexSet.getIndexesAvailable s') = false
        /\ forall b, b <> a ->
             PlayIndexSet.getIndex b s' = PlayIndexSet.getIndex b s
             /\ PlayCharacteristicSet.mem b (PlayIndexSet.getIndexesAvailable s')
                = PlayCharacteristicSet.mem b (PlayIndexSet.getIndexesAvailable s)).
Proof.
  intro Hk. exists (PlayIndexSet.dropIndex a s). split; [|split].
  - unfold PlayIndexSet.splitIndexByCharacteristic.
    apply Z.leb_le in Hk. rewrite Hk. reflexivity.
  - apply IndexFacts.dropIndex_sole.
  - intro Hn. destruct (IndexFacts.dropIndex_drops a s Hn) as [H1 H2].
    split; [exact H1 | split; [exact H2|]].
    intros b Hb. apply IndexFacts.dropIndex_frame; exact Hb.
Qed.

Lemma splitBy_single_category_frame_witness :
  PlayIndexSet.countNonEmpty
    (PlayIndexSet.getIndex time_remaining Samples.indexes) <= 1
  /\ exists s',
    PlayIndexSet.splitIndexByCharacteristic time_remaining Samples.indexes
    = OK (s', [])
    /\ (PlayCharacteristicSet.size (PlayIndexSet.getIndexesAvailable Samples.indexes) = 1 ->
        s' = Samples.indexes)
    /\ (PlayCharacteristicSet.size (PlayIndexSet.getIndexesAvailable Samples.indexes) <> 1 ->
        PlayIndexSet.getIndex time_remaining s' = []
        /\ PlayCharacteristicSet.mem time_remaining
             (PlayIndexSet.getIndexesAvailable s') = false
        /\ forall b, b <> time_remaining ->
             PlayIndexSet.getIndex b s' = PlayIndexSet.getIndex b Samples.indexes
             /\ PlayCharacteristicSet.mem b (PlayIndexSet.getIndexesAvailable s')
                = PlayCharacteristicSet.mem b
                    (PlayIndexSet.getIndexesAvailable Samples.indexes)).
Proof.
  split; [vm_compute; discriminate|].
  apply (splitBy_single_category_frame Samples.indexes time_remaining).
  vm_compute; discriminate.
Defined.

(** C6, as stated, at a set whose only tracked characteristic is the one
    split on: a sibling is returned, and the characteristic is still
    tracked, with a non-empty partition, in the set and in the sibling. *)
Lemma splitBy_sole_attribute_not_dropped :
  exists s' sibling,
    PlayIndexSet.splitIndexByCharacteristic down_number Samples.downOnly
    = OK (s', [sibling])
    /\ PlayCharacteristicSet.mem down_number
         (PlayIndexSet.getIndexesAvailable s') = true
    /\ PlayIndexSet.getIndex down_number s' <> []
    /\ PlayCharacteristicSet.mem down_number
         (PlayIndexSet.getIndexesAvailable sibling) = true
    /\ PlayIndexSet.getIndex down_number sibling <> [].
Proof.
  do 2 eexists. split; [vm_compute; reflexivity|].
  repeat split; try reflexivity; discriminate.
Qed.

(** C6 (amended): when the set does not track exactly one characteristic
    and the split returns siblings, the split characteristic is untracked
    and its partition is empty in the set and in every sibling. *)
Theorem splitBy_drops_split_attribute
    (s s' : PlayIndexSet.t) (a : PlayCharacteristic)
    (siblings : list PlayIndexSet.t) :
  PlayCharacteristicSet.size (PlayIndexSet.getIndexesAvailable s) <> 1 ->
  PlayIndexSet.splitIndexByCharacteristic a s = OK (s', siblings) ->
  siblings <> [] ->
  (PlayCharacteristicSet.mem a (PlayIndexSet.getIndexesAvailable s') = false
   /\ PlayIndexSet.getIndex a s' = [])
  /\ Forall
       (fun sibling =>
          PlayCharacteristicSet.mem a (PlayIndexSet.getIndexesAvailable sibling)
          = false
          /\ PlayIndexSet.getIndex a sibling = [])
       siblings.
Proof.
  intros Hn H Hs. unfold PlayIndexSet.splitIndexByCharacteristic in H.
  destruct (PlayIndexSet.countNonEmpty (PlayIndexSet.getIndex a s) <=? 1).
  { inversion H; subst; contradiction. }
  destruct (IndexFacts.dropIndex_drops a s Hn) as [H1 H2].
  set (s1 := PlayIndexSet.dropIndex a s) in *.
  set (sibs0 := repeat _ _) in H.
  assert (C0 : IndexSet.cleared a s1) by (split; assumption).
  assert (S0 : Forall (IndexSet.cleared a) sibs0).
  { apply Forall_forall. intros x Hx. apply repeat_spec in Hx. subst x.
    split; [exact H2 | destruct a; reflexivity]. }
  clearbody s1 sibs0.
  repeat
    (let st := fresh "st" in
     let E := fresh "E" in
     apply bind_OK in H; destruct H as [[? ?] [E H]];
     apply SplitFacts.splitField_cleared in E; [|assumption|assumption];
     destruct E as [? ?]).
  apply SplitFacts.splitField_cleared in H; assumption.
Qed.

Lemma splitBy_drops_split_attribute_witness :
  exists s' siblings,
    PlayIndexSet.splitIndexByCharacteristic down_number Samples.indexes
    = OK (s', siblings)
    /\ siblings <> []
    /\ (PlayCharacteristicSet.mem down_number
          (PlayIndexSet.getIndexesAvailable s') = false
        /\ PlayIndexSet.getIndex down_number s' = [])
    /\ Forall
         (fun sibling =>
            PlayCharacteristicSet.mem down_number
              (PlayIndexSet.getIndexesAvailable sibling) = false
            /\ PlayIndexSet.getIndex down_number sibling = [])
         siblings.
Proof.
  do 2 eexists. split; [vm_compute; reflexivity|].
  split; [discriminate|].
  eapply (splitBy_drops_split_attribute Samples.indexes _ down_number).
  - vm_compute; discriminate.
  - vm_compute; reflexivity.
  - discriminate.
Defined.

(** ** Counting through a split *)

Module SplitCount.
Import SinglePlay PlayIndexSet IndexFacts IndexSet Counting.

Lemma to_short_mod z : to_short z mod 65536 = z mod 65536.
Proof.
  unfold to_short.
  rewrite Zminus_mod, Zmod_mod, <- Zminus_mod.
  f_equal; lia.
Qed.

Lemma to_short_range z : -32768 <= to_short z < 32768.
Proof.
  unfold to_short. pose proof (Z.mod_pos_bound (z + 32768) 65536). lia.
Qed.

Lemma push_back_at_spec {A : Type} (i : nat) (x : A) v v' :
  push_back_at i x v = OK v' ->
  (i < length v)%nat /\ length v' = length v
  /\ forall j, nth j v' [] = if (j =? i)%nat then nth j v [] ++ [x] else nth j v [].
Proof.
  revert i v'; induction v as [|l v IH]; intros i v' H; simpl in H.
  - destruct i; discriminate.
  - destruct i as [|i].
    + inversion H; subst; simpl. repeat split; try lia.
      intros [|j]; reflexivity.
    + bind_inv H. inversion H; subst. destruct (IH _ _ Hx) as [H1 [H2 H3]].
      simpl. repeat split; try lia.
      intros [|j]; [reflexivity | apply H3].
Qed.

Lemma splitIndexHelper_loop_spec a l acc r :
  splitIndexHelper_loop a l acc = OK r ->
  length r = length acc
  /\ (forall j, nth j r [] = nth j acc [] ++ bucket a j l)
  /\ Forall (inRange a (length acc)) l.
Proof.
  revert acc r; induction l as [|p l IH]; intros acc r H; simpl in H.
  - inversion H; subst. repeat split; auto.
    intro j; simpl; rewrite app_nil_r; reflexivity.
  - destruct (Z.ltb_spec (getValue a p) 0) as [Hneg|Hpos]; [discriminate|].
    bind_inv H. destruct (push_back_at_spec _ _ _ _ Hx) as [H1 [H2 H3]].
    destruct (IH _ _ H) as [I1 [I2 I3]].
    rewrite H2 in I1, I3. repeat split; auto.
    + intro j. rewrite I2, H3. unfold bucket; simpl.
      destruct (Nat.eqb_spec j (Z.to_nat (getValue a p))) as [->|Hj].
      * rewrite Z2Nat.id by assumption. rewrite Z.eqb_refl.
        rewrite <- app_assoc; reflexivity.
      * destruct (Z.eqb_spec (getValue a p) (Z.of_nat j)) as [E|_];
          [|reflexivity].
        exfalso; apply Hj. rewrite E, Nat2Z.id; reflexivity.
    + constructor; [|assumption]. unfold inRange; lia.
Qed.

Lemma categoryCount_pos a : (0 < Z.to_nat (getCategoryCount a))%nat.
Proof. destruct a; vm_compute; lia. Qed.

Lemma splitIndexHelper_spec a l r :
  splitIndexHelper a l = OK r ->
  length r = Z.to_nat (getCategoryCount a)
  /\ (forall j, nth j r [] = bucket a j l)
  /\ Forall (inRange a (Z.to_nat (getCategoryCount a))) l.
Proof.
  unfold splitIndexHelper. pose proof (categoryCount_pos a) as Hn.
  destruct (Z.to_nat (getCategoryCount a)) as [|n] eqn:En; [lia|].
  change (is_nil (repeat [] (S n))) with false; cbv iota.
  intro H. apply splitIndexHelper_loop_spec in H.
  rewrite repeat_length in H. destruct H as [H1 [H2 H3]].
  repeat split; auto.
  intro j. rewrite H2.
  assert (E : nth j (repeat (@nil PlayIterator) (S n)) [] = [])
    by apply nth_repeat.
  rewrite E. reflexivity.
Qed.

Lemma addSizes_spec counts r :
  length r = length counts ->
  length (addSizes counts r) = length counts
  /\ forall j, (j < length counts)%nat ->
       nth j (addSizes counts r) 0 mod 65536
       = (nth j counts 0 + Z.of_nat (length (nth j r []))) mod 65536.
Proof.
  revert r; induction counts as [|c counts IH]; intros [|x r] H;
    simpl in *; try discriminate.
  - split; [reflexivity | intros; lia].
  - injection H as H. destruct (IH r H) as [I1 I2]. split; [lia|].
    intros [|j] Hj; [apply to_short_mod | apply I2; lia].
Qed.

Lemma addSizes_range counts r :
  Forall (fun c => -32768 <= c < 32768) counts ->
  Forall (fun c => -32768 <= c < 32768) (addSizes counts r).
Proof.
  revert r; induction counts as [|c counts IH]; intros r H.
  - destruct r; constructor.
  - destruct r as [|x r]; [exact H|]. simpl. inversion H; subst.
    constructor; [apply to_short_range | apply IH; assumption].
Qed.

Lemma splitAll_spec a X counts0 results counts :
  splitAll a X counts0 = OK (results, counts) ->
  length counts0 = Z.to_nat (getCategoryCount a) ->
  Forall (fun c => -32768 <= c < 32768) counts0 ->
  length counts = length counts0
  /\ Forall (fun c => -32768 <= c < 32768) counts
  /\ (forall j, piece results j = map (bucket a j) X)
  /\ (forall j, (j < length counts0)%nat ->
        nth j counts 0 mod 65536
        = (nth j counts0 0 + Z.of_nat (weight a X j)) mod 65536)
  /\ Forall (Forall (inRange a (Z.to_nat (getCategoryCount a)))) X.
Proof.
  revert counts0 results counts; induction X as [|l X IH];
    intros counts0 results counts H Hlen Hrange; simpl in H.
  - inversion H; subst. repeat split; auto.
    intros j Hj. unfold weight, recordCount; simpl. f_equal; lia.
  - bind_inv H. bind_inv H. destruct x0 as [rs cs]. inversion H; subst.
    destruct (splitIndexHelper_spec _ _ _ Hx) as [H1 [H2 H3]].
    destruct (addSizes_spec counts0 x (eq_trans H1 (eq_sym Hlen))) as [A1 A2].
    destruct (IH _ _ _ Hx0 (eq_trans A1 Hlen) (addSizes_range _ _ Hrange))
      as [I1 [I2 [I3 [I4 I5]]]].
    repeat split; auto; try lia.
    + intro j. unfold piece in *; simpl. rewrite H2, I3. reflexivity.
    + intros j Hj. rewrite I4 by lia.
      rewrite Zplus_mod, A2, <- Zplus_mod by lia. rewrite H2.
      unfold weight, recordCount; simpl. rewrite length_app.
      f_equal; lia.
Qed.

Lemma recordCount_app x y : recordCount (x ++ y) = (recordCount x + recordCount y)%nat.
Proof. unfold recordCount. rewrite concat_app, length_app. reflexivity. Qed.

Lemma swapRemaining_spec results cs index targets outs :
  swapRemaining results cs index targets = OK outs ->
  length targets = visibleCount cs
  /\ total outs
     = (total targets
        + visibleSum (fun j => recordCount (piece results j)) cs index)%nat.
Proof.
  revert index targets outs; induction cs as [|c cs IH];
    intros index targets outs H; simpl in H.
  - destruct targets; [|discriminate]. inversion H; subst. split; reflexivity.
  - simpl. destruct (c =? 0).
    + apply IH in H. destruct H; split; lia.
    + destruct targets as [|t targets]; [discriminate|].
      bind_inv H. inversion H; subst. apply IH in Hx. destruct Hx as [I1 I2].
      split; [simpl; lia|].
      unfold total in *; simpl. rewrite recordCount_app. lia.
Qed.

Lemma firstNonEmpty_spec w cs index f :
  firstNonEmpty cs index = Some f ->
  (index <= f)%nat
  /\ visibleSum w cs index
     = (w f + visibleSum w (skipn (S (f - index)) cs) (S f))%nat
  /\ visibleCount cs = S (visibleCount (skipn (S (f - index)) cs)).
Proof.
  revert index; induction cs as [|c cs IH]; intros index H; simpl in H.
  - discriminate.
  - destruct (c =? 0) eqn:E.
    + destruct (IH _ H) as [I1 [I2 I3]]. split; [lia|].
      replace (S (f - index)) with (S (S (f - S index))) by lia.
      simpl. rewrite E. simpl in *. split; [exact I2 | exact I3].
    + inversion H; subst. replace (f - f)%nat with O by lia.
      simpl. rewrite E. repeat split; lia.
Qed.

(** What [splitIndex] does with the plays of a populated index: the pieces
    whose wrapped count is non-zero are handed out, one per target plus
    one for the index itself. *)
Lemma splitIndex_spec a X targets mine outs :
  X <> [] ->
  splitIndex a X targets = OK (mine, outs) ->
  exists counts,
    length counts = Z.to_nat (getCategoryCount a)
    /\ (forall j, (j < length counts)%nat ->
          nth j counts 0 = 0 <-> Z.of_nat (weight a X j) mod 65536 = 0)
    /\ Forall (Forall (inRange a (Z.to_nat (getCategoryCount a)))) X
    /\ visibleCount counts = S (length targets)
    /\ (recordCount mine + total outs
        = total targets + visibleSum (weight a X) counts 0)%nat.
Proof.
  intros HX H. unfold splitIndex in H.
  destruct X as [|l X]; [contradiction|]. cbv [is_nil] in H.
  bind_inv H. destruct x as [results counts].
  destruct (firstNonEmpty counts 0) as [f|] eqn:Ef; [|discriminate].
  bind_inv H. inversion H; subst; clear H.
  apply splitAll_spec in Hx;
    [|apply repeat_length | apply Forall_forall; intros c Hc;
                            apply repeat_spec in Hc; lia].
  rewrite repeat_length in Hx. destruct Hx as [S1 [S2 [S3 [S4 S5]]]].
  exists counts. split; [exact S1|]. split; [|split; [exact S5|]].
  - intros j Hj. rewrite S1 in Hj. specialize (S4 j Hj).
    replace (nth j (repeat 0 (Z.to_nat (getCategoryCount a))) 0) with 0 in S4
      by (symmetry; apply nth_repeat).
    simpl in S4. rewrite <- S4.
    assert (R : -32768 <= nth j counts 0 < 32768).
    { rewrite Forall_forall in S2. apply S2. apply nth_In. lia. }
    split; [intros ->; reflexivity|].
    intro M. apply Z.mod_divide in M; [|lia]. destruct M as [q M].
    clear - R M. lia.
  - apply swapRemaining_spec in Hx0. destruct Hx0 as [W1 W2].
    destruct (firstNonEmpty_spec (weight a (l :: X)) _ _ _ Ef) as [F1 [F2 F3]].
    rewrite Nat.sub_0_r in F2, F3. split; [lia|].
    rewrite W2, F2. rewrite S3.
    assert (E : forall cs i,
              visibleSum (fun j => recordCount (piece results j)) cs i
              = visibleSum (weight a (l :: X)) cs i).
    { induction cs as [|c cs IHcs]; intro i; simpl; [reflexivity|].
      rewrite IHcs, S3. reflexivity. }
    rewrite E.
    change (weight a (l :: X) f) with (recordCount (map (bucket a f) (l :: X))).
    lia.
Qed.

End SplitCount.

(** ** The pieces of a split cover the whole index *)

Module SplitCover.
Import SinglePlay PlayIndexSet IndexFacts IndexSet Counting SplitCount.

Lemma sumOver_S w start len :
  sumOver w start (S len) = (w start + sumOver w (S start) len)%nat.
Proof. reflexivity. Qed.

Lemma sumOver_add w1 w2 start len :
  sumOver (fun j => (w1 j + w2 j)%nat) start len
  = (sumOver w1 start len + sumOver w2 start len)%nat.
Proof.
  revert start; induction len as [|len IH]; intro start; [reflexivity|].
  rewrite !sumOver_S, IH. lia.
Qed.

Lemma sumOver_zero start len : sumOver (fun _ => O) start len = O.
Proof.
  revert start; induction len as [|len IH]; intro start; [reflexivity|].
  rewrite sumOver_S, IH. reflexivity.
Qed.

(** A value in the range of the summation is counted exactly once. *)
Lemma sumOver_indicator v start len :
  sumOver (fun j => if v =? Z.of_nat j then 1%nat else O) start len
  = if (Z.of_nat start <=? v) && (v <? Z.of_nat (start + len)) then 1%nat else O.
Proof.
  revert start; induction len as [|len IH]; intro start.
  - unfold sumOver; simpl.
    destruct (Z.leb_spec (Z.of_nat start) v), (Z.ltb_spec v (Z.of_nat (start + 0)));
      simpl; try reflexivity; lia.
  - rewrite sumOver_S, IH.
    destruct (Z.eqb_spec v (Z.of_nat start)),
             (Z.leb_spec (Z.of_nat (S start)) v),
             (Z.ltb_spec v (Z.of_nat (S start + len))),
             (Z.leb_spec (Z.of_nat start) v),
             (Z.ltb_spec v (Z.of_nat (start + S len)));
      simpl; try reflexivity; lia.
Qed.

Lemma bucket_sum a n l :
  Forall (inRange a n) l ->
  sumOver (fun j => length (bucket a j l)) 0 n = length l.
Proof.
  induction l as [|p l IH]; intro H.
  - apply sumOver_zero.
  - inversion H as [|? ? Hp Hl]; subst.
    transitivity
      (sumOver (fun j => Nat.add (if getValue a p =? Z.of_nat j then 1%nat else O)
                                 (length (bucket a j l))) 0 n).
    + unfold sumOver. f_equal. apply map_ext. intro j.
      unfold bucket; simpl. destruct (getValue a p =? Z.of_nat j); reflexivity.
    + rewrite sumOver_add, sumOver_indicator, (IH Hl).
      unfold inRange in Hp.
      destruct (Z.leb_spec (Z.of_nat 0) (getValue a p)),
               (Z.ltb_spec (getValue a p) (Z.of_nat (0 + n)));
        simpl; lia.
Qed.

Lemma weight_cons a l X j :
  weight a (l :: X) j = (length (bucket a j l) + weight a X j)%nat.
Proof. unfold weight, recordCount; simpl. apply length_app. Qed.

Lemma weight_sum a n X :
  Forall (Forall (inRange a n)) X ->
  sumOver (weight a X) 0 n = recordCount X.
Proof.
  induction X as [|l X IH]; intro H.
  - apply sumOver_zero.
  - inversion H; subst.
    transitivity (sumOver (fun j => (length (bucket a j l) + weight a X j)%nat) 0 n).
    + unfold sumOver. f_equal. apply map_ext. intro j. apply weight_cons.
    + rewrite sumOver_add, bucket_sum, IH by assumption.
      unfold recordCount; simpl. rewrite length_app. reflexivity.
Qed.

(** When no populated category hides behind a zero count, the visible sum
    is the whole sum. *)
Lemma visibleSum_all w counts start :
  (forall k, (k < length counts)%nat -> nth k counts 0 = 0 -> w (start + k)%nat = O) ->
  visibleSum w counts start = sumOver w start (length counts).
Proof.
  revert start; induction counts as [|c counts IH]; intros start H;
    [reflexivity|].
  simpl visibleSum. simpl length. rewrite sumOver_S. rewrite IH.
  - destruct (Z.eqb_spec c 0) as [E|E]; [|reflexivity].
    specialize (H O). simpl in H. rewrite Nat.add_0_r in H.
    rewrite H; auto; lia.
  - intros k Hk Hz. specialize (H (S k)). simpl in H.
    replace (S start + k)%nat with (start + S k)%nat by lia.
    apply H; [lia | exact Hz].
Qed.

Lemma visibleCount_filter counts :
  visibleCount counts
  = length (filter (fun c => negb (c =? 0)) counts).
Proof.
  induction counts as [|c counts IH]; [reflexivity|].
  simpl. rewrite IH. destruct (c =? 0); reflexivity.
Qed.

(** Two tests, one implied by the other, that pass equally often pass on
    the same elements. *)
Lemma filter_same_length {A : Type} (p q : A -> bool) (l : list A) :
  (forall x, In x l -> p x = true -> q x = true) ->
  length (filter p l) = length (filter q l) ->
  forall x, In x l -> q x = true -> p x = true.
Proof.
  assert (Hle : forall l', (forall x, In x l' -> p x = true -> q x = true) ->
                           (length (filter p l') <= length (filter q l'))%nat).
  { induction l' as [|a l' IH]; intro H; [simpl; lia|].
    simpl. specialize (IH (fun x Hx => H x (or_intror Hx))).
    destruct (p a) eqn:Ep.
    - rewrite (H a (or_introl eq_refl) Ep). simpl; lia.
    - destruct (q a); simpl; lia. }
  induction l as [|a l IH]; intros H Hlen x Hx Hq; [contradiction|].
  pose proof (Hle l (fun y Hy => H y (or_intror Hy))) as Hl.
  simpl in Hlen.
  destruct (p a) eqn:Ep.
  - rewrite (H a (or_introl eq_refl) Ep) in Hlen. simpl in Hlen.
    destruct Hx as [->|Hx]; [exact Ep|].
    apply IH; auto. intros y Hy; apply H; right; exact Hy.
  - destruct (q a) eqn:Eq; simpl in Hlen.
    + lia.
    + destruct Hx as [->|Hx]; [congruence|].
      apply IH; auto. intros y Hy; apply H; right; exact Hy.
Qed.

Lemma filter_nth_seq {A : Type} (p : A -> bool) (d : A) (l : list A) :
  length (filter (fun j => p (nth j l d)) (seq 0 (length l)))
  = length (filter p l).
Proof.
  induction l as [|a l IH]; [reflexivity|].
  change (seq 0 (length (a :: l))) with (O :: seq 1 (length l)).
  rewrite <- seq_shift.
  assert (E : forall L,
             length (filter (fun j => p (nth j (a :: l) d)) (map S L))
             = length (filter (fun j => p (nth j l d)) L)).
  { induction L as [|x L IHL]; [reflexivity|].
    simpl. destruct (p (nth x l d)); simpl; rewrite <- IHL; reflexivity. }
  simpl filter. destruct (p a); simpl length; rewrite E, IH; reflexivity.
Qed.

(** Filtering a partition by the value of a slot gives that slot. *)
Lemma partition_weight a A start j :
  (forall i r, In r (nth i A []) -> getValue a r = Z.of_nat (start + i)) ->
  weight a A j
  = if (start <=? j)%nat && (j <? start + length A)%nat
    then length (nth (j - start) A []) else O.
Proof.
  revert start; induction A as [|l A IH]; intros start H.
  - simpl. rewrite Nat.add_0_r.
    destruct (Nat.leb_spec start j), (Nat.ltb_spec j start); simpl;
      try reflexivity; lia.
  - rewrite weight_cons. rewrite (IH (S start)).
    + assert (B : bucket a j l = if (j =? start)%nat then l else []).
      { specialize (H O). simpl in H. rewrite Nat.add_0_r in H.
        unfold bucket. destruct (Nat.eqb_spec j start) as [->|Hne].
        - apply forallb_filter_id. apply forallb_forall.
          intros r Hr. rewrite (H r Hr). apply Z.eqb_refl.
        - clear IH. induction l as [|r l IHl]; [reflexivity|].
          simpl. rewrite (H r (or_introl eq_refl)).
          destruct (Z.eqb_spec (Z.of_nat start) (Z.of_nat j)) as [E|_];
            [apply Nat2Z.inj in E; congruence|].
          apply IHl. intros r' Hr'. apply H. right; exact Hr'. }
      rewrite B. change (length (l :: A)) with (S (length A)).
      destruct (Nat.eqb_spec j start) as [Ej|Hne];
        destruct (Nat.leb_spec (S start) j), (Nat.ltb_spec j (S start + length A)),
                 (Nat.leb_spec start j), (Nat.ltb_spec j (start + S (length A)));
        cbn [andb]; try lia.
      all: try (subst j; rewrite Nat.sub_diag; simpl; lia).
      all: try (replace (j - start)%nat with (S (j - S start)) by lia; reflexivity).
      all: reflexivity.
    + intros i r Hr. replace (S start + i)%nat with (start + S i)%nat by lia.
      apply H. exact Hr.
Qed.

Lemma Permutation_filter_length {A : Type} (f : A -> bool) (l l' : list A) :
  Permutation l l' -> length (filter f l) = length (filter f l').
Proof.
  induction 1 as [|x l l' _ IH|x y l|l l' l'' _ IH1 _ IH2]; simpl.
  - reflexivity.
  - destruct (f x); simpl; rewrite IH; reflexivity.
  - destruct (f x), (f y); reflexivity.
  - congruence.
Qed.

Lemma weight_Permutation a X Y j :
  Permutation (concat X) (concat Y) -> weight a X j = weight a Y j.
Proof.
  intro H. unfold weight, recordCount, bucket.
  rewrite !concat_filter_map. apply Permutation_filter_length. exact H.
Qed.

End SplitCover.

(** ** The five blocks of [splitIndexByCharacteristic] *)

Module SplitChain.
Import SinglePlay PlayIndexSet IndexFacts IndexSet Counting SplitCount SplitCover.

Lemma storeIndex_map_same f ps rs :
  length ps = length rs -> map (getIndex f) (storeIndex f ps rs) = ps.
Proof.
  revert rs; induction ps as [|p ps IH]; intros [|r rs] H; simpl in *;
    try discriminate; [reflexivity|].
  rewrite getIndex_setIndex_same. f_equal. apply IH. lia.
Qed.

Lemma storeIndex_map_other b f ps rs :
  b <> f -> map (getIndex b) (storeIndex f ps rs) = map (getIndex b) rs.
Proof.
  intro Hne; revert rs; induction ps as [|p ps IH]; intros [|r rs]; simpl;
    try reflexivity.
  rewrite getIndex_setIndex_other by exact Hne. f_equal. apply IH.
Qed.

(** One block rewrites field [f] of the set and of the siblings by
    [splitIndex] and leaves everything else alone. *)
Lemma splitField_view a f self sibs self' sibs' :
  splitField a f (self, sibs) = OK (self', sibs') ->
  _indexes self' = _indexes self
  /\ (forall b, b <> f ->
        getIndex b self' = getIndex b self
        /\ map (getIndex b) sibs' = map (getIndex b) sibs)
  /\ splitIndex a (getIndex f self) (map (getIndex f) sibs)
     = OK (getIndex f self', map (getIndex f) sibs').
Proof.
  unfold splitField; intro H.
  destruct (splitIndex a (getIndex f self) (map (getIndex f) sibs))
    as [[mine others]|e] eqn:E; simpl in H; [|discriminate].
  inversion H; subst; clear H.
  split; [apply indexes_setIndex|]. split.
  - intros b Hb. split.
    + apply getIndex_setIndex_other; exact Hb.
    + apply storeIndex_map_other; exact Hb.
  - rewrite getIndex_setIndex_same. rewrite storeIndex_map_same; [reflexivity|].
    apply SplitFacts.splitIndex_length in E. rewrite E. apply length_map.
Qed.

Lemma split_chain a s1 sibs0 s' sibs :
  (st <- splitField a down_number (s1, sibs0) ;;
   st <- splitField a distance_needed st ;;
   st <- splitField a field_location st ;;
   st <- splitField a time_remaining st ;;
   splitField a score_differential st) = OK (s', sibs) ->
  _indexes s' = _indexes s1
  /\ forall b,
       splitIndex a (getIndex b s1) (map (getIndex b) sibs0)
       = OK (getIndex b s', map (getIndex b) sibs).
Proof.
  intro H.
  apply bind_OK in H; destruct H as [[t1 u1] [E1 H]].
  apply bind_OK in H; destruct H as [[t2 u2] [E2 H]].
  apply bind_OK in H; destruct H as [[t3 u3] [E3 H]].
  apply bind_OK in H; destruct H as [[t4 u4] [E4 E5]].
  apply splitField_view in E1, E2, E3, E4, E5.
  destruct E1 as [I1 [O1 S1]], E2 as [I2 [O2 S2]], E3 as [I3 [O3 S3]],
           E4 as [I4 [O4 S4]], E5 as [I5 [O5 S5]].
  split; [congruence|].
  intro b; destruct b.
  - destruct (O2 down_number) as [A2 B2]; [discriminate|].
    destruct (O3 down_number) as [A3 B3]; [discriminate|].
    destruct (O4 down_number) as [A4 B4]; [discriminate|].
    destruct (O5 down_number) as [A5 B5]; [discriminate|].
    rewrite A5, B5, A4, B4, A3, B3, A2, B2. exact S1.
  - destruct (O1 distance_needed) as [A1 B1]; [discriminate|].
    destruct (O3 distance_needed) as [A3 B3]; [discriminate|].
    destruct (O4 distance_needed) as [A4 B4]; [discriminate|].
    destruct (O5 distance_needed) as [A5 B5]; [discriminate|].
    rewrite A5, B5, A4, B4, A3, B3, <- A1, <- B1. exact S2.
  - destruct (O1 field_location) as [A1 B1]; [discriminate|].
    destruct (O2 field_location) as [A2 B2]; [discriminate|].
    destruct (O4 field_location) as [A4 B4]; [discriminate|].
    destruct (O5 field_location) as [A5 B5]; [discriminate|].
    rewrite A5, B5, A4, B4, <- A1, <- B1, <- A2, <- B2. exact S3.
  - destruct (O1 time_remaining) as [A1 B1]; [discriminate|].
    destruct (O2 time_remaining) as [A2 B2]; [discriminate|].
    destruct (O3 time_remaining) as [A3 B3]; [discriminate|].
    destruct (O5 time_remaining) as [A5 B5]; [discriminate|].
    rewrite A5, B5, <- A1, <- B1, <- A2, <- B2, <- A3, <- B3. exact S4.
  - destruct (O1 score_differential) as [A1 B1]; [discriminate|].
    destruct (O2 score_differential) as [A2 B2]; [discriminate|].
    destruct (O3 score_differential) as [A3 B3]; [discriminate|].
    destruct (O4 score_differential) as [A4 B4]; [discriminate|].
    rewrite <- A1, <- B1, <- A2, <- B2, <- A3, <- B3, <- A4, <- B4. exact S5.
Qed.

End SplitChain.

Module SampleFacts.
Import PlayIndexSet IndexSet.

Lemma base_Permutation c :
  Permutation (concat (getIndex c Samples.indexes))
              (DataStore._data Samples.indexed).
Proof.
  apply NoDup_Permutation.
  - destruct c; vm_compute; repeat constructor; simpl; intuition discriminate.
  - vm_compute; repeat constructor; simpl; intuition discriminate.
  - intro x. destruct c; vm_compute; tauto.
Qed.

Lemma indexes_invariant : invariant Samples.indexes.
Proof.
  split; [|split].
  - intros c H. destruct c; discriminate H.
  - intros c _. split; [destruct c; reflexivity|].
    intros j r Hr.
    destruct c;
      do 8 (destruct j as [|j];
            [vm_compute in Hr; intuition (subst; reflexivity)|]);
      destruct j; vm_compute in Hr; contradiction.
  - intros c c' _ _.
    eapply Permutation_trans; [apply base_Permutation|].
    apply Permutation_sym, base_Permutation.
Qed.

End SampleFacts.

(** C1: on an index set satisfying its invariant, whenever
    [splitIndexByCharacteristic] returns siblings, every partition still
    tracked afterwards holds, in the mutated set and the siblings together,
    exactly as many record references as it held before. *)
Theorem splitBy_conserves_record_count
    (s s' : PlayIndexSet.t) (a : PlayCharacteristic)
    (siblings : list PlayIndexSet.t) :
  IndexSet.invariant s ->
  PlayIndexSet.splitIndexByCharacteristic a s = OK (s', siblings) ->
  siblings <> [] ->
  forall b,
    PlayCharacteristicSet.mem b (PlayIndexSet.getIndexesAvailable s') = true ->
    (IndexSet.recordCount (PlayIndexSet.getIndex b s')
     + list_sum (map (fun x => IndexSet.recordCount (PlayIndexSet.getIndex b x))
                     siblings))%nat
    = IndexSet.recordCount (PlayIndexSet.getIndex b s).
Proof.
  intros [Inv1 [Inv2 Inv3]] H Hs b Hb.
  unfold PlayIndexSet.splitIndexByCharacteristic in H.
  set (A := PlayIndexSet.getIndex a s) in *.
  set (m := length (filter (fun i => negb (PlayIndexSet.is_nil i)) A)).
  assert (Hm : PlayIndexSet.countNonEmpty A = to_ushort (Z.of_nat m)) by reflexivity.
  destruct (Z.leb_spec (PlayIndexSet.countNonEmpty A) 1) as [Hle|Hgt].
  { inversion H; subst; contradiction. }
  (* the split characteristic is tracked *)
  assert (Ta : PlayCharacteristicSet.mem a (PlayIndexSet.getIndexesAvailable s) = true).
  { destruct (PlayCharacteristicSet.mem a (PlayIndexSet.getIndexesAvailable s)) eqn:E;
      [reflexivity|].
    exfalso. apply Inv1 in E. unfold A in Hgt. rewrite E in Hgt.
    vm_compute in Hgt. discriminate. }
  destruct (Inv2 a Ta) as [LenA PartA]. fold A in LenA, PartA.
  set (n := Z.to_nat (getCategoryCount a)) in *.
  assert (HlenA : length A = n) by (unfold n; lia).
  assert (Hn7 : (n <= 7)%nat) by (unfold n; destruct a; vm_compute; lia).
  assert (Hmn : (m <= n)%nat)
    by (unfold m; rewrite <- HlenA; apply filter_length_le).
  assert (Hcount : PlayIndexSet.countNonEmpty A = Z.of_nat m).
  { rewrite Hm. unfold to_ushort. apply Z.mod_small. lia. }
  rewrite Hcount in *.
  set (s1 := PlayIndexSet.dropIndex a s) in *.
  set (sibs0 := repeat _ _) in H.
  apply SplitChain.split_chain in H. destruct H as [Hidx Hview].
  specialize (Hview b).
  (* the partition of [b] is untouched by the drop *)
  unfold PlayIndexSet.getIndexesAvailable in Hb. rewrite Hidx in Hb.
  assert (Tb : PlayCharacteristicSet.mem b (PlayIndexSet.getIndexesAvailable s) = true)
    by (eapply IndexFacts.dropIndex_mem_weaken; exact Hb).
  assert (Hsame : PlayIndexSet.getIndex b s1 = PlayIndexSet.getIndex b s).
  { assert (Hdec : b = a \/ b <> a)
      by (destruct b, a; (left; reflexivity) || (right; discriminate)).
    destruct Hdec as [->|Hne].
    - destruct (Z.eq_dec (PlayCharacteristicSet.size (PlayIndexSet._indexes s)) 1)
        as [E|E].
      + unfold s1. rewrite IndexFacts.dropIndex_sole by exact E. reflexivity.
      + apply IndexFacts.dropIndex_drops with (c := a) in E.
        destruct E as [_ E]. fold s1 in E. congruence.
    - apply IndexFacts.dropIndex_frame; exact Hne. }
  rewrite Hsame in Hview.
  set (X := PlayIndexSet.getIndex b s) in *.
  assert (Htargets : map (PlayIndexSet.getIndex b) sibs0
                     = repeat [] (Z.to_nat (Z.of_nat m - 1))).
  { unfold sibs0. rewrite map_repeat. f_equal. destruct b; reflexivity. }
  rewrite Htargets in Hview.
  assert (HX : X <> []).
  { destruct (Inv2 b Tb) as [L _]. fold X in L. intro E. rewrite E in L.
    simpl in L. destruct b; vm_compute in L; discriminate. }
  destruct (SplitCount.splitIndex_spec _ _ _ _ _ HX Hview)
    as [counts [C1 [C2 [C3 [C4 C5]]]]].
  rewrite repeat_length in C4. fold n in C1, C3.
  assert (Htot0 : Counting.total (repeat [] (Z.to_nat (Z.of_nat m - 1))) = O).
  { unfold Counting.total. generalize (Z.to_nat (Z.of_nat m - 1)).
    intro k; induction k; simpl; auto. }
  rewrite Htot0 in C5.
  (* the weights of the pieces are the sizes of the slots of [A] *)
  assert (W : forall j, Counting.weight a X j
                        = if (j <? n)%nat then length (nth j A []) else O).
  { intro j. rewrite (SplitCover.weight_Permutation a X A j) by (apply Inv3; assumption).
    rewrite (SplitCover.partition_weight a A 0 j) by exact PartA.
    rewrite HlenA, Nat.sub_0_r. reflexivity. }
  (* every populated slot has a non-zero count *)
  assert (V : forall j, In j (seq 0 n) ->
                negb (PlayIndexSet.is_nil (nth j A [])) = true ->
                negb (nth j counts 0 =? 0) = true).
  { apply SplitCover.filter_same_length.
    - intros j Hj Hp. apply in_seq in Hj.
      destruct (nth j A []) as [|r rest] eqn:E; [|reflexivity].
      exfalso. assert (Hz : nth j counts 0 = 0).
      { apply C2; [lia|]. rewrite W, E.
        destruct (j <? n)%nat; reflexivity. }
      rewrite Hz in Hp. discriminate.
    - rewrite <- C1 at 1.
      rewrite (SplitCover.filter_nth_seq (fun c => negb (c =? 0)) 0 counts).
      rewrite <- SplitCover.visibleCount_filter, C4.
      rewrite <- HlenA.
      rewrite (SplitCover.filter_nth_seq
                 (fun i => negb (PlayIndexSet.is_nil i)) [] A).
      fold m. lia. }
  rewrite SplitCover.visibleSum_all in C5.
  - rewrite C1, (SplitCover.weight_sum a n X C3) in C5.
    unfold Counting.total in C5. rewrite map_map in C5. exact C5.
  - intros k Hk Hz. simpl. rewrite W.
    destruct (Nat.ltb_spec k n) as [Hkn|]; [|reflexivity].
    destruct (nth k A []) as [|r rest] eqn:E; [reflexivity|].
    exfalso. assert (Hv : negb (nth k counts 0 =? 0) = true).
    { apply V; [apply in_seq; lia | rewrite E; reflexivity]. }
    rewrite Hz in Hv. discriminate.
Qed.

Lemma splitBy_conserves_record_count_witness :
  exists s' siblings,
    PlayIndexSet.splitIndexByCharacteristic down_number Samples.indexes
    = OK (s', siblings)
    /\ siblings <> []
    /\ forall b,
         PlayCharacteristicSet.mem b (PlayIndexSet.getIndexesAvailable s') = true ->
         (IndexSet.recordCount (PlayIndexSet.getIndex b s')
          + list_sum (map (fun x => IndexSet.recordCount (PlayIndexSet.getIndex b x))
                          siblings))%nat
         = IndexSet.recordCount (PlayIndexSet.getIndex b Samples.indexes).
Proof.
  do 2 eexists. split; [vm_compute; reflexivity|].
  split; [discriminate|].
  eapply (splitBy_conserves_record_count Samples.indexes _ down_number).
  - exact SampleFacts.indexes_invariant.
  - vm_compute; reflexivity.
  - discriminate.
Defined.

(** ** Leaves *)

Module LeafFacts.
Import SinglePlay PlaySummaryFactory Vectors.

Lemma foldM_app {A B : Type} (f : A -> B -> outcome A) l1 l2 a :
  foldM f (l1 ++ l2) a = (a' <- foldM f l1 a ;; foldM f l2 a').
Proof.
  revert a; induction l1 as [|b l1 IH]; intro a; simpl; [reflexivity|].
  destruct (f a b); simpl; [apply IH | reflexivity].
Qed.

Lemma foldM_concat {A B : Type} (f : A -> B -> outcome A) (ll : list (list B)) a :
  foldM (fun acc l => foldM f l acc) ll a = foldM f (concat ll) a.
Proof.
  revert a; induction ll as [|l ll IH]; intro a; simpl; [reflexivity|].
  rewrite foldM_app. destruct (foldM f l a); simpl; [apply IH | reflexivity].
Qed.

Lemma fold_left_concat {A B : Type} (f : A -> B -> A) (ll : list (list B)) a :
  fold_left (fun acc l => fold_left f l acc) ll a = fold_left f (concat ll) a.
Proof.
  revert a; induction ll as [|l ll IH]; intro a; simpl; [reflexivity|].
  rewrite fold_left_app. apply IH.
Qed.

Lemma modify_at_OK {A : Type} (f : A -> A) i v :
  (i < length v)%nat -> modify_at f i v = OK (modify f i v).
Proof.
  revert i; induction v as [|a v IH]; intros i H; simpl in H; [lia|].
  destruct i as [|i]; simpl; [reflexivity|].
  rewrite IH by lia. reflexivity.
Qed.

Lemma modify_length {A : Type} (f : A -> A) i v :
  length (modify f i v) = length v.
Proof.
  revert i; induction v as [|a v IH]; intros [|i]; simpl; auto.
Qed.

Lemma modify_modify {A : Type} (f g : A -> A) i v :
  modify g i (modify f i v) = modify (fun a => g (f a)) i v.
Proof.
  revert i; induction v as [|a v IH]; intros [|i]; simpl; auto.
  rewrite IH; reflexivity.
Qed.

Lemma modify_id {A : Type} (f : A -> A) i v :
  (forall a, f a = a) -> modify f i v = v.
Proof.
  intro H; revert i; induction v as [|a v IH]; intros [|i]; simpl; auto.
  - rewrite H; reflexivity.
  - rewrite IH; reflexivity.
Qed.

Lemma modify_ext {A : Type} (f g : A -> A) i v :
  (forall a, f a = g a) -> modify f i v = modify g i v.
Proof.
  intro H; revert i; induction v as [|a v IH]; intros [|i]; simpl; auto.
  - rewrite H; reflexivity.
  - rewrite IH; reflexivity.
Qed.

Lemma slot_bound ty : (slot ty < 11)%nat.
Proof. destruct ty; vm_compute; lia. Qed.

Lemma countPlay_OK p distances turnoverCounts :
  (slot (getPlayType p) < length distances)%nat ->
  (slot (getPlayType p) < length turnoverCounts)%nat ->
  countPlay (distances, turnoverCounts) p
  = OK (modify (fun d => d ++ [getDistanceGained p]) (slot (getPlayType p))
               distances,
        modify (turnovers [p]) (slot (getPlayType p)) turnoverCounts).
Proof.
  intros Hd Ht. unfold countPlay. fold (slot (getPlayType p)).
  rewrite (modify_at_OK _ _ distances Hd). simpl bind.
  unfold turnovers; simpl fold_left.
  destruct (getTurnedOver p).
  - rewrite (modify_at_OK _ _ turnoverCounts Ht). reflexivity.
  - rewrite (modify_id (fun c => c)); auto.
Qed.

(** Counting plays of one type touches one slot of each vector. *)
Lemma countPlay_single_type ty plays distances turnoverCounts :
  Forall (fun p => getPlayType p = ty) plays ->
  (slot ty < length distances)%nat ->
  (slot ty < length turnoverCounts)%nat ->
  foldM countPlay plays (distances, turnoverCounts)
  = OK (modify (fun d => d ++ map getDistanceGained plays) (slot ty) distances,
        modify (turnovers plays) (slot ty) turnoverCounts).
Proof.
  revert distances turnoverCounts;
    induction plays as [|p plays IH]; intros ds ts H Hd Ht.
  - simpl. rewrite !modify_id; auto. intro a; apply app_nil_r.
  - inversion H as [|? ? Hp Hrest]; subst.
    change (foldM countPlay (p :: plays) (ds, ts))
      with (a' <- countPlay (ds, ts) p ;; foldM countPlay plays a').
    rewrite countPlay_OK by assumption. cbn [bind].
    rewrite IH; auto; try (rewrite modify_length; assumption).
    rewrite !modify_modify. f_equal. f_equal.
    apply modify_ext. intro a. simpl. rewrite <- app_assoc. reflexivity.
Qed.

Lemma indexesToCounts_single_type ty s :
  Forall (fun p => getPlayType p = ty) (IndexSet.records s) ->
  indexesToCounts s (repeat [] 11) (repeat 0 11)
  = OK (modify (fun d => d ++ map getDistanceGained (IndexSet.records s))
               (slot ty) (repeat [] 11),
        modify (turnovers (IndexSet.records s)) (slot ty) (repeat 0 11)).
Proof.
  unfold indexesToCounts, IndexSet.records.
  destruct (PlayCharacteristicSet.elements (PlayIndexSet.getIndexesAvailable s))
    as [|c rest]; intro H.
  - simpl. rewrite !modify_id; auto. intro a; apply app_nil_r.
  - rewrite foldM_concat. apply countPlay_single_type; auto;
      rewrite repeat_length; apply slot_bound.
Qed.

Lemma sort_insert_length x l : length (sort_insert x l) = S (length l).
Proof.
  induction l as [|y l IH]; simpl; [reflexivity|].
  destruct (x <=? y); simpl; auto.
Qed.

Lemma sort_length l : length (sort l) = length l.
Proof.
  induction l as [|x l IH]; simpl; [reflexivity|].
  rewrite sort_insert_length, IH. reflexivity.
Qed.

Lemma to_short_small z : -32768 <= z < 32768 -> to_short z = z.
Proof. intro H. unfold to_short. rewrite Z.mod_small; lia. Qed.

(** Counting the play types of plays that all have one type leaves one
    entry. *)
Lemma indexToPlayCounts_single_type ty plays c :
  Forall (fun p => getPlayType p = ty) plays ->
  exists c', DecisionNode.indexToPlayCounts plays [(ty, c)] = [(ty, c')].
Proof.
  revert c; induction plays as [|p plays IH]; intros c H.
  - exists c; reflexivity.
  - inversion H; subst. unfold DecisionNode.indexToPlayCounts. simpl.
    unfold PlayType_eqb. rewrite Z.eqb_refl. apply IH; assumption.
Qed.

Lemma indexesToPlayCounts_single_type ty s :
  Forall (fun p => getPlayType p = ty) (IndexSet.records s) ->
  IndexSet.records s <> [] ->
  exists c, DecisionNode.indexesToPlayCounts s = [(ty, c)].
Proof.
  unfold DecisionNode.indexesToPlayCounts, IndexSet.records.
  destruct (PlayCharacteristicSet.elements (PlayIndexSet.getIndexesAvailable s))
    as [|c0 rest]; intros H Hne; [contradiction|].
  change (fun d tempPtr => DecisionNode.indexToPlayCounts tempPtr d)
    with (fun d tempPtr =>
            fold_left (fun d indexPtr =>
                         DecisionNode.countType (getPlayType indexPtr) d)
                      tempPtr d).
  rewrite fold_left_concat.
  destruct (concat (PlayIndexSet.getIndex c0 s)) as [|p plays];
    [contradiction|].
  inversion H; subst. simpl.
  apply indexToPlayCounts_single_type; assumption.
Qed.

End LeafFacts.

Module LeafBuild.
Import SinglePlay PlaySummaryFactory Vectors LeafFacts.

Lemma modify_repeat {A : Type} (f : A -> A) (a : A) i n :
  modify f i (repeat a n) = modify (fun _ => f a) i (repeat a n).
Proof.
  revert i; induction n as [|n IH]; intros [|i]; simpl; auto.
  rewrite IH; reflexivity.
Qed.

(** Replace the slot of a concrete play type by its number. *)
Ltac concrete_slot :=
  match goal with
  | |- context [slot ?t] =>
      let v := eval vm_compute in (slot t) in change (slot t) with v
  end.

Lemma totalPlayCount_single (d : list Z) ty :
  Z.of_nat (length d) <= 32767 ->
  fold_left (fun acc d => to_short (acc + Z.of_nat (length d)))
            (modify (fun _ => d) (slot ty) (repeat [] 11)) 0
  = Z.of_nat (length d).
Proof.
  intro H.
  assert (E0 : to_short 0 = 0) by reflexivity.
  assert (Ed : to_short (Z.of_nat (length d)) = Z.of_nat (length d))
    by (apply to_short_small; lia).
  destruct ty; concrete_slot;
    cbn [modify repeat fold_left];
    change (Z.of_nat (length (@nil Z))) with 0;
    rewrite ?Z.add_0_r, ?Z.add_0_l, ?E0, ?Ed, ?Z.add_0_r, ?Ed; reflexivity.
Qed.

Lemma buildDetailedData_loop_single ty (d : list Z) c total
    (overallData : list OverallPlaySummary.t) overall :
  d <> [] ->
  nth_error overallData (Z.to_nat (PlayType_val ty)) = Some overall ->
  buildDetailedData_loop all_play_types
    (modify (fun _ => d) (slot ty) (repeat [] 11))
    (modify (fun _ => c) (slot ty) (repeat 0 11)) total overallData
  = (summary <- DetailedPlaySummary.DetailedPlaySummary d c total overall ;;
     OK [(ty, summary)]).
Proof.
  intros Hd Ho. destruct d as [|x d]; [contradiction|].
  assert (At : at_ overallData (PlayType_val ty) = OK overall).
  { unfold at_. replace (PlayType_val ty <? 0) with false
      by (destruct ty; reflexivity).
    rewrite Ho. reflexivity. }
  destruct ty; concrete_slot;
    cbn [modify repeat buildDetailedData_loop all_play_types
         PlayIndexSet.is_nil];
    rewrite At; cbn [bind];
    destruct (DetailedPlaySummary.DetailedPlaySummary (x :: d) c total overall);
    reflexivity.
Qed.

End LeafBuild.

(** Beyond what a [short] counts. *)
Module LeafWrap.
Import SinglePlay PlaySummaryFactory Vectors LeafFacts LeafBuild.

Lemma to_short_idem z : to_short (to_short z) = to_short z.
Proof. apply to_short_small. apply SplitCount.to_short_range. Qed.

Lemma totalPlayCount_single_wraps (d : list Z) ty :
  fold_left (fun acc d => to_short (acc + Z.of_nat (length d)))
            (modify (fun _ => d) (slot ty) (repeat [] 11)) 0
  = to_short (Z.of_nat (length d)).
Proof.
  assert (E0 : to_short 0 = 0) by reflexivity.
  destruct ty; concrete_slot;
    cbn [modify repeat fold_left];
    change (Z.of_nat (length (@nil Z))) with 0;
    rewrite ?Z.add_0_r, ?Z.add_0_l, ?E0, ?to_short_idem; reflexivity.
Qed.

(** The leaf of a single play type, whatever the number of plays: the play
    count is that number as a [short] holds it. *)
Lemma single_type_leaf (log2 : float -> float) (fuel : nat) (s : PlayIndexSet.t)
    (summaryData : list OverallPlaySummary.t) (ty : PlayType)
    (overall : OverallPlaySummary.t) :
  Forall (fun p => getPlayType p = ty) (IndexSet.records s) ->
  IndexSet.records s <> [] ->
  to_short (Z.of_nat (length (IndexSet.records s))) <> 0 ->
  nth_error summaryData (Z.to_nat (PlayType_val ty)) = Some overall ->
  OverallPlaySummary.getTotalCount overall <> 0 ->
  exists summary,
    DecisionNode.DecisionNode log2 (S fuel) s summaryData
    = OK (DecisionNode.mk [] None [] [(ty, summary)])
    /\ DetailedPlaySummary.getPlayCount summary
       = to_short (Z.of_nat (length (IndexSet.records s))).
Proof.
  intros Hty Hne Hlen Hov Hcount.
  destruct (indexesToPlayCounts_single_type ty s Hty Hne) as [c Hc].
  cbn [DecisionNode.DecisionNode]. rewrite Hc.
  cbn [PlayIndexSet.is_nil length Nat.ltb Nat.leb bind].
  replace (PrimFloat.leb DecisionNode.MinInformationGain 0) with false
    by reflexivity.
  unfold PlaySummaryFactory.buildDetailedData.
  change (Z.to_nat getPlayTypeCount) with 11%nat.
  rewrite (indexesToCounts_single_type ty s Hty). cbn [bind].
  rewrite (modify_repeat
             (fun d => d ++ map getDistanceGained (IndexSet.records s))).
  rewrite (modify_repeat (Vectors.turnovers (IndexSet.records s))).
  cbn [app].
  set (d := map getDistanceGained (IndexSet.records s)).
  assert (Ld : length d = length (IndexSet.records s)) by apply length_map.
  rewrite totalPlayCount_single_wraps.
  rewrite (buildDetailedData_loop_single ty d _ _ _ overall); auto.
  2:{ intro E. apply Hne. destruct (IndexSet.records s); [reflexivity|].
      discriminate E. }
  unfold DetailedPlaySummary.DetailedPlaySummary, divide.
  rewrite Ld.
  destruct (Z.eqb_spec (to_short (Z.of_nat (length (IndexSet.records s)))) 0)
    as [E|_]; [contradiction|].
  destruct (Z.eqb_spec (OverallPlaySummary.getTotalCount overall) 0)
    as [E|_]; [contradiction|].
  cbn [bind]. eexists. split; [reflexivity|].
  unfold DetailedPlaySummary.getPlayCount. cbn [DetailedPlaySummary._playDistances].
  rewrite sort_length, Ld. reflexivity.
Qed.

Lemma manyPuntPlays_length :
  Z.of_nat (length Samples.manyPuntPlays) = 32768.
Proof.
  unfold Samples.manyPuntPlays. rewrite length_map, length_seq.
  apply Z2Nat.id. discriminate.
Qed.

Lemma downOnly_records (plays : list SinglePlay.t) :
  IndexSet.records
    (PlayIndexSet.mk
       (PlayCharacteristicSet.insert down_number PlayCharacteristicSet.empty)
       [[]; []; []; []; plays] [] [] [] [])
  = plays.
Proof.
  unfold IndexSet.records.
  cbn [PlayIndexSet.getIndexesAvailable PlayIndexSet._indexes].
  change (PlayCharacteristicSet.elements
            (PlayCharacteristicSet.insert down_number
               PlayCharacteristicSet.empty))
    with [down_number].
  cbn [PlayIndexSet.getIndex PlayIndexSet._downIndex concat app].
  apply app_nil_r.
Qed.

Lemma manyPunts_records :
  IndexSet.records Samples.manyPunts = Samples.manyPuntPlays.
Proof. exact (downOnly_records Samples.manyPuntPlays). Qed.

End LeafWrap.

(** C4, as stated, at an index set of 32768 punts with the baseline of
    these punts: the constructor builds a leaf with the single entry, but
    its play count, a [short], is -32768 and not the number of plays.  And
    at the two punts of [Samples.punts]: with a baseline that has no entry
    for punts the constructor throws [out_of_range], and with one whose
    entry for punts is over no play it divides by zero, instead of
    building a leaf. *)
Lemma single_play_type_leaf_miscounts :
  (Forall (fun p => getPlayType p = punt) (IndexSet.records Samples.manyPunts)
   /\ Z.of_nat (length (IndexSet.records Samples.manyPunts)) = 32768
   /\ exists summary,
        DecisionNode.DecisionNode Samples.log2 1 Samples.manyPunts
          Samples.manyPuntsBaseline
        = OK (DecisionNode.mk [] None [] [(punt, summary)])
        /\ DetailedPlaySummary.getPlayCount summary = -32768)
  /\ (Forall (fun p => getPlayType p = punt) (IndexSet.records Samples.punts)
      /\ IndexSet.records Samples.punts <> []
      /\ DecisionNode.DecisionNode Samples.log2 1 Samples.punts []
         = Throw out_of_range
      /\ DecisionNode.DecisionNode Samples.log2 1 Samples.punts
           (repeat (OverallPlaySummary.OverallPlaySummary [] 0) 11)
         = Throw division_by_zero).
Proof.
  assert (Hty : Forall (fun p => getPlayType p = punt)
                       (IndexSet.records Samples.manyPunts)).
  { rewrite LeafWrap.manyPunts_records. unfold Samples.manyPuntPlays.
    apply Forall_map. apply Forall_forall. intros k _. reflexivity. }
  assert (Hlen : Z.of_nat (length (IndexSet.records Samples.manyPunts)) = 32768).
  { rewrite LeafWrap.manyPunts_records. exact LeafWrap.manyPuntPlays_length. }
  split.
  - split; [exact Hty|]. split; [exact Hlen|].
    destruct (LeafWrap.single_type_leaf Samples.log2 0 Samples.manyPunts
                Samples.manyPuntsBaseline punt
                (OverallPlaySummary.OverallPlaySummary
                   (map getDistanceGained Samples.manyPuntPlays) 0))
      as [summary [E Hc]].
    + exact Hty.
    + intro E. rewrite E in Hlen. discriminate Hlen.
    + rewrite Hlen. discriminate.
    + reflexivity.
    + unfold OverallPlaySummary.OverallPlaySummary. cbv zeta.
      rewrite length_map, LeafWrap.manyPuntPlays_length.
      discriminate.
    + exists summary. split; [exact E|]. rewrite Hc, Hlen. reflexivity.
  - split; [vm_compute; repeat constructor|].
    split; [vm_compute; discriminate|].
    split; vm_compute; reflexivity.
Qed.

(** C4 (amended): an index set whose plays (at least one, at most what a
    [short] counts) all have one play type builds a leaf whose summary map
    has that type as its single entry, with the number of plays as play
    count, when the baseline has an entry for the type, over at least one
    play. *)
Theorem single_play_type_builds_leaf
    (log2 : float -> float) (fuel : nat) (s : PlayIndexSet.t)
    (summaryData : list OverallPlaySummary.t) (ty : PlayType)
    (overall : OverallPlaySummary.t) :
  Forall (fun p => getPlayType p = ty) (IndexSet.records s) ->
  IndexSet.records s <> [] ->
  Z.of_nat (length (IndexSet.records s)) <= 32767 ->
  nth_error summaryData (Z.to_nat (PlayType_val ty)) = Some overall ->
  OverallPlaySummary.getTotalCount overall <> 0 ->
  exists summary,
    DecisionNode.DecisionNode log2 (S fuel) s summaryData
    = OK (DecisionNode.mk [] None [] [(ty, summary)])
    /\ DetailedPlaySummary.getPlayCount summary
       = Z.of_nat (length (IndexSet.records s)).
Proof.
  intros Hty Hne Hlen Hov Hcount.
  destruct (LeafFacts.indexesToPlayCounts_single_type ty s Hty Hne) as [c Hc].
  cbn [DecisionNode.DecisionNode]. rewrite Hc.
  cbn [PlayIndexSet.is_nil length Nat.ltb Nat.leb bind].
  replace (PrimFloat.leb DecisionNode.MinInformationGain 0) with false
    by reflexivity.
  unfold PlaySummaryFactory.buildDetailedData.
  change (Z.to_nat getPlayTypeCount) with 11%nat.
  rewrite (LeafFacts.indexesToCounts_single_type ty s Hty). cbn [bind].
  rewrite (LeafBuild.modify_repeat
             (fun d => d ++ map getDistanceGained (IndexSet.records s))).
  rewrite (LeafBuild.modify_repeat (Vectors.turnovers (IndexSet.records s))).
  cbn [app].
  set (d := map getDistanceGained (IndexSet.records s)).
  assert (Ld : length d = length (IndexSet.records s)) by apply length_map.
  rewrite LeafBuild.totalPlayCount_single by lia.
  rewrite (LeafBuild.buildDetailedData_loop_single ty d _ _ _ overall); auto.
  2:{ intro E. apply Hne. destruct (IndexSet.records s); [reflexivity|].
      discriminate E. }
  assert (Hpos : (0 < length (IndexSet.records s))%nat)
    by (destruct (IndexSet.records s); [contradiction | simpl; lia]).
  unfold DetailedPlaySummary.DetailedPlaySummary, divide.
  destruct (Z.eqb_spec (Z.of_nat (length d)) 0) as [E|_]; [lia|].
  destruct (Z.eqb_spec (OverallPlaySummary.getTotalCount overall) 0)
    as [E|_]; [contradiction|].
  cbn [bind]. eexists. split; [reflexivity|].
  unfold DetailedPlaySummary.getPlayCount. cbn [DetailedPlaySummary._playDistances].
  rewrite LeafFacts.sort_length, Ld.
  apply LeafFacts.to_short_small. lia.
Qed.

Lemma single_play_type_builds_leaf_witness :
  exists summary,
    DecisionNode.DecisionNode Samples.log2 1 Samples.punts
      (DataStore.getPlaySummaryStats Samples.indexed)
    = OK (DecisionNode.mk [] None [] [(punt, summary)])
    /\ DetailedPlaySummary.getPlayCount summary
       = Z.of_nat (length (IndexSet.records Samples.punts)).
Proof.
  eapply (single_play_type_builds_leaf Samples.log2 0 Samples.punts
            (DataStore.getPlaySummaryStats Samples.indexed) punt).
  - vm_compute. repeat constructor.
  - vm_compute. discriminate.
  - vm_compute. discriminate.
  - vm_compute. reflexivity.
  - vm_compute. discriminate.
Defined.

(** ** Choosing the split characteristic *)

Module CandidateFacts.
Import SinglePlay PlaySummaryFactory Vectors LeafFacts DecisionNode Candidate.

Lemma countTypes_OK plays back :
  length back = 11%nat ->
  exists r,
    foldM (fun back playIndex =>
             modify_at (fun c => to_short (c + 1))
               (Z.to_nat (PlayType_val (getPlayType playIndex))) back)
          plays back = OK r
    /\ length r = 11%nat.
Proof.
  revert back; induction plays as [|p plays IH]; intros back H.
  - exists back; split; [reflexivity | exact H].
  - simpl. rewrite modify_at_OK
      by (rewrite H; apply (slot_bound (getPlayType p))).
    simpl. apply IH. rewrite modify_length. exact H.
Qed.

Lemma tally_OK splitIndex acc :
  exists r, foldM (tallyCategory) splitIndex acc = OK r.
Proof.
  revert acc; induction splitIndex as [|cat rest IH]; intro acc.
  - exists acc; reflexivity.
  - simpl. unfold tallyCategory at 1. destruct acc as [[a b] c].
    destruct (PlayIndexSet.is_nil cat).
    + simpl. apply IH.
    + destruct (countTypes_OK cat (repeat 0 (Z.to_nat getPlayTypeCount)))
        as [r [Hr _]]; [reflexivity|].
      rewrite Hr. simpl. apply IH.
Qed.

Lemma candidateRatio_OK log2 playTypeCounts splitIndex :
  exists infoRatio, candidateRatio log2 playTypeCounts splitIndex = OK infoRatio.
Proof.
  unfold candidateRatio.
  destruct (tally_OK splitIndex ([], [], 0)) as [[[a b] c] H].
  rewrite H. simpl. destruct (length b <=? 1)%nat; eexists; reflexivity.
Qed.

(** One pass of the loop body. *)
Lemma testCandidate_step log2 playTypeCounts indexes decisionValue maxInfoRatio c :
  exists infoRatio,
    testCandidate log2 playTypeCounts (indexes, decisionValue, maxInfoRatio) c
    = OK (if clears log2 playTypeCounts indexes c
          then (indexes, Some c, infoRatio)
          else (PlayIndexSet.dropIndex c indexes, decisionValue, maxInfoRatio)).
Proof.
  unfold testCandidate, clears.
  destruct (candidateRatio_OK log2 playTypeCounts
              (PlayIndexSet.getIndex c indexes)) as [r Hr].
  rewrite Hr. simpl. exists r.
  destruct (PrimFloat.ltb r MinInformationGain); reflexivity.
Qed.

Lemma last_cons {A : Type} (a d : A) l : last (a :: l) d = last l a.
Proof.
  revert a d; induction l as [|b l IH]; intros a d; [reflexivity|].
  change (last (a :: b :: l) d) with (last (b :: l) d).
  rewrite !IH. reflexivity.
Qed.

Lemma last_map_Some {A : Type} (l : list A) (c : A) :
  l <> [] -> last (map Some l) None = Some (last l c).
Proof.
  destruct l as [|a l]; [contradiction|]. intros _.
  simpl map. rewrite !last_cons. clear c.
  revert a; induction l as [|b l IH]; intro a; [reflexivity|].
  simpl map. rewrite !last_cons. apply IH.
Qed.

(** The loop over the snapshot of the tracked characteristics: what is
    recorded at the end is the last candidate that cleared the threshold,
    or what was recorded before if none did. *)
Lemma testCandidate_fold log2 playTypeCounts l :
  NoDup l ->
  forall indexes decisionValue maxInfoRatio,
  exists indexes' maxInfoRatio',
    foldM (testCandidate log2 playTypeCounts) l
          (indexes, decisionValue, maxInfoRatio)
    = OK (indexes',
          last (map Some (filter (clears log2 playTypeCounts indexes) l))
               decisionValue,
          maxInfoRatio').
Proof.
  induction 1 as [|c l Hc Hl IH]; intros indexes dv m.
  - exists indexes, m; reflexivity.
  - change (foldM (testCandidate log2 playTypeCounts) (c :: l) (indexes, dv, m))
      with (a' <- testCandidate log2 playTypeCounts (indexes, dv, m) c ;;
            foldM (testCandidate log2 playTypeCounts) l a').
    destruct (testCandidate_step log2 playTypeCounts indexes dv m c) as [r Hr].
    rewrite Hr. cbn [bind].
    assert (Hext : forall i1,
               (forall c', c' <> c ->
                  PlayIndexSet.getIndex c' i1 = PlayIndexSet.getIndex c' indexes) ->
               filter (clears log2 playTypeCounts i1) l
               = filter (clears log2 playTypeCounts indexes) l).
    { intros i1 Hi. apply filter_ext_in. intros c' Hc'.
      unfold clears. rewrite Hi; [reflexivity|].
      intro E; subst; contradiction. }
    simpl filter. destruct (clears log2 playTypeCounts indexes c).
    + destruct (IH indexes (Some c) r) as [i' [m' E]].
      exists i', m'. rewrite E. simpl map. rewrite last_cons. reflexivity.
    + destruct (IH (PlayIndexSet.dropIndex c indexes) dv m) as [i' [m' E]].
      exists i', m'. rewrite E. rewrite Hext; [reflexivity|].
      intros c' Hne. apply IndexFacts.dropIndex_frame. exact Hne.
Qed.

Lemma elements_NoDup s : NoDup (PlayCharacteristicSet.elements s).
Proof.
  unfold PlayCharacteristicSet.elements. apply NoDup_filter.
  unfold all_characteristics.
  repeat constructor; simpl; intuition discriminate.
Qed.

Lemma testCandidates_last log2 playTypeCounts indexes c :
  In c (PlayCharacteristicSet.elements (PlayIndexSet.getIndexesAvailable indexes)) ->
  clears log2 playTypeCounts indexes c = true ->
  exists indexes' maxInfoRatio,
    testCandidates log2 playTypeCounts indexes
    = OK (indexes',
          Some (last (filter (clears log2 playTypeCounts indexes)
                        (PlayCharacteristicSet.elements
                           (PlayIndexSet.getIndexesAvailable indexes))) c),
          maxInfoRatio).
Proof.
  intros Hin Hc. unfold testCandidates.
  destruct (testCandidate_fold log2 playTypeCounts _
              (elements_NoDup (PlayIndexSet.getIndexesAvailable indexes))
              indexes None 0%float) as [i' [m' E]].
  exists i', m'. rewrite E. f_equal. f_equal. f_equal.
  apply last_map_Some. intro F.
  assert (In c (filter (clears log2 playTypeCounts indexes)
                  (PlayCharacteristicSet.elements
                     (PlayIndexSet.getIndexesAvailable indexes))))
    by (apply filter_In; split; assumption).
  rewrite F in H. contradiction.
Qed.

End CandidateFacts.

(** C3: when some tracked characteristic clears the threshold, the
    candidate loop of the constructor ends with, as [_decisionValue], the
    last characteristic in iteration order that cleared it (a ratio that is
    not below [MinInformationGain]); and a node constructed over more than
    one play type, where the loop runs, records that characteristic. *)
Theorem split_attribute_is_last_clearing
    (log2 : float -> float) (s : PlayIndexSet.t) (c : PlayCharacteristic) :
  In c (PlayCharacteristicSet.elements (PlayIndexSet.getIndexesAvailable s)) ->
  Candidate.clears log2 (DecisionNode.indexesToPlayCounts s) s c = true ->
  let kept :=
    last (filter (Candidate.clears log2 (DecisionNode.indexesToPlayCounts s) s)
            (PlayCharacteristicSet.elements (PlayIndexSet.getIndexesAvailable s)))
         c in
  (exists indexes' maxInfoRatio,
      DecisionNode.testCandidates log2 (DecisionNode.indexesToPlayCounts s) s
      = OK (indexes', Some kept, maxInfoRatio))
  /\ (forall fuel summaryData node,
        (1 < length (DecisionNode.indexesToPlayCounts s))%nat ->
        DecisionNode.DecisionNode log2 fuel s summaryData = OK node ->
        DecisionNode._decisionValue node = Some kept).
Proof.
  intros Hin Hc kept.
  destruct (CandidateFacts.testCandidates_last log2
              (DecisionNode.indexesToPlayCounts s) s c Hin Hc) as [i' [m' E]].
  fold kept in E. split; [exists i', m'; exact E|].
  intros fuel summaryData node Hmany H.
  destruct fuel as [|fuel]; [discriminate|].
  cbn [DecisionNode.DecisionNode] in H.
  destruct (DecisionNode.indexesToPlayCounts s) as [|e1 counts] eqn:Ecounts;
    [simpl in Hmany; lia|].
  cbn [PlayIndexSet.is_nil] in H.
  apply Nat.ltb_lt in Hmany. rewrite Hmany in H.
  rewrite E in H. cbn [bind] in H.
  destruct (PrimFloat.leb DecisionNode.MinInformationGain m').
  - bind_inv H. destruct x as [i2 sibs].
    destruct (PlayIndexSet.is_nil sibs); [discriminate|].
    bind_inv H. bind_inv H. inversion H; subst. reflexivity.
  - bind_inv H. inversion H; subst. reflexivity.
Qed.

(** On the sample, the down separates the play types perfectly (ratio 1)
    and is evaluated first; the distance needed clears the threshold with a
    lower ratio, is evaluated later, and is the one the node keeps. *)
Lemma split_attribute_is_last_clearing_witness :
  DecisionNode.DecisionNode Samples.log2 7 (DataStore.getIndexes Samples.mixed)
    (DataStore.getPlaySummaryStats Samples.mixed) = OK Samples.mixedTree
  /\ DecisionNode._decisionValue Samples.mixedTree = Some distance_needed
  /\ (exists byDown byDistance,
        DecisionNode.candidateRatio Samples.log2
          (DecisionNode.indexesToPlayCounts (DataStore.getIndexes Samples.mixed))
          (PlayIndexSet.getIndex down_number (DataStore.getIndexes Samples.mixed))
        = OK byDown
        /\ DecisionNode.candidateRatio Samples.log2
             (DecisionNode.indexesToPlayCounts (DataStore.getIndexes Samples.mixed))
             (PlayIndexSet.getIndex distance_needed
                (DataStore.getIndexes Samples.mixed))
           = OK byDistance
        /\ PrimFloat.ltb byDistance byDown = true).
Proof.
  split; [vm_compute; reflexivity|]. split.
  - refine (eq_trans
              (proj2 (split_attribute_is_last_clearing Samples.log2
                        (DataStore.getIndexes Samples.mixed) distance_needed _ _)
                     7%nat (DataStore.getPlaySummaryStats Samples.mixed)
                     Samples.mixedTree _ _) _).
    + vm_compute; tauto.
    + vm_compute; reflexivity.
    + vm_compute; lia.
    + vm_compute; reflexivity.
    + vm_compute; reflexivity.
  - do 2 eexists. split; [vm_compute; reflexivity|].
    split; [vm_compute; reflexivity|]. vm_compute; reflexivity.
Defined.

(** ** The shape of trees *)

Module TreeFacts.
Import SinglePlay DecisionNode Tree.

(** Induction on a node, with the hypothesis for every child. *)
Lemma node_ind (P : DecisionNode.t -> Prop) :
  (forall childNodes decisionValue mapping playData,
      Forall P childNodes -> P (mk childNodes decisionValue mapping playData)) ->
  forall n, P n.
Proof.
  intro H. fix IH 1. intros [cs dv m pd]. apply H.
  induction cs as [|c cs IHcs]; constructor; [apply IH | exact IHcs].
Qed.

Lemma mapM_Forall {A B : Type} (f : A -> outcome B) (P : B -> Prop) l r :
  mapM f l = OK r -> (forall a b, f a = OK b -> P b) -> Forall P r.
Proof.
  revert r; induction l as [|a l IH]; simpl; intros r H Hf.
  - inversion H; constructor.
  - bind_inv H. bind_inv H. inversion H; subst.
    constructor; [eapply Hf; eassumption | apply IH; auto].
Qed.

Lemma forallb_Forall {A : Type} (p : A -> bool) l :
  forallb p l = true <-> Forall (fun a => p a = true) l.
Proof.
  rewrite forallb_forall, Forall_forall. reflexivity.
Qed.

Lemma built_wellShaped log2 fuel :
  forall indexes summaryData n,
    DecisionNode.DecisionNode log2 fuel indexes summaryData = OK n ->
    wellShaped n = true.
Proof.
  induction fuel as [|fuel IH]; intros indexes summaryData n H;
    [discriminate|].
  cbn [DecisionNode.DecisionNode] in H.
  destruct (PlayIndexSet.is_nil (indexesToPlayCounts indexes)); [discriminate|].
  bind_inv H. destruct x as [[i dv] m].
  destruct (PrimFloat.leb MinInformationGain m).
  - destruct dv as [dv|]; [|discriminate].
    bind_inv H. destruct x as [i2 sibs].
    destruct sibs as [|sib sibs]; [discriminate|]. cbn [PlayIndexSet.is_nil] in H.
    bind_inv H. bind_inv H. inversion H; subst; clear H.
    pose proof (mapM_length _ _ _ Hx2) as Hlen.
    cbn [wellShaped]. apply andb_true_iff. split.
    + simpl in *. rewrite Hlen. reflexivity.
    + cbn [forallb]. apply andb_true_iff. split; [eapply IH; eassumption|].
      apply forallb_Forall.
      eapply mapM_Forall; [exact Hx2|]. intros a b Hab. eapply IH; exact Hab.
  - bind_inv H. inversion H; subst. reflexivity.
Qed.

Lemma pruneChildren_spec prune path cs i cs' :
  pruneChildren prune path cs i = OK cs' ->
  length cs' = length cs
  /\ Forall2 (fun c c' => c' = c \/ exists p, prune p c = OK c') cs cs'.
Proof.
  revert i cs'; induction cs as [|c cs IH]; intros i cs' H; simpl in H.
  - inversion H; subst. split; [reflexivity | constructor].
  - bind_inv H. bind_inv H. inversion H; subst; clear H.
    destruct (IH _ _ Hx0) as [L F]. split; [simpl; lia|].
    constructor; [|exact F].
    destruct (isLeaf c); [left; inversion Hx; reflexivity|].
    right; eexists; exact Hx.
Qed.

Lemma pruneTree_wellShaped garbage :
  forall n path n',
    wellShaped n = true -> pruneTree garbage path n = OK n' ->
    wellShaped n' = true.
Proof.
  induction n as [cs dv m pd IH] using node_ind; intros path n' W H.
  cbn [pruneTree] in H.
  destruct cs as [|c0 cs0]; [inversion H; subst; exact W|].
  cbn [PlayIndexSet.is_nil] in H. bind_inv H.
  destruct (pruneChildren_spec _ _ _ _ _ Hx) as [L F].
  cbn [wellShaped] in W. apply andb_true_iff in W. destruct W as [W1 W2].
  assert (Wx : wellShaped (mk x dv m pd) = true).
  { cbn [wellShaped]. apply andb_true_iff. split; [rewrite L; exact W1|].
    apply forallb_Forall. apply forallb_Forall in W2.
    clear - F IH W2. induction F as [|c c' l l' Hc F IHF]; constructor.
    - inversion IH; inversion W2; subst.
      destruct Hc as [->|[p Hp]]; [assumption|]. eauto.
    - inversion IH; inversion W2; subst. apply IHF; assumption. }
  destruct (negb (forallb isLeaf x)); [inversion H; subst; exact Wx|].
  destruct (shouldPrune (garbage path) x).
  - bind_inv H. inversion H; subst. reflexivity.
  - inversion H; subst; exact Wx.
Qed.

End TreeFacts.

(** C10: every tree the program can hold, built by the constructor and
    pruned any number of times, has no node with exactly one child. *)
Theorem reachable_trees_well_shaped (log2 : float -> float) (n : DecisionNode.t) :
  Tree.reachable log2 n -> Tree.wellShaped n = true.
Proof.
  induction 1 as [fuel indexes summaryData n H | garbage n n' _ IH H].
  - eapply TreeFacts.built_wellShaped; exact H.
  - eapply TreeFacts.pruneTree_wellShaped; eassumption.
Qed.

Lemma reachable_trees_well_shaped_witness :
  exists n,
    DecisionNode.pruneTree (fun _ => 0) [] Samples.tree = OK n
    /\ Tree.reachable Samples.log2 n
    /\ Tree.wellShaped n = true.
Proof.
  eexists. split; [vm_compute; reflexivity|].
  assert (R : Tree.reachable Samples.log2 Samples.tree).
  { apply (Tree.built Samples.log2 7 Samples.indexes
             (DataStore.getPlaySummaryStats Samples.indexed)).
    vm_compute; reflexivity. }
  assert (R' : Tree.reachable Samples.log2 Samples.tree).
  { apply (Tree.pruned Samples.log2 (fun _ => 0) Samples.tree Samples.tree R).
    vm_compute; reflexivity. }
  split; [exact R'|].
  exact (reachable_trees_well_shaped Samples.log2 Samples.tree R').
Defined.

(** ** Lookup *)

Module LookupFacts.
Import SinglePlay DecisionNode.

(** A decision node on the distance needed maps the five distance
    categories; a distance of five yards or more, passed through as it is,
    is outside the mapping. *)
Lemma findPlays_distance_outside_mapping
    childNodes mapping playData (down distanceNeeded yardLine minutes
    ownScore oppScore : Z) :
  childNodes <> [] ->
  length mapping = Z.to_nat (getCategoryCount distance_needed) ->
  5 <= distanceNeeded ->
  findPlays (mk childNodes (Some distance_needed) mapping playData)
    down distanceNeeded yardLine minutes ownScore oppScore
  = Throw out_of_range.
Proof.
  intros Hc Hm Hd. unfold findPlays. cbn [findPlays_cat].
  destruct childNodes as [|c cs]; [contradiction|].
  cbn [PlayIndexSet.is_nil testValueOf bind].
  unfold PlaySummaryFactory.at_.
  destruct (Z.ltb_spec distanceNeeded 0) as [|_]; [lia|].
  destruct (nth_error mapping (Z.to_nat distanceNeeded)) eqn:E;
    [|reflexivity].
  exfalso. assert (nth_error mapping (Z.to_nat distanceNeeded) <> None)
    by congruence.
  apply nth_error_Some in H. rewrite Hm in H.
  change (Z.to_nat (getCategoryCount distance_needed)) with 5%nat in H. lia.
Qed.

(** A category the training data never had is mapped to -1: the lookup
    stops at the node and returns the node's own map. *)
Lemma findPlays_unmapped_category
    childNodes decisionValue mapping playData (down distanceNeeded : Z)
    fieldLocation timeRemaining scoreDifferential testValue :
  testValueOf (Some decisionValue) down distanceNeeded fieldLocation
    timeRemaining scoreDifferential = OK testValue ->
  PlaySummaryFactory.at_ mapping testValue = OK (-1) ->
  findPlays_cat (mk childNodes (Some decisionValue) mapping playData)
    down distanceNeeded fieldLocation timeRemaining scoreDifferential
  = OK playData.
Proof.
  intros Ht Hm. cbn [findPlays_cat].
  destruct childNodes as [|c cs]; [reflexivity|].
  cbn [PlayIndexSet.is_nil]. rewrite Ht. cbn [bind]. rewrite Hm. reflexivity.
Qed.

(** The map of a constructed decision node is the empty one. *)
Lemma built_decision_node_map log2 fuel indexes summaryData n :
  DecisionNode.DecisionNode log2 fuel indexes summaryData = OK n ->
  isLeaf n = false -> _playData n = [].
Proof.
  destruct fuel as [|fuel]; [discriminate|]. intros H Hleaf.
  cbn [DecisionNode.DecisionNode] in H.
  destruct (PlayIndexSet.is_nil (indexesToPlayCounts indexes)); [discriminate|].
  bind_inv H. destruct x as [[i dv] m].
  destruct (PrimFloat.leb MinInformationGain m).
  - destruct dv as [dv|]; [|discriminate].
    bind_inv H. destruct x as [i2 sibs].
    destruct (PlayIndexSet.is_nil sibs); [discriminate|].
    bind_inv H. bind_inv H. inversion H; subst. reflexivity.
  - bind_inv H. inversion H; subst. discriminate Hleaf.
Qed.

Lemma tree_is_built :
  DecisionNode.DecisionNode Samples.log2 7 Samples.indexes
    (DataStore.getPlaySummaryStats Samples.indexed) = OK Samples.tree.
Proof. vm_compute; reflexivity. Qed.

(** The plays the tree was built from were entered with two yards to go;
    asked about first down and two to go, the lookup reads the two as the
    category [ten_to_four] and finds nothing. *)
Lemma trained_situation_not_found :
  findPlays Samples.tree 1 2 50 10 0 0 = OK [].
Proof. vm_compute; reflexivity. Qed.

End LookupFacts.

(** C2, at the failing input: the tree built over the sample plays, asked
    about first down and fifteen yards to go at midfield, raises
    [std::out_of_range]. *)
Theorem findPlays_raises_on_raw_distance :
  DecisionNode.findPlays Samples.tree 1 15 50 10 0 0 = Throw out_of_range.
Proof. vm_compute; reflexivity. Qed.

(** ** Merging summaries *)

Module MergeFacts.
Import SinglePlay.

Lemma unevenTree_is_built : Samples.buildTree Samples.unevenStore = OK Samples.unevenTree.
Proof. vm_compute; reflexivity. Qed.

(** The same stale share reaches the tree: pruning [unevenTree] merges its
    two leaves into the root. *)
Lemma pruned_unevenTree_shares :
  exists n,
    DecisionNode.pruneTree (fun _ => 0) [] Samples.unevenTree = OK n
    /\ map (fun e => (fst e, DetailedPlaySummary.getPlayCount (snd e),
                      DetailedPlaySummary.getPercentOfConditionPlays (snd e)))
           (DecisionNode._playData n)
       = [(run_left, 2, 666); (punt, 1, 500)].
Proof. eexists. split; vm_compute; reflexivity. Qed.

End MergeFacts.

(** C8, at the failing input: merging the summary of a leaf holding one run
    into the summary of a leaf holding one run and one punt gives a map of
    three plays in which the punt keeps the share 500 it had among two
    plays; against the combined total its share is 333. *)
Theorem mergeData_leaves_trailing_share :
  exists run punts,
    PlaySummaryFactory.mergeData Samples.unevenFirst Samples.unevenSecond
    = OK [(run_left, run); (punt, punts)]
    /\ DetailedPlaySummary.getPlayCount run + DetailedPlaySummary.getPlayCount punts = 3
    /\ DetailedPlaySummary.getPercentOfConditionPlays punts = 500
    /\ Z.quot (DetailedPlaySummary.getPlayCount punts * 1000) 3 = 333.
Proof.
  do 2 eexists. split; [vm_compute; reflexivity|].
  repeat split; vm_compute; reflexivity.
Qed.

(** ** Pruning twice *)

Module PruneFacts.
Import SinglePlay DecisionNode.

Lemma smallTree_is_built : Samples.buildTree Samples.smallStore = OK Samples.smallTree.
Proof. vm_compute; reflexivity. Qed.

Lemma pruneTree_leaf garbage path n :
  isLeaf n = true -> pruneTree garbage path n = OK n.
Proof.
  destruct n as [cs dv m pd]. unfold isLeaf; simpl.
  destruct cs; [reflexivity | discriminate].
Qed.

(** Children that were pruned with the same indeterminate values are left
    as they are by a second pass. *)
Lemma pruneChildren_again garbage path cs :
  Forall (fun c => forall path c',
            pruneTree garbage path c = OK c' -> pruneTree garbage path c' = OK c')
         cs ->
  forall i cs',
    pruneChildren (pruneTree garbage) path cs i = OK cs' ->
    pruneChildren (pruneTree garbage) path cs' i = OK cs'.
Proof.
  induction 1 as [|c cs Hc _ IH]; intros i cs' H; simpl in H.
  - inversion H; reflexivity.
  - bind_inv H. bind_inv H. inversion H; subst; clear H. simpl.
    rewrite (IH _ _ Hx0).
    destruct (isLeaf c) eqn:Ec.
    + inversion Hx; subst. rewrite Ec. reflexivity.
    + destruct (isLeaf x) eqn:Ex; [reflexivity|].
      rewrite (Hc _ _ Hx). reflexivity.
Qed.

(** With the same value found in [totalPlayCount] at every node both
    times, a second pruning changes nothing. *)
Lemma pruneTree_again_same_garbage garbage :
  forall n path n',
    pruneTree garbage path n = OK n' -> pruneTree garbage path n' = OK n'.
Proof.
  induction n as [cs dv m pd IH] using TreeFacts.node_ind; intros path n' H.
  cbn [pruneTree] in H.
  destruct cs as [|c0 cs0]; [inversion H; subst; reflexivity|].
  cbn [PlayIndexSet.is_nil] in H. bind_inv H.
  pose proof (pruneChildren_again garbage path _ IH _ _ Hx) as Hagain.
  destruct (TreeFacts.pruneChildren_spec _ _ _ _ _ Hx) as [L _].
  assert (Hnil : PlayIndexSet.is_nil x = false)
    by (destruct x; [discriminate L | reflexivity]).
  destruct (negb (forallb isLeaf x)) eqn:Eleaves.
  - inversion H; subst. cbn [pruneTree]. rewrite Hnil, Hagain. cbn [bind].
    rewrite Eleaves. reflexivity.
  - destruct (shouldPrune (garbage path) x) eqn:Eprune.
    + bind_inv H. inversion H; subst. reflexivity.
    + inversion H; subst. cbn [pruneTree]. rewrite Hnil, Hagain. cbn [bind].
      rewrite Eleaves, Eprune. reflexivity.
Qed.

End PruneFacts.

(** C9, at the failing input: the tree built over eleven sample plays is
    left as it is by a first pruning that finds 0 in the uninitialised
    [totalPlayCount], and is collapsed into a single leaf by a second
    pruning that finds there the 11 the first one counted up to. *)
Theorem pruneTree_twice_differs :
  exists once twice,
    DecisionNode.pruneTree (fun _ => 0) [] Samples.smallTree = OK once
    /\ DecisionNode.totalPlayCount
         (DecisionNode.scanChildren 0 (DecisionNode._childNodes once)) = 11
    /\ DecisionNode.pruneTree (fun _ => 11) [] once = OK twice
    /\ once <> twice.
Proof.
  do 2 eexists. split; [vm_compute; reflexivity|].
  split; [vm_compute; reflexivity|].
  split; [vm_compute; reflexivity|]. discriminate.
Qed.

(** ** The third pruning test *)

Module ScanFacts.
Import SinglePlay DecisionNode Heuristic.










(** The second half of the third test compares the size of the bit set, a
    constant, with half the play total: it fails for every node holding
    fewer than 22 plays, however few of them are of the isolated types. *)
Lemma isolatedRare_total st :
  isolatedRare st = true -> 22 <= totalPlayCount st.
Proof.
  unfold isolatedRare, PlayTypeBitSet.size. intro H.
  apply andb_true_iff in H. destruct H as [_ H]. apply Z.leb_le in H.
  Z.to_euclidean_division_equations. lia.
Qed.

End ScanFacts.


(** Why the amended statement asks for entries of at least one play: over
    three leaves of 40000 plays each, one per kind of run, every play count
    wraps to -25536, which the code takes for "not more than one".  The
    first two tests do not merge and the third merges, though all three
    types are significant in some children and not in all, and none is
    single-occurrence anywhere. *)
Lemma isolated_rare_merges_on_wrapped_counts :
  map (fun c => map Heuristic.playCount (DecisionNode._playData c))
      Samples.wrappedLeaves
  = [[-25536]; [-25536]; [-25536]]
  /\ DecisionNode.overfitSingle Samples.wrappedLeaves = false
  /\ DecisionNode.uniformSignificance
       (DecisionNode.scanChildren 0 Samples.wrappedLeaves) = false
  /\ DecisionNode.isolatedRare
       (DecisionNode.scanChildren 0 Samples.wrappedLeaves) = true
  /\ filter (Heuristic.someNotAll Samples.wrappedLeaves) all_play_types
     = [run_left; run_middle; run_right]
  /\ filter (Heuristic.singleOnly Samples.wrappedLeaves) all_play_types = [].
Proof. vm_compute. repeat split; reflexivity. Qed.



(** ** What a split returns *)

Module SplitResult.
Import SinglePlay PlayIndexSet IndexFacts IndexSet Counting SplitCount SplitCover.

Lemma swapRemaining_explicit results cs index targets outs :
  swapRemaining results cs index targets = OK outs ->
  length targets = length (visibleFrom cs index)
  /\ outs = map (fun tj => fst tj ++ piece results (snd tj))
                (combine targets (visibleFrom cs index)).
Proof.
  revert index targets outs; induction cs as [|c cs IH];
    intros index targets outs H; simpl in H.
  - destruct targets; [|discriminate]. inversion H; subst. split; reflexivity.
  - simpl. destruct (c =? 0).
    + apply IH in H. exact H.
    + destruct targets as [|t targets]; [discriminate|].
      bind_inv H. inversion H; subst. apply IH in Hx. destruct Hx as [I1 I2].
      split; [simpl; lia|]. simpl. rewrite <- I2. reflexivity.
Qed.

Lemma firstNonEmpty_visible cs index f :
  firstNonEmpty cs index = Some f ->
  visibleFrom cs index = f :: visibleFrom (skipn (S (f - index)) cs) (S f).
Proof.
  revert index; induction cs as [|c cs IH]; intros index H; simpl in H.
  - discriminate.
  - simpl. destruct (c =? 0) eqn:E.
    + rewrite (IH _ H).
      destruct (firstNonEmpty_spec (fun _ => O) _ _ _ H) as [Hle _].
      replace (f - index)%nat with (S (f - S index)) by lia.
      reflexivity.
    + inversion H; subst. replace (f - f)%nat with O by lia. reflexivity.
Qed.

Lemma visibleFrom_filter cs index :
  visibleFrom cs index
  = filter (fun j => negb (nth (j - index) cs 0 =? 0)) (seq index (length cs)).
Proof.
  revert index; induction cs as [|c cs IH]; intro index; [reflexivity|].
  simpl. rewrite Nat.sub_diag. rewrite IH.
  assert (E : filter (fun j => negb (nth (j - S index) cs 0 =? 0))
                     (seq (S index) (length cs))
              = filter (fun j => negb (match (j - index)%nat with
                                       | O => c
                                       | S m => nth m cs 0
                                       end =? 0))
                       (seq (S index) (length cs))).
  { apply filter_ext_in. intros j Hj. apply in_seq in Hj.
    replace (j - index)%nat with (S (j - S index)) by lia. reflexivity. }
  rewrite E. destruct (c =? 0); reflexivity.
Qed.

(** [splitIndex] on a populated index, in full: the index keeps the plays
    of the first visible category, and the targets receive, in order, the
    plays of the other visible categories. *)
Lemma splitIndex_explicit a X targets mine outs :
  X <> [] ->
  splitIndex a X targets = OK (mine, outs) ->
  exists counts f js,
    length counts = Z.to_nat (getCategoryCount a)
    /\ (forall j, (j < length counts)%nat ->
          nth j counts 0 = 0 <-> Z.of_nat (weight a X j) mod 65536 = 0)
    /\ visibleFrom counts 0 = f :: js
    /\ length js = length targets
    /\ mine = map (bucket a f) X
    /\ outs = map (fun tj => fst tj ++ map (bucket a (snd tj)) X)
                  (combine targets js).
Proof.
  intros HX H. unfold splitIndex in H.
  destruct X as [|l X]; [contradiction|]. cbv [is_nil] in H.
  bind_inv H. destruct x as [results counts].
  destruct (firstNonEmpty counts 0) as [f|] eqn:Ef; [|discriminate].
  bind_inv H. inversion H; subst; clear H.
  apply splitAll_spec in Hx;
    [|apply repeat_length | apply Forall_forall; intros c Hc;
                            apply repeat_spec in Hc; lia].
  rewrite repeat_length in Hx. destruct Hx as [S1 [S2 [S3 [S4 S5]]]].
  apply swapRemaining_explicit in Hx0. destruct Hx0 as [W1 W2].
  pose proof (firstNonEmpty_visible _ _ _ Ef) as V.
  rewrite Nat.sub_0_r in V.
  exists counts, f, (visibleFrom (skipn (S f) counts) (S f)).
  split; [exact S1|]. split; [|split; [exact V|split; [symmetry; exact W1|split]]].
  - intros j Hj. rewrite S1 in Hj. specialize (S4 j Hj).
    replace (nth j (repeat 0 (Z.to_nat (getCategoryCount a))) 0) with 0 in S4
      by (symmetry; apply nth_repeat).
    simpl in S4. rewrite <- S4.
    assert (R : -32768 <= nth j counts 0 < 32768).
    { rewrite Forall_forall in S2. apply S2. apply nth_In. lia. }
    split; [intros ->; reflexivity|].
    intro M. apply Z.mod_divide in M; [|lia]. destruct M as [q M].
    clear - R M. lia.
  - apply S3.
  - rewrite W2. apply map_ext. intros [t j]. simpl. rewrite S3. reflexivity.
Qed.

End SplitResult.

Module SplitInvariant.
Import SinglePlay PlayIndexSet IndexFacts IndexSet Counting SplitCount SplitCover
       SplitChain SplitResult.

Lemma storeIndex_indexes f ps rs :
  map _indexes (storeIndex f ps rs) = map _indexes rs.
Proof.
  revert rs; induction ps as [|p ps IH]; intros [|r rs]; simpl; try reflexivity.
  rewrite indexes_setIndex. f_equal. apply IH.
Qed.

Lemma splitField_indexes a f self sibs self' sibs' :
  splitField a f (self, sibs) = OK (self', sibs') ->
  map _indexes sibs' = map _indexes sibs.
Proof.
  unfold splitField; intro H.
  destruct (splitIndex a (getIndex f self) (map (getIndex f) sibs))
    as [[mine others]|e]; simpl in H; [|discriminate].
  inversion H; subst. apply storeIndex_indexes.
Qed.

Lemma split_chain_indexes a s1 sibs0 s' sibs :
  (st <- splitField a down_number (s1, sibs0) ;;
   st <- splitField a distance_needed st ;;
   st <- splitField a field_location st ;;
   st <- splitField a time_remaining st ;;
   splitField a score_differential st) = OK (s', sibs) ->
  map _indexes sibs = map _indexes sibs0.
Proof.
  intro H.
  apply bind_OK in H; destruct H as [[t1 u1] [E1 H]].
  apply bind_OK in H; destruct H as [[t2 u2] [E2 H]].
  apply bind_OK in H; destruct H as [[t3 u3] [E3 H]].
  apply bind_OK in H; destruct H as [[t4 u4] [E4 E5]].
  apply splitField_indexes in E1, E2, E3, E4, E5. congruence.
Qed.

(** Two index sets with the same tracked set and the same five partitions
    are the same. *)
Lemma indexSet_ext (x y : PlayIndexSet.t) :
  _indexes x = _indexes y ->
  (forall b, getIndex b x = getIndex b y) -> x = y.
Proof.
  intros Hi Hg. destruct x, y; simpl in *.
  pose proof (Hg down_number). pose proof (Hg distance_needed).
  pose proof (Hg field_location). pose proof (Hg time_remaining).
  pose proof (Hg score_differential). simpl in *. congruence.
Qed.

Lemma indexSets_ext (l1 l2 : list PlayIndexSet.t) :
  map _indexes l1 = map _indexes l2 ->
  (forall b, map (getIndex b) l1 = map (getIndex b) l2) -> l1 = l2.
Proof.
  revert l2; induction l1 as [|x l1 IH]; intros [|y l2] Hi Hg;
    simpl in *; try discriminate; [reflexivity|].
  f_equal.
  - apply indexSet_ext; [congruence|].
    intro b. specialize (Hg b). congruence.
  - apply IH; [congruence|]. intro b. specialize (Hg b). congruence.
Qed.

Lemma getIndex_restrict a j b s :
  getIndex b (restrict a j s) = map (bucket a j) (getIndex b s).
Proof. destruct b; reflexivity. Qed.



(** Under the invariant the categories with a non-zero count are the
    populated categories of the partition split on. *)
Lemma visible_is_populated a (A X : list (list SinglePlay.t)) counts :
  partitions a A ->
  Permutation (concat X) (concat A) ->
  length counts = Z.to_nat (getCategoryCount a) ->
  (forall j, (j < length counts)%nat ->
     nth j counts 0 = 0 <-> Z.of_nat (weight a X j) mod 65536 = 0) ->
  length (visibleFrom counts 0)
  = length (filter (fun i => negb (is_nil i)) A) ->
  visibleFrom counts 0 = populated A.
Proof.
  intros [LenA PartA] Perm C1 C2 Hlen.
  set (n := Z.to_nat (getCategoryCount a)) in *.
  assert (HlenA : length A = n) by (unfold n; lia).
  assert (W : forall j, weight a X j
                        = if (j <? n)%nat then length (nth j A []) else O).
  { intro j. rewrite (weight_Permutation a X A j Perm).
    rewrite (partition_weight a A 0 j) by exact PartA.
    rewrite HlenA, Nat.sub_0_r. reflexivity. }
  assert (PQ : forall j, In j (seq 0 n) ->
                 negb (nth (j - 0) counts 0 =? 0) = true ->
                 negb (is_nil (nth j A [])) = true).
  { intros j Hj Hp. apply in_seq in Hj. rewrite Nat.sub_0_r in Hp.
    destruct (nth j A []) as [|r rest] eqn:E; [|reflexivity].
    exfalso. assert (Hz : nth j counts 0 = 0).
    { apply C2; [lia|]. rewrite W, E. destruct (j <? n)%nat; reflexivity. }
    rewrite Hz in Hp. discriminate. }
  assert (QP : forall j, In j (seq 0 n) ->
                 negb (is_nil (nth j A [])) = true ->
                 negb (nth (j - 0) counts 0 =? 0) = true).
  { apply filter_same_length; [exact PQ|].
    rewrite <- C1 at 1. rewrite <- visibleFrom_filter, Hlen.
    rewrite <- HlenA.
    symmetry. apply (filter_nth_seq (fun i => negb (is_nil i)) [] A). }
  rewrite visibleFrom_filter. unfold populated. rewrite C1, HlenA.
  apply filter_ext_in. intros j Hj.
  destruct (negb (nth (j - 0) counts 0 =? 0)) eqn:Ep.
  - symmetry. apply PQ; assumption.
  - destruct (negb (is_nil (nth j A []))) eqn:Eq; [|reflexivity].
    rewrite (QP j Hj Eq) in Ep. discriminate.
Qed.

Lemma combine_repeat_nil (X : list (list SinglePlay.t)) a (js : list nat) :
  map (fun tj : list (list SinglePlay.t) * nat =>
         fst tj ++ map (bucket a (snd tj)) X)
      (combine (repeat [] (length js)) js)
  = map (fun j => map (bucket a j) X) js.
Proof.
  induction js as [|j js IH]; [reflexivity|].
  simpl. rewrite IH. reflexivity.
Qed.

Lemma map_bucket_nil a (js : list nat) :
  map (fun j => map (bucket a j) (@nil (list SinglePlay.t))) js
  = repeat [] (length js).
Proof.
  induction js as [|j js IH]; [reflexivity|].
  simpl. f_equal. exact IH.
Qed.

(** What a split that returns siblings returns, under the invariant: the
    set, after the drop, cut down to the first populated category of the
    split characteristic, and one sibling per further populated category,
    in order. *)
Lemma split_explicit (s s' : PlayIndexSet.t) (a : PlayCharacteristic)
    (siblings : list PlayIndexSet.t) :
  invariant s ->
  splitIndexByCharacteristic a s = OK (s', siblings) ->
  siblings <> [] ->
  exists f js,
    populated (getIndex a s) = f :: js
    /\ s' = restrict a f (dropIndex a s)
    /\ siblings = map (fun j => restrict a j (dropIndex a s)) js.
Proof.
  intros [Inv1 [Inv2 Inv3]] H Hs.
  unfold splitIndexByCharacteristic in H.
  set (A := getIndex a s) in *.
  set (m := length (filter (fun i => negb (is_nil i)) A)).
  assert (Hm : countNonEmpty A = to_ushort (Z.of_nat m)) by reflexivity.
  destruct (Z.leb_spec (countNonEmpty A) 1) as [Hle|Hgt].
  { inversion H; subst; contradiction. }
  assert (Ta : PlayCharacteristicSet.mem a (getIndexesAvailable s) = true).
  { destruct (PlayCharacteristicSet.mem a (getIndexesAvailable s)) eqn:E;
      [reflexivity|].
    exfalso. apply Inv1 in E. unfold A in Hgt. rewrite E in Hgt.
    vm_compute in Hgt. discriminate. }
  pose proof (Inv2 a Ta) as PartA. fold A in PartA.
  destruct PartA as [LenA PartA'].
  set (n := Z.to_nat (getCategoryCount a)) in *.
  assert (HlenA : length A = n) by (unfold n; lia).
  assert (Hn7 : (n <= 7)%nat) by (unfold n; destruct a; vm_compute; lia).
  assert (Hmn : (m <= n)%nat)
    by (unfold m; rewrite <- HlenA; apply filter_length_le).
  assert (Hcount : countNonEmpty A = Z.of_nat m).
  { rewrite Hm. unfold to_ushort. apply Z.mod_small. lia. }
  rewrite Hcount in *.
  (* the populated categories *)
  assert (Hpop : length (populated A) = m).
  { unfold populated, m.
    apply (filter_nth_seq (fun i => negb (is_nil i)) [] A). }
  destruct (populated A) as [|f js] eqn:Epop; [simpl in Hpop; lia|].
  simpl in Hpop.
  assert (Hk : Z.to_nat (Z.of_nat m - 1) = length js) by lia.
  exists f, js. split; [reflexivity|].
  set (s1 := dropIndex a s) in *.
  set (sibs0 := repeat _ _) in H.
  pose proof (split_chain_indexes _ _ _ _ _ H) as Hsibidx.
  apply split_chain in H. destruct H as [Hidx Hview].
  (* every partition is cut down the same way *)
  assert (Hb : forall b,
             getIndex b s' = map (bucket a f) (getIndex b s1)
             /\ map (getIndex b) siblings
                = map (fun j => map (bucket a j) (getIndex b s1)) js).
  { intro b. specialize (Hview b).
    assert (Htargets : map (getIndex b) sibs0 = repeat [] (length js)).
    { unfold sibs0. rewrite map_repeat, Hk. f_equal. destruct b; reflexivity. }
    rewrite Htargets in Hview.
    destruct (getIndex b s1) as [|x0 X0] eqn:EX.
    - rewrite SplitFacts.splitIndex_cleared in Hview.
      assert (M : getIndex b s' = []) by congruence.
      assert (O : map (getIndex b) siblings = repeat [] (length js))
        by congruence.
      rewrite M, O. split; [reflexivity|]. symmetry. apply map_bucket_nil.
    - rewrite <- EX in *.
      assert (HX : getIndex b s1 <> []) by (rewrite EX; discriminate).
      (* a populated partition after the drop is tracked and untouched *)
      assert (Hsame : getIndex b s1 = getIndex b s
                      /\ PlayCharacteristicSet.mem b (getIndexesAvailable s) = true).
      { assert (Hdec : b = a \/ b <> a)
          by (destruct b, a; (left; reflexivity) || (right; discriminate)).
        assert (Hg : getIndex b s1 = getIndex b s).
        { destruct Hdec as [->|Hne].
          - destruct (Z.eq_dec (PlayCharacteristicSet.size (_indexes s)) 1)
              as [E|E].
            + unfold s1. rewrite dropIndex_sole by exact E. reflexivity.
            + apply dropIndex_drops with (c := a) in E.
              destruct E as [E _]. fold s1 in E. contradiction.
          - apply dropIndex_frame; exact Hne. }
        split; [exact Hg|].
        destruct (PlayCharacteristicSet.mem b (getIndexesAvailable s)) eqn:E;
          [reflexivity|].
        apply Inv1 in E. rewrite <- Hg in E. contradiction. }
      destruct Hsame as [Hg Tb].
      destruct (splitIndex_explicit _ _ _ _ _ HX Hview)
        as [counts [f' [js' [C1 [C2 [C3 [C4 [C5 C6]]]]]]]].
      rewrite repeat_length in C4.
      assert (V : visibleFrom counts 0 = populated A).
      { apply (visible_is_populated a A (getIndex b s1) counts).
        - split; assumption.
        - rewrite Hg. apply Inv3; assumption.
        - exact C1.
        - exact C2.
        - rewrite C3. simpl. rewrite C4. fold m. lia. }
      rewrite C3, Epop in V. inversion V; subst f' js'.
      split; [exact C5|]. rewrite C6. apply combine_repeat_nil. }
  split.
  - apply indexSet_ext; [exact Hidx|].
    intro b. rewrite getIndex_restrict. apply Hb.
  - apply indexSets_ext.
    + rewrite Hsibidx. unfold sibs0. rewrite map_repeat, map_map, Hk.
      clear. induction js; simpl; [reflexivity | f_equal; assumption].
    + intro b. rewrite map_map.
      destruct (Hb b) as [_ Hsb]. rewrite Hsb.
      apply map_ext. intro j. rewrite getIndex_restrict. reflexivity.
Qed.

End SplitInvariant.

(** ** The invariant of index sets is kept *)

Module InvariantFacts.
Import SinglePlay PlayIndexSet IndexFacts IndexSet Counting SplitCount SplitCover
       SplitChain SplitResult SplitInvariant.

Lemma Permutation_filter {A : Type} (f : A -> bool) (l l' : list A) :
  Permutation l l' -> Permutation (filter f l) (filter f l').
Proof.
  induction 1 as [|x l l' _ IH|x y l|l l' l'' _ IH1 _ IH2]; simpl.
  - constructor.
  - destruct (f x); [constructor|]; exact IH.
  - destruct (f x), (f y); try apply Permutation_refl. constructor.
  - eapply Permutation_trans; eassumption.
Qed.

Lemma restrict_invariant a j s : invariant s -> invariant (restrict a j s).
Proof.
  intros [Inv1 [Inv2 Inv3]].
  assert (Hi : getIndexesAvailable (restrict a j s) = getIndexesAvailable s)
    by reflexivity.
  split; [|split].
  - intros c Hc. rewrite Hi in Hc. rewrite getIndex_restrict, (Inv1 c Hc).
    reflexivity.
  - intros c Hc. rewrite Hi in Hc. destruct (Inv2 c Hc) as [L P].
    rewrite getIndex_restrict. split; [rewrite length_map; exact L|].
    intros i r Hr.
    change (@nil SinglePlay.t) with (bucket a j []) in Hr.
    rewrite map_nth in Hr. unfold bucket in Hr. apply filter_In in Hr.
    apply P. apply Hr.
  - intros c c' Hc Hc'. rewrite Hi in Hc, Hc'.
    rewrite !getIndex_restrict. unfold bucket. rewrite !concat_filter_map.
    apply Permutation_filter. apply Inv3; assumption.
Qed.

Lemma dropIndex_invariant a s : invariant s -> invariant (dropIndex a s).
Proof.
  intros [Inv1 [Inv2 Inv3]].
  destruct (Z.eq_dec (PlayCharacteristicSet.size (_indexes s)) 1) as [E|E].
  { rewrite dropIndex_sole by exact E. repeat split; auto.
    - apply Inv2; assumption.
    - apply Inv2; assumption. }
  destruct (dropIndex_drops a s E) as [D1 D2].
  assert (Hdec : forall c, c = a \/ c <> a)
    by (intro c; destruct c, a; (left; reflexivity) || (right; discriminate)).
  assert (Htracked : forall c,
             PlayCharacteristicSet.mem c (getIndexesAvailable (dropIndex a s)) = true ->
             c <> a
             /\ PlayCharacteristicSet.mem c (getIndexesAvailable s) = true
             /\ getIndex c (dropIndex a s) = getIndex c s).
  { intros c Hc. destruct (Hdec c) as [->|Hne].
    - unfold getIndexesAvailable in Hc. congruence.
    - destruct (dropIndex_frame a c s Hne) as [F1 F2].
      unfold getIndexesAvailable in *. rewrite F2 in Hc. auto. }
  split; [|split].
  - intros c Hc. destruct (Hdec c) as [->|Hne]; [exact D1|].
    destruct (dropIndex_frame a c s Hne) as [F1 F2].
    unfold getIndexesAvailable in *. rewrite F2 in Hc. rewrite F1.
    apply Inv1; exact Hc.
  - intros c Hc. destruct (Htracked c Hc) as [_ [T G]]. rewrite G.
    apply Inv2; exact T.
  - intros c c' Hc Hc'.
    destruct (Htracked c Hc) as [_ [T G]].
    destruct (Htracked c' Hc') as [_ [T' G']].
    rewrite G, G'. apply Inv3; assumption.
Qed.

(** The invariant survives a split, in the set and in every sibling. *)
Lemma split_preserves_invariant s a s' siblings :
  invariant s ->
  splitIndexByCharacteristic a s = OK (s', siblings) ->
  invariant s' /\ Forall invariant siblings.
Proof.
  intros Inv H.
  destruct siblings as [|sib sibs].
  - unfold splitIndexByCharacteristic in H.
    destruct (countNonEmpty (getIndex a s) <=? 1) eqn:E.
    + inversion H; subst. split; [apply dropIndex_invariant; exact Inv|constructor].
    + exfalso. apply split_chain_indexes in H.
      apply (f_equal (@length _)) in H. rewrite !length_map, repeat_length in H.
      apply Z.leb_gt in E. simpl in H. lia.
  - destruct (split_explicit s s' a (sib :: sibs) Inv H) as [f [js [_ [-> Es]]]];
      [discriminate|].
    split.
    + apply restrict_invariant, dropIndex_invariant; exact Inv.
    + rewrite Es. apply Forall_forall. intros x Hx.
      apply in_map_iff in Hx. destruct Hx as [j [<- _]].
      apply restrict_invariant, dropIndex_invariant; exact Inv.
Qed.

(** *** The indexes of a data store *)

Lemma buildIndex_loop_spec c data :
  Forall (fun p => 0 <= getValue c p < 65536) data ->
  forall acc idx,
    PlaySummaryFactory.foldM
      (fun index indexValue =>
         push_back_at (Z.to_nat (to_ushort (getValue c indexValue)))
                      indexValue index)
      data acc = OK idx ->
    length idx = length acc
    /\ (forall j, nth j idx [] = nth j acc [] ++ bucket c j data)
    /\ Forall (inRange c (length acc)) data.
Proof.
  induction 1 as [|p data Hp _ IH]; intros acc idx H; simpl in H.
  - inversion H; subst. repeat split; auto.
    intro j; simpl; rewrite app_nil_r; reflexivity.
  - bind_inv H.
    assert (Eu : to_ushort (getValue c p) = getValue c p)
      by (unfold to_ushort; apply Z.mod_small; lia).
    rewrite Eu in Hx.
    destruct (push_back_at_spec _ _ _ _ Hx) as [H1 [H2 H3]].
    destruct (IH _ _ H) as [I1 [I2 I3]].
    rewrite H2 in I1, I3. repeat split; auto.
    + intro j. rewrite I2, H3. unfold bucket; simpl.
      destruct (Nat.eqb_spec j (Z.to_nat (getValue c p))) as [->|Hj].
      * rewrite Z2Nat.id by lia. rewrite Z.eqb_refl.
        rewrite <- app_assoc; reflexivity.
      * destruct (Z.eqb_spec (getValue c p) (Z.of_nat j)) as [E|_];
          [|reflexivity].
        exfalso; apply Hj. rewrite E, Nat2Z.id; reflexivity.
    + constructor; [|assumption]. unfold inRange; lia.
Qed.

Lemma buckets_Permutation c (data : list SinglePlay.t) :
  forall n, Forall (inRange c n) data ->
  Permutation (concat (map (fun j => bucket c j data) (seq 0 n))) data.
Proof.
  intros n H. induction H as [|p data Hp _ IH].
  - simpl. clear. induction (seq 0 n); simpl; [constructor | assumption].
  - assert (G : forall start len,
               Permutation
                 (concat (map (fun j => bucket c j (p :: data)) (seq start len)))
                 ((if (Z.of_nat start <=? getValue c p)
                      && (getValue c p <? Z.of_nat (start + len))
                   then [p] else [])
                  ++ concat (map (fun j => bucket c j data) (seq start len)))).
    { intros start len; revert start.
      induction len as [|len IHlen]; intro start.
      - simpl. destruct ((Z.of_nat start <=? getValue c p)
                         && (getValue c p <? Z.of_nat (start + 0))) eqn:E;
          [|constructor].
        apply andb_true_iff in E. destruct E as [E1 E2].
        apply Z.leb_le in E1. apply Z.ltb_lt in E2. lia.
      - simpl seq. simpl map. simpl concat.
        eapply Permutation_trans;
          [apply Permutation_app_head; apply IHlen|].
        unfold bucket at 1. simpl filter.
        destruct (Z.eqb_spec (getValue c p) (Z.of_nat start)) as [E|E].
        + replace ((Z.of_nat (S start) <=? getValue c p)
                   && (getValue c p <? Z.of_nat (S start + len))) with false
            by (symmetry; apply andb_false_iff; left; apply Z.leb_gt; lia).
          replace ((Z.of_nat start <=? getValue c p)
                   && (getValue c p <? Z.of_nat (start + S len))) with true
            by (symmetry; apply andb_true_iff; split;
                [apply Z.leb_le | apply Z.ltb_lt]; lia).
          simpl. apply Permutation_refl.
        + replace ((Z.of_nat start <=? getValue c p)
                   && (getValue c p <? Z.of_nat (start + S len)))
            with ((Z.of_nat (S start) <=? getValue c p)
                  && (getValue c p <? Z.of_nat (S start + len))).
          2:{ destruct (Z.leb_spec (Z.of_nat (S start)) (getValue c p)),
                       (Z.leb_spec (Z.of_nat start) (getValue c p)),
                       (Z.ltb_spec (getValue c p) (Z.of_nat (S start + len))),
                       (Z.ltb_spec (getValue c p) (Z.of_nat (start + S len)));
                simpl; try reflexivity; lia. }
          destruct ((Z.of_nat (S start) <=? getValue c p)
                    && (getValue c p <? Z.of_nat (S start + len))).
          * simpl. fold (bucket c start data).
            apply Permutation_sym, Permutation_middle.
          * simpl. apply Permutation_refl. }
    eapply Permutation_trans; [apply G|].
    unfold inRange in Hp.
    replace ((Z.of_nat 0 <=? getValue c p) && (getValue c p <? Z.of_nat (0 + n)))
      with true
      by (symmetry; apply andb_true_iff; split;
          [apply Z.leb_le | apply Z.ltb_lt]; simpl; lia).
    simpl. constructor. exact IH.
Qed.

Lemma buildIndex_spec c data idx :
  Forall (fun p => 0 <= getValue c p < 65536) data ->
  DataStore.buildIndex c data = OK idx ->
  partitions c idx /\ Permutation (concat idx) data.
Proof.
  intros Hr H. unfold DataStore.buildIndex in H.
  apply (buildIndex_loop_spec c data Hr) in H.
  rewrite repeat_length in H. destruct H as [L [N R]].
  set (n := Z.to_nat (getCategoryCount c)) in *.
  assert (Nj : forall j, nth j idx [] = bucket c j data).
  { intro j. rewrite N.
    replace (nth j (repeat (@nil SinglePlay.t) n) []) with (@nil SinglePlay.t)
      by (symmetry; apply nth_repeat).
    reflexivity. }
  split.
  - split.
    + rewrite L. unfold n. destruct c; reflexivity.
    + intros j r Hr'. rewrite Nj in Hr'. unfold bucket in Hr'.
      apply filter_In in Hr'. destruct Hr' as [_ E]. apply Z.eqb_eq in E. exact E.
  - assert (E : idx = map (fun j => bucket c j data) (seq 0 n)).
    { apply (nth_ext _ _ [] []).
      - rewrite length_map, length_seq. exact L.
      - intros j Hj. rewrite Nj.
        rewrite (nth_indep (map (fun j => bucket c j data) (seq 0 n)) []
                           ((fun j => bucket c j data) O))
          by (rewrite length_map, length_seq; lia).
        rewrite (map_nth (fun j => bucket c j data)).
        rewrite seq_nth by lia. reflexivity. }
    rewrite E. apply buckets_Permutation. exact R.
Qed.

(** A store whose downs are [unsigned char]s, as the constructor of
    [SinglePlay] leaves them, is indexed into a set with the invariant. *)
Lemma buildIndexes_invariant d d' :
  Forall (fun p => 0 <= SinglePlay._down p < 256) (DataStore._data d) ->
  DataStore._data d <> [] ->
  DataStore.buildIndexes d = OK d' ->
  invariant (DataStore.getIndexes d').
Proof.
  intros Hdown Hne H. unfold DataStore.buildIndexes in H.
  destruct (DataStore._data d) as [|p0 data0] eqn:Ed; [contradiction|].
  rewrite <- Ed in *. cbn [is_nil] in H.
  replace (is_nil (DataStore._data d)) with false in H by (rewrite Ed; reflexivity).
  assert (Hr : forall c, Forall (fun p => 0 <= getValue c p < 65536)
                                (DataStore._data d)).
  { intro c. eapply Forall_impl; [|exact Hdown].
    intros p Hp. cbv beta in Hp. destruct c; simpl.
    - lia.
    - destruct (_distanceNeeded p); simpl; lia.
    - destruct (_fieldLocation p); simpl; lia.
    - destruct (_timeRemaining p); simpl; lia.
    - destruct (_scoreDifferential p); simpl; lia. }
  apply bind_OK in H; destruct H as [i1 [E1 H]].
  apply bind_OK in H; destruct H as [i2 [E2 H]].
  apply bind_OK in H; destruct H as [i3 [E3 H]].
  apply bind_OK in H; destruct H as [i4 [E4 H]].
  apply bind_OK in H; destruct H as [i5 [E5 H]].
  apply bind_OK in H; destruct H as [ix [Ei H]].
  apply bind_OK in H; destruct H as [st [_ H]].
  inversion H; subst; clear H.
  apply buildIndex_spec in E1, E2, E3, E4, E5; try apply Hr.
  unfold setIndexes in Ei.
  destruct (is_nil i1 || is_nil i2 || is_nil i3 || is_nil i4 || is_nil i5);
    [discriminate|].
  inversion Ei; subst; clear Ei.
  unfold DataStore.getIndexes; cbn [DataStore._indexes].
  split; [|split].
  - intros c Hc. destruct c; discriminate Hc.
  - intros c _. destruct c; cbn [getIndex _downIndex _distanceNeededIndex
                               _fieldLocationIndex _timeRemainingIndex
                               _scoreDifferentialIndex]; tauto.
  - intros c c' _ _.
    assert (P : forall x, Permutation (concat (getIndex x
                 {| _indexes := PlayCharacteristicSet.insert score_differential
                      (PlayCharacteristicSet.insert time_remaining
                        (PlayCharacteristicSet.insert field_location
                          (PlayCharacteristicSet.insert distance_needed
                            (PlayCharacteristicSet.insert down_number
                              PlayCharacteristicSet.empty))));
                    _downIndex := i1; _distanceNeededIndex := i2;
                    _fieldLocationIndex := i3; _timeRemainingIndex := i4;
                    _scoreDifferentialIndex := i5 |}))
                 (DataStore._data d))
      by (intro x; destruct x; simpl; tauto).
    eapply Permutation_trans; [apply P | apply Permutation_sym, P].
Qed.

End InvariantFacts.

(* ================================================================== *)
(** * Further properties *)

(** ** Building the indexes and the overall statistics of a store *)

Module BuildFacts.
Import SinglePlay PlayIndexSet PlaySummaryFactory IndexSet Counting Vectors
       LeafFacts SplitCount InvariantFacts ByType.

Lemma push_back_at_OK {A : Type} (i : nat) (x : A) v :
  (i < length v)%nat -> exists v', push_back_at i x v = OK v'.
Proof.
  revert i; induction v as [|l v IH]; intros i H; simpl in H; [lia|].
  destruct i as [|i]; simpl; [eexists; reflexivity|].
  destruct (IH i) as [v' E]; [lia|]. rewrite E. eexists; reflexivity.
Qed.

(** The loop of [buildIndexes] for one index succeeds when every value
    selects an existing slot. *)
Lemma buildIndex_loop_OK c data :
  forall acc,
    Forall (fun p => 0 <= getValue c p < Z.of_nat (length acc)) data ->
    exists idx,
      foldM (fun index indexValue =>
               push_back_at (Z.to_nat (to_ushort (getValue c indexValue)))
                            indexValue index)
            data acc = OK idx.
Proof.
  induction data as [|p data IH]; intros acc H; simpl.
  - eexists; reflexivity.
  - inversion H as [|? ? Hp Hrest]; subst.
    destruct (Z.ltb_spec (getValue c p) 65536) as [Hs|Hb].
    + assert (Eu : to_ushort (getValue c p) = getValue c p)
        by (unfold to_ushort; apply Z.mod_small; lia).
      destruct (push_back_at_OK (Z.to_nat (to_ushort (getValue c p))) p acc)
        as [v' E]; [rewrite Eu; lia|].
      rewrite E. cbn [bind].
      apply IH. destruct (push_back_at_spec _ _ _ _ E) as [_ [L _]].
      rewrite L. exact Hrest.
    + pose proof (Z.mod_pos_bound (getValue c p) 65536 ltac:(lia)) as Hm.
      destruct (push_back_at_OK (Z.to_nat (to_ushort (getValue c p))) p acc)
        as [v' E]; [unfold to_ushort; lia|].
      rewrite E. cbn [bind].
      apply IH. destruct (push_back_at_spec _ _ _ _ E) as [_ [L _]].
      rewrite L. exact Hrest.
Qed.

Lemma categoryCount_nat c :
  Z.of_nat (Z.to_nat (getCategoryCount c)) = getCategoryCount c.
Proof. destruct c; reflexivity. Qed.

Lemma category_in_range c p :
  c <> down_number -> 0 <= getValue c p < getCategoryCount c.
Proof.
  intro H. destruct c; [contradiction| | | |]; simpl.
  - destruct (_distanceNeeded p); simpl; lia.
  - destruct (_fieldLocation p); simpl; lia.
  - destruct (_timeRemaining p); simpl; lia.
  - destruct (_scoreDifferential p); simpl; lia.
Qed.

Lemma buildIndex_OK c data :
  Forall (fun p => 0 <= getValue c p < getCategoryCount c) data ->
  exists idx, DataStore.buildIndex c data = OK idx.
Proof.
  intro H. unfold DataStore.buildIndex. apply buildIndex_loop_OK.
  rewrite repeat_length, categoryCount_nat. exact H.
Qed.

Lemma buildIndex_category_OK c data :
  c <> down_number -> exists idx, DataStore.buildIndex c data = OK idx.
Proof.
  intro H. apply buildIndex_OK. apply Forall_forall. intros p _.
  apply category_in_range; exact H.
Qed.

(** *** Counting plays by type *)

Lemma ofType_cons_same p plays :
  ofType (getPlayType p) (p :: plays) = p :: ofType (getPlayType p) plays.
Proof.
  unfold ofType; simpl. unfold PlayType_eqb. rewrite Z.eqb_refl. reflexivity.
Qed.

Lemma PlayType_val_inj a b : PlayType_val a = PlayType_val b -> a = b.
Proof. destruct a, b; simpl; intro H; try reflexivity; discriminate H. Qed.

Lemma ofType_cons_other ty p plays :
  getPlayType p <> ty -> ofType ty (p :: plays) = ofType ty plays.
Proof.
  intro H. unfold ofType; simpl. unfold PlayType_eqb.
  destruct (Z.eqb_spec (PlayType_val (getPlayType p)) (PlayType_val ty)) as [E|E];
    [|reflexivity].
  apply PlayType_val_inj in E. contradiction.
Qed.

Lemma slot_inj a b : slot a = slot b -> a = b.
Proof.
  unfold slot. intro H. apply PlayType_val_inj.
  destruct a, b; simpl in *; try reflexivity; discriminate H.
Qed.

Lemma nth_modify_same {A : Type} (f : A -> A) i v d :
  (i < length v)%nat -> nth i (modify f i v) d = f (nth i v d).
Proof.
  revert i; induction v as [|a v IH]; intros [|i] H; simpl in *; try lia.
  - reflexivity.
  - apply IH; lia.
Qed.

Lemma nth_modify_other {A : Type} (f : A -> A) i j v d :
  i <> j -> nth j (modify f i v) d = nth j v d.
Proof.
  revert i j; induction v as [|a v IH]; intros [|i] [|j] H; simpl;
    try reflexivity; try contradiction.
  apply IH; lia.
Qed.

Lemma turnovers_app l1 l2 c :
  turnovers (l1 ++ l2) c = turnovers l2 (turnovers l1 c).
Proof. unfold turnovers. apply fold_left_app. Qed.

(** What the two vectors hold once every play of [plays] is counted. *)
Lemma countPlay_fold plays :
  forall distances turnoverCounts,
    length distances = 11%nat -> length turnoverCounts = 11%nat ->
    exists ds ts,
      foldM countPlay plays (distances, turnoverCounts) = OK (ds, ts)
      /\ length ds = 11%nat /\ length ts = 11%nat
      /\ (forall ty, nth (slot ty) ds []
                     = nth (slot ty) distances []
                       ++ map getDistanceGained (ofType ty plays))
      /\ (forall ty, nth (slot ty) ts 0
                     = turnovers (ofType ty plays)
                                 (nth (slot ty) turnoverCounts 0)).
Proof.
  induction plays as [|p plays IH]; intros ds0 ts0 Hd Ht.
  - exists ds0, ts0. simpl. repeat split; auto.
    intro ty. rewrite app_nil_r. reflexivity.
  - change (foldM countPlay (p :: plays) (ds0, ts0))
      with (a' <- countPlay (ds0, ts0) p ;; foldM countPlay plays a').
    pose proof (slot_bound (getPlayType p)) as Hs.
    rewrite countPlay_OK by lia. cbn [bind].
    destruct (IH (modify (fun d => d ++ [getDistanceGained p])
                         (slot (getPlayType p)) ds0)
                 (modify (turnovers [p]) (slot (getPlayType p)) ts0))
      as [ds [ts [E [L1 [L2 [D T]]]]]];
      try (rewrite modify_length; assumption).
    exists ds, ts. split; [exact E|]. split; [exact L1|]. split; [exact L2|].
    split; intro ty.
    + rewrite D.
      assert (Hdec : getPlayType p = ty \/ getPlayType p <> ty)
        by (destruct (getPlayType p), ty;
            (left; reflexivity) || (right; discriminate)).
      destruct Hdec as [<-|Hne].
      * rewrite nth_modify_same by lia. rewrite ofType_cons_same.
        simpl. rewrite <- app_assoc. reflexivity.
      * rewrite nth_modify_other
          by (intro S; apply slot_inj in S; contradiction).
        rewrite ofType_cons_other by exact Hne. reflexivity.
    + rewrite T.
      assert (Hdec : getPlayType p = ty \/ getPlayType p <> ty)
        by (destruct (getPlayType p), ty;
            (left; reflexivity) || (right; discriminate)).
      destruct Hdec as [<-|Hne].
      * rewrite nth_modify_same by lia. rewrite ofType_cons_same.
        change (p :: ofType (getPlayType p) plays)
          with ([p] ++ ofType (getPlayType p) plays).
        rewrite turnovers_app. reflexivity.
      * rewrite nth_modify_other
          by (intro S; apply slot_inj in S; contradiction).
        rewrite ofType_cons_other by exact Hne. reflexivity.
Qed.

Lemma indexesToCounts_spec s :
  exists ds ts,
    indexesToCounts s (repeat [] 11) (repeat 0 11) = OK (ds, ts)
    /\ length ds = 11%nat /\ length ts = 11%nat
    /\ (forall ty, nth (slot ty) ds []
                   = map getDistanceGained (ofType ty (records s)))
    /\ (forall ty, nth (slot ty) ts 0 = turnovers (ofType ty (records s)) 0).
Proof.
  unfold indexesToCounts, records.
  destruct (PlayCharacteristicSet.elements (getIndexesAvailable s))
    as [|c rest].
  - exists (repeat [] 11), (repeat 0 11). repeat split; auto.
    + intro ty. destruct ty; reflexivity.
    + intro ty. destruct ty; reflexivity.
  - rewrite foldM_concat.
    destruct (countPlay_fold (concat (getIndex c s)) (repeat [] 11)
                (repeat 0 11) eq_refl eq_refl)
      as [ds [ts [E [L1 [L2 [D T]]]]]].
    exists ds, ts. repeat split; auto.
    + intro ty. rewrite D. destruct ty; reflexivity.
    + intro ty. rewrite T. destruct ty; reflexivity.
Qed.

Lemma buildSummaryData_loop_spec ds :
  forall ts, length ts = length ds ->
  exists data,
    buildSummaryData_loop ds ts = OK data
    /\ length data = length ds
    /\ forall i d, (i < length ds)%nat ->
         nth i data d
         = OverallPlaySummary.OverallPlaySummary (nth i ds []) (nth i ts 0).
Proof.
  induction ds as [|x ds IH]; intros [|c ts] H; simpl in H; try discriminate.
  - exists []. repeat split; auto. intros i d Hi; simpl in Hi; lia.
  - injection H as H. destruct (IH ts H) as [data [E [L N]]].
    exists (OverallPlaySummary.OverallPlaySummary x c :: data).
    simpl. rewrite E. repeat split; simpl; auto.
    intros [|i] d Hi; [reflexivity | apply N; lia].
Qed.

(** [buildSummaryData] in full. *)
Lemma buildSummaryData_spec s :
  exists data,
    buildSummaryData s = OK data
    /\ length data = 11%nat
    /\ forall ty d, nth (slot ty) data d = summaryOf ty (records s).
Proof.
  unfold buildSummaryData. change (Z.to_nat getPlayTypeCount) with 11%nat.
  destruct (indexesToCounts_spec s) as [ds [ts [E [L1 [L2 [D T]]]]]].
  rewrite E. cbn [bind].
  destruct (buildSummaryData_loop_spec ds ts) as [data [E' [L N]]]; [lia|].
  exists data. split; [exact E'|]. split; [lia|].
  intros ty d. rewrite N by (rewrite L1; apply slot_bound).
  rewrite D, T. reflexivity.
Qed.

(** *** The whole of [buildIndexes] *)

Lemma buildIndex_nonempty c data idx :
  DataStore.buildIndex c data = OK idx -> idx <> [].
Proof.
  intros H E. subst idx. unfold DataStore.buildIndex in H.
  assert (G : forall l acc r,
             foldM (fun index indexValue =>
                      push_back_at
                        (Z.to_nat (to_ushort (getValue c indexValue)))
                        indexValue index) l acc = OK r ->
             length r = length acc).
  { induction l as [|p l IH]; intros acc r Hr; simpl in Hr.
    - inversion Hr; reflexivity.
    - bind_inv Hr. apply IH in Hr.
      destruct (push_back_at_spec _ _ _ _ Hx) as [_ [L _]]. lia. }
  apply G in H. rewrite repeat_length in H.
  pose proof (categoryCount_pos c). simpl in H. lia.
Qed.

Lemma buildIndexes_OK d :
  DataStore._data d <> [] ->
  Forall (fun p => 0 <= _down p < 5) (DataStore._data d) ->
  exists d', DataStore.buildIndexes d = OK d'
             /\ DataStore._data d' = DataStore._data d.
Proof.
  intros Hne Hdown. unfold DataStore.buildIndexes.
  destruct (DataStore._data d) as [|p0 data0] eqn:Ed; [contradiction|].
  rewrite <- Ed in *. replace (is_nil (DataStore._data d)) with false
    by (rewrite Ed; reflexivity).
  destruct (buildIndex_OK down_number (DataStore._data d)) as [i1 E1];
    [exact Hdown|].
  destruct (buildIndex_category_OK distance_needed (DataStore._data d))
    as [i2 E2]; [discriminate|].
  destruct (buildIndex_category_OK field_location (DataStore._data d))
    as [i3 E3]; [discriminate|].
  destruct (buildIndex_category_OK time_remaining (DataStore._data d))
    as [i4 E4]; [discriminate|].
  destruct (buildIndex_category_OK score_differential (DataStore._data d))
    as [i5 E5]; [discriminate|].
  rewrite E1, E2, E3, E4, E5. cbn [bind].
  apply buildIndex_nonempty in E1, E2, E3, E4, E5.
  unfold setIndexes.
  destruct i1; [contradiction|]. destruct i2; [contradiction|].
  destruct i3; [contradiction|]. destruct i4; [contradiction|].
  destruct i5; [contradiction|]. cbn [is_nil orb bind].
  match goal with
  | |- context [buildSummaryData ?s] =>
      destruct (buildSummaryData_spec s) as [data [E _]]; rewrite E
  end.
  cbn [bind]. eexists. split; reflexivity.
Qed.

Lemma buildIndex_slots c data idx :
  Forall (fun p => 0 <= getValue c p < 65536) data ->
  DataStore.buildIndex c data = OK idx ->
  forall j, nth j idx [] = bucket c j data.
Proof.
  intros Hr H j. unfold DataStore.buildIndex in H.
  apply (buildIndex_loop_spec c data Hr) in H.
  destruct H as [_ [N _]]. rewrite N.
  replace (nth j (repeat (@nil SinglePlay.t)
                    (Z.to_nat (getCategoryCount c))) [])
    with (@nil SinglePlay.t) by (symmetry; apply nth_repeat).
  reflexivity.
Qed.

Lemma values_fit c data :
  Forall (fun p => 0 <= _down p < 256) data ->
  Forall (fun p => 0 <= getValue c p < 65536) data.
Proof.
  intro H. eapply Forall_impl; [|exact H].
  intros p Hp. cbv beta in Hp.
  destruct c; [simpl; lia| | | |];
    match goal with
    | |- context [getValue ?c p] =>
        assert (R : 0 <= getValue c p < getCategoryCount c)
          by (apply category_in_range; discriminate);
        simpl in R |- *; lia
    end.
Qed.

(** What [buildIndexes] stores when it returns. *)
Lemma buildIndexes_result d d' :
  DataStore._data d <> [] ->
  DataStore.buildIndexes d = OK d' ->
  exists i1 i2 i3 i4 i5 stats,
    DataStore.buildIndex down_number (DataStore._data d) = OK i1
    /\ DataStore.buildIndex distance_needed (DataStore._data d) = OK i2
    /\ DataStore.buildIndex field_location (DataStore._data d) = OK i3
    /\ DataStore.buildIndex time_remaining (DataStore._data d) = OK i4
    /\ DataStore.buildIndex score_differential (DataStore._data d) = OK i5
    /\ buildSummaryData (DataStore.getIndexes d') = OK stats
    /\ d' = DataStore.mk (DataStore._data d)
              (PlayIndexSet.mk
                 (PlayCharacteristicSet.mk true true true true true)
                 i1 i2 i3 i4 i5)
              stats.
Proof.
  intros Hne H. unfold DataStore.buildIndexes in H.
  destruct (DataStore._data d) as [|p0 data0] eqn:Ed; [contradiction|].
  rewrite <- Ed in *. replace (is_nil (DataStore._data d)) with false in H
    by (rewrite Ed; reflexivity).
  apply bind_OK in H; destruct H as [i1 [E1 H]].
  apply bind_OK in H; destruct H as [i2 [E2 H]].
  apply bind_OK in H; destruct H as [i3 [E3 H]].
  apply bind_OK in H; destruct H as [i4 [E4 H]].
  apply bind_OK in H; destruct H as [i5 [E5 H]].
  apply bind_OK in H; destruct H as [ix [Ei H]].
  apply bind_OK in H; destruct H as [st [Es H]].
  inversion H; subst; clear H.
  unfold setIndexes in Ei.
  destruct (is_nil i1 || is_nil i2 || is_nil i3 || is_nil i4 || is_nil i5);
    [discriminate|].
  inversion Ei; subst; clear Ei.
  exists i1, i2, i3, i4, i5, st. repeat split; auto.
Qed.

Lemma downs_fit (data : list SinglePlay.t) :
  Forall (fun p => 0 <= _down p < 5) data ->
  Forall (fun p => 0 <= _down p < 256) data.
Proof.
  intro H. eapply Forall_impl; [|exact H]. cbv beta. intros p Hp. lia.
Qed.

(** What the indexes hold once [buildIndexes] has returned. *)
Lemma files_by_value d d' :
  DataStore._data d <> [] ->
  Forall (fun p => 0 <= _down p < 256) (DataStore._data d) ->
  DataStore.buildIndexes d = OK d' ->
  DataStore._data d' = DataStore._data d
  /\ PlayCharacteristicSet.elements
       (PlayIndexSet.getIndexesAvailable (DataStore.getIndexes d'))
     = all_characteristics
  /\ forall c j,
       nth j (PlayIndexSet.getIndex c (DataStore.getIndexes d')) []
       = bucket c j (DataStore._data d).
Proof.
  intros Hne Hr H.
  destruct (buildIndexes_result d d' Hne H)
    as [i1 [i2 [i3 [i4 [i5 [st [E1 [E2 [E3 [E4 [E5 [_ ->]]]]]]]]]]]].
  split; [reflexivity|]. split; [reflexivity|].
  intros c j.
  destruct c; simpl;
    eapply buildIndex_slots; eauto using values_fit.
Qed.

(** What the baseline counts once [buildIndexes] has returned. *)
Lemma counts_by_type d d' ty unused :
  DataStore._data d <> [] ->
  Forall (fun p => 0 <= _down p < 256) (DataStore._data d) ->
  DataStore.buildIndexes d = OK d' ->
  length (DataStore.getPlaySummaryStats d') = 11%nat
  /\ OverallPlaySummary.getTotalCount
       (nth (Vectors.slot ty) (DataStore.getPlaySummaryStats d') unused)
     = to_short (Z.of_nat (length (ByType.ofType ty (DataStore._data d)))).
Proof.
  intros Hne Hr H.
  destruct (buildIndexes_result d d' Hne H)
    as [i1 [i2 [i3 [i4 [i5 [st [E1 [_ [_ [_ [_ [Es ->]]]]]]]]]]]].
  destruct (buildSummaryData_spec
              (DataStore.getIndexes
                 (DataStore.mk (DataStore._data d)
                    (PlayIndexSet.mk
                       (PlayCharacteristicSet.mk true true true true true)
                       i1 i2 i3 i4 i5) st)))
    as [data [E [L N]]].
  rewrite Es in E. inversion E; subst data; clear E.
  split; [exact L|].
  unfold DataStore.getPlaySummaryStats; cbn [DataStore._playSummaryStats].
  rewrite N. unfold ByType.summaryOf.
  assert (P : Permutation
                (IndexSet.records
                   (DataStore.getIndexes
                      (DataStore.mk (DataStore._data d)
                         (PlayIndexSet.mk
                            (PlayCharacteristicSet.mk true true true true true)
                            i1 i2 i3 i4 i5) st)))
                (DataStore._data d)).
  { unfold IndexSet.records. simpl.
    apply (InvariantFacts.buildIndex_spec SinglePlay.down_number); [|exact E1].
    apply values_fit. exact Hr. }
  set (plays := IndexSet.records _) in *.
  assert (Lp : length (ByType.ofType ty plays)
               = length (ByType.ofType ty (DataStore._data d))).
  { apply Permutation_length. unfold ByType.ofType.
    apply InvariantFacts.Permutation_filter. exact P. }
  unfold OverallPlaySummary.OverallPlaySummary.
  rewrite length_map, Lp.
  destruct (to_short (Z.of_nat (length (ByType.ofType ty (DataStore._data d)))) >? 0);
    reflexivity.
Qed.

End BuildFacts.

(** X1: [buildIndexes] returns on every store whose downs are all from 0 to 4,
    the slots of the down index, and keeps the plays; a store without
    plays is returned as it is. *)
Theorem buildIndexes_returns_for_downs_below_five (d : DataStore.t) :
  Forall (fun p => 0 <= SinglePlay._down p < 5) (DataStore._data d) ->
  exists d',
    DataStore.buildIndexes d = OK d'
    /\ DataStore._data d' = DataStore._data d
    /\ (DataStore._data d = [] -> d' = d).
Proof.
  intro Hd. destruct (DataStore._data d) as [|p data] eqn:Ed.
  - exists d. split; [|split; [exact Ed | reflexivity]].
    unfold DataStore.buildIndexes. rewrite Ed. reflexivity.
  - destruct (BuildFacts.buildIndexes_OK d) as [d' [E Hdata]].
    + rewrite Ed. discriminate.
    + rewrite Ed. exact Hd.
    + exists d'. split; [exact E|]. split; [rewrite Hdata; exact Ed|].
      discriminate.
Qed.

Lemma buildIndexes_returns_for_downs_below_five_witness :
  exists d',
    DataStore.buildIndexes Samples.store = OK d'
    /\ DataStore._data d' = DataStore._data Samples.store
    /\ (DataStore._data Samples.store = [] -> d' = Samples.store).
Proof.
  apply (buildIndexes_returns_for_downs_below_five Samples.store).
  vm_compute.
  repeat (constructor; [split; [discriminate | reflexivity] |]).
  constructor.
Defined.

(** X2: On a store that holds plays, all with a down from 0 to 4,
    [buildIndexes] returns a store with the same plays in which all five
    characteristics are available and slot [j] of the index of every
    characteristic holds the plays whose value for that characteristic is
    [j], in the order of their insertion. *)
Theorem buildIndexes_files_plays_by_value (d : DataStore.t) :
  DataStore._data d <> [] ->
  Forall (fun p => 0 <= SinglePlay._down p < 5) (DataStore._data d) ->
  exists d',
    DataStore.buildIndexes d = OK d'
    /\ DataStore._data d' = DataStore._data d
    /\ PlayCharacteristicSet.elements
         (PlayIndexSet.getIndexesAvailable (DataStore.getIndexes d'))
       = SinglePlay.all_characteristics
    /\ forall c j,
         nth j (PlayIndexSet.getIndex c (DataStore.getIndexes d')) []
         = Counting.bucket c j (DataStore._data d).
Proof.
  intros Hne Hd.
  destruct (BuildFacts.buildIndexes_OK d Hne Hd) as [d' [E _]].
  exists d'. split; [exact E|].
  apply BuildFacts.files_by_value; [exact Hne | | exact E].
  apply BuildFacts.downs_fit. exact Hd.
Qed.

Lemma buildIndexes_files_plays_by_value_witness :
  exists d',
    DataStore.buildIndexes Samples.store = OK d'
    /\ DataStore._data d' = DataStore._data Samples.store
    /\ PlayCharacteristicSet.elements
         (PlayIndexSet.getIndexesAvailable (DataStore.getIndexes d'))
       = SinglePlay.all_characteristics
    /\ forall c j,
         nth j (PlayIndexSet.getIndex c (DataStore.getIndexes d')) []
         = Counting.bucket c j (DataStore._data Samples.store).
Proof.
  apply (buildIndexes_files_plays_by_value Samples.store).
  - vm_compute. discriminate.
  - vm_compute.
    repeat (constructor; [split; [discriminate | reflexivity] |]).
    constructor.
Defined.

(** X3: On a store that holds plays, all with a down from 0 to 4,
    [buildIndexes] returns a store whose index set satisfies the invariant
    of index sets. *)
Theorem buildIndexes_establishes_invariant (d : DataStore.t) :
  DataStore._data d <> [] ->
  Forall (fun p => 0 <= SinglePlay._down p < 5) (DataStore._data d) ->
  exists d',
    DataStore.buildIndexes d = OK d'
    /\ IndexSet.invariant (DataStore.getIndexes d').
Proof.
  intros Hne Hd.
  destruct (BuildFacts.buildIndexes_OK d Hne Hd) as [d' [E _]].
  exists d'. split; [exact E|].
  apply (InvariantFacts.buildIndexes_invariant d d'); [| exact Hne | exact E].
  apply BuildFacts.downs_fit. exact Hd.
Qed.

Lemma buildIndexes_establishes_invariant_witness :
  exists d',
    DataStore.buildIndexes Samples.store = OK d'
    /\ IndexSet.invariant (DataStore.getIndexes d').
Proof.
  apply (buildIndexes_establishes_invariant Samples.store).
  - vm_compute. discriminate.
  - vm_compute.
    repeat (constructor; [split; [discriminate | reflexivity] |]).
    constructor.
Defined.

(** X4: On a store that holds plays, all with a down from 0 to 4,
    [buildIndexes] returns a store whose overall statistics have one entry
    per play type, the entry of a type counting the plays of that type in
    the store (on a [short]). *)
Theorem buildIndexes_counts_plays_by_type (d : DataStore.t) :
  DataStore._data d <> [] ->
  Forall (fun p => 0 <= SinglePlay._down p < 5) (DataStore._data d) ->
  exists d',
    DataStore.buildIndexes d = OK d'
    /\ length (DataStore.getPlaySummaryStats d') = 11%nat
    /\ forall ty unused,
         OverallPlaySummary.getTotalCount
           (nth (Vectors.slot ty) (DataStore.getPlaySummaryStats d') unused)
         = to_short (Z.of_nat (length (ByType.ofType ty (DataStore._data d)))).
Proof.
  intros Hne Hd.
  destruct (BuildFacts.buildIndexes_OK d Hne Hd) as [d' [E _]].
  pose proof (BuildFacts.downs_fit _ Hd) as Hr.
  exists d'. split; [exact E|]. split.
  - exact (proj1 (BuildFacts.counts_by_type d d' SinglePlay.punt
                    (OverallPlaySummary.mk 0 0 0 0) Hne Hr E)).
  - intros ty unused.
    exact (proj2 (BuildFacts.counts_by_type d d' ty unused Hne Hr E)).
Qed.

Lemma buildIndexes_counts_plays_by_type_witness :
  exists d',
    DataStore.buildIndexes Samples.store = OK d'
    /\ length (DataStore.getPlaySummaryStats d') = 11%nat
    /\ forall ty unused,
         OverallPlaySummary.getTotalCount
           (nth (Vectors.slot ty) (DataStore.getPlaySummaryStats d') unused)
         = to_short (Z.of_nat (length (ByType.ofType ty
                                         (DataStore._data Samples.store)))).
Proof.
  apply (buildIndexes_counts_plays_by_type Samples.store).
  - vm_compute. discriminate.
  - vm_compute.
    repeat (constructor; [split; [discriminate | reflexivity] |]).
    constructor.
Defined.

(** ** A split of a consistent index set returns *)

Module SplitTotal.
Import SinglePlay PlayIndexSet IndexFacts IndexSet Counting SplitCount SplitCover
       SplitChain SplitResult SplitInvariant InvariantFacts BuildFacts.

Lemma splitIndexHelper_loop_OK a l :
  forall acc, Forall (inRange a (length acc)) l ->
  exists r, splitIndexHelper_loop a l acc = OK r.
Proof.
  induction l as [|p l IH]; intros acc H; simpl.
  - eexists; reflexivity.
  - inversion H as [|? ? Hp Hrest]; subst. unfold inRange in Hp.
    destruct (Z.ltb_spec (getValue a p) 0) as [Hneg|_]; [lia|].
    destruct (push_back_at_OK (Z.to_nat (getValue a p)) p acc) as [v' E];
      [lia|].
    rewrite E. cbn [bind]. apply IH.
    destruct (push_back_at_spec _ _ _ _ E) as [_ [L _]].
    rewrite L. exact Hrest.
Qed.

Lemma splitIndexHelper_OK a l :
  Forall (inRange a (Z.to_nat (getCategoryCount a))) l ->
  exists r, splitIndexHelper a l = OK r.
Proof.
  intro H. unfold splitIndexHelper.
  destruct (is_nil (repeat [] (Z.to_nat (getCategoryCount a))));
    [eexists; reflexivity|].
  apply splitIndexHelper_loop_OK. rewrite repeat_length. exact H.
Qed.

Lemma splitAll_OK a X :
  Forall (Forall (inRange a (Z.to_nat (getCategoryCount a)))) X ->
  forall counts0, exists results counts,
    splitAll a X counts0 = OK (results, counts).
Proof.
  induction 1 as [|l X Hl _ IH]; intro counts0; simpl.
  - eexists; eexists; reflexivity.
  - destruct (splitIndexHelper_OK a l Hl) as [r E]. rewrite E. cbn [bind].
    destruct (IH (addSizes counts0 r)) as [rs [cs E']]. rewrite E'.
    eexists; eexists; reflexivity.
Qed.

Lemma swapRemaining_OK results cs :
  forall index targets,
    length targets = visibleCount cs ->
    exists outs, swapRemaining results cs index targets = OK outs.
Proof.
  induction cs as [|c cs IH]; intros index targets H; simpl in *.
  - destruct targets; [eexists; reflexivity | discriminate].
  - destruct (c =? 0); [apply IH; exact H|].
    destruct targets as [|t targets]; [discriminate|].
    destruct (IH (S index) targets) as [outs E]; [simpl in H; lia|].
    rewrite E. eexists; reflexivity.
Qed.

Lemma firstNonEmpty_Some cs :
  forall index, visibleCount cs <> O ->
  exists f, firstNonEmpty cs index = Some f.
Proof.
  induction cs as [|c cs IH]; intros index H; simpl in *; [contradiction|].
  destruct (c =? 0); [apply IH; exact H | eexists; reflexivity].
Qed.

Lemma visibleCount_visibleFrom cs :
  forall index, visibleCount cs = length (visibleFrom cs index).
Proof.
  induction cs as [|c cs IH]; intro index; simpl; [reflexivity|].
  destruct (c =? 0); simpl; rewrite (IH (S index)); reflexivity.
Qed.

(** [splitIndex] returns when the plays are in range and the targets are
    as many as the visible categories but one. *)
Lemma splitIndex_OK a X targets :
  Forall (Forall (inRange a (Z.to_nat (getCategoryCount a)))) X ->
  (forall results counts,
     splitAll a X (repeat 0 (Z.to_nat (getCategoryCount a)))
     = OK (results, counts) ->
     visibleCount counts = S (length targets)) ->
  exists r, splitIndex a X targets = OK r.
Proof.
  intros Hr Hv. unfold splitIndex.
  destruct (is_nil X); [eexists; reflexivity|].
  destruct (splitAll_OK a X Hr (repeat 0 (Z.to_nat (getCategoryCount a))))
    as [results [counts E]].
  rewrite E. cbn [bind]. specialize (Hv _ _ E).
  destruct (firstNonEmpty_Some counts O) as [f Ef]; [lia|].
  rewrite Ef.
  destruct (firstNonEmpty_spec (fun _ => O) _ _ _ Ef) as [_ [_ F3]].
  rewrite Nat.sub_0_r in F3.
  destruct (swapRemaining_OK results (skipn (S f) counts) (S f) targets)
    as [outs Eo]; [lia|].
  rewrite Eo. eexists; reflexivity.
Qed.

(** Below 65536 plays no populated category hides behind a wrapped
    count. *)
Lemma visible_is_populated_small a (A X : list (list SinglePlay.t)) counts :
  partitions a A ->
  Permutation (concat X) (concat A) ->
  length counts = Z.to_nat (getCategoryCount a) ->
  (forall j, (j < length counts)%nat ->
     nth j counts 0 = 0 <-> Z.of_nat (weight a X j) mod 65536 = 0) ->
  Z.of_nat (recordCount A) < 65536 ->
  visibleFrom counts 0 = populated A.
Proof.
  intros [LenA PartA] Perm C1 C2 Hsmall.
  set (n := Z.to_nat (getCategoryCount a)) in *.
  assert (HlenA : length A = n) by (unfold n; lia).
  assert (W : forall j, (j < n)%nat -> weight a X j = length (nth j A [])).
  { intros j Hj. rewrite (weight_Permutation a X A j Perm).
    rewrite (partition_weight a A 0 j) by exact PartA.
    rewrite HlenA, Nat.sub_0_r.
    destruct (Nat.ltb_spec j (0 + n)); [reflexivity | lia]. }
  assert (B : forall j, (j < n)%nat ->
                (length (nth j A []) <= recordCount A)%nat).
  { intros j Hj. unfold recordCount.
    assert (Hin : In (nth j A []) A) by (apply nth_In; lia).
    generalize dependent (nth j A []). clear.
    intros x Hin. induction A as [|l A IH]; [contradiction|].
    simpl. rewrite length_app. destruct Hin as [E|Hin]; [subst; lia|].
    specialize (IH Hin). lia. }
  rewrite visibleFrom_filter. unfold populated. rewrite C1, HlenA.
  apply filter_ext_in. intros j Hj. apply in_seq in Hj.
  rewrite Nat.sub_0_r. f_equal.
  specialize (C2 j ltac:(lia)). rewrite W in C2 by lia.
  specialize (B j ltac:(lia)).
  destruct (nth j A []) as [|r rest] eqn:E.
  - simpl in C2. apply Z.eqb_eq. apply C2. reflexivity.
  - simpl is_nil. apply Z.eqb_neq. intro Hz. apply C2 in Hz.
    rewrite Z.mod_small in Hz by lia. simpl in Hz. lia.
Qed.

Lemma In_concat_nth (A : list (list SinglePlay.t)) r :
  In r (concat A) -> exists j, (j < length A)%nat /\ In r (nth j A []).
Proof.
  intro H. apply in_concat in H. destruct H as [l [Hl Hr]].
  destruct (In_nth A l [] Hl) as [j [Hj E]].
  exists j. split; [exact Hj | rewrite E; exact Hr].
Qed.

(** The five blocks return when each of the five splits returns. *)
Lemma split_chain_OK a s1 sibs0 :
  (forall b, exists r,
     splitIndex a (getIndex b s1) (map (getIndex b) sibs0) = OK r) ->
  exists r,
    (st <- splitField a down_number (s1, sibs0) ;;
     st <- splitField a distance_needed st ;;
     st <- splitField a field_location st ;;
     st <- splitField a time_remaining st ;;
     splitField a score_differential st) = OK r.
Proof.
  intro H.
  assert (Step : forall f self sibs,
             getIndex f self = getIndex f s1 ->
             map (getIndex f) sibs = map (getIndex f) sibs0 ->
             exists self' sibs',
               splitField a f (self, sibs) = OK (self', sibs')).
  { intros f self sibs E1 E2. unfold splitField. rewrite E1, E2.
    destruct (H f) as [[mine others] E]. rewrite E. cbn [bind].
    eexists; eexists; reflexivity. }
  destruct (Step down_number s1 sibs0 eq_refl eq_refl) as [t1 [u1 E1]].
  rewrite E1. cbn [bind].
  pose proof (splitField_view _ _ _ _ _ _ E1) as [_ [O1 _]].
  destruct (Step distance_needed t1 u1) as [t2 [u2 E2]];
    [apply O1; discriminate | apply O1; discriminate|].
  rewrite E2. cbn [bind].
  pose proof (splitField_view _ _ _ _ _ _ E2) as [_ [O2 _]].
  destruct (Step field_location t2 u2) as [t3 [u3 E3]].
  { destruct (O2 field_location ltac:(discriminate)) as [-> _].
    apply O1; discriminate. }
  { destruct (O2 field_location ltac:(discriminate)) as [_ ->].
    apply O1; discriminate. }
  rewrite E3. cbn [bind].
  pose proof (splitField_view _ _ _ _ _ _ E3) as [_ [O3 _]].
  destruct (Step time_remaining t3 u3) as [t4 [u4 E4]].
  { destruct (O3 time_remaining ltac:(discriminate)) as [-> _].
    destruct (O2 time_remaining ltac:(discriminate)) as [-> _].
    apply O1; discriminate. }
  { destruct (O3 time_remaining ltac:(discriminate)) as [_ ->].
    destruct (O2 time_remaining ltac:(discriminate)) as [_ ->].
    apply O1; discriminate. }
  rewrite E4. cbn [bind].
  pose proof (splitField_view _ _ _ _ _ _ E4) as [_ [O4 _]].
  destruct (Step score_differential t4 u4) as [t5 [u5 E5]].
  { destruct (O4 score_differential ltac:(discriminate)) as [-> _].
    destruct (O3 score_differential ltac:(discriminate)) as [-> _].
    destruct (O2 score_differential ltac:(discriminate)) as [-> _].
    apply O1; discriminate. }
  { destruct (O4 score_differential ltac:(discriminate)) as [_ ->].
    destruct (O3 score_differential ltac:(discriminate)) as [_ ->].
    destruct (O2 score_differential ltac:(discriminate)) as [_ ->].
    apply O1; discriminate. }
  rewrite E5. eexists; reflexivity.
Qed.

(** All tracked partitions hold as many plays as [records] lists. *)
Lemma recordCount_records s c :
  invariant s ->
  PlayCharacteristicSet.mem c (getIndexesAvailable s) = true ->
  Permutation (concat (getIndex c s)) (records s).
Proof.
  intros [_ [_ Inv3]] Hc. unfold records.
  destruct (PlayCharacteristicSet.elements (getIndexesAvailable s))
    as [|c0 rest] eqn:E.
  - exfalso. apply SetFacts.mem_elements in Hc.
    unfold getIndexesAvailable in *. rewrite E in Hc. contradiction.
  - apply Inv3; [exact Hc|].
    apply SetFacts.mem_elements. unfold getIndexesAvailable in *.
    rewrite E. left; reflexivity.
Qed.

Lemma split_returns s a :
  invariant s ->
  Z.of_nat (length (records s)) < 65536 ->
  exists r, splitIndexByCharacteristic a s = OK r.
Proof.
  intros Inv Hsmall. pose proof Inv as [Inv1 [Inv2 Inv3]].
  unfold splitIndexByCharacteristic.
  set (A := getIndex a s) in *.
  set (m := length (filter (fun i => negb (is_nil i)) A)).
  assert (Hm : countNonEmpty A = to_ushort (Z.of_nat m)) by reflexivity.
  destruct (Z.leb_spec (countNonEmpty A) 1) as [Hle|Hgt];
    [eexists; reflexivity|].
  assert (Ta : PlayCharacteristicSet.mem a (getIndexesAvailable s) = true).
  { destruct (PlayCharacteristicSet.mem a (getIndexesAvailable s)) eqn:E;
      [reflexivity|].
    exfalso. apply Inv1 in E. unfold A in Hgt. rewrite E in Hgt.
    vm_compute in Hgt. discriminate. }
  pose proof (Inv2 a Ta) as PartA. fold A in PartA.
  pose proof PartA as [LenA PartA'].
  set (n := Z.to_nat (getCategoryCount a)) in *.
  assert (HlenA : length A = n) by (unfold n; lia).
  assert (Hn7 : (n <= 7)%nat) by (unfold n; destruct a; vm_compute; lia).
  assert (Hmn : (m <= n)%nat)
    by (unfold m; rewrite <- HlenA; apply filter_length_le).
  assert (Hcount : countNonEmpty A = Z.of_nat m).
  { rewrite Hm. unfold to_ushort. apply Z.mod_small. lia. }
  rewrite Hcount in *.
  assert (Hpop : length (populated A) = m).
  { unfold populated, m.
    apply (filter_nth_seq (fun i => negb (is_nil i)) [] A). }
  assert (HsmallA : Z.of_nat (recordCount A) < 65536).
  { change (Z.of_nat (length (concat (getIndex a s))) < 65536).
    rewrite (Permutation_length (recordCount_records s a Inv Ta)).
    exact Hsmall. }
  set (s1 := dropIndex a s) in *.
  apply split_chain_OK. intro b.
  set (sibs0 := repeat _ _).
  assert (Htargets : map (getIndex b) sibs0
                     = repeat [] (Z.to_nat (Z.of_nat m - 1))).
  { unfold sibs0. rewrite map_repeat. f_equal. destruct b; reflexivity. }
  rewrite Htargets.
  destruct (getIndex b s1) as [|x0 X0] eqn:EX; [eexists; reflexivity|].
  rewrite <- EX.
  assert (HX : getIndex b s1 <> []) by (rewrite EX; discriminate).
  assert (Hsame : getIndex b s1 = getIndex b s
                  /\ PlayCharacteristicSet.mem b (getIndexesAvailable s) = true).
  { assert (Hdec : b = a \/ b <> a)
      by (destruct b, a; (left; reflexivity) || (right; discriminate)).
    assert (Hg : getIndex b s1 = getIndex b s).
    { destruct Hdec as [->|Hne].
      - destruct (Z.eq_dec (PlayCharacteristicSet.size (_indexes s)) 1)
          as [E|E].
        + unfold s1. rewrite dropIndex_sole by exact E. reflexivity.
        + apply dropIndex_drops with (c := a) in E.
          destruct E as [E _]. fold s1 in E. contradiction.
      - apply dropIndex_frame; exact Hne. }
    split; [exact Hg|].
    destruct (PlayCharacteristicSet.mem b (getIndexesAvailable s)) eqn:E;
      [reflexivity|].
    apply Inv1 in E. rewrite <- Hg in E. contradiction. }
  destruct Hsame as [Hg Tb]. rewrite Hg.
  assert (Perm : Permutation (concat (getIndex b s)) (concat A))
    by (apply Inv3; assumption).
  assert (Hrange : Forall (Forall (inRange a n)) (getIndex b s)).
  { apply Forall_forall. intros l Hl. apply Forall_forall. intros r Hr.
    assert (Hin : In r (concat A)).
    { eapply Permutation_in; [exact Perm|].
      apply in_concat. exists l. split; assumption. }
    apply In_concat_nth in Hin. destruct Hin as [j [Hj Hrj]].
    unfold inRange. rewrite (PartA' j r Hrj). lia. }
  apply splitIndex_OK; [exact Hrange|].
  intros results counts E.
  apply splitAll_spec in E;
    [|apply repeat_length | apply Forall_forall; intros c Hc;
                            apply repeat_spec in Hc; lia].
  rewrite repeat_length in E. destruct E as [S1 [S2 [S3 [S4 S5]]]].
  assert (C2 : forall j, (j < length counts)%nat ->
                 nth j counts 0 = 0
                 <-> Z.of_nat (weight a (getIndex b s) j) mod 65536 = 0).
  { intros j Hj. rewrite S1 in Hj. specialize (S4 j Hj).
    replace (nth j (repeat 0 (Z.to_nat (getCategoryCount a))) 0) with 0 in S4
      by (symmetry; apply nth_repeat).
    simpl in S4. rewrite <- S4.
    assert (R : -32768 <= nth j counts 0 < 32768).
    { rewrite Forall_forall in S2. apply S2. apply nth_In. lia. }
    split; [intros ->; reflexivity|].
    intro M. apply Z.mod_divide in M; [|lia]. destruct M as [q M].
    clear - R M. lia. }
  rewrite (visibleCount_visibleFrom counts O).
  rewrite (visible_is_populated_small a A (getIndex b s) counts PartA Perm
             S1 C2 HsmallA).
  rewrite Hpop, repeat_length. lia.
Qed.

Lemma split_hands_out (s s' : PlayIndexSet.t) a (siblings : list PlayIndexSet.t) :
  invariant s ->
  splitIndexByCharacteristic a s = OK (s', siblings) ->
  siblings <> [] ->
  s' :: siblings
  = map (fun j => restrict a j (dropIndex a s)) (populated (getIndex a s)).
Proof.
  intros Inv H Hs.
  destruct (split_explicit s s' a siblings Inv H Hs) as [f [js [Ep [-> ->]]]].
  rewrite Ep. reflexivity.
Qed.

End SplitTotal.

(** X5: On an index set that satisfies the invariant and holds fewer than
    65536 plays, [splitIndexByCharacteristic] returns: none of the three
    failures of [splitIndex] can happen, and no play is filed outside a
    vector. *)
Theorem split_of_consistent_set_returns (s : PlayIndexSet.t)
    (a : SinglePlay.PlayCharacteristic) :
  IndexSet.invariant s ->
  Z.of_nat (length (IndexSet.records s)) < 65536 ->
  exists s' siblings,
    PlayIndexSet.splitIndexByCharacteristic a s = OK (s', siblings).
Proof.
  intros Inv Hsmall.
  destruct (SplitTotal.split_returns s a Inv Hsmall) as [[s' siblings] E].
  exists s', siblings. exact E.
Qed.

Lemma split_of_consistent_set_returns_witness :
  exists s' siblings,
    PlayIndexSet.splitIndexByCharacteristic SinglePlay.down_number
      Samples.indexes = OK (s', siblings).
Proof.
  apply (split_of_consistent_set_returns Samples.indexes
           SinglePlay.down_number).
  - exact SampleFacts.indexes_invariant.
  - vm_compute. reflexivity.
Defined.

(** X6: When a split of a consistent index set returns siblings, the set and
    the siblings are, in category order, one index set per populated
    category of the split characteristic: the set as [dropIndex] for the
    split characteristic leaves it (the characteristic cleared and
    untracked, or nothing changed when it is the only one tracked), with
    every partition cut down to the plays of that category. *)
Theorem split_hands_out_populated_categories (s s' : PlayIndexSet.t)
    (a : SinglePlay.PlayCharacteristic) (siblings : list PlayIndexSet.t) :
  IndexSet.invariant s ->
  PlayIndexSet.splitIndexByCharacteristic a s = OK (s', siblings) ->
  siblings <> [] ->
  s' :: siblings
  = map (fun j => Counting.restrict a j (PlayIndexSet.dropIndex a s))
        (Counting.populated (PlayIndexSet.getIndex a s)).
Proof.
  intros Inv H Hs. exact (SplitTotal.split_hands_out s s' a siblings Inv H Hs).
Qed.

Lemma split_hands_out_populated_categories_witness :
  Examples.runs :: [Samples.punts]
  = map (fun j => Counting.restrict SinglePlay.down_number j
                    (PlayIndexSet.dropIndex SinglePlay.down_number
                       Samples.indexes))
        (Counting.populated
           (PlayIndexSet.getIndex SinglePlay.down_number Samples.indexes)).
Proof.
  apply (split_hands_out_populated_categories Samples.indexes
           Examples.runs SinglePlay.down_number [Samples.punts]).
  - exact SampleFacts.indexes_invariant.
  - vm_compute. reflexivity.
  - discriminate.
Defined.

(** X7: A split keeps the invariant of index sets: it holds again for the set
    as mutated and for every sibling returned. *)
Theorem split_keeps_invariant (s s' : PlayIndexSet.t)
    (a : SinglePlay.PlayCharacteristic) (siblings : list PlayIndexSet.t) :
  IndexSet.invariant s ->
  PlayIndexSet.splitIndexByCharacteristic a s = OK (s', siblings) ->
  IndexSet.invariant s' /\ Forall IndexSet.invariant siblings.
Proof.
  intros Inv H. exact (InvariantFacts.split_preserves_invariant s a s' siblings Inv H).
Qed.

Lemma split_keeps_invariant_witness :
  IndexSet.invariant Examples.runs
  /\ Forall IndexSet.invariant [Samples.punts].
Proof.
  apply (split_keeps_invariant Samples.indexes Examples.runs
           SinglePlay.down_number [Samples.punts]).
  - exact SampleFacts.indexes_invariant.
  - vm_compute. reflexivity.
Defined.

(** ** Statistics of a group of plays *)

Module SummaryFacts.
Import SinglePlay PlaySummaryFactory Vectors LeafFacts SplitCount Stats.

Lemma to_short_cong a b : a mod 65536 = b mod 65536 -> to_short a = to_short b.
Proof.
  intro H. unfold to_short. f_equal.
  rewrite (Zplus_mod a), (Zplus_mod b), H. reflexivity.
Qed.

Lemma to_short_idem_add a d : to_short (to_short a + d) = to_short (a + d).
Proof.
  apply to_short_cong.
  rewrite Zplus_mod, to_short_mod, <- Zplus_mod. reflexivity.
Qed.

(** Summing on a [short] gives the exact sum, wrapped once. *)
Lemma totalDistance_wraps l a :
  fold_left (fun acc d => to_short (acc + d)) l (to_short a)
  = to_short (a + sum l).
Proof.
  revert a; induction l as [|d l IH]; intro a; simpl.
  - f_equal. lia.
  - rewrite to_short_idem_add, IH. f_equal. lia.
Qed.

Lemma totalDistance_exact l :
  fold_left (fun acc d => to_short (acc + d)) l 0 = to_short (sum l).
Proof. exact (totalDistance_wraps l 0). Qed.

Lemma sum_bounds l lo hi :
  Forall (fun d => lo <= d <= hi) l ->
  Z.of_nat (length l) * lo <= sum l <= Z.of_nat (length l) * hi.
Proof.
  induction 1 as [|d l Hd _ IH]; [simpl; lia|].
  change (sum (d :: l)) with (d + sum l).
  change (length (d :: l)) with (S (length l)). lia.
Qed.

Lemma quot_between s n lo hi :
  0 < n -> n * lo <= s <= n * hi -> lo <= Z.quot s n <= hi.
Proof.
  intros Hn Hs.
  destruct (Z_le_gt_dec 0 s) as [Hpos|Hneg].
  - rewrite Z.quot_div_nonneg by lia. split.
    + apply Z.div_le_lower_bound; lia.
    + apply Z.div_le_upper_bound; lia.
  - replace s with (- (- s)) by lia. rewrite Z.quot_opp_l by lia.
    rewrite Z.quot_div_nonneg by lia.
    assert (- hi <= (- s) / n) by (apply Z.div_le_lower_bound; lia).
    assert ((- s) / n <= - lo) by (apply Z.div_le_upper_bound; lia).
    lia.
Qed.

(** The squared deviations, summed on an [int] without wrap-around. *)
Lemma totalVariance_bounds l avg w acc :
  Forall (fun d => - w <= d - avg <= w) l ->
  0 <= acc ->
  acc + Z.of_nat (length l) * (w * w) <= 2147483647 ->
  0 <= fold_left
         (fun acc d => to_int (acc + to_int ((d - avg) * (d - avg)))) l acc
    <= acc + Z.of_nat (length l) * (w * w).
Proof.
  revert acc; induction l as [|d l IH]; intros acc H Hacc Hfit.
  - simpl in *. lia.
  - inversion H as [|? ? Hd Hl]; subst.
    change (length (d :: l)) with (S (length l)) in *.
    assert (Hsq : 0 <= (d - avg) * (d - avg) <= w * w).
    { cbv beta in Hd.
      assert (0 <= (w - (d - avg)) * (w + (d - avg)))
        by (apply Z.mul_nonneg_nonneg; lia).
      assert ((w - (d - avg)) * (w + (d - avg))
              = w * w - (d - avg) * (d - avg)) by ring.
      pose proof (Z.square_nonneg (d - avg)). lia. }
    assert (Hw : 0 <= Z.of_nat (length l) * (w * w)).
    { apply Z.mul_nonneg_nonneg; [lia | apply Z.square_nonneg]. }
    assert (E1 : to_int ((d - avg) * (d - avg)) = (d - avg) * (d - avg)).
    { unfold to_int. rewrite Z.mod_small; lia. }
    assert (E2 : to_int (acc + (d - avg) * (d - avg))
                 = acc + (d - avg) * (d - avg)).
    { unfold to_int. rewrite Z.mod_small; lia. }
    simpl fold_left. rewrite E1, E2.
    specialize (IH (acc + (d - avg) * (d - avg)) Hl ltac:(lia) ltac:(lia)).
    lia.
Qed.

(** *** Sorting *)

Lemma sort_insert_perm x l : Permutation (sort_insert x l) (x :: l).
Proof.
  induction l as [|y l IH]; simpl; [apply Permutation_refl|].
  destruct (x <=? y); [apply Permutation_refl|].
  eapply Permutation_trans; [apply perm_skip; exact IH | apply perm_swap].
Qed.

Lemma sort_perm l : Permutation (sort l) l.
Proof.
  induction l as [|x l IH]; simpl; [constructor|].
  eapply Permutation_trans; [apply sort_insert_perm|].
  apply perm_skip. exact IH.
Qed.

Lemma sort_insert_sorted x l :
  Sorted Z.le l -> Sorted Z.le (sort_insert x l).
Proof.
  induction 1 as [|y l Hl IH Hy]; simpl.
  - repeat constructor.
  - destruct (Z.leb_spec x y) as [Hxy|Hxy].
    + constructor; [constructor; assumption|]. constructor. exact Hxy.
    + constructor; [exact IH|].
      destruct l as [|z l]; simpl.
      * constructor. lia.
      * destruct (Z.leb_spec x z); constructor; [lia|].
        inversion Hy; subst. assumption.
Qed.

Lemma sort_sorted l : Sorted Z.le (sort l).
Proof.
  induction l as [|x l IH]; simpl; [constructor|].
  apply sort_insert_sorted. exact IH.
Qed.

End SummaryFacts.

(** X8: The summary of a group of plays stays within the plays it
    summarises.  For at least one and at most 32767 distances between [lo]
    and [hi] whose sum fits a [short], with no more turnovers than plays,
    and with the number of plays times the square of [hi - lo] at most
    1073741823 (the [int] that sums the squared deviations cannot
    overflow): the count is the number of plays, the turnover share is
    between 0 and 1000 (tenths of a percent), the average lies between
    [lo] and [hi], and the value kept as "variance" (the root of the mean
    squared deviation) is between 0 and [hi - lo]. *)
Theorem overall_summary_within_bounds (playDistances : list Z)
    (turnoverCount lo hi : Z) :
  playDistances <> [] ->
  Z.of_nat (length playDistances) <= 32767 ->
  0 <= turnoverCount <= Z.of_nat (length playDistances) ->
  Forall (fun d => lo <= d <= hi) playDistances ->
  -32768 <= Stats.sum playDistances <= 32767 ->
  Z.of_nat (length playDistances) * ((hi - lo) * (hi - lo)) <= 1073741823 ->
  let s := OverallPlaySummary.OverallPlaySummary playDistances turnoverCount in
  OverallPlaySummary.getTotalCount s = Z.of_nat (length playDistances)
  /\ 0 <= OverallPlaySummary.getTurnoverPercentage s <= 1000
  /\ lo <= OverallPlaySummary.getAverageDistance s <= hi
  /\ 0 <= OverallPlaySummary.getDistanceVariance s <= hi - lo.
Proof.
  intros Hne Hlen Hturn Hrange Hsum Hsq s.
  set (n := Z.of_nat (length playDistances)) in *.
  assert (Hn : 0 < n)
    by (unfold n; destruct playDistances; [contradiction | simpl; lia]).
  assert (En : to_short n = n) by (apply LeafFacts.to_short_small; lia).
  assert (Hlohi : lo <= hi).
  { destruct playDistances as [|d l]; [contradiction|].
    inversion Hrange; subst. lia. }
  unfold s, OverallPlaySummary.OverallPlaySummary,
    OverallPlaySummary.getTotalCount, OverallPlaySummary.getTurnoverPercentage,
    OverallPlaySummary.getAverageDistance,
    OverallPlaySummary.getDistanceVariance.
  fold n. rewrite En.
  destruct (Z.gtb_spec n 0) as [_|Hbad]; [|lia].
  cbn [OverallPlaySummary._totalCount OverallPlaySummary._turnoverPercentage
       OverallPlaySummary._averageDistance OverallPlaySummary._distanceVariance].
  rewrite !SummaryFacts.totalDistance_exact.
  rewrite (LeafFacts.to_short_small (Stats.sum playDistances)) by lia.
  pose proof (SummaryFacts.sum_bounds _ _ _ Hrange) as Hb. fold n in Hb.
  pose proof (SummaryFacts.quot_between _ n lo hi Hn Hb) as Havg.
  assert (Hq : -32768 <= Z.quot (Stats.sum playDistances) n <= 32767).
  { apply SummaryFacts.quot_between; lia. }
  rewrite (LeafFacts.to_short_small (Z.quot (Stats.sum playDistances) n))
    by lia.
  set (avg := Z.quot (Stats.sum playDistances) n) in *.
  split; [reflexivity|]. split.
  - assert (Ht : 0 <= Z.quot (turnoverCount * 1000) n <= 1000).
    { apply SummaryFacts.quot_between; lia. }
    rewrite LeafFacts.to_short_small; lia.
  - split; [exact Havg|].
    assert (Hdev : Forall (fun d => - (hi - lo) <= d - avg <= hi - lo)
                          playDistances).
    { eapply Forall_impl; [|exact Hrange]. intros d Hd. cbv beta in Hd. lia. }
    pose proof (SummaryFacts.totalVariance_bounds playDistances avg (hi - lo) 0
                  Hdev ltac:(lia) ltac:(fold n; lia)) as Hv.
    fold n in Hv. rewrite Z.add_0_l in Hv.
    set (v := fold_left _ playDistances 0) in *.
    assert (Hvq : 0 <= Z.quot v n <= (hi - lo) * (hi - lo)).
    { apply SummaryFacts.quot_between; [exact Hn|]. nia. }
    assert (Hroot : 0 <= Z.sqrt (Z.quot v n) <= hi - lo).
    { split; [apply Z.sqrt_nonneg|].
      rewrite <- (Z.sqrt_square (hi - lo)) by lia.
      apply Z.sqrt_le_mono. lia. }
    assert (Hsmall : Z.sqrt (Z.quot v n) <= 32767).
    { assert (Hle : Z.quot v n <= 1073741823).
      { pose proof (Z.square_nonneg (hi - lo)) as Hq0.
        remember ((hi - lo) * (hi - lo)) as q. clear - Hvq Hsq Hn Hq0. nia. }
      apply Z.sqrt_le_mono in Hle.
      assert (Z.sqrt 1073741823 = 32767) by reflexivity. lia. }
    rewrite LeafFacts.to_short_small by lia. exact Hroot.
Qed.

Lemma overall_summary_within_bounds_witness :
  let s := OverallPlaySummary.OverallPlaySummary [3; -2; 11] 1 in
  OverallPlaySummary.getTotalCount s = Z.of_nat (length [3; -2; 11])
  /\ 0 <= OverallPlaySummary.getTurnoverPercentage s <= 1000
  /\ -2 <= OverallPlaySummary.getAverageDistance s <= 11
  /\ 0 <= OverallPlaySummary.getDistanceVariance s <= 11 - -2.
Proof.
  apply (overall_summary_within_bounds [3; -2; 11] 1 (-2) 11).
  - discriminate.
  - simpl; lia.
  - simpl; lia.
  - repeat constructor; lia.
  - vm_compute; split; discriminate.
  - vm_compute; discriminate.
Defined.

(** ** The summary map of a leaf *)

Module DetailFacts.
Import SinglePlay PlayIndexSet PlaySummaryFactory IndexSet Vectors LeafFacts
       SplitCount ByType Stats BuildFacts SummaryFacts.

(** The entries the second loop of [buildDetailedData] inserts. *)
Lemma buildDetailedData_loop_spec types :
  forall ds ts total overall data,
    length ds = length types -> length ts = length types ->
    buildDetailedData_loop types ds ts total overall = OK data ->
    map fst data
    = map fst (filter (fun e => negb (is_nil (snd e))) (combine types ds))
    /\ forall ty summary, In (ty, summary) data ->
         exists i ov,
           nth_error types i = Some ty
           /\ nth i ds [] <> []
           /\ at_ overall (PlayType_val ty) = OK ov
           /\ DetailedPlaySummary.DetailedPlaySummary
                (nth i ds []) (nth i ts 0) total ov = OK summary.
Proof.
  induction types as [|ty0 types IH]; intros ds ts total overall data Hd Ht H.
  - destruct ds; [|discriminate]. simpl in H. inversion H; subst.
    split; [reflexivity | intros ? ? []].
  - destruct ds as [|d ds]; [discriminate|].
    destruct ts as [|c ts]; [discriminate|].
    simpl in Hd, Ht. injection Hd as Hd. injection Ht as Ht.
    simpl in H. destruct d as [|x d].
    + cbn [is_nil] in H. destruct (IH _ _ _ _ _ Hd Ht H) as [K E].
      split; [simpl; exact K|].
      intros ty summary Hin. destruct (E ty summary Hin) as [i [ov Hi]].
      exists (S i), ov. exact Hi.
    + cbn [is_nil] in H.
      apply bind_OK in H; destruct H as [ov [Eo H]].
      apply bind_OK in H; destruct H as [sm [Es H]].
      apply bind_OK in H; destruct H as [rest [Er H]].
      inversion H; subst; clear H.
      destruct (IH _ _ _ _ _ Hd Ht Er) as [K E].
      split; [simpl; f_equal; exact K|].
      intros ty summary [Hin|Hin].
      * inversion Hin; subst. exists O, ov. simpl.
        repeat split; auto. discriminate.
      * destruct (E ty summary Hin) as [i [ov' Hi]].
        exists (S i), ov'. exact Hi.
Qed.

Lemma nth_error_all_play_types i ty :
  nth_error all_play_types i = Some ty -> i = slot ty.
Proof.
  do 11 (destruct i as [|i];
         [simpl; intro H; inversion H; subst; reflexivity|]).
  simpl. destruct i; discriminate.
Qed.

Lemma all_play_types_slot ty : nth_error all_play_types (slot ty) = Some ty.
Proof. destruct ty; reflexivity. Qed.

Lemma In_combine_all ty (ds : list (list Z)) :
  length ds = 11%nat -> In (ty, nth (slot ty) ds []) (combine all_play_types ds).
Proof.
  intro H.
  do 11 (destruct ds as [|? ds]; [discriminate|]).
  destruct ds; [|discriminate].
  destruct ty; simpl; tauto.
Qed.

Lemma nth_error_combine {A B : Type} (l : list A) (l' : list B) i a b :
  nth_error (combine l l') i = Some (a, b) ->
  nth_error l i = Some a /\ nth_error l' i = Some b.
Proof.
  revert l l'; induction i as [|i IH]; intros [|x l] [|y l'] H; simpl in *;
    try discriminate.
  - inversion H; subst; split; reflexivity.
  - apply IH; exact H.
Qed.

Lemma In_combine_slot ty d (ds : list (list Z)) :
  In (ty, d) (combine all_play_types ds) -> d = nth (slot ty) ds [].
Proof.
  intro H. apply In_nth_error in H. destruct H as [i Hi].
  apply nth_error_combine in Hi. destruct Hi as [Hty Hd].
  apply nth_error_all_play_types in Hty. subst i.
  symmetry. apply nth_error_nth. exact Hd.
Qed.

(** A sublist of the play types listed in order has ascending keys. *)
Lemma filter_combine_ascending (ds : list (list Z)) (p : PlayType * list Z -> bool) :
  StronglySorted Z.lt
    (map PlayType_val (map fst (filter p (combine all_play_types ds)))).
Proof.
  assert (G : forall (l : list PlayType) (ds : list (list Z)),
             StronglySorted Z.lt (map PlayType_val l) ->
             StronglySorted Z.lt
               (map PlayType_val (map fst (filter p (combine l ds))))).
  { induction l as [|t l IH]; intros ds0 Hs; [constructor|].
    destruct ds0 as [|d ds0]; [constructor|].
    simpl in Hs. inversion Hs as [|? ? Hs' Hall]; subst.
    simpl. assert (Hrest : Forall (Z.lt (PlayType_val t))
                   (map PlayType_val (map fst (filter p (combine l ds0))))).
    { apply Forall_forall. intros v Hv. rewrite Forall_forall in Hall.
      apply Hall. apply in_map_iff in Hv. destruct Hv as [t' [<- Ht']].
      apply in_map. apply in_map_iff in Ht'. destruct Ht' as [[t'' d''] [<- Hin]].
      apply filter_In in Hin. destruct Hin as [Hin _].
      apply in_combine_l in Hin. exact Hin. }
    destruct (p (t, d)); simpl.
    - constructor; [apply IH; exact Hs' | exact Hrest].
    - apply IH; exact Hs'. }
  apply G. vm_compute. repeat (constructor; [|repeat constructor]).
  constructor.
Qed.

(** Every play has one type: the plays by type add up to the plays. *)
Lemma ofType_total plays :
  fold_right Nat.add O (map (fun ty => length (ofType ty plays)) all_play_types)
  = length plays.
Proof.
  induction plays as [|p plays IH]; [reflexivity|].
  simpl length. rewrite <- IH. clear IH.
  unfold all_play_types.
  destruct (getPlayType p) eqn:E;
    repeat match goal with
           | |- context [ofType ?t (p :: plays)] =>
               first [ rewrite (ofType_cons_other t p plays)
                         by (rewrite E; discriminate)
                     | rewrite <- E at 1; rewrite ofType_cons_same; rewrite E ]
           end;
    simpl; lia.
Qed.

Lemma totalPlayCount_wraps (ds : list (list Z)) a :
  fold_left (fun acc d => to_short (acc + Z.of_nat (length d))) ds (to_short a)
  = to_short (a + Z.of_nat (fold_right Nat.add O (map (@length Z) ds))).
Proof.
  revert a; induction ds as [|d ds IH]; intro a; simpl.
  - f_equal. lia.
  - rewrite to_short_idem_add, IH. f_equal. lia.
Qed.

Lemma lengths_by_slot (ds : list (list Z)) (f : PlayType -> nat) :
  length ds = 11%nat ->
  (forall ty, length (nth (slot ty) ds []) = f ty) ->
  map (@length Z) ds = map f all_play_types.
Proof.
  intros H Hf.
  do 11 (destruct ds as [|? ds]; [discriminate|]).
  destruct ds; [|discriminate].
  pose proof (Hf run_left). pose proof (Hf run_middle).
  pose proof (Hf run_right). pose proof (Hf pass_short_right).
  pose proof (Hf pass_short_middle). pose proof (Hf pass_short_left).
  pose proof (Hf pass_deep_right). pose proof (Hf pass_deep_middle).
  pose proof (Hf pass_deep_left). pose proof (Hf field_goal).
  pose proof (Hf punt).
  simpl in *. congruence.
Qed.

(** [buildDetailedData] in full. *)
Lemma buildDetailedData_spec s overall data :
  buildDetailedData s overall = OK data ->
  ascending data
  /\ (forall ty, In ty (map fst data) <-> ofType ty (records s) <> [])
  /\ forall ty summary, In (ty, summary) data ->
       exists ov,
         at_ overall (PlayType_val ty) = OK ov
         /\ DetailedPlaySummary.DetailedPlaySummary
              (map getDistanceGained (ofType ty (records s)))
              (turnovers (ofType ty (records s)) 0)
              (to_short (Z.of_nat (length (records s)))) ov = OK summary.
Proof.
  unfold buildDetailedData. change (Z.to_nat getPlayTypeCount) with 11%nat.
  destruct (indexesToCounts_spec s) as [ds [ts [E [L1 [L2 [D T]]]]]].
  rewrite E. cbn [bind]. intro H.
  assert (Etotal : fold_left (fun acc d => to_short (acc + Z.of_nat (length d)))
                             ds 0
                   = to_short (Z.of_nat (length (records s)))).
  { change 0 with (to_short 0) at 1. rewrite totalPlayCount_wraps.
    rewrite Z.add_0_l. f_equal. f_equal.
    rewrite <- (ofType_total (records s)). f_equal.
    apply lengths_by_slot; [exact L1|].
    intro ty. rewrite D. apply length_map. }
  rewrite Etotal in H.
  apply buildDetailedData_loop_spec in H; [|exact L1 | exact L2].
  destruct H as [K Hentries].
  split; [|split].
  - unfold ascending. rewrite <- map_map. rewrite K.
    apply filter_combine_ascending.
  - intro ty. rewrite K. split.
    + intro Hin. apply in_map_iff in Hin. destruct Hin as [[t d] [Ht Hin]].
      simpl in Ht; subst t. apply filter_In in Hin. destruct Hin as [Hin Hp].
      apply In_combine_slot in Hin. rewrite D in Hin. subst d.
      simpl in Hp. intro Hnil. rewrite Hnil in Hp. discriminate.
    + intro Hne. apply in_map_iff.
      exists (ty, nth (slot ty) ds []). split; [reflexivity|].
      apply filter_In. split; [apply In_combine_all; exact L1|].
      simpl. rewrite D.
      destruct (ofType ty (records s)); [contradiction | reflexivity].
  - intros ty summary Hin.
    destruct (Hentries ty summary Hin) as [i [ov [Hi [_ [Hov Hs]]]]].
    apply nth_error_all_play_types in Hi. subst i.
    rewrite D, T in Hs. exists ov. split; assumption.
Qed.

End DetailFacts.

(** X9: The summary map [buildDetailedData] builds for a group of plays has
    its keys in ascending order and one entry for exactly the play types
    that occur in the group.  The entry of a type holds the distances of
    the plays of that type, sorted, and its turnover count; with at most
    32767 plays, its play count is the number of plays of the type and
    its share is that number times 1000 over the number of plays, rounded
    down. *)
Theorem buildDetailedData_summarises_each_type_played
    (s : PlayIndexSet.t) (overallData : list OverallPlaySummary.t)
    (data : list (SinglePlay.PlayType * DetailedPlaySummary.t)) :
  Z.of_nat (length (IndexSet.records s)) <= 32767 ->
  PlaySummaryFactory.buildDetailedData s overallData = OK data ->
  Stats.ascending data
  /\ (forall ty, In ty (map fst data)
                 <-> ByType.ofType ty (IndexSet.records s) <> [])
  /\ forall ty summary, In (ty, summary) data ->
       let plays := ByType.ofType ty (IndexSet.records s) in
       Permutation (DetailedPlaySummary.getPlayDistances summary)
                   (map SinglePlay.getDistanceGained plays)
       /\ Sorted Z.le (DetailedPlaySummary.getPlayDistances summary)
       /\ DetailedPlaySummary.getTurnoverCount summary
          = Vectors.turnovers plays 0
       /\ DetailedPlaySummary.getPlayCount summary = Z.of_nat (length plays)
       /\ DetailedPlaySummary.getPercentOfConditionPlays summary
          = Z.quot (Z.of_nat (length plays) * 1000)
                   (Z.of_nat (length (IndexSet.records s))).
Proof.
  intros Hsmall H.
  destruct (DetailFacts.buildDetailedData_spec s overallData data H)
    as [Hasc [Hkeys Hentries]].
  split; [exact Hasc|]. split; [exact Hkeys|].
  intros ty summary Hin plays.
  destruct (Hentries ty summary Hin) as [ov [_ Hs]]. fold plays in Hs.
  assert (Hne : plays <> []).
  { apply Hkeys. apply in_map_iff. exists (ty, summary). split; auto. }
  assert (Hle : (length plays <= length (IndexSet.records s))%nat).
  { unfold plays, ByType.ofType. apply filter_length_le. }
  assert (Hpos : (0 < length plays)%nat)
    by (destruct plays; [contradiction | simpl; lia]).
  unfold DetailedPlaySummary.DetailedPlaySummary in Hs.
  apply bind_OK in Hs; destruct Hs as [p1 [E1 Hs]].
  apply bind_OK in Hs; destruct Hs as [p2 [E2 Hs]].
  inversion Hs; subst summary; clear Hs.
  unfold DetailedPlaySummary.getPlayDistances, DetailedPlaySummary.getTurnoverCount,
    DetailedPlaySummary.getPlayCount, DetailedPlaySummary.getPercentOfConditionPlays.
  cbn [DetailedPlaySummary._playDistances DetailedPlaySummary._turnoverCount
       DetailedPlaySummary._percentOfConditionPlays].
  rewrite LeafFacts.sort_length, length_map in *.
  rewrite (LeafFacts.to_short_small (Z.of_nat (length plays))) in * by lia.
  rewrite (LeafFacts.to_short_small (Z.of_nat (length (IndexSet.records s))))
    in E1 by lia.
  split; [apply SummaryFacts.sort_perm|].
  split; [apply SummaryFacts.sort_sorted|].
  split; [reflexivity|]. split; [reflexivity|].
  unfold divide in E1.
  destruct (Z.of_nat (length (IndexSet.records s)) =? 0); [discriminate|].
  inversion E1; subst p1.
  apply LeafFacts.to_short_small.
  assert (0 <= Z.quot (Z.of_nat (length plays) * 1000)
                      (Z.of_nat (length (IndexSet.records s))) <= 1000).
  { apply SummaryFacts.quot_between; lia. }
  lia.
Qed.

Lemma buildDetailedData_summarises_each_type_played_witness :
  Stats.ascending Examples.allPlays
  /\ (forall ty, In ty (map fst Examples.allPlays)
                 <-> ByType.ofType ty (IndexSet.records Samples.indexes) <> [])
  /\ forall ty summary, In (ty, summary) Examples.allPlays ->
       let plays := ByType.ofType ty (IndexSet.records Samples.indexes) in
       Permutation (DetailedPlaySummary.getPlayDistances summary)
                   (map SinglePlay.getDistanceGained plays)
       /\ Sorted Z.le (DetailedPlaySummary.getPlayDistances summary)
       /\ DetailedPlaySummary.getTurnoverCount summary
          = Vectors.turnovers plays 0
       /\ DetailedPlaySummary.getPlayCount summary = Z.of_nat (length plays)
       /\ DetailedPlaySummary.getPercentOfConditionPlays summary
          = Z.quot (Z.of_nat (length plays) * 1000)
                   (Z.of_nat (length (IndexSet.records Samples.indexes))).
Proof.
  apply (buildDetailedData_summarises_each_type_played Samples.indexes
           (DataStore.getPlaySummaryStats Samples.indexed)).
  - vm_compute. discriminate.
  - vm_compute. reflexivity.
Defined.

(** ** Merging summary maps *)

Module MergeDataFacts.
Import SinglePlay PlaySummaryFactory Vectors LeafFacts ByType Stats BuildFacts
       SummaryFacts.

Lemma updateConditionStats_bare pc s s' :
  DetailedPlaySummary.updateConditionStats pc s = OK s' ->
  DetailedPlaySummary.getPlayDistances s' = DetailedPlaySummary.getPlayDistances s.
Proof.
  unfold DetailedPlaySummary.updateConditionStats. intro H.
  bind_inv H. inversion H; subst. reflexivity.
Qed.

Lemma merge_distances o pc s s' :
  DetailedPlaySummary.merge o pc s = OK s' ->
  DetailedPlaySummary.getPlayDistances s'
  = sort (DetailedPlaySummary.getPlayDistances s
          ++ DetailedPlaySummary.getPlayDistances o).
Proof.
  unfold DetailedPlaySummary.merge. intro H.
  bind_inv H. apply updateConditionStats_bare in H. rewrite H. reflexivity.
Qed.

Lemma distancesOf_app ty l1 l2 :
  distancesOf ty (l1 ++ l2) = distancesOf ty l1 ++ distancesOf ty l2.
Proof.
  unfold distancesOf. rewrite map_app, filter_app, map_app, concat_app.
  reflexivity.
Qed.

Lemma distancesOf_cons ty k s l :
  distancesOf ty ((k, s) :: l)
  = contribution ty k (DetailedPlaySummary.getPlayDistances s) ++ distancesOf ty l.
Proof.
  unfold distancesOf, contribution, bare; simpl.
  destruct (PlayType_eqb k ty); reflexivity.
Qed.

Lemma contribution_perm ty k d d' :
  Permutation d d' -> Permutation (contribution ty k d) (contribution ty k d').
Proof. intro H. unfold contribution. destruct (PlayType_eqb k ty); auto. Qed.

Lemma contribution_app ty k d d' :
  contribution ty k (d ++ d') = contribution ty k d ++ contribution ty k d'.
Proof. unfold contribution. destruct (PlayType_eqb k ty); reflexivity. Qed.

Lemma PlayType_eqb_eq a b : PlayType_eqb a b = true -> a = b.
Proof.
  unfold PlayType_eqb. intro H. apply Z.eqb_eq in H.
  apply PlayType_val_inj. exact H.
Qed.

(** The inner loop steps over entries without touching keys or
    distances. *)
Lemma advance_bare pc key result passed remaining :
  advance pc key result = OK (passed, remaining) ->
  map bare passed ++ map bare remaining = map bare result.
Proof.
  revert passed remaining; induction result as [|[k s] rest IH];
    intros passed remaining H; simpl in H.
  - inversion H; reflexivity.
  - destruct (PlayType_val k <? PlayType_val key).
    + bind_inv H. bind_inv H. destruct x0 as [p r]. inversion H; subst.
      simpl. rewrite (IH _ _ Hx0). f_equal.
      unfold bare; simpl. rewrite (updateConditionStats_bare _ _ _ Hx).
      reflexivity.
    + inversion H; subst. reflexivity.
Qed.

Lemma distancesOf_bare ty l l' :
  map bare l = map bare l' -> distancesOf ty l = distancesOf ty l'.
Proof. unfold distancesOf. intros ->. reflexivity. Qed.

Lemma keys_bare (l : list (PlayType * DetailedPlaySummary.t)) :
  map fst (map bare l) = map fst l.
Proof. rewrite map_map. reflexivity. Qed.

Lemma advance_split pc key result passed remaining ty :
  advance pc key result = OK (passed, remaining) ->
  distancesOf ty result = distancesOf ty passed ++ distancesOf ty remaining
  /\ map fst result = map fst passed ++ map fst remaining.
Proof.
  intro H. apply advance_bare in H. split.
  - rewrite <- distancesOf_app. apply distancesOf_bare.
    rewrite map_app. symmetry. exact H.
  - rewrite <- (keys_bare result), <- H, map_app, !keys_bare. reflexivity.
Qed.

Lemma mergeData_loop_spec pc other :
  forall result merged,
    mergeData_loop pc result other = OK merged ->
    forall ty,
      (In ty (map fst merged)
       <-> In ty (map fst result) \/ In ty (map fst other))
      /\ Permutation (distancesOf ty merged)
                     (distancesOf ty result ++ distancesOf ty other).
Proof.
  induction other as [|[key o] other IH]; intros result merged H ty.
  - simpl in H. inversion H; subst. split; [simpl; tauto|].
    unfold distancesOf at 3. simpl. rewrite app_nil_r. apply Permutation_refl.
  - simpl in H.
    apply bind_OK in H; destruct H as [[passed remaining] [Ea H]].
    apply bind_OK in H; destruct H as [tail [Et H]].
    inversion H; subst merged; clear H.
    destruct (advance_split _ _ _ _ _ ty Ea) as [Dr Kr].
    rewrite distancesOf_app, Dr, Kr, map_app, distancesOf_cons.
    set (X := distancesOf ty passed).
    set (Bo := contribution ty key (DetailedPlaySummary.getPlayDistances o)).
    set (Oo := distancesOf ty other).
    destruct remaining as [|[k s] rest].
    + apply bind_OK in Et; destruct Et as [o' [Eo Et]].
      destruct (IH _ _ Et ty) as [IK ID].
      rewrite distancesOf_cons in ID.
      rewrite (updateConditionStats_bare _ _ _ Eo) in ID. fold Bo Oo in ID.
      change (distancesOf ty []) with (@nil Z) in *.
      rewrite app_nil_r in ID.
      split.
      * rewrite !in_app_iff, IK. simpl. tauto.
      * rewrite app_nil_r.
        apply Permutation_app_head. exact ID.
    + destruct (PlayType_eqb k key) eqn:Ek.
      * apply PlayType_eqb_eq in Ek. subst k.
        apply bind_OK in Et; destruct Et as [s' [Es Et]].
        destruct (IH _ _ Et ty) as [IK ID].
        rewrite distancesOf_cons in ID.
        rewrite (merge_distances _ _ _ _ Es) in ID.
        rewrite distancesOf_cons.
        set (As := contribution ty key (DetailedPlaySummary.getPlayDistances s)) in *.
        set (R := distancesOf ty rest) in *. fold Oo in ID.
        split.
        { rewrite !in_app_iff, IK. simpl. tauto. }
        rewrite <- !app_assoc. apply Permutation_app_head.
        rewrite <- !app_assoc in ID.
        eapply Permutation_trans; [exact ID|].
        eapply Permutation_trans.
        { apply Permutation_app_tail. apply contribution_perm. apply sort_perm. }
        rewrite contribution_app. fold As Bo.
        rewrite <- !app_assoc. apply Permutation_app_head.
        apply Permutation_app_swap_app.
      * apply bind_OK in Et; destruct Et as [o' [Eo Et]].
        destruct (IH _ _ Et ty) as [IK ID].
        rewrite !distancesOf_cons in ID.
        rewrite (updateConditionStats_bare _ _ _ Eo) in ID.
        rewrite distancesOf_cons.
        set (As := contribution ty k (DetailedPlaySummary.getPlayDistances s)) in *.
        set (R := distancesOf ty rest) in *. fold Bo Oo in ID.
        split.
        { rewrite !in_app_iff, IK. simpl. tauto. }
        rewrite <- !app_assoc. apply Permutation_app_head.
        rewrite <- !app_assoc in ID.
        eapply Permutation_trans; [exact ID|].
        rewrite (app_assoc As R Oo). rewrite (app_assoc As R (Bo ++ Oo)).
        apply Permutation_app_swap_app.
Qed.

End MergeDataFacts.

(** X10: [mergeData] pools two summary maps play type by play type: the merged
    map has an entry for exactly the types that have one in either map, and
    for every type it holds the distances of both (a play is never dropped
    or counted twice). *)
Theorem mergeData_pools_plays_by_type
    (result other merged : list (SinglePlay.PlayType * DetailedPlaySummary.t))
    (ty : SinglePlay.PlayType) :
  PlaySummaryFactory.mergeData result other = OK merged ->
  (In ty (map fst merged) <-> In ty (map fst result) \/ In ty (map fst other))
  /\ Permutation (Stats.distancesOf ty merged)
                 (Stats.distancesOf ty result ++ Stats.distancesOf ty other).
Proof.
  unfold PlaySummaryFactory.mergeData. intro H.
  exact (MergeDataFacts.mergeData_loop_spec _ _ _ _ H ty).
Qed.

Lemma mergeData_pools_plays_by_type_witness :
  (In SinglePlay.run_left (map fst Examples.unevenMerged)
   <-> In SinglePlay.run_left (map fst Samples.unevenFirst)
       \/ In SinglePlay.run_left (map fst Samples.unevenSecond))
  /\ Permutation (Stats.distancesOf SinglePlay.run_left Examples.unevenMerged)
                 (Stats.distancesOf SinglePlay.run_left Samples.unevenFirst
                  ++ Stats.distancesOf SinglePlay.run_left Samples.unevenSecond).
Proof.
  apply (mergeData_pools_plays_by_type Samples.unevenFirst Samples.unevenSecond
           Examples.unevenMerged SinglePlay.run_left).
  vm_compute. reflexivity.
Defined.

(** ** Counting the play types of an index set *)

Module PlayCountFacts.
Import SinglePlay PlayIndexSet IndexSet Vectors LeafFacts ByType Stats BuildFacts
       DecisionNode MergeDataFacts.

(** One more play of a type, on the count the map holds for it. *)
Lemma countOf_cons ty k c (rest : list (PlayType * Z)) :
  countOf ty ((k, c) :: rest)
  = if PlayType_eqb k ty then Some c else countOf ty rest.
Proof. unfold countOf; simpl. destruct (PlayType_eqb k ty); reflexivity. Qed.

Lemma PlayType_eqb_refl ty : PlayType_eqb ty ty = true.
Proof. unfold PlayType_eqb. apply Z.eqb_refl. Qed.

Lemma PlayType_eqb_neq a b : a <> b -> PlayType_eqb a b = false.
Proof.
  intro H. unfold PlayType_eqb. apply Z.eqb_neq. intro E.
  apply PlayType_val_inj in E. contradiction.
Qed.

Lemma countOf_above ty (data : list (PlayType * Z)) :
  Forall (fun e => PlayType_val ty < PlayType_val (fst e)) data ->
  countOf ty data = None.
Proof.
  induction 1 as [|[k c] rest Hk _ IH]; [reflexivity|].
  rewrite countOf_cons. simpl in Hk.
  rewrite PlayType_eqb_neq; [exact IH|]. intros ->. lia.
Qed.

Lemma countType_keys ty (data : list (PlayType * Z)) lb :
  lb < PlayType_val ty ->
  Forall (Z.lt lb) (map (fun e => PlayType_val (fst e)) data) ->
  Forall (Z.lt lb) (map (fun e => PlayType_val (fst e)) (countType ty data)).
Proof.
  intros Hty. induction data as [|[k c] rest IH]; intro H; simpl.
  - repeat constructor. exact Hty.
  - inversion H; subst.
    destruct (PlayType_eqb k ty); [constructor; assumption|].
    destruct (PlayType_val ty <? PlayType_val k).
    + constructor; [exact Hty | exact H].
    + constructor; [assumption | apply IH; assumption].
Qed.

Lemma countType_spec ty (data : list (PlayType * Z)) :
  ascending data ->
  ascending (countType ty data)
  /\ countOf ty (countType ty data)
     = Some (match countOf ty data with
             | Some c => to_ushort (c + 1)
             | None => 1
             end)
  /\ forall ty', ty' <> ty ->
       countOf ty' (countType ty data) = countOf ty' data.
Proof.
  unfold ascending. induction data as [|[k c] rest IH]; intro H.
  - simpl. split; [repeat constructor|]. split.
    + unfold countOf; simpl. rewrite PlayType_eqb_refl. reflexivity.
    + intros ty' Hne. unfold countOf; simpl.
      rewrite PlayType_eqb_neq by congruence. reflexivity.
  - simpl in H. inversion H as [|? ? Hrest Hall]; subst.
    simpl countType. destruct (PlayType_eqb k ty) eqn:Ek.
    + apply PlayType_eqb_eq in Ek. subst k. split; [exact H|]. split.
      * rewrite !countOf_cons, PlayType_eqb_refl. reflexivity.
      * intros ty' Hne. rewrite !countOf_cons.
        rewrite PlayType_eqb_neq by congruence. reflexivity.
    + destruct (Z.ltb_spec (PlayType_val ty) (PlayType_val k)) as [Hlt|Hge].
      * split; [|split].
        -- simpl. constructor; [exact H|].
           constructor; [exact Hlt|].
           eapply Forall_impl; [|exact Hall]. intros v Hv. lia.
        -- rewrite countOf_cons, PlayType_eqb_refl.
           rewrite countOf_cons, Ek.
           rewrite countOf_above; [reflexivity|].
           rewrite Forall_map in Hall.
           eapply Forall_impl; [|exact Hall]. intros e He. cbv beta in He. lia.
        -- intros ty' Hne. rewrite countOf_cons.
           rewrite PlayType_eqb_neq by congruence. reflexivity.
      * destruct (IH Hrest) as [I1 [I2 I3]].
        assert (Hkty : PlayType_val k < PlayType_val ty).
        { assert (PlayType_val k <> PlayType_val ty).
          { intro E. apply PlayType_val_inj in E. subst k.
            rewrite PlayType_eqb_refl in Ek. discriminate. }
          lia. }
        split; [|split].
        -- simpl. constructor; [exact I1|].
           apply countType_keys; assumption.
        -- rewrite !countOf_cons, Ek. exact I2.
        -- intros ty' Hne. rewrite !countOf_cons.
           destruct (PlayType_eqb k ty'); [reflexivity | apply I3; exact Hne].
Qed.

Lemma after_S n before :
  after (S n) before
  = after n (Some (match before with
                   | Some c => to_ushort (c + 1)
                   | None => 1
                   end)).
Proof. unfold after. rewrite Nat.iter_succ_r. reflexivity. Qed.

Lemma indexToPlayCounts_spec plays :
  forall data, ascending data ->
    ascending (indexToPlayCounts plays data)
    /\ forall ty, countOf ty (indexToPlayCounts plays data)
                  = after (length (ofType ty plays)) (countOf ty data).
Proof.
  induction plays as [|p plays IH]; intros data H.
  - split; [exact H | reflexivity].
  - unfold indexToPlayCounts. simpl fold_left.
    destruct (countType_spec (getPlayType p) data H) as [C1 [C2 C3]].
    destruct (IH _ C1) as [I1 I2]. split; [exact I1|].
    intro ty. unfold indexToPlayCounts in I2. rewrite I2.
    assert (Hdec : getPlayType p = ty \/ getPlayType p <> ty)
      by (destruct (getPlayType p), ty;
          (left; reflexivity) || (right; discriminate)).
    destruct Hdec as [<-|Hne].
    + rewrite ofType_cons_same. simpl length. rewrite after_S, C2.
      reflexivity.
    + rewrite ofType_cons_other by exact Hne.
      rewrite C3 by congruence. reflexivity.
Qed.

Lemma after_none n :
  after n None
  = match n with O => None | S _ => Some (to_ushort (Z.of_nat n)) end.
Proof.
  destruct n as [|n]; [reflexivity|].
  induction n as [|n IH]; [reflexivity|].
  unfold after in *. rewrite Nat.iter_succ, IH.
  f_equal. unfold to_ushort.
  rewrite Zplus_mod_idemp_l. f_equal. lia.
Qed.

Lemma indexesToPlayCounts_records s :
  indexesToPlayCounts s = indexToPlayCounts (records s) [].
Proof.
  unfold indexesToPlayCounts, records.
  destruct (PlayCharacteristicSet.elements (getIndexesAvailable s))
    as [|c rest]; [reflexivity|].
  change (fun d tempPtr => indexToPlayCounts tempPtr d)
    with (fun d tempPtr =>
            fold_left (fun d indexPtr => countType (getPlayType indexPtr) d)
                      tempPtr d).
  rewrite fold_left_concat. reflexivity.
Qed.

End PlayCountFacts.

(** X11: [indexesToPlayCounts] returns a map with ascending keys that has an
    entry for exactly the play types occurring among the plays of the
    index set, holding the number of plays of that type (counted on an
    [unsigned short]). *)
Theorem indexesToPlayCounts_counts_each_type (s : PlayIndexSet.t)
    (ty : SinglePlay.PlayType) :
  Stats.ascending (DecisionNode.indexesToPlayCounts s)
  /\ Stats.countOf ty (DecisionNode.indexesToPlayCounts s)
     = let plays := ByType.ofType ty (IndexSet.records s) in
       if PlayIndexSet.is_nil plays then None
       else Some (to_ushort (Z.of_nat (length plays))).
Proof.
  rewrite PlayCountFacts.indexesToPlayCounts_records.
  destruct (PlayCountFacts.indexToPlayCounts_spec (IndexSet.records s) [])
    as [A C]; [constructor|].
  split; [exact A|].
  rewrite C. change (Stats.countOf ty []) with (@None Z).
  rewrite PlayCountFacts.after_none. cbv zeta.
  destruct (ByType.ofType ty (IndexSet.records s)); reflexivity.
Qed.

(** X12: The constructor refuses an index set without plays: it throws the
    exception of the empty play store, whatever the baseline is. *)
Theorem DecisionNode_refuses_index_set_without_plays
    (log2 : float -> float) (fuel : nat) (s : PlayIndexSet.t)
    (summaryData : list OverallPlaySummary.t) :
  IndexSet.records s = [] ->
  DecisionNode.DecisionNode log2 (S fuel) s summaryData
  = Throw (BaseException "DecisionNode create failed, passed play store empty").
Proof.
  intro H. cbn [DecisionNode.DecisionNode].
  rewrite PlayCountFacts.indexesToPlayCounts_records, H. reflexivity.
Qed.

Lemma DecisionNode_refuses_index_set_without_plays_witness :
  DecisionNode.DecisionNode Samples.log2 1 PlayIndexSet.PlayIndexSet []
  = Throw (BaseException "DecisionNode create failed, passed play store empty").
Proof.
  apply (DecisionNode_refuses_index_set_without_plays Samples.log2 0
           PlayIndexSet.PlayIndexSet []).
  reflexivity.
Defined.

(** ** Leaf statistics against the baseline of the store *)

Module BaselineFacts.
Import SinglePlay PlayIndexSet PlaySummaryFactory IndexSet Vectors LeafFacts
       ByType Stats BuildFacts SummaryFacts DetailFacts.

Lemma buildDetailedData_loop_OK types :
  forall ds ts total overall,
    length ds = length types -> length ts = length types ->
    total <> 0 ->
    (forall i ty, nth_error types i = Some ty -> nth i ds [] <> [] ->
       exists ov, at_ overall (PlayType_val ty) = OK ov
                  /\ OverallPlaySummary.getTotalCount ov <> 0) ->
    exists data, buildDetailedData_loop types ds ts total overall = OK data.
Proof.
  induction types as [|ty0 types IH]; intros ds ts total overall Hd Ht Htot Hov.
  - destruct ds; [|discriminate]. eexists; reflexivity.
  - destruct ds as [|d ds]; [discriminate|].
    destruct ts as [|c ts]; [discriminate|].
    simpl in Hd, Ht. injection Hd as Hd. injection Ht as Ht.
    destruct (IH ds ts total overall Hd Ht Htot) as [rest Er].
    { intros i ty Hi Hne. apply (Hov (S i) ty); assumption. }
    simpl. destruct d as [|x d]; cbn [is_nil]; [exists rest; exact Er|].
    destruct (Hov O ty0 eq_refl) as [ov [Eo Hc]]; [discriminate|].
    rewrite Eo. cbn [bind].
    unfold DetailedPlaySummary.DetailedPlaySummary, divide.
    destruct (Z.eqb_spec total 0) as [E|_]; [contradiction|].
    destruct (Z.eqb_spec (OverallPlaySummary.getTotalCount ov) 0) as [E|_];
      [contradiction|].
    cbn [bind]. rewrite Er. eexists; reflexivity.
Qed.

Lemma summaryOf_count ty plays :
  OverallPlaySummary.getTotalCount (summaryOf ty plays)
  = to_short (Z.of_nat (length (ofType ty plays))).
Proof.
  unfold summaryOf, OverallPlaySummary.OverallPlaySummary. rewrite length_map.
  destruct (to_short (Z.of_nat (length (ofType ty plays))) >? 0); reflexivity.
Qed.

Lemma ofType_In ty p plays :
  In p (ofType ty plays) <-> In p plays /\ getPlayType p = ty.
Proof.
  unfold ofType. rewrite filter_In. split; intros [H1 H2]; split; auto.
  - apply MergeDataFacts.PlayType_eqb_eq. exact H2.
  - subst ty. apply PlayCountFacts.PlayType_eqb_refl.
Qed.

Lemma covers_incl sd plays plays' :
  Shape.covers sd plays -> incl plays' plays -> Shape.covers sd plays'.
Proof.
  intros Hc Hi ty Hne. apply Hc.
  destruct (ofType ty plays') as [|p l] eqn:E; [contradiction|].
  assert (Hp : In p (ofType ty plays')) by (rewrite E; left; reflexivity).
  apply ofType_In in Hp. destruct Hp as [Hp Hty].
  intro Hn.
  assert (Hq : In p (ofType ty plays))
    by (apply ofType_In; split; [apply Hi; exact Hp | exact Hty]).
  rewrite Hn in Hq. contradiction.
Qed.

(** The statistics of a non-empty group of plays are defined against a
    baseline that covers the group. *)
Lemma buildDetailedData_defined s sd :
  records s <> [] ->
  Z.of_nat (length (records s)) <= 32767 ->
  Shape.covers sd (records s) ->
  exists data, buildDetailedData s sd = OK data.
Proof.
  intros Hne Hsmall Hcov.
  unfold buildDetailedData.
  change (Z.to_nat getPlayTypeCount) with 11%nat.
  destruct (indexesToCounts_spec s) as [ds [ts [E [L1 [L2 [D T]]]]]].
  rewrite E. cbn [bind].
  apply buildDetailedData_loop_OK; [exact L1 | exact L2 | |].
  - assert (Etotal :
              fold_left (fun acc d => to_short (acc + Z.of_nat (length d))) ds 0
              = to_short (Z.of_nat (length (records s)))).
    { change 0 with (to_short 0) at 1. rewrite totalPlayCount_wraps.
      rewrite Z.add_0_l. f_equal. f_equal.
      rewrite <- (ofType_total (records s)). f_equal.
      apply lengths_by_slot; [exact L1|].
      intro ty. rewrite D. apply length_map. }
    rewrite Etotal. rewrite to_short_small by lia.
    destruct (records s); [contradiction | simpl; lia].
  - intros i ty Hi Hd.
    apply nth_error_all_play_types in Hi. subst i.
    rewrite D in Hd. apply Hcov.
    intro Hn. apply Hd. rewrite Hn. reflexivity.
Qed.

(** The baseline [buildIndexes] derives covers the plays of the store. *)
Lemma baseline_covers d d' :
  Forall (fun p => 0 <= _down p < 256) (DataStore._data d) ->
  Z.of_nat (length (DataStore._data d)) <= 32767 ->
  DataStore._data d <> [] ->
  DataStore.buildIndexes d = OK d' ->
  Shape.covers (DataStore.getPlaySummaryStats d') (DataStore._data d).
Proof.
  intros Hr Hsize Hdata H.
  destruct (buildIndexes_result d d' Hdata H)
    as [i1 [i2 [i3 [i4 [i5 [st [E1 [_ [_ [_ [_ [Es ->]]]]]]]]]]]].
  set (idx := PlayIndexSet.mk (PlayCharacteristicSet.mk true true true true true)
                i1 i2 i3 i4 i5) in *.
  destruct (buildSummaryData_spec idx) as [data0 [E0 [L0 N0]]].
  change (DataStore.getIndexes (DataStore.mk (DataStore._data d) idx st))
    with idx in Es.
  rewrite Es in E0. inversion E0; subst data0; clear E0.
  change (DataStore.getPlaySummaryStats
            (DataStore.mk (DataStore._data d) idx st)) with st.
  assert (P : Permutation (records idx) (DataStore._data d)).
  { unfold records. simpl.
    apply (InvariantFacts.buildIndex_spec down_number); [|exact E1].
    apply values_fit. exact Hr. }
  intros ty Hne.
  exists (nth (slot ty) st (OverallPlaySummary.mk 0 0 0 0)). split.
  - unfold at_.
    replace (PlayType_val ty <? 0) with false by (destruct ty; reflexivity).
    fold (slot ty).
    rewrite (nth_error_nth' st (OverallPlaySummary.mk 0 0 0 0));
      [reflexivity|].
    rewrite L0. apply slot_bound.
  - rewrite N0, summaryOf_count.
    assert (Hlen : length (ofType ty (records idx))
                   = length (ofType ty (DataStore._data d))).
    { apply Permutation_length. unfold ofType.
      apply InvariantFacts.Permutation_filter. exact P. }
    assert (Hle : (length (ofType ty (DataStore._data d))
                   <= length (DataStore._data d))%nat)
      by (unfold ofType; apply filter_length_le).
    rewrite Hlen. rewrite to_short_small by lia.
    destruct (ofType ty (DataStore._data d)); [contradiction | simpl; lia].
Qed.

End BaselineFacts.

(** X13: Against the baseline [buildIndexes] derives for a store of at most
    32767 plays, the statistics of every non-empty group of plays of the
    store are defined: no play type of the group misses its baseline
    entry, and neither division of [DetailedPlaySummary] is by zero. *)
Theorem leaf_statistics_defined_against_store_baseline
    (d d' : DataStore.t) (s : PlayIndexSet.t) :
  Forall (fun p => 0 <= SinglePlay._down p < 256) (DataStore._data d) ->
  Z.of_nat (length (DataStore._data d)) <= 32767 ->
  DataStore.buildIndexes d = OK d' ->
  IndexSet.records s <> [] ->
  Z.of_nat (length (IndexSet.records s)) <= 32767 ->
  incl (IndexSet.records s) (DataStore._data d) ->
  exists data,
    PlaySummaryFactory.buildDetailedData s (DataStore.getPlaySummaryStats d')
    = OK data.
Proof.
  intros Hr Hsize H Hne Hsmall Hincl.
  assert (Hdata : DataStore._data d <> []).
  { intro E. destruct (IndexSet.records s) as [|p l]; [contradiction|].
    specialize (Hincl p (or_introl eq_refl)). rewrite E in Hincl.
    contradiction. }
  apply BaselineFacts.buildDetailedData_defined; [exact Hne | exact Hsmall|].
  eapply BaselineFacts.covers_incl; [|exact Hincl].
  apply BaselineFacts.baseline_covers; assumption.
Qed.

Lemma leaf_statistics_defined_against_store_baseline_witness :
  exists data,
    PlaySummaryFactory.buildDetailedData Samples.punts
      (DataStore.getPlaySummaryStats Samples.indexed)
    = OK data.
Proof.
  apply (leaf_statistics_defined_against_store_baseline Samples.store
           Samples.indexed Samples.punts).
  - vm_compute.
    repeat (constructor; [split; [discriminate | reflexivity] |]).
    constructor.
  - vm_compute. discriminate.
  - vm_compute. reflexivity.
  - vm_compute. discriminate.
  - vm_compute. discriminate.
  - intros p Hp. vm_compute in Hp. vm_compute. tauto.
Defined.

(** ** Merging two summaries and summarising all the plays at once *)

Module PoolFacts.
Import SinglePlay LeafFacts Stats SummaryFacts SplitCount.

Lemma sorted_perm_eq (l l' : list Z) :
  Sorted Z.le l -> Sorted Z.le l' -> Permutation l l' -> l = l'.
Proof.
  intros Hl Hl'.
  apply (Sorted_StronglySorted Z.le_trans) in Hl.
  apply (Sorted_StronglySorted Z.le_trans) in Hl'.
  revert l' Hl'. induction Hl as [|x xs Hxs IH Hx]; intros l' Hl' P.
  - apply Permutation_nil in P. symmetry; exact P.
  - destruct l' as [|y ys].
    + apply Permutation_sym, Permutation_nil in P. discriminate.
    + inversion Hl' as [|? ? Hys Hy]; subst.
      assert (Hyx : y <= x).
      { assert (Hin : In x (y :: ys))
          by (eapply Permutation_in; [exact P | left; reflexivity]).
        destruct Hin as [->|Hin]; [lia|].
        rewrite Forall_forall in Hy. apply Hy; exact Hin. }
      assert (Hxy : x <= y).
      { assert (Hin : In y (x :: xs))
          by (eapply Permutation_in;
              [apply Permutation_sym; exact P | left; reflexivity]).
        destruct Hin as [->|Hin]; [lia|].
        rewrite Forall_forall in Hx. apply Hx; exact Hin. }
      assert (x = y) by lia. subst y.
      f_equal. apply IH; [exact Hys|].
      eapply Permutation_cons_inv. exact P.
Qed.

(** Sorting depends on the distances only, not on their order. *)
Lemma sort_perm_eq l l' : Permutation l l' -> sort l = sort l'.
Proof.
  intro P. apply sorted_perm_eq; try apply sort_sorted.
  eapply Permutation_trans; [apply sort_perm|].
  eapply Permutation_trans; [exact P|].
  apply Permutation_sym, sort_perm.
Qed.

Lemma sum_perm l l' : Permutation l l' -> sum l = sum l'.
Proof.
  induction 1 as [|x l l' _ IH|x y l|l l' l'' _ IH1 _ IH2]; simpl;
    unfold sum in *; simpl; lia.
Qed.

Lemma to_int_mod z : to_int z mod 4294967296 = z mod 4294967296.
Proof.
  unfold to_int.
  rewrite Zminus_mod, Zmod_mod, <- Zminus_mod.
  f_equal; lia.
Qed.

Lemma to_int_cong a b :
  a mod 4294967296 = b mod 4294967296 -> to_int a = to_int b.
Proof.
  intro H. unfold to_int. f_equal.
  rewrite (Zplus_mod a), (Zplus_mod b), H. reflexivity.
Qed.

(** Summing the squared deviations on an [int] gives their exact sum,
    wrapped once. *)
Lemma totalVariance_wraps avg l a :
  fold_left (fun acc d => to_int (acc + to_int ((d - avg) * (d - avg)))) l
            (to_int a)
  = to_int (a + sum (map (fun d => (d - avg) * (d - avg)) l)).
Proof.
  revert a; induction l as [|d l IH]; intro a; simpl.
  - f_equal. unfold sum; simpl. lia.
  - replace (to_int (to_int a + to_int ((d - avg) * (d - avg))))
      with (to_int (a + (d - avg) * (d - avg))).
    + rewrite IH. f_equal. unfold sum; simpl. lia.
    + apply to_int_cong.
      rewrite (Zplus_mod (to_int a)), !to_int_mod, <- Zplus_mod. reflexivity.
Qed.

Lemma totalVariance_exact avg l :
  fold_left (fun acc d => to_int (acc + to_int ((d - avg) * (d - avg)))) l 0
  = to_int (sum (map (fun d => (d - avg) * (d - avg)) l)).
Proof. exact (totalVariance_wraps avg l 0). Qed.

(** The summary of a group of plays does not depend on the order of the
    plays. *)
Lemma OverallPlaySummary_perm l l' c :
  Permutation l l' ->
  OverallPlaySummary.OverallPlaySummary l c
  = OverallPlaySummary.OverallPlaySummary l' c.
Proof.
  intro P. unfold OverallPlaySummary.OverallPlaySummary.
  rewrite (Permutation_length P).
  rewrite !totalDistance_exact. rewrite (sum_perm _ _ P).
  destruct (to_short (Z.of_nat (length l')) >? 0); [|reflexivity].
  set (avg := to_short (Z.quot (to_short (sum l')) _)).
  rewrite !totalVariance_exact.
  rewrite (sum_perm _ _ (Permutation_map (fun d => (d - avg) * (d - avg)) P)).
  reflexivity.
Qed.

End PoolFacts.

(** X14: Merging the summary of one group of plays into the summary of another
    gives the summary [DetailedPlaySummary] builds from the plays of both
    groups at once (with the turnovers of both, against the baseline of
    the summary merged into and the new number of plays of the
    condition). *)
Theorem merge_agrees_with_summary_of_all_plays
    (d1 d2 : list Z) (c1 c2 n1 n2 totalMergedPlays : Z)
    (overall overall2 : OverallPlaySummary.t)
    (s1 s2 merged : DetailedPlaySummary.t) :
  DetailedPlaySummary.DetailedPlaySummary d1 c1 n1 overall = OK s1 ->
  DetailedPlaySummary.DetailedPlaySummary d2 c2 n2 overall2 = OK s2 ->
  DetailedPlaySummary.merge s2 totalMergedPlays s1 = OK merged ->
  DetailedPlaySummary.DetailedPlaySummary (d1 ++ d2) (to_short (c1 + c2))
    totalMergedPlays overall
  = OK merged.
Proof.
  intros H1 H2 Hm.
  unfold DetailedPlaySummary.DetailedPlaySummary in H1, H2.
  apply bind_OK in H1; destruct H1 as [p1 [_ H1]].
  apply bind_OK in H1; destruct H1 as [q1 [_ H1]].
  apply bind_OK in H2; destruct H2 as [p2 [_ H2]].
  apply bind_OK in H2; destruct H2 as [q2 [_ H2]].
  inversion H1; subst s1; clear H1. inversion H2; subst s2; clear H2.
  unfold DetailedPlaySummary.merge in Hm.
  cbn [DetailedPlaySummary._playDistances DetailedPlaySummary._turnoverCount
       DetailedPlaySummary._overallStats
       DetailedPlaySummary._percentOfConditionPlays] in Hm.
  apply bind_OK in Hm; destruct Hm as [pt [Et Hm]].
  unfold DetailedPlaySummary.updateConditionStats in Hm.
  cbn [DetailedPlaySummary._playDistances DetailedPlaySummary._turnoverCount
       DetailedPlaySummary._overallStats DetailedPlaySummary._groupStats
       DetailedPlaySummary._percentOfTypePlays] in Hm.
  apply bind_OK in Hm; destruct Hm as [pcnd [Ec Hm]].
  inversion Hm; subst merged; clear Hm.
  assert (Es : sort (sort d1 ++ sort d2) = sort (d1 ++ d2)).
  { apply PoolFacts.sort_perm_eq.
    apply Permutation_app; apply SummaryFacts.sort_perm. }
  rewrite Es in *.
  unfold DetailedPlaySummary.DetailedPlaySummary.
  rewrite Ec. cbn [bind]. rewrite Et. cbn [bind].
  rewrite (PoolFacts.OverallPlaySummary_perm (sort (d1 ++ d2)) (d1 ++ d2))
    by apply SummaryFacts.sort_perm.
  reflexivity.
Qed.

Lemma merge_agrees_with_summary_of_all_plays_witness :
  DetailedPlaySummary.DetailedPlaySummary ([3; 5] ++ [4]) (to_short (1 + 0)) 3
    (OverallPlaySummary.OverallPlaySummary [3; 5; 4; 7] 1)
  = OK Examples.pooled.
Proof.
  apply (merge_agrees_with_summary_of_all_plays [3; 5] [4] 1 0 2 1 3
           (OverallPlaySummary.OverallPlaySummary [3; 5; 4; 7] 1)
           (OverallPlaySummary.OverallPlaySummary [3; 5; 4; 7] 1)
           Examples.firstGroup Examples.secondGroup Examples.pooled).
  - vm_compute. reflexivity.
  - vm_compute. reflexivity.
  - vm_compute. reflexivity.
Defined.

(** ** Pruning keeps the plays *)

Module PruneKeeps.
Import SinglePlay DecisionNode PlaySummaryFactory Stats TreeStats TreeFacts
       MergeDataFacts.

Lemma distancesIn_leaf ty n :
  isLeaf n = true -> distancesIn ty n = distancesOf ty (_playData n).
Proof.
  destruct n as [cs dv m pd]. unfold isLeaf; simpl.
  destruct cs; [reflexivity | discriminate].
Qed.

Lemma concat_map_perm {A : Type} (f : A -> list Z) cs cs' :
  Forall2 (fun c c' => Permutation (f c') (f c)) cs cs' ->
  Permutation (concat (map f cs')) (concat (map f cs)).
Proof.
  induction 1 as [|c c' cs cs' Hc _ IH]; simpl; [constructor|].
  apply Permutation_app; assumption.
Qed.

(** Merging the summaries of leaves pools their plays. *)
Lemma mergeLeaves_spec ty others :
  Forall (fun c => isLeaf c = true) others ->
  forall playData merged,
    foldM (fun playData nodeIndex => mergeData playData (_playData nodeIndex))
          others playData = OK merged ->
    Permutation (distancesOf ty merged)
                (distancesOf ty playData
                 ++ concat (map (distancesIn ty) others)).
Proof.
  induction 1 as [|c others Hc _ IH]; intros playData merged H; simpl in H.
  - inversion H; subst. simpl. rewrite app_nil_r. apply Permutation_refl.
  - bind_inv H. apply IH in H.
    eapply Permutation_trans; [exact H|].
    simpl. rewrite app_assoc. apply Permutation_app_tail.
    rewrite (distancesIn_leaf ty c Hc).
    unfold mergeData in Hx.
    exact (proj2 (mergeData_loop_spec _ _ _ _ Hx ty)).
Qed.

Lemma mergeChildren_spec ty cs merged :
  Forall (fun c => isLeaf c = true) cs ->
  mergeChildren cs = OK merged ->
  Permutation (distancesOf ty merged) (concat (map (distancesIn ty) cs)).
Proof.
  intros Hl H. destruct cs as [|front others]; [discriminate|].
  inversion Hl; subst. unfold mergeChildren in H.
  eapply Permutation_trans; [eapply mergeLeaves_spec; eassumption|].
  simpl. rewrite (distancesIn_leaf ty front) by assumption.
  apply Permutation_refl.
Qed.

Lemma pruneTree_keeps garbage ty :
  forall n path n',
    pruneTree garbage path n = OK n' ->
    Permutation (distancesIn ty n') (distancesIn ty n).
Proof.
  induction n as [cs dv m pd IH] using node_ind; intros path n' H.
  cbn [pruneTree] in H.
  destruct cs as [|c0 cs0]; [inversion H; subst; apply Permutation_refl|].
  cbn [PlayIndexSet.is_nil] in H. bind_inv H.
  destruct (pruneChildren_spec _ _ _ _ _ Hx) as [L F].
  assert (P : Permutation (concat (map (distancesIn ty) x))
                          (concat (map (distancesIn ty) (c0 :: cs0)))).
  { apply concat_map_perm. clear - F IH.
    induction F as [|c c' l l' Hc F IHF]; constructor.
    - inversion IH; subst.
      destruct Hc as [->|[p Hp]]; [apply Permutation_refl | eauto].
    - inversion IH; subst. apply IHF; assumption. }
  assert (Hx0 : exists c1 x1, x = c1 :: x1)
    by (destruct x; [discriminate L | eauto]).
  destruct Hx0 as [c1 [x1 ->]].
  change (distancesIn ty (mk (c0 :: cs0) dv m pd))
    with (concat (map (distancesIn ty) (c0 :: cs0))).
  destruct (negb (forallb isLeaf (c1 :: x1))) eqn:El;
    [inversion H; subst; exact P|].
  destruct (shouldPrune (garbage path) (c1 :: x1)).
  - bind_inv H. inversion H; subst; clear H.
    change (distancesIn ty (mk [] dv m x)) with (distancesOf ty x).
    eapply Permutation_trans; [|exact P].
    apply mergeChildren_spec; [|exact Hx0].
    apply forallb_Forall. apply negb_false_iff in El. exact El.
  - inversion H; subst; exact P.
Qed.

End PruneKeeps.

(** X15: Pruning keeps every play: for each play type, the distances summarised
    in the leaves of the pruned tree are those summarised in the leaves of
    the tree before, whatever the uninitialised counter held. *)
Theorem pruneTree_keeps_every_play (garbage : list nat -> Z)
    (path : list nat) (n n' : DecisionNode.t) (ty : SinglePlay.PlayType) :
  DecisionNode.pruneTree garbage path n = OK n' ->
  Permutation (TreeStats.distancesIn ty n') (TreeStats.distancesIn ty n).
Proof. apply PruneKeeps.pruneTree_keeps. Qed.

Lemma pruneTree_keeps_every_play_witness :
  Permutation
    (TreeStats.distancesIn SinglePlay.run_left Examples.unevenPruned)
    (TreeStats.distancesIn SinglePlay.run_left Samples.unevenTree).
Proof.
  apply (pruneTree_keeps_every_play (fun _ => 0) [] Samples.unevenTree
           Examples.unevenPruned SinglePlay.run_left).
  vm_compute. reflexivity.
Defined.

(** ** The plays of an index set through drops and splits *)

Module RecordFacts.
Import SinglePlay PlayIndexSet IndexFacts IndexSet Counting SplitCount SplitCover
       SplitInvariant InvariantFacts SplitTotal Shape.

Lemma records_tracked s c :
  PlayCharacteristicSet.elements (getIndexesAvailable s) = [] ->
  PlayCharacteristicSet.mem c (getIndexesAvailable s) = false.
Proof.
  intro H. destruct (PlayCharacteristicSet.mem c (getIndexesAvailable s)) eqn:E;
    [|reflexivity].
  apply SetFacts.mem_elements in E. rewrite H in E. contradiction.
Qed.

Lemma two_tracked s c :
  PlayCharacteristicSet.size (_indexes s) <> 1 ->
  PlayCharacteristicSet.elements (_indexes s) <> [] ->
  exists c', c' <> c /\ PlayCharacteristicSet.mem c' (_indexes s) = true.
Proof.
  destruct s as [[[] [] [] [] []] ? ? ? ? ?];
    unfold PlayCharacteristicSet.size, PlayCharacteristicSet.elements;
    simpl; intros H1 H2; try contradiction; try (exfalso; apply H1; reflexivity);
    destruct c;
    first [ exists down_number; split; [discriminate | reflexivity]
          | exists distance_needed; split; [discriminate | reflexivity]
          | exists field_location; split; [discriminate | reflexivity]
          | exists time_remaining; split; [discriminate | reflexivity]
          | exists score_differential; split; [discriminate | reflexivity] ].
Qed.

(** Dropping an index does not change the plays the set stands for: the
    last index is never dropped. *)
Lemma records_dropIndex s c :
  invariant s -> Permutation (records (dropIndex c s)) (records s).
Proof.
  intro Inv.
  destruct (Z.eq_dec (PlayCharacteristicSet.size (_indexes s)) 1) as [E|E].
  { rewrite dropIndex_sole by exact E. apply Permutation_refl. }
  pose proof (dropIndex_invariant c s Inv) as Inv1.
  destruct (PlayCharacteristicSet.elements (getIndexesAvailable (dropIndex c s)))
    as [|c1 rest] eqn:E1.
  - assert (R1 : records (dropIndex c s) = [])
      by (unfold records; rewrite E1; reflexivity).
    rewrite R1.
    destruct (PlayCharacteristicSet.elements (getIndexesAvailable s))
      as [|c0 rest0] eqn:E0.
    + unfold records. rewrite E0. constructor.
    + exfalso. destruct (two_tracked s c E) as [c' [Hne Hc']].
      { unfold getIndexesAvailable in E0. rewrite E0. discriminate. }
      destruct (dropIndex_frame c c' s Hne) as [_ F].
      rewrite <- F in Hc'.
      pose proof (records_tracked _ c' E1) as Hn.
      unfold getIndexesAvailable in Hn. congruence.
  - assert (T1 : PlayCharacteristicSet.mem c1 (getIndexesAvailable (dropIndex c s))
                 = true).
    { apply SetFacts.mem_elements. rewrite E1. left; reflexivity. }
    assert (Hne : c1 <> c).
    { intros ->. destruct (dropIndex_drops c s E) as [_ D].
      unfold getIndexesAvailable in T1. congruence. }
    destruct (dropIndex_frame c c1 s Hne) as [G F].
    eapply Permutation_trans;
      [apply Permutation_sym; apply (recordCount_records _ c1 Inv1 T1)|].
    rewrite G. apply recordCount_records; [exact Inv|].
    unfold getIndexesAvailable in *. rewrite <- F. exact T1.
Qed.

Lemma records_restrict a j s :
  records (restrict a j s) = bucket a j (records s).
Proof.
  unfold records.
  change (getIndexesAvailable (restrict a j s)) with (getIndexesAvailable s).
  destruct (PlayCharacteristicSet.elements (getIndexesAvailable s))
    as [|c rest]; [reflexivity|].
  rewrite getIndex_restrict. unfold bucket. apply concat_filter_map.
Qed.

Lemma tracked_restrict a j s : tracked (restrict a j s) = tracked s.
Proof. reflexivity. Qed.

Lemma tracked_dropIndex_le c s : (tracked (dropIndex c s) <= tracked s)%nat.
Proof.
  unfold tracked, dropIndex, getIndexesAvailable, PlayCharacteristicSet.size,
    PlayCharacteristicSet.elements.
  destruct s as [[[] [] [] [] []] ? ? ? ? ?]; destruct c; simpl; lia.
Qed.

Lemma tracked_dropIndex c s :
  (2 <= tracked s)%nat ->
  PlayCharacteristicSet.mem c (getIndexesAvailable s) = true ->
  tracked (dropIndex c s) = (tracked s - 1)%nat.
Proof.
  unfold tracked, dropIndex, getIndexesAvailable, PlayCharacteristicSet.size,
    PlayCharacteristicSet.elements.
  destruct s as [[[] [] [] [] []] ? ? ? ? ?]; destruct c; simpl;
    intros H1 H2; try discriminate; try lia.
Qed.

Lemma tracked_sole s :
  tracked s = 1%nat -> PlayCharacteristicSet.size (_indexes s) = 1.
Proof.
  unfold tracked, getIndexesAvailable, PlayCharacteristicSet.size.
  intros ->. reflexivity.
Qed.

Lemma tracked_pos s c :
  PlayCharacteristicSet.mem c (getIndexesAvailable s) = true ->
  (1 <= tracked s)%nat.
Proof.
  intro H. apply SetFacts.mem_elements in H. unfold tracked.
  destruct (PlayCharacteristicSet.elements (getIndexesAvailable s));
    [contradiction | simpl; lia].
Qed.

Lemma tracked_le_five s : (tracked s <= 5)%nat.
Proof.
  unfold tracked, getIndexesAvailable, PlayCharacteristicSet.elements.
  destruct s as [[[] [] [] [] []] ? ? ? ? ?]; simpl; lia.
Qed.

Lemma records_nonempty_tracked s :
  records s <> [] ->
  exists c, PlayCharacteristicSet.mem c (getIndexesAvailable s) = true.
Proof.
  unfold records. intro H.
  destruct (PlayCharacteristicSet.elements (getIndexesAvailable s))
    as [|c rest] eqn:E; [contradiction|].
  exists c. apply SetFacts.mem_elements. rewrite E. left; reflexivity.
Qed.

(** The populated categories of a partition cut down to category [j]. *)
Lemma populated_restrict a A j :
  partitions a A ->
  (length (populated (map (bucket a j) A)) <= 1)%nat.
Proof.
  intros [LenA PartA]. unfold populated. rewrite length_map.
  assert (E : forall i, (i < length A)%nat -> i <> j ->
                nth i (map (bucket a j) A) [] = []).
  { intros i Hi Hne.
    change (@nil SinglePlay.t) with (bucket a j []).
    rewrite map_nth. unfold bucket.
    destruct (filter _ (nth i A [])) as [|r l] eqn:F; [reflexivity|].
    assert (Hr : In r (filter (fun p => getValue a p =? Z.of_nat j)
                          (nth i A []))) by (rewrite F; left; reflexivity).
    apply filter_In in Hr. destruct Hr as [Hr Hv].
    apply Z.eqb_eq in Hv. rewrite (PartA i r Hr) in Hv. lia. }
  set (l := filter _ (seq 0 (length A))).
  assert (Hnd : NoDup l) by (apply NoDup_filter, seq_NoDup).
  assert (Hall : forall i, In i l -> i = j).
  { intros i Hi. apply filter_In in Hi. destruct Hi as [Hi Hp].
    apply in_seq in Hi.
    destruct (Nat.eq_dec i j) as [Eq|Hne]; [exact Eq|].
    rewrite (E i) in Hp by lia. discriminate. }
  destruct l as [|x [|y l']]; simpl; try lia.
  exfalso. inversion Hnd as [|? ? Hx _]; subst. apply Hx.
  rewrite (Hall x) by (left; reflexivity).
  rewrite <- (Hall y) by (right; left; reflexivity). left; reflexivity.
Qed.

(** A populated category holds plays of the set. *)
Lemma populated_bucket s a j :
  invariant s ->
  PlayCharacteristicSet.mem a (getIndexesAvailable s) = true ->
  In j (populated (getIndex a s)) ->
  bucket a j (records s) <> [].
Proof.
  intros Inv Ta Hj. pose proof Inv as [_ [Inv2 _]].
  destruct (Inv2 a Ta) as [LenA PartA].
  unfold populated in Hj. apply filter_In in Hj. destruct Hj as [Hj Hne].
  apply in_seq in Hj.
  destruct (nth j (getIndex a s) []) as [|r l] eqn:E; [discriminate|].
  assert (Hr : In r (nth j (getIndex a s) [])) by (rewrite E; left; reflexivity).
  assert (Hin : In r (records s)).
  { eapply Permutation_in; [apply (recordCount_records s a Inv Ta)|].
    apply in_concat. exists (nth j (getIndex a s) []).
    split; [apply nth_In; lia | exact Hr]. }
  intro Hb.
  assert (Hrb : In r (bucket a j (records s))).
  { unfold bucket. apply filter_In. split; [exact Hin|].
    apply Z.eqb_eq. apply PartA. exact Hr. }
  rewrite Hb in Hrb. contradiction.
Qed.

End RecordFacts.

(** ** The candidate loop and the children of a decision node *)

Module NodeFacts.
Import SinglePlay PlayIndexSet PlaySummaryFactory IndexFacts IndexSet Counting
       SplitCount SplitCover SplitChain SplitResult SplitInvariant InvariantFacts
       SplitTotal LeafFacts CandidateFacts DecisionNode Shape RecordFacts.

(** One total per populated category. *)
Lemma tally_length A :
  forall cnts totals t cnts' totals' t',
    foldM tallyCategory A (cnts, totals, t) = OK (cnts', totals', t') ->
    length totals'
    = (length totals + length (filter (fun i => negb (is_nil i)) A))%nat.
Proof.
  induction A as [|cat A IH]; intros cnts totals t cnts' totals' t' H.
  - simpl in H. inversion H; subst. simpl. lia.
  - change (foldM tallyCategory (cat :: A) (cnts, totals, t))
      with (a' <- tallyCategory (cnts, totals, t) cat ;;
            foldM tallyCategory A a') in H.
    apply bind_OK in H. destruct H as [[[c1 t1] n1] [E H]].
    apply IH in H. unfold tallyCategory in E.
    destruct cat as [|p cat]; cbn [is_nil] in E.
    + inversion E; subst. simpl. exact H.
    + bind_inv E. inversion E; subst. rewrite H, length_app. simpl. lia.
Qed.

Lemma populated_length A :
  length (populated A) = length (filter (fun i => negb (is_nil i)) A).
Proof.
  unfold populated. apply (filter_nth_seq (fun i => negb (is_nil i)) [] A).
Qed.

(** A candidate that is kept separates the plays into at least two
    categories. *)
Lemma candidate_kept log2 ptc A r :
  candidateRatio log2 ptc A = OK r ->
  PrimFloat.ltb r MinInformationGain = false ->
  (2 <= length (populated A))%nat.
Proof.
  unfold candidateRatio. intros H Hr.
  apply bind_OK in H. destruct H as [[[cnts totals] t] [E H]].
  apply tally_length in E. simpl in E. rewrite populated_length, <- E.
  destruct (Nat.leb_spec (length totals) 1) as [Hle|Hgt]; [|lia].
  inversion H; subst r. vm_compute in Hr. discriminate.
Qed.

Lemma populated_same c c' idx :
  c' <> c ->
  PlayCharacteristicSet.mem c' (getIndexesAvailable (dropIndex c idx))
  = PlayCharacteristicSet.mem c' (getIndexesAvailable idx)
  /\ getIndex c' (dropIndex c idx) = getIndex c' idx.
Proof.
  intro H. destruct (dropIndex_frame c c' idx H) as [G F].
  split; [exact F | exact G].
Qed.

(** What is tracked after a drop was tracked before, with the same
    index. *)
Lemma dropIndex_tracked c b idx :
  PlayCharacteristicSet.mem b (getIndexesAvailable (dropIndex c idx)) = true ->
  PlayCharacteristicSet.mem b (getIndexesAvailable idx) = true
  /\ getIndex b (dropIndex c idx) = getIndex b idx.
Proof.
  intro H.
  destruct (Z.eq_dec (PlayCharacteristicSet.size (_indexes idx)) 1) as [E|E].
  { rewrite dropIndex_sole in * by exact E. split; [exact H | reflexivity]. }
  assert (Hdec : b = c \/ b <> c)
    by (destruct b, c; (left; reflexivity) || (right; discriminate)).
  destruct Hdec as [->|Hne].
  - destruct (dropIndex_drops c idx E) as [_ D].
    unfold getIndexesAvailable in H. congruence.
  - destruct (dropIndex_frame c b idx Hne) as [G F].
    unfold getIndexesAvailable in *. rewrite F in H. split; assumption.
Qed.

(** The state the candidate loop ends in. *)
Lemma testCandidate_fold_inv log2 ptc l :
  NoDup l ->
  forall idx dv r idx' dv' r',
    foldM (testCandidate log2 ptc) l (idx, dv, r) = OK (idx', dv', r') ->
    invariant idx ->
    (forall c, In c l ->
       PlayCharacteristicSet.mem c (getIndexesAvailable idx) = true) ->
    match dv with
    | None => r = 0%float
    | Some c =>
        ~ In c l
        /\ PlayCharacteristicSet.mem c (getIndexesAvailable idx) = true
        /\ (2 <= length (populated (getIndex c idx)))%nat
    end ->
    invariant idx'
    /\ Permutation (records idx') (records idx)
    /\ (tracked idx' <= tracked idx)%nat
    /\ (forall b,
          PlayCharacteristicSet.mem b (getIndexesAvailable idx') = true ->
          PlayCharacteristicSet.mem b (getIndexesAvailable idx) = true
          /\ getIndex b idx' = getIndex b idx)
    /\ match dv' with
       | None => r' = 0%float
       | Some c =>
           PlayCharacteristicSet.mem c (getIndexesAvailable idx') = true
           /\ (2 <= length (populated (getIndex c idx')))%nat
       end.
Proof.
  induction 1 as [|c l Hc Hl IH]; intros idx dv r idx' dv' r' H Inv Htr Hdv.
  - simpl in H. inversion H; subst. split; [exact Inv|].
    split; [apply Permutation_refl|]. split; [lia|].
    split; [intros b Hb; split; [exact Hb | reflexivity]|].
    destruct dv' as [c0|]; [|exact Hdv]. destruct Hdv as [_ Hdv]. exact Hdv.
  - change (foldM (testCandidate log2 ptc) (c :: l) (idx, dv, r))
      with (a' <- testCandidate log2 ptc (idx, dv, r) c ;;
            foldM (testCandidate log2 ptc) l a') in H.
    apply bind_OK in H. destruct H as [[[idx1 dv1] r1] [E H]].
    unfold testCandidate in E.
    apply bind_OK in E. destruct E as [ratio [Er E]].
    destruct (PrimFloat.ltb ratio MinInformationGain) eqn:Elt.
    + inversion E; subst idx1 dv1 r1; clear E.
      destruct (IH _ _ _ _ _ _ H) as [I1 [I2 [I3 [I4 I5]]]].
      * apply dropIndex_invariant. exact Inv.
      * intros c' Hc'.
        assert (Hne : c' <> c) by (intros ->; contradiction).
        destruct (populated_same c c' idx Hne) as [F _]. rewrite F.
        apply Htr. right; exact Hc'.
      * destruct dv as [c0|]; [|exact Hdv].
        destruct Hdv as [Hn [Hm Hp]].
        assert (Hne : c0 <> c) by (intros ->; apply Hn; left; reflexivity).
        destruct (populated_same c c0 idx Hne) as [F G].
        rewrite F, G. repeat split; auto.
        intro Hin. apply Hn. right; exact Hin.
      * split; [exact I1|]. split.
        { eapply Permutation_trans; [exact I2|].
          apply records_dropIndex. exact Inv. }
        split.
        { pose proof (tracked_dropIndex_le c idx). lia. }
        split; [|exact I5].
        intros b Hb. destruct (I4 b Hb) as [Hb1 Hg1].
        destruct (dropIndex_tracked c b idx Hb1) as [Hb0 Hg0].
        split; [exact Hb0 | congruence].
    + inversion E; subst idx1 dv1 r1; clear E.
      apply (IH _ _ _ _ _ _ H Inv).
      * intros c' Hc'. apply Htr. right; exact Hc'.
      * split; [exact Hc|]. split; [apply Htr; left; reflexivity|].
        eapply candidate_kept; eassumption.
Qed.

Lemma testCandidates_inv log2 ptc s idx' dv' r' :
  testCandidates log2 ptc s = OK (idx', dv', r') ->
  invariant s ->
  invariant idx'
  /\ Permutation (records idx') (records s)
  /\ (tracked idx' <= tracked s)%nat
  /\ (forall b,
        PlayCharacteristicSet.mem b (getIndexesAvailable idx') = true ->
        PlayCharacteristicSet.mem b (getIndexesAvailable s) = true
        /\ getIndex b idx' = getIndex b s)
  /\ match dv' with
     | None => r' = 0%float
     | Some c =>
         PlayCharacteristicSet.mem c (getIndexesAvailable idx') = true
         /\ (2 <= length (populated (getIndex c idx')))%nat
     end.
Proof.
  unfold testCandidates. intros H Inv.
  apply (testCandidate_fold_inv log2 ptc _ (elements_NoDup _) _ _ _ _ _ _ H Inv).
  - intros c Hc. apply SetFacts.mem_elements. exact Hc.
  - reflexivity.
Qed.

Lemma testCandidates_OK log2 ptc s :
  exists idx' dv' r', testCandidates log2 ptc s = OK (idx', dv', r').
Proof.
  unfold testCandidates.
  destruct (testCandidate_fold log2 ptc _
              (elements_NoDup (getIndexesAvailable s)) s None 0%float)
    as [i' [m' E]].
  rewrite E. eexists; eexists; eexists; reflexivity.
Qed.

(** *** The mapping from categories to children *)

Lemma categoryChildMapping_spec A :
  forall v, 0 <= v -> v + Z.of_nat (length A) <= 32767 ->
    length (categoryChildMapping A v) = length A
    /\ Forall (fun m => -1 <= m
                        < v + Z.of_nat (length (filter (fun i => negb (is_nil i)) A)))
              (categoryChildMapping A v).
Proof.
  induction A as [|cat A IH]; intros v Hv Hb; simpl.
  - split; [reflexivity | constructor].
  - simpl length in Hb. destruct cat as [|p cat]; simpl.
    + destruct (IH v Hv ltac:(lia)) as [L F]. split; [lia|].
      constructor; [lia | exact F].
    + rewrite to_short_small by lia.
      destruct (IH (v + 1) ltac:(lia) ltac:(lia)) as [L F]. split; [lia|].
      constructor; [lia|].
      eapply Forall_impl; [|exact F]. intros m Hm. cbv beta in Hm. lia.
Qed.

(** *** The children of a split *)

Lemma split_children s c s' sibs :
  invariant s ->
  PlayCharacteristicSet.mem c (getIndexesAvailable s) = true ->
  (2 <= length (populated (getIndex c s)))%nat ->
  splitIndexByCharacteristic c s = OK (s', sibs) ->
  sibs <> []
  /\ length (s' :: sibs) = length (populated (getIndex c s))
  /\ Forall (childOf s) (s' :: sibs).
Proof.
  intros Inv Tc Hpop H. pose proof Inv as [_ [Inv2 _]].
  destruct (Inv2 c Tc) as [LenA PartA].
  assert (Hs : sibs <> []).
  { intro E. subst sibs. unfold splitIndexByCharacteristic in H.
    assert (Hcount : countNonEmpty (getIndex c s)
                     = Z.of_nat (length (populated (getIndex c s)))).
    { unfold countNonEmpty. rewrite <- populated_length.
      unfold to_ushort. apply Z.mod_small.
      assert ((length (populated (getIndex c s)) <= length (getIndex c s))%nat).
      { rewrite populated_length. apply filter_length_le. }
      assert (getCategoryCount c <= 7) by (destruct c; vm_compute; discriminate).
      lia. }
    rewrite Hcount in H.
    destruct (Z.leb_spec (Z.of_nat (length (populated (getIndex c s)))) 1)
      as [Hle|Hgt]; [lia|].
    apply split_chain_indexes in H.
    apply (f_equal (@length _)) in H. rewrite !length_map, repeat_length in H.
    simpl in H. lia. }
  split; [exact Hs|].
  pose proof (split_hands_out s s' c sibs Inv H Hs) as E.
  rewrite E. split; [apply length_map|].
  apply Forall_forall. intros x Hx. apply in_map_iff in Hx.
  destruct Hx as [j [<- Hj]].
  pose proof (dropIndex_invariant c s Inv) as Inv1.
  unfold childOf.
  split; [apply restrict_invariant; exact Inv1|].
  assert (Hb : bucket c j (records s) <> [])
    by (apply populated_bucket; assumption).
  assert (P : Permutation (records (dropIndex c s)) (records s))
    by (apply records_dropIndex; exact Inv).
  split.
  { rewrite records_restrict. intro Hn. apply Hb.
    destruct (bucket c j (records s)) as [|r l] eqn:Eb; [reflexivity|].
    assert (Hr : In r (bucket c j (records s))) by (rewrite Eb; left; reflexivity).
    unfold bucket in Hr. apply filter_In in Hr. destruct Hr as [Hr Hv].
    assert (Hr' : In r (bucket c j (records (dropIndex c s)))).
    { unfold bucket. apply filter_In. split; [|exact Hv].
      eapply Permutation_in; [apply Permutation_sym; exact P | exact Hr]. }
    rewrite Hn in Hr'. contradiction. }
  split.
  { rewrite records_restrict. intros r Hr. unfold bucket in Hr.
    apply filter_In in Hr. destruct Hr as [Hr _].
    eapply Permutation_in; [exact P | exact Hr]. }
  split.
  { rewrite records_restrict, <- (Permutation_length P).
    unfold bucket. apply filter_length_le. }
  split.
  { intro Hone. pose proof (tracked_sole s Hone) as Hsize.
    rewrite (dropIndex_sole c s Hsize). split.
    - rewrite tracked_restrict. exact Hone.
    - intros b Hb'.
      change (getIndexesAvailable (restrict c j s)) with (getIndexesAvailable s)
        in Hb'.
      assert (b = c)
        by (apply (SetFacts.size_one_unique b c (_indexes s)); assumption).
      subst b. rewrite getIndex_restrict.
      apply populated_restrict. split; assumption. }
  { intro Htwo. rewrite tracked_restrict.
    apply tracked_dropIndex; assumption. }
Qed.

End NodeFacts.

(** ** The shape of a tree built from a consistent index set *)

Module BuiltFacts.
Import SinglePlay PlayIndexSet PlaySummaryFactory IndexFacts IndexSet Counting
       SplitCount SplitInvariant InvariantFacts SplitTotal LeafFacts
       CandidateFacts DecisionNode Shape RecordFacts NodeFacts TreeFacts.

Lemma mapM_Forall2 {A B : Type} (f : A -> outcome B) l r :
  mapM f l = OK r -> Forall2 (fun a b => f a = OK b) l r.
Proof.
  revert r; induction l as [|a l IH]; simpl; intros r H.
  - inversion H; constructor.
  - bind_inv H. bind_inv H. inversion H; subst.
    constructor; [assumption | apply IH; assumption].
Qed.

Lemma max_bound (l : list nat) b :
  Forall (fun d => (d <= b)%nat) l -> (fold_right Nat.max O l <= b)%nat.
Proof. induction 1; simpl; lia. Qed.

(** The state the constructor splits or summarises. *)
Lemma candidates_inv log2 s idx dv r :
  (if (1 <? length (indexesToPlayCounts s))%nat
   then testCandidates log2 (indexesToPlayCounts s) s
   else OK (s, None, 0%float)) = OK (idx, dv, r) ->
  invariant s ->
  invariant idx
  /\ Permutation (records idx) (records s)
  /\ (tracked idx <= tracked s)%nat
  /\ (forall b,
        PlayCharacteristicSet.mem b (getIndexesAvailable idx) = true ->
        PlayCharacteristicSet.mem b (getIndexesAvailable s) = true
        /\ getIndex b idx = getIndex b s)
  /\ match dv with
     | None => r = 0%float
     | Some c =>
         PlayCharacteristicSet.mem c (getIndexesAvailable idx) = true
         /\ (2 <= length (populated (getIndex c idx)))%nat
     end.
Proof.
  intros H Inv. destruct (1 <? length (indexesToPlayCounts s))%nat.
  - eapply testCandidates_inv; eassumption.
  - inversion H; subst. split; [exact Inv|].
    split; [apply Permutation_refl|]. split; [lia|].
    split; [intros b Hb; split; [exact Hb | reflexivity] | reflexivity].
Qed.

Lemma built_shape log2 summaryData fuel :
  forall s n,
    invariant s ->
    DecisionNode.DecisionNode log2 fuel s summaryData = OK n ->
    routable n = true
    /\ (depth n <= tracked s)%nat
    /\ (exhausted s -> depth n = O).
Proof.
  induction fuel as [|fuel IH]; intros s n Inv H; [discriminate|].
  cbn [DecisionNode.DecisionNode] in H.
  destruct (is_nil (indexesToPlayCounts s)); [discriminate|].
  apply bind_OK in H. destruct H as [[[idx dv] r] [Ec H]].
  destruct (candidates_inv _ _ _ _ _ Ec Inv) as [Inv' [_ [Htr [Hsame Hdv]]]].
  destruct (PrimFloat.leb MinInformationGain r) eqn:El.
  - destruct dv as [c|]; [|discriminate].
    destruct Hdv as [Tc Hpop].
    apply bind_OK in H. destruct H as [[s' sibs] [Es H]].
    destruct (split_children idx c s' sibs Inv' Tc Hpop Es) as [Hs [Hlen Hch]].
    destruct sibs as [|sib sibs]; [contradiction|].
    cbn [is_nil] in H.
    apply bind_OK in H. destruct H as [first [Ef H]].
    apply bind_OK in H. destruct H as [rest [Er H]].
    inversion H; subst n; clear H.
    pose proof (mapM_length _ _ _ Er) as Lrest.
    pose proof (mapM_Forall2 _ _ _ Er) as Frest.
    pose proof (tracked_pos idx c Tc) as Hpos.
    set (bound := if (tracked idx =? 1)%nat then O else (tracked idx - 1)%nat).
    assert (Hchild : forall x t,
               childOf idx x ->
               DecisionNode.DecisionNode log2 fuel x summaryData = OK t ->
               routable t = true /\ (depth t <= bound)%nat).
    { intros x t [Hi [_ [_ [_ [H1 H2]]]]] Ht.
      destruct (IH x t Hi Ht) as [R [D1 D2]]. split; [exact R|].
      unfold bound. destruct (Nat.eqb_spec (tracked idx) 1) as [E1|E1].
      - rewrite (D2 (H1 E1)). lia.
      - rewrite <- H2 by lia. exact D1. }
    inversion Hch as [|? ? Hfirst Hsibs]; subst.
    destruct (Hchild _ _ Hfirst Ef) as [Rf Df].
    assert (Hrest : Forall (fun t => routable t = true /\ (depth t <= bound)%nat)
                           rest).
    { clear - Frest Hsibs Hchild.
      induction Frest as [|x t l l' Hxt _ IHF]; constructor.
      - inversion Hsibs; subst. eapply Hchild; eassumption.
      - inversion Hsibs; subst. apply IHF; assumption. }
    pose proof Inv' as [_ [Inv2 _]]. destruct (Inv2 c Tc) as [LenA _].
    assert (Hcount : getCategoryCount c <= 7)
      by (destruct c; vm_compute; discriminate).
    assert (Hfit : 0 + Z.of_nat (length (getIndex c idx)) <= 32767).
    { rewrite LenA. lia. }
    destruct (categoryChildMapping_spec (getIndex c idx) 0 (Z.le_refl 0) Hfit)
      as [Lm Fm].
    split; [|split].
    + cbn [routable]. apply andb_true_iff. split; [apply andb_true_iff; split|].
      * apply Z.eqb_eq. rewrite Lm. exact LenA.
      * apply forallb_forall. intros m Hm.
        rewrite Forall_forall in Fm. specialize (Fm m Hm). cbv beta in Fm.
        rewrite <- populated_length, <- Hlen in Fm.
        cbn [length] in Fm |- *. rewrite Lrest. cbn [length].
        apply andb_true_iff. split; [apply Z.leb_le | apply Z.ltb_lt]; lia.
      * cbn [forallb]. apply andb_true_iff. split; [exact Rf|].
        apply forallb_forall. intros t Ht.
        rewrite Forall_forall in Hrest. apply Hrest. exact Ht.
    + cbn [depth].
      assert (Hmax : (fold_right Nat.max O (map depth (first :: rest))
                      <= bound)%nat).
      { apply max_bound. constructor; [exact Df|].
        apply Forall_map. eapply Forall_impl; [|exact Hrest].
        intros t [_ Ht]. exact Ht. }
      unfold bound in Hmax.
      destruct (Nat.eqb_spec (tracked idx) 1); lia.
    + intros [_ Hex]. exfalso.
      destruct (Hsame c Tc) as [Tc0 G].
      specialize (Hex c Tc0). rewrite <- G in Hex. lia.
  - apply bind_OK in H. destruct H as [pd [_ H]].
    inversion H; subst. repeat split; simpl; auto; lia.
Qed.

(** *** Lookup on a routable tree *)

Lemma routable_lookup n :
  forall down distanceNeeded fieldLocation timeRemaining scoreDifferential,
    routable n = true ->
    0 <= down < 5 -> 0 <= distanceNeeded < 5 ->
    exists playData,
      findPlays_cat n down distanceNeeded fieldLocation timeRemaining
        scoreDifferential = OK playData.
Proof.
  induction n as [cs dv m pd IH] using node_ind;
    intros down dist fl tr sd R Hdown Hdist.
  destruct cs as [|c0 cs0]; [eexists; reflexivity|].
  cbn [routable] in R. destruct dv as [c|]; [|discriminate].
  apply andb_true_iff in R. destruct R as [R Rc].
  apply andb_true_iff in R. destruct R as [Rl Rm].
  apply Z.eqb_eq in Rl.
  remember (c0 :: cs0) as cs eqn:Ecs.
  cbn [findPlays_cat].
  replace (is_nil cs) with false by (subst cs; reflexivity).
  assert (Hv : exists v, testValueOf (Some c) down dist fl tr sd = OK v
                         /\ 0 <= v < getCategoryCount c).
  { destruct c; simpl; eexists; (split; [reflexivity|]); try lia.
    - destruct fl; simpl; lia.
    - destruct tr; simpl; lia.
    - destruct sd; simpl; lia. }
  destruct Hv as [v [Ev Hv]]. rewrite Ev. cbn [bind].
  assert (Hat : exists childIndex,
             at_ m v = OK childIndex /\ In childIndex m).
  { unfold at_. destruct (Z.ltb_spec v 0) as [Hneg|_]; [lia|].
    destruct (nth_error m (Z.to_nat v)) as [ci|] eqn:En.
    - exists ci. split; [reflexivity|]. eapply nth_error_In; exact En.
    - apply nth_error_None in En. lia. }
  destruct Hat as [ci [Eat Hin]]. rewrite Eat. cbn [bind].
  rewrite forallb_forall in Rm. specialize (Rm ci Hin).
  apply andb_true_iff in Rm. destruct Rm as [Rm1 Rm2].
  apply Z.leb_le in Rm1. apply Z.ltb_lt in Rm2.
  destruct (Z.geb_spec ci 0) as [Hge|Hlt]; [|eexists; reflexivity].
  assert (Hi : (Z.to_nat ci < length cs)%nat) by lia.
  apply forallb_Forall in Rc.
  clear Ecs Rm2. revert Hi IH Rc. generalize (Z.to_nat ci).
  induction cs as [|x l IHl]; intros i Hi IH Rc; [simpl in Hi; lia|].
  inversion IH as [|? ? Hx Hl]; subst. inversion Rc; subst.
  destruct i as [|i].
  - apply Hx; assumption.
  - apply IHl; [simpl in Hi; lia | assumption | assumption].
Qed.

Lemma pruneTree_routable garbage :
  forall n path n',
    routable n = true -> pruneTree garbage path n = OK n' ->
    routable n' = true.
Proof.
  induction n as [cs dv m pd IH] using node_ind; intros path n' W H.
  cbn [pruneTree] in H.
  destruct cs as [|c0 cs0]; [inversion H; subst; exact W|].
  cbn [PlayIndexSet.is_nil] in H. bind_inv H.
  destruct (pruneChildren_spec _ _ _ _ _ Hx) as [L F].
  cbn [routable] in W. destruct dv as [c|]; [|discriminate].
  apply andb_true_iff in W. destruct W as [W Wc].
  apply andb_true_iff in W. destruct W as [Wl Wm].
  assert (Hx0 : exists c1 x1, x = c1 :: x1)
    by (destruct x; [discriminate L | eauto]).
  destruct Hx0 as [c1 [x1 ->]].
  assert (Wx : routable (mk (c1 :: x1) (Some c) m pd) = true).
  { cbn [routable]. apply andb_true_iff. split; [apply andb_true_iff; split|].
    - exact Wl.
    - rewrite L. exact Wm.
    - apply forallb_Forall. apply forallb_Forall in Wc.
      clear - F IH Wc. induction F as [|a a' l l' Ha F IHF]; constructor.
      + inversion IH; inversion Wc; subst.
        destruct Ha as [->|[p Hp]]; [assumption|]. eauto.
      + inversion IH; inversion Wc; subst. apply IHF; assumption. }
  destruct (negb (forallb isLeaf (c1 :: x1))); [inversion H; subst; exact Wx|].
  destruct (shouldPrune (garbage path) (c1 :: x1)).
  - bind_inv H. inversion H; subst. reflexivity.
  - inversion H; subst; exact Wx.
Qed.

End BuiltFacts.

(** X16: A tree built from a consistent index set is at most five decisions
    deep: every split drops the characteristic it splits on, unless that
    is the last one tracked, and then the children are leaves. *)
Theorem built_tree_at_most_five_decisions_deep
    (log2 : float -> float) (fuel : nat) (s : PlayIndexSet.t)
    (summaryData : list OverallPlaySummary.t) (n : DecisionNode.t) :
  IndexSet.invariant s ->
  DecisionNode.DecisionNode log2 fuel s summaryData = OK n ->
  (Shape.depth n <= Shape.tracked s)%nat /\ (Shape.depth n <= 5)%nat.
Proof.
  intros Inv H.
  destruct (BuiltFacts.built_shape log2 summaryData fuel s n Inv H)
    as [_ [D _]].
  pose proof (RecordFacts.tracked_le_five s). lia.
Qed.

Lemma built_tree_at_most_five_decisions_deep_witness :
  (Shape.depth Samples.tree <= Shape.tracked Samples.indexes)%nat
  /\ (Shape.depth Samples.tree <= 5)%nat.
Proof.
  apply (built_tree_at_most_five_decisions_deep Samples.log2 7 Samples.indexes
           (DataStore.getPlaySummaryStats Samples.indexed) Samples.tree).
  - exact SampleFacts.indexes_invariant.
  - vm_compute. reflexivity.
Defined.

(** X17: On a tree built from a consistent index set, before and after pruning,
    the lookup on category values returns for every down and distance
    category from 0 to 4 and every field location, time and score
    category: neither [at] can be out of range. *)
Theorem lookup_by_category_returns
    (log2 : float -> float) (fuel : nat) (s : PlayIndexSet.t)
    (summaryData : list OverallPlaySummary.t) (garbage : list nat -> Z)
    (n n' : DecisionNode.t) (down distanceNeeded : Z)
    (fieldLocation : SinglePlay.FieldLocation)
    (timeRemaining : SinglePlay.TimeRemaining)
    (scoreDifferential : SinglePlay.ScoreDifferential) :
  IndexSet.invariant s ->
  DecisionNode.DecisionNode log2 fuel s summaryData = OK n ->
  DecisionNode.pruneTree garbage [] n = OK n' ->
  0 <= down < 5 -> 0 <= distanceNeeded < 5 ->
  (exists playData,
      DecisionNode.findPlays_cat n down distanceNeeded fieldLocation
        timeRemaining scoreDifferential = OK playData)
  /\ (exists playData,
         DecisionNode.findPlays_cat n' down distanceNeeded fieldLocation
           timeRemaining scoreDifferential = OK playData).
Proof.
  intros Inv H Hp Hdown Hdist.
  destruct (BuiltFacts.built_shape log2 summaryData fuel s n Inv H)
    as [R _].
  split.
  - apply BuiltFacts.routable_lookup; assumption.
  - apply BuiltFacts.routable_lookup; try assumption.
    eapply BuiltFacts.pruneTree_routable; eassumption.
Qed.

Lemma lookup_by_category_returns_witness :
  (exists playData,
      DecisionNode.findPlays_cat Samples.tree 1 3 SinglePlay.middle
        SinglePlay.outside_two_minutes SinglePlay.even = OK playData)
  /\ (exists playData,
         DecisionNode.findPlays_cat Samples.tree 1 3 SinglePlay.middle
           SinglePlay.outside_two_minutes SinglePlay.even = OK playData).
Proof.
  apply (lookup_by_category_returns Samples.log2 7 Samples.indexes
           (DataStore.getPlaySummaryStats Samples.indexed) (fun _ => 0)
           Samples.tree Samples.tree).
  - exact SampleFacts.indexes_invariant.
  - vm_compute. reflexivity.
  - vm_compute. reflexivity.
  - lia.
  - lia.
Defined.

(** ** The constructor returns *)

Module ConstructFacts.
Import SinglePlay PlayIndexSet PlaySummaryFactory IndexFacts IndexSet Counting
       SplitCount SplitInvariant InvariantFacts SplitTotal LeafFacts
       CandidateFacts DecisionNode Shape RecordFacts NodeFacts TreeFacts
       BuiltFacts BaselineFacts ByType Stats.

Lemma mapM_OK {A B : Type} (f : A -> outcome B) l :
  Forall (fun a => exists b, f a = OK b) l -> exists r, mapM f l = OK r.
Proof.
  induction 1 as [|a l [b Hb] _ [r Hr]]; simpl.
  - eexists; reflexivity.
  - rewrite Hb. cbn [bind]. rewrite Hr. eexists; reflexivity.
Qed.

Lemma indexesToPlayCounts_nonempty s :
  records s <> [] -> is_nil (indexesToPlayCounts s) = false.
Proof.
  intro H. rewrite PlayCountFacts.indexesToPlayCounts_records.
  destruct (records s) as [|p plays] eqn:E; [contradiction|].
  destruct (PlayCountFacts.indexToPlayCounts_spec (p :: plays) [])
    as [_ C]; [constructor|].
  specialize (C (getPlayType p)).
  rewrite BuildFacts.ofType_cons_same in C. simpl length in C.
  rewrite PlayCountFacts.after_none in C.
  destruct (indexToPlayCounts (p :: plays) []); [discriminate C | reflexivity].
Qed.

Lemma covers_perm sd plays plays' :
  covers sd plays -> Permutation plays' plays -> covers sd plays'.
Proof.
  intros Hc P. eapply covers_incl; [exact Hc|].
  intros x Hx. eapply Permutation_in; eassumption.
Qed.

Lemma construct_OK log2 summaryData fuel :
  forall s,
    invariant s ->
    records s <> [] ->
    Z.of_nat (length (records s)) <= 32767 ->
    covers summaryData (records s) ->
    (tracked s + 1 <= fuel)%nat \/ (exhausted s /\ (1 <= fuel)%nat) ->
    exists n, DecisionNode.DecisionNode log2 fuel s summaryData = OK n.
Proof.
  induction fuel as [|fuel IH]; intros s Inv Hne Hsmall Hcov Hfuel; [lia|].
  cbn [DecisionNode.DecisionNode].
  rewrite (indexesToPlayCounts_nonempty s Hne).
  assert (Hc : exists idx dv r,
             (if (1 <? length (indexesToPlayCounts s))%nat
              then testCandidates log2 (indexesToPlayCounts s) s
              else OK (s, None, 0%float)) = OK (idx, dv, r)).
  { destruct (1 <? length (indexesToPlayCounts s))%nat.
    - apply testCandidates_OK.
    - eexists; eexists; eexists; reflexivity. }
  destruct Hc as [idx [dv [r Ec]]]. rewrite Ec. cbn [bind].
  destruct (candidates_inv _ _ _ _ _ Ec Inv) as [Inv' [P [Htr [Hsame Hdv]]]].
  assert (Hne' : records idx <> []).
  { intro E. rewrite E in P. apply Permutation_nil in P. contradiction. }
  assert (Hsmall' : Z.of_nat (length (records idx)) <= 32767)
    by (rewrite (Permutation_length P); exact Hsmall).
  assert (Hcov' : covers summaryData (records idx))
    by (eapply covers_perm; eassumption).
  destruct (PrimFloat.leb MinInformationGain r) eqn:El.
  - destruct dv as [c|];
      [|subst r; vm_compute in El; discriminate].
    destruct Hdv as [Tc Hpop].
    destruct (split_returns idx c Inv' ltac:(lia)) as [[s' sibs] Es].
    rewrite Es. cbn [bind].
    destruct (split_children idx c s' sibs Inv' Tc Hpop Es) as [Hs [_ Hch]].
    destruct sibs as [|sib sibs]; [contradiction|]. cbn [is_nil].
    assert (Htracked : (tracked s <= fuel)%nat).
    { destruct Hfuel as [Hf|[[_ Hex] _]]; [lia|]. exfalso.
      destruct (Hsame c Tc) as [Tc0 G].
      specialize (Hex c Tc0). rewrite <- G in Hex. lia. }
    pose proof (tracked_pos idx c Tc) as Hpos.
    assert (Hchild : forall x, childOf idx x ->
               exists t, DecisionNode.DecisionNode log2 fuel x summaryData = OK t).
    { intros x [Hi [Hn [Hincl [Hlen [H1 H2]]]]].
      apply IH; [exact Hi | exact Hn | lia | |].
      - eapply covers_incl; eassumption.
      - destruct (Nat.eq_dec (tracked idx) 1) as [E1|E1].
        + right. split; [apply H1; exact E1 | lia].
        + left. rewrite H2 by lia. lia. }
    inversion Hch as [|? ? Hfirst Hsibs]; subst.
    destruct (Hchild _ Hfirst) as [first Ef]. rewrite Ef. cbn [bind].
    destruct (mapM_OK (fun i => DecisionNode.DecisionNode log2 fuel i summaryData)
                (sib :: sibs)) as [rest Er].
    { eapply Forall_impl; [|exact Hsibs]. exact Hchild. }
    rewrite Er. eexists; reflexivity.
  - destruct (buildDetailedData_defined idx summaryData Hne' Hsmall' Hcov')
      as [data Ed].
    rewrite Ed. eexists; reflexivity.
Qed.

Lemma store_records d d' :
  DataStore._data d <> [] ->
  Forall (fun p => 0 <= SinglePlay._down p < 256) (DataStore._data d) ->
  DataStore.buildIndexes d = OK d' ->
  Permutation (records (DataStore.getIndexes d')) (DataStore._data d).
Proof.
  intros Hdata Hr H.
  destruct (BuildFacts.buildIndexes_result d d' Hdata H)
    as [i1 [i2 [i3 [i4 [i5 [st [E1 [_ [_ [_ [_ [_ E]]]]]]]]]]]].
  rewrite E. unfold IndexSet.records. simpl.
  apply (InvariantFacts.buildIndex_spec SinglePlay.down_number);
    [|exact E1].
  apply BuildFacts.values_fit. exact Hr.
Qed.

Lemma store_tree_OK log2 fuel d d' :
  DataStore._data d <> [] ->
  Forall (fun p => 0 <= SinglePlay._down p < 256) (DataStore._data d) ->
  Z.of_nat (length (DataStore._data d)) <= 32767 ->
  DataStore.buildIndexes d = OK d' ->
  (6 <= fuel)%nat ->
  exists n,
    DecisionNode.DecisionNode log2 fuel (DataStore.getIndexes d')
      (DataStore.getPlaySummaryStats d') = OK n.
Proof.
  intros Hdata Hr Hsize H Hfuel.
  pose proof (InvariantFacts.buildIndexes_invariant d d' Hr Hdata H) as Inv.
  pose proof (BaselineFacts.baseline_covers d d' Hr Hsize Hdata H) as Hcov.
  pose proof (store_records d d' Hdata Hr H) as P.
  apply construct_OK.
  - exact Inv.
  - intro En. rewrite En in P. apply Permutation_nil in P. contradiction.
  - rewrite (Permutation_length P). exact Hsize.
  - eapply covers_perm; eassumption.
  - left. pose proof (RecordFacts.tracked_le_five (DataStore.getIndexes d')).
    lia.
Qed.

End ConstructFacts.

(** X18: Tree construction returns on every indexed store: over the index set
    and the baseline [buildIndexes] derives for a store of at least one
    and at most 32767 plays, the constructor returns a tree, whatever
    [log2] computes; none of its exceptions is raised, nothing is divided
    by zero, and the recursion is never more than six calls deep. *)
Theorem tree_construction_returns
    (log2 : float -> float) (fuel : nat) (d d' : DataStore.t) :
  DataStore._data d <> [] ->
  Forall (fun p => 0 <= SinglePlay._down p < 256) (DataStore._data d) ->
  Z.of_nat (length (DataStore._data d)) <= 32767 ->
  DataStore.buildIndexes d = OK d' ->
  (6 <= fuel)%nat ->
  exists n,
    DecisionNode.DecisionNode log2 fuel (DataStore.getIndexes d')
      (DataStore.getPlaySummaryStats d') = OK n.
Proof. apply ConstructFacts.store_tree_OK. Qed.

Lemma tree_construction_returns_witness :
  exists n,
    DecisionNode.DecisionNode Samples.log2 6 (DataStore.getIndexes Samples.indexed)
      (DataStore.getPlaySummaryStats Samples.indexed) = OK n.
Proof.
  apply (tree_construction_returns Samples.log2 6 Samples.store Samples.indexed).
  - vm_compute. discriminate.
  - vm_compute.
    repeat (constructor; [split; [discriminate | reflexivity] |]).
    constructor.
  - vm_compute. discriminate.
  - vm_compute. reflexivity.
  - lia.
Defined.

(** ** Construction keeps the plays *)

Module BuildKeeps.
Import SinglePlay PlayIndexSet PlaySummaryFactory IndexFacts IndexSet Counting
       SplitCount SplitInvariant InvariantFacts SplitTotal LeafFacts
       CandidateFacts DecisionNode Shape RecordFacts NodeFacts TreeFacts
       BuiltFacts BaselineFacts ByType Stats TreeStats MergeDataFacts
       SummaryFacts DetailFacts.

Lemma distancesOf_absent ty (data : list (PlayType * DetailedPlaySummary.t)) :
  ~ In ty (map fst data) -> distancesOf ty data = [].
Proof.
  induction data as [|[k s] data IH]; intro H; [reflexivity|].
  rewrite distancesOf_cons. unfold contribution.
  rewrite PlayCountFacts.PlayType_eqb_neq.
  - apply IH. intro Hin. apply H. right; exact Hin.
  - intros ->. apply H. left; reflexivity.
Qed.

Lemma ascending_tail_absent k (data : list (PlayType * DetailedPlaySummary.t)) s :
  ascending ((k, s) :: data) -> ~ In k (map fst data).
Proof.
  unfold ascending. simpl. intro H. inversion H as [|? ? _ Hall]; subst.
  intro Hin. apply in_map_iff in Hin. destruct Hin as [[k' s'] [E Hin]].
  simpl in E; subst k'.
  rewrite Forall_forall in Hall.
  specialize (Hall (PlayType_val k)).
  assert (PlayType_val k < PlayType_val k); [|lia].
  apply Hall. apply in_map_iff. exists (k, s'). split; [reflexivity | exact Hin].
Qed.

Lemma distancesOf_present ty s (data : list (PlayType * DetailedPlaySummary.t)) :
  ascending data -> In (ty, s) data ->
  distancesOf ty data = DetailedPlaySummary.getPlayDistances s.
Proof.
  induction data as [|[k s0] data IH]; intros Ha Hin; [contradiction|].
  pose proof (ascending_tail_absent _ _ _ Ha) as Habs.
  assert (Ha' : ascending data).
  { unfold ascending in *. simpl in Ha. inversion Ha; assumption. }
  rewrite distancesOf_cons. unfold contribution.
  destruct Hin as [E|Hin].
  - inversion E; subst. rewrite PlayCountFacts.PlayType_eqb_refl.
    rewrite distancesOf_absent by exact Habs. apply app_nil_r.
  - rewrite PlayCountFacts.PlayType_eqb_neq.
    + apply IH; assumption.
    + intros ->. apply Habs. apply in_map_iff.
      exists (ty, s). split; [reflexivity | exact Hin].
Qed.

Lemma summary_distances ds t pc ov summary :
  DetailedPlaySummary.DetailedPlaySummary ds t pc ov = OK summary ->
  DetailedPlaySummary.getPlayDistances summary = sort ds.
Proof.
  unfold DetailedPlaySummary.DetailedPlaySummary. intro Hs.
  bind_inv Hs. bind_inv Hs.
  injection Hs as <-. reflexivity.
Qed.

(** A leaf summarises the plays of its index set. *)
Lemma leaf_keeps s sd data ty :
  buildDetailedData s sd = OK data ->
  Permutation (distancesOf ty data)
              (map getDistanceGained (ofType ty (records s))).
Proof.
  intro H. destruct (buildDetailedData_spec s sd data H) as [Ha [Hk He]].
  destruct (ofType ty (records s)) as [|p l] eqn:E.
  - rewrite distancesOf_absent; [constructor|].
    intro Hin. apply Hk in Hin. contradiction.
  - assert (Hin : In ty (map fst data)) by (apply Hk; rewrite E; discriminate).
    apply in_map_iff in Hin. destruct Hin as [[k summary] [Ek Hin]].
    simpl in Ek; subst k.
    rewrite (distancesOf_present ty summary data Ha Hin).
    destruct (He ty summary Hin) as [ov [_ Hs]]. rewrite E in Hs.
    rewrite (summary_distances _ _ _ _ _ Hs). apply sort_perm.
Qed.

Lemma concat_map_filter_nil {A B : Type} (f : A -> list B) (q : A -> bool) l :
  (forall a, In a l -> q a = false -> f a = []) ->
  concat (map f (filter q l)) = concat (map f l).
Proof.
  induction l as [|a l IH]; intro H; [reflexivity|].
  simpl. destruct (q a) eqn:E; simpl.
  - f_equal. apply IH. intros b Hb. apply H. right; exact Hb.
  - rewrite (H a (or_introl eq_refl) E). simpl.
    apply IH. intros b Hb. apply H. right; exact Hb.
Qed.

(** The populated categories of a tracked characteristic divide the plays
    of the set. *)
Lemma populated_cover s c R :
  invariant s ->
  PlayCharacteristicSet.mem c (getIndexesAvailable s) = true ->
  Permutation R (records s) ->
  Permutation (concat (map (fun j => bucket c j R) (populated (getIndex c s)))) R.
Proof.
  intros Inv Tc P. pose proof Inv as [_ [Inv2 _]].
  destruct (Inv2 c Tc) as [LenA PartA].
  set (A := getIndex c s) in *.
  assert (PA : Permutation R (concat A)).
  { eapply Permutation_trans; [exact P|].
    apply Permutation_sym. apply recordCount_records; assumption. }
  assert (Hin : forall r, In r R ->
                  exists j, (j < length A)%nat /\ In r (nth j A [])
                            /\ getValue c r = Z.of_nat j).
  { intros r Hr.
    assert (Hc : In r (concat A)) by (eapply Permutation_in; eassumption).
    apply In_concat_nth in Hc. destruct Hc as [j [Hj Hrj]].
    exists j. repeat split; auto. }
  unfold populated.
  rewrite (concat_map_filter_nil (fun j => bucket c j R)).
  - apply buckets_Permutation. apply Forall_forall. intros r Hr.
    destruct (Hin r Hr) as [j [Hj [_ Hv]]]. unfold inRange. lia.
  - intros j _ Hq. apply negb_false_iff in Hq.
    destruct (nth j A []) as [|x l] eqn:E; [|discriminate].
    destruct (bucket c j R) as [|r rest] eqn:Eb; [reflexivity|].
    assert (Hr : In r (bucket c j R)) by (rewrite Eb; left; reflexivity).
    unfold bucket in Hr. apply filter_In in Hr. destruct Hr as [Hr Hv].
    apply Z.eqb_eq in Hv.
    destruct (Hin r Hr) as [i [Hi [Hri Hvi]]].
    assert (i = j) by lia. subst i. rewrite E in Hri. contradiction.
Qed.

Lemma ofType_concat ty (ll : list (list SinglePlay.t)) :
  ofType ty (concat ll) = concat (map (ofType ty) ll).
Proof. unfold ofType. symmetry. apply concat_filter_map. Qed.

Lemma ofType_perm ty l l' :
  Permutation l l' -> Permutation (ofType ty l) (ofType ty l').
Proof. apply Permutation_filter. Qed.

Lemma built_keeps log2 summaryData ty fuel :
  forall s n,
    invariant s ->
    DecisionNode.DecisionNode log2 fuel s summaryData = OK n ->
    Permutation (distancesIn ty n)
                (map getDistanceGained (ofType ty (records s))).
Proof.
  induction fuel as [|fuel IH]; intros s n Inv H; [discriminate|].
  cbn [DecisionNode.DecisionNode] in H.
  destruct (is_nil (indexesToPlayCounts s)); [discriminate|].
  apply bind_OK in H. destruct H as [[[idx dv] r] [Ec H]].
  destruct (candidates_inv _ _ _ _ _ Ec Inv) as [Inv' [P [_ [_ Hdv]]]].
  destruct (PrimFloat.leb MinInformationGain r) eqn:El.
  - destruct dv as [c|]; [|discriminate].
    destruct Hdv as [Tc Hpop].
    apply bind_OK in H. destruct H as [[s' sibs] [Es H]].
    destruct (split_children idx c s' sibs Inv' Tc Hpop Es) as [Hs [_ Hch]].
    pose proof (split_hands_out idx s' c sibs Inv' Es Hs) as Ehand.
    destruct sibs as [|sib sibs]; [contradiction|].
    cbn [is_nil] in H.
    apply bind_OK in H. destruct H as [first [Ef H]].
    apply bind_OK in H. destruct H as [rest [Er H]].
    inversion H; subst n; clear H.
    pose proof (mapM_Forall2 _ _ _ Er) as Frest.
    change (distancesIn ty (mk (first :: rest) (Some c)
                               (categoryChildMapping (getIndex c idx) 0) []))
      with (concat (map (distancesIn ty) (first :: rest))).
    assert (F2 : Forall2 (fun x t =>
                            DecisionNode.DecisionNode log2 fuel x summaryData
                            = OK t)
                         (s' :: sib :: sibs) (first :: rest))
      by (constructor; assumption).
    assert (Step : Permutation
                     (concat (map (distancesIn ty) (first :: rest)))
                     (concat (map (fun x => map getDistanceGained
                                              (ofType ty (records x)))
                                  (s' :: sib :: sibs)))).
    { clear - F2 Hch IH.
      induction F2 as [|x t l l' Hxt _ IHF]; [constructor|].
      inversion Hch as [|? ? Hx Hl]; subst. simpl.
      apply Permutation_app; [|apply IHF; exact Hl].
      destruct Hx as [Hi _]. apply IH; assumption. }
    eapply Permutation_trans; [exact Step|].
    rewrite Ehand. rewrite map_map.
    set (R := records (dropIndex c idx)).
    assert (PR : Permutation R (records idx))
      by (apply records_dropIndex; exact Inv').
    assert (E : map (fun j => map getDistanceGained
                                (ofType ty (records (restrict c j (dropIndex c idx)))))
                    (populated (getIndex c idx))
                = map (fun l => map getDistanceGained (ofType ty l))
                      (map (fun j => bucket c j R) (populated (getIndex c idx)))).
    { rewrite map_map. apply map_ext. intro j.
      rewrite records_restrict. reflexivity. }
    rewrite E. rewrite <- (map_map (ofType ty) (map getDistanceGained)).
    rewrite <- concat_map. rewrite <- ofType_concat.
    apply Permutation_map. apply ofType_perm.
    eapply Permutation_trans;
      [apply populated_cover; [exact Inv' | exact Tc | exact PR]|].
    eapply Permutation_trans; [exact PR | exact P].
  - apply bind_OK in H. destruct H as [pd [Ed H]].
    inversion H; subst n; clear H.
    change (distancesIn ty (mk [] dv [] pd)) with (distancesOf ty pd).
    eapply Permutation_trans; [eapply leaf_keeps; exact Ed|].
    apply Permutation_map. apply ofType_perm. exact P.
Qed.

End BuildKeeps.

(** X19: Construction keeps every play: for each play type, the leaves of a
    tree built from a consistent index set summarise the distances of
    exactly the plays of that type in the index set, each once. *)
Theorem built_tree_holds_every_play
    (log2 : float -> float) (fuel : nat) (s : PlayIndexSet.t)
    (summaryData : list OverallPlaySummary.t) (n : DecisionNode.t)
    (ty : SinglePlay.PlayType) :
  IndexSet.invariant s ->
  DecisionNode.DecisionNode log2 fuel s summaryData = OK n ->
  Permutation (TreeStats.distancesIn ty n)
              (map SinglePlay.getDistanceGained
                   (ByType.ofType ty (IndexSet.records s))).
Proof. apply BuildKeeps.built_keeps. Qed.

Lemma built_tree_holds_every_play_witness :
  Permutation (TreeStats.distancesIn SinglePlay.run_left Samples.tree)
              (map SinglePlay.getDistanceGained
                   (ByType.ofType SinglePlay.run_left
                      (IndexSet.records Samples.indexes))).
Proof.
  apply (built_tree_holds_every_play Samples.log2 7 Samples.indexes
           (DataStore.getPlaySummaryStats Samples.indexed) Samples.tree
           SinglePlay.run_left).
  - exact SampleFacts.indexes_invariant.
  - vm_compute. reflexivity.
Defined.

(** ** The whole analysis *)

(** X21: The analysis of a loaded store gives a tree over all its plays: for a
    store of at least one and at most 32767 plays whose downs are from 0
    to 4, indexing (the last step of [loadPlays]) and construction (the
    next step of [main]) return, whatever [log2] computes; for each play
    type the leaves of the tree built summarise the distances of exactly
    the plays of that type in the store; and so do the leaves of every
    tree that [pruneTree] returns for it, whatever the uninitialised
    counter holds. *)
Theorem analysis_gives_tree_over_all_plays
    (log2 : float -> float) (fuel : nat) (d : DataStore.t) :
  DataStore._data d <> [] ->
  Forall (fun p => 0 <= SinglePlay._down p < 5) (DataStore._data d) ->
  Z.of_nat (length (DataStore._data d)) <= 32767 ->
  (6 <= fuel)%nat ->
  exists d' tree,
    DataStore.buildIndexes d = OK d'
    /\ DecisionNode.DecisionNode log2 fuel (DataStore.getIndexes d')
         (DataStore.getPlaySummaryStats d') = OK tree
    /\ (forall ty,
          Permutation (TreeStats.distancesIn ty tree)
                      (map SinglePlay.getDistanceGained
                           (ByType.ofType ty (DataStore._data d))))
    /\ forall garbage pruned,
         DecisionNode.pruneTree garbage [] tree = OK pruned ->
         forall ty,
           Permutation (TreeStats.distancesIn ty pruned)
                       (map SinglePlay.getDistanceGained
                            (ByType.ofType ty (DataStore._data d))).
Proof.
  intros Hdata Hd Hsize Hfuel.
  pose proof (BuildFacts.downs_fit _ Hd) as Hr.
  destruct (BuildFacts.buildIndexes_OK d Hdata Hd) as [d' [E _]].
  destruct (ConstructFacts.store_tree_OK log2 fuel d d' Hdata Hr Hsize E Hfuel)
    as [tree Et].
  pose proof (InvariantFacts.buildIndexes_invariant d d' Hr Hdata E) as Inv.
  pose proof (ConstructFacts.store_records d d' Hdata Hr E) as P.
  assert (Built : forall ty,
             Permutation (TreeStats.distancesIn ty tree)
                         (map SinglePlay.getDistanceGained
                              (ByType.ofType ty (DataStore._data d)))).
  { intro ty.
    eapply Permutation_trans;
      [eapply BuildKeeps.built_keeps; [exact Inv | exact Et]|].
    apply Permutation_map. apply BuildKeeps.ofType_perm. exact P. }
  exists d', tree. split; [exact E|]. split; [exact Et|].
  split; [exact Built|].
  intros garbage pruned Ep ty.
  eapply Permutation_trans;
    [eapply PruneKeeps.pruneTree_keeps; exact Ep | apply Built].
Qed.

Lemma analysis_gives_tree_over_all_plays_witness :
  exists d' tree,
    DataStore.buildIndexes Samples.unevenStore = OK d'
    /\ DecisionNode.DecisionNode Samples.log2 6 (DataStore.getIndexes d')
         (DataStore.getPlaySummaryStats d') = OK tree
    /\ (forall ty,
          Permutation (TreeStats.distancesIn ty tree)
                      (map SinglePlay.getDistanceGained
                           (ByType.ofType ty
                              (DataStore._data Samples.unevenStore))))
    /\ forall garbage pruned,
         DecisionNode.pruneTree garbage [] tree = OK pruned ->
         forall ty,
           Permutation (TreeStats.distancesIn ty pruned)
                       (map SinglePlay.getDistanceGained
                            (ByType.ofType ty
                               (DataStore._data Samples.unevenStore))).
Proof.
  apply (analysis_gives_tree_over_all_plays Samples.log2 6 Samples.unevenStore).
  - vm_compute. discriminate.
  - vm_compute.
    repeat (constructor; [split; [discriminate | reflexivity] |]).
    constructor.
  - vm_compute. discriminate.
  - lia.
Defined.

(** ** What a lookup reports *)

Module LookupExact.
Import SinglePlay PlayIndexSet PlaySummaryFactory IndexFacts IndexSet Counting
       SplitCount SplitInvariant InvariantFacts SplitTotal LeafFacts
       CandidateFacts DecisionNode Shape RecordFacts NodeFacts TreeFacts
       BuiltFacts ByType Stats TreeStats BuildKeeps PruneKeeps Query.

Lemma firstn_S_nth {A : Type} (d : A) (l : list A) :
  forall k, (k < length l)%nat -> firstn (S k) l = firstn k l ++ [nth k l d].
Proof.
  induction l as [|a l IH]; intros k Hk; [simpl in Hk; lia|].
  destruct k as [|k]; [reflexivity|].
  simpl in Hk. change (a :: firstn (S k) l = a :: (firstn k l ++ [nth k l d])).
  f_equal. apply IH. lia.
Qed.

Lemma count_firstn (A : list (list SinglePlay.t)) :
  forall k, (k <= length A)%nat ->
    length (filter (fun j => negb (is_nil (nth j A []))) (seq 0 k))
    = length (filter (fun i => negb (is_nil i)) (firstn k A)).
Proof.
  induction k as [|k IH]; intro Hk; [reflexivity|].
  rewrite seq_S, filter_app, length_app. simpl seq.
  rewrite (firstn_S_nth [] A k) by lia.
  rewrite filter_app, length_app. rewrite IH by lia.
  f_equal. cbn [filter Nat.add]. destruct (is_nil (nth k A [])); reflexivity.
Qed.

(** The populated categories, in order: the one at the position that
    counts the populated categories before [k] is [k]. *)
Lemma populated_position (A : list (list SinglePlay.t)) k :
  (k < length A)%nat ->
  is_nil (nth k A []) = false ->
  nth_error (populated A)
            (length (filter (fun i => negb (is_nil i)) (firstn k A)))
  = Some k.
Proof.
  intros Hk Hne. unfold populated.
  replace (length A) with (k + S (length A - S k))%nat by lia.
  rewrite seq_app, filter_app. simpl seq. cbn [filter].
  rewrite Hne. cbn [negb].
  rewrite <- count_firstn by lia.
  rewrite nth_error_app2 by lia. rewrite Nat.sub_diag. reflexivity.
Qed.

(** What the mapping holds for a category. *)
Lemma mapping_nth (A : list (list SinglePlay.t)) :
  forall v k,
    0 <= v -> v + Z.of_nat (length A) <= 32767 -> (k < length A)%nat ->
    nth_error (categoryChildMapping A v) k
    = Some (if is_nil (nth k A []) then -1
            else v + Z.of_nat (length (filter (fun i => negb (is_nil i))
                                              (firstn k A)))).
Proof.
  induction A as [|cat A IH]; intros v k Hv Hfit Hk; [simpl in Hk; lia|].
  simpl length in Hfit, Hk. cbn [categoryChildMapping].
  destruct cat as [|p cat].
  - cbn [length Nat.ltb Nat.leb]. destruct k as [|k].
    + reflexivity.
    + cbn [nth_error nth firstn filter is_nil negb].
      apply IH; lia.
  - cbn [length Nat.ltb Nat.leb]. destruct k as [|k].
    + cbn [nth_error nth firstn filter is_nil length]. f_equal. lia.
    + cbn [nth_error nth firstn filter is_nil negb length].
      rewrite to_short_small by lia.
      rewrite IH by lia.
      destruct (is_nil (nth k A [])); [reflexivity|]. f_equal. lia.
Qed.

Lemma Forall2_nth_error {A B : Type} (R : A -> B -> Prop) l l' :
  Forall2 R l l' ->
  forall i a, nth_error l i = Some a ->
    exists b, nth_error l' i = Some b /\ R a b.
Proof.
  induction 1 as [|x y l l' Hxy _ IH]; intros i a Hi.
  - destruct i; discriminate.
  - destruct i as [|i].
    + inversion Hi; subst. exists y. split; [reflexivity | exact Hxy].
    + apply IH. exact Hi.
Qed.

Lemma filter_both {A : Type} (a b : A -> bool) l :
  filter (fun p => a p && b p) l = filter b (filter a l).
Proof.
  induction l as [|x l IH]; [reflexivity|].
  simpl. destruct (a x); simpl; [destruct (b x)|]; rewrite IH; reflexivity.
Qed.

Lemma filter_all {A : Type} (l : list A) : filter (fun _ => true) l = l.
Proof. induction l as [|x l IH]; [reflexivity | simpl; f_equal; exact IH]. Qed.

(** Where a play of a consistent index set is filed. *)
Lemma value_slot s c r :
  invariant s ->
  PlayCharacteristicSet.mem c (getIndexesAvailable s) = true ->
  In r (records s) ->
  exists j, In r (nth j (getIndex c s) []) /\ getValue c r = Z.of_nat j.
Proof.
  intros Inv Tc Hr. pose proof Inv as [_ [Inv2 _]].
  destruct (Inv2 c Tc) as [_ PartA].
  assert (Hc : In r (concat (getIndex c s))).
  { eapply Permutation_in; [|exact Hr].
    apply Permutation_sym. apply recordCount_records; assumption. }
  apply In_concat_nth in Hc. destruct Hc as [j [_ Hrj]].
  exists j. split; [exact Hrj | apply PartA; exact Hrj].
Qed.

Section Lookup.

Variables (down distanceNeeded : Z) (fieldLocation : FieldLocation)
          (timeRemaining : TimeRemaining)
          (scoreDifferential : ScoreDifferential).

Local Abbreviation lookup n :=
  (findPlays_cat n down distanceNeeded fieldLocation timeRemaining
     scoreDifferential).

Local Abbreviation value c :=
  (asked c down distanceNeeded fieldLocation timeRemaining scoreDifferential).

Local Abbreviation matching tested :=
  (agrees tested down distanceNeeded fieldLocation timeRemaining
     scoreDifferential).

Lemma testValueOf_asked c :
  testValueOf (Some c) down distanceNeeded fieldLocation timeRemaining
    scoreDifferential = OK (value c).
Proof. destruct c; reflexivity. Qed.

(** One step of the lookup at a decision node. *)
Lemma lookup_node cs c m pd :
  cs <> [] ->
  lookup (mk cs (Some c) m pd)
  = (childIndex <- at_ m (value c) ;;
     if childIndex >=? 0 then
       match nth_error cs (Z.to_nat childIndex) with
       | Some child => lookup child
       | None => Throw out_of_range
       end
     else OK pd).
Proof.
  intro Hcs.
  destruct cs as [|c0 cs0]; [contradiction|].
  remember (c0 :: cs0) as l eqn:El.
  cbn [findPlays_cat].
  replace (is_nil l) with false by (subst l; reflexivity).
  rewrite testValueOf_asked. cbn [bind].
  destruct (at_ m (value c)) as [ci|e]; [|reflexivity]. cbn [bind].
  destruct (ci >=? 0); [|reflexivity].
  clear El Hcs. generalize (Z.to_nat ci).
  induction l as [|x l IHl]; intro i.
  - destruct i; reflexivity.
  - destruct i as [|i]; [reflexivity|]. apply IHl.
Qed.

Lemma matching_cons c tested L :
  filter (matching (c :: tested)) L
  = filter (matching tested) (filter (fun p => getValue c p =? value c) L).
Proof.
  unfold agrees. cbn [forallb]. apply filter_both.
Qed.

Lemma lookup_exact log2 summaryData garbage fuel :
  forall s n n',
    invariant s ->
    DecisionNode.DecisionNode log2 fuel s summaryData = OK n ->
    n' = n \/ (exists path, pruneTree garbage path n = OK n') ->
    forall pd,
      lookup n' = OK pd ->
      exists tested,
        forall ty,
          Permutation (distancesOf ty pd)
                      (map getDistanceGained
                           (ofType ty (filter (matching tested) (records s)))).
Proof.
  induction fuel as [|fuel IH]; intros s n n' Inv H0 Hn' pd Hl; [discriminate|].
  pose proof H0 as H.
  cbn [DecisionNode.DecisionNode] in H.
  destruct (is_nil (indexesToPlayCounts s)); [discriminate|].
  apply bind_OK in H. destruct H as [[[idx dv] r] [Ec H]].
  destruct (candidates_inv _ _ _ _ _ Ec Inv) as [Inv' [P [_ [_ Hdv]]]].
  assert (Whole : forall leafData,
             n' = mk [] dv (_categoryChildMapping n') leafData ->
             lookup n' = OK leafData
             /\ forall ty,
                  Permutation (distancesOf ty leafData)
                              (map getDistanceGained (ofType ty (records s)))).
  { intros leafData E. split; [rewrite E; reflexivity|]. intro ty.
    assert (Hk : Permutation (distancesIn ty n') (distancesIn ty n)).
    { destruct Hn' as [->|[path Hp]]; [apply Permutation_refl|].
      eapply pruneTree_keeps; exact Hp. }
    rewrite E in Hk at 1. cbn [distancesIn] in Hk.
    eapply Permutation_trans; [exact Hk|].
    eapply built_keeps; eassumption. }
  assert (Leaf : forall leafData,
             n' = mk [] dv (_categoryChildMapping n') leafData ->
             exists tested,
               forall ty,
                 Permutation (distancesOf ty pd)
                   (map getDistanceGained
                        (ofType ty (filter (matching tested) (records s))))).
  { intros leafData E. destruct (Whole leafData E) as [El Hw].
    rewrite El in Hl. inversion Hl; subst pd.
    exists []. intro ty. unfold agrees. cbn [forallb].
    rewrite filter_all. apply Hw. }
  destruct (PrimFloat.leb MinInformationGain r) eqn:Eleb.
  - destruct dv as [c|]; [|discriminate].
    destruct Hdv as [Tc Hpop].
    apply bind_OK in H. destruct H as [[s' sibs] [Es H]].
    destruct (split_children idx c s' sibs Inv' Tc Hpop Es) as [Hs [_ Hch]].
    pose proof (split_hands_out idx s' c sibs Inv' Es Hs) as Ehand.
    destruct sibs as [|sib sibs]; [contradiction|].
    cbn [is_nil] in H.
    apply bind_OK in H. destruct H as [first [Ef H]].
    apply bind_OK in H. destruct H as [rest [Er H]].
    inversion H; subst n; clear H.
    pose proof (mapM_Forall2 _ _ _ Er) as Frest.
    set (A := getIndex c idx) in *.
    set (mapping := categoryChildMapping A 0) in *.
    assert (F2 : Forall2 (fun x t =>
                            DecisionNode.DecisionNode log2 fuel x summaryData
                            = OK t)
                         (s' :: sib :: sibs) (first :: rest))
      by (constructor; assumption).
    (* the shape of the tree looked up *)
    assert (Shape :
              (exists cs',
                  n' = mk cs' (Some c) mapping []
                  /\ Forall2 (fun t t' =>
                                t' = t
                                \/ exists path, pruneTree garbage path t = OK t')
                             (first :: rest) cs')
              \/ (exists merged, n' = mk [] (Some c) mapping merged)).
    { destruct Hn' as [->|[path Hp]].
      - left. exists (first :: rest). split; [reflexivity|].
        clear. induction (first :: rest) as [|t l IHl]; constructor; auto.
      - cbn [pruneTree is_nil] in Hp. bind_inv Hp.
        destruct (pruneChildren_spec _ _ _ _ _ Hx) as [_ F].
        assert (F' : Forall2 (fun t t' =>
                                t' = t
                                \/ exists path, pruneTree garbage path t = OK t')
                             (first :: rest) x).
        { clear - F.
          induction F as [|t t' l l' Ht _ IHF]; constructor; [|exact IHF].
          destruct Ht as [->|[p Hp]]; [left; reflexivity | right; eauto]. }
        destruct (negb (forallb isLeaf x)).
        + inversion Hp; subst. left. eauto.
        + destruct (shouldPrune (garbage path) x).
          * bind_inv Hp. inversion Hp; subst. right. eauto.
          * inversion Hp; subst. left. eauto. }
    destruct Shape as [[cs' [En' Fp]]|[merged En']];
      [|apply (Leaf merged); rewrite En'; reflexivity].
    subst n'.
    assert (Hcs' : cs' <> []) by (inversion Fp; discriminate).
    rewrite (lookup_node cs' c mapping [] Hcs') in Hl.
    apply bind_OK in Hl. destruct Hl as [ci [Eat Hl]].
    (* the entry of the mapping *)
    pose proof Inv' as [_ [Inv2 _]]. destruct (Inv2 c Tc) as [LenA PartA].
    fold A in LenA, PartA.
    assert (Hcount : getCategoryCount c <= 7)
      by (destruct c; vm_compute; discriminate).
    unfold at_ in Eat.
    destruct (Z.ltb_spec (value c) 0) as [Hneg|Hpos]; [discriminate|].
    destruct (nth_error mapping (Z.to_nat (value c))) as [ci'|] eqn:En;
      [|discriminate].
    inversion Eat; subst ci'; clear Eat.
    set (k := Z.to_nat (value c)) in *.
    assert (Hv : value c = Z.of_nat k) by (unfold k; lia).
    assert (Hk : (k < length A)%nat).
    { assert (Lm : length mapping = length A).
      { unfold mapping.
        apply (categoryChildMapping_spec A 0 (Z.le_refl 0)). lia. }
      rewrite <- Lm. apply nth_error_Some. rewrite En. discriminate. }
    unfold mapping in En.
    rewrite (mapping_nth A 0 k (Z.le_refl 0)) in En by lia.
    inversion En as [Eci]; clear En.
    destruct (is_nil (nth k A [])) eqn:Enil.
    + (* no play of the set has the value asked *)
      subst ci. cbn in Hl. inversion Hl; subst pd.
      exists [c]. intro ty.
      assert (Enone : filter (matching [c]) (records s) = []).
      { destruct (filter (matching [c]) (records s)) as [|p l] eqn:Ef';
          [reflexivity|].
        assert (Hp : In p (filter (matching [c]) (records s)))
          by (rewrite Ef'; left; reflexivity).
        apply filter_In in Hp. destruct Hp as [Hp Hm].
        unfold agrees in Hm. cbn [forallb] in Hm.
        rewrite andb_true_r in Hm. apply Z.eqb_eq in Hm.
        assert (Hp' : In p (records idx)).
        { eapply Permutation_in; [apply Permutation_sym; exact P | exact Hp]. }
        destruct (value_slot idx c p Inv' Tc Hp') as [j [Hj Hvj]].
        fold A in Hj.
        assert (j = k) by lia. subst j.
        destruct (nth k A []); [contradiction | discriminate]. }
      rewrite Enone. apply Permutation_refl.
    + (* the child for the value asked *)
      set (count := length (filter (fun i => negb (is_nil i)) (firstn k A)))
        in *.
      assert (Eci' : ci = Z.of_nat count) by lia. subst ci.
      replace (Z.of_nat count >=? 0) with true in Hl
        by (symmetry; apply Z.geb_le; lia).
      rewrite Nat2Z.id in Hl.
      destruct (nth_error cs' count) as [child'|] eqn:Ech'; [|discriminate].
      pose proof (populated_position A k Hk Enil) as Hpos'.
      fold count in Hpos'.
      set (D := dropIndex c idx) in *.
      assert (Ex : nth_error (s' :: sib :: sibs) count = Some (restrict c k D)).
      { rewrite Ehand.
        exact (map_nth_error (fun j => restrict c j D) _ _ Hpos'). }
      destruct (Forall2_nth_error _ _ _ F2 _ _ Ex) as [child [Ech Hbuilt]].
      destruct (Forall2_nth_error _ _ _ Fp _ _ Ech) as [child2 [Ech2 Hrel]].
      rewrite Ech' in Ech2. inversion Ech2; subst child2.
      assert (Hchild : childOf idx (restrict c k D)).
      { rewrite Forall_forall in Hch. apply Hch.
        eapply nth_error_In; exact Ex. }
      destruct Hchild as [Invk _].
      destruct (IH (restrict c k D) child child' Invk Hbuilt Hrel pd Hl)
        as [tested Ht].
      exists (c :: tested). intro ty.
      eapply Permutation_trans; [apply Ht|].
      apply Permutation_map. apply ofType_perm.
      rewrite matching_cons. apply Permutation_filter.
      rewrite records_restrict. unfold bucket. rewrite Hv.
      apply Permutation_filter.
      eapply Permutation_trans; [|exact P].
      apply records_dropIndex. exact Inv'.
  - apply bind_OK in H. destruct H as [leafData [Ed H]].
    inversion H; subst n; clear H.
    apply (Leaf leafData).
    destruct Hn' as [->|[path Hp]]; [reflexivity|].
    cbn in Hp. inversion Hp; subst. reflexivity.
Qed.

End Lookup.

End LookupExact.

(** X22: What a lookup reports: on a tree built from a consistent index set, as
    built or as pruned, the summary a lookup returns holds, for each play
    type, the distances of exactly the plays of the index set that have
    the value asked for on each of a list of characteristics, the ones
    tested on the way down. *)
Theorem lookup_reports_plays_agreeing_with_query
    (log2 : float -> float) (garbage : list nat -> Z) (fuel : nat)
    (s : PlayIndexSet.t) (summaryData : list OverallPlaySummary.t)
    (n n' : DecisionNode.t) (down distanceNeeded : Z)
    (fieldLocation : SinglePlay.FieldLocation)
    (timeRemaining : SinglePlay.TimeRemaining)
    (scoreDifferential : SinglePlay.ScoreDifferential)
    (playData : list (SinglePlay.PlayType * DetailedPlaySummary.t)) :
  IndexSet.invariant s ->
  DecisionNode.DecisionNode log2 fuel s summaryData = OK n ->
  n' = n \/ DecisionNode.pruneTree garbage [] n = OK n' ->
  DecisionNode.findPlays_cat n' down distanceNeeded fieldLocation timeRemaining
    scoreDifferential = OK playData ->
  exists tested,
    forall ty,
      Permutation
        (Stats.distancesOf ty playData)
        (map SinglePlay.getDistanceGained
             (ByType.ofType ty
                (filter (Query.agrees tested down distanceNeeded fieldLocation
                           timeRemaining scoreDifferential)
                        (IndexSet.records s)))).
Proof.
  intros Inv H Hn' Hl.
  eapply (LookupExact.lookup_exact down distanceNeeded fieldLocation
            timeRemaining scoreDifferential log2 summaryData garbage fuel
            s n n'); try eassumption.
  destruct Hn' as [E|Hp]; [left; exact E | right; eauto].
Qed.

Lemma lookup_reports_plays_agreeing_with_query_witness :
  exists tested,
    forall ty,
      Permutation
        (Stats.distancesOf ty Examples.lookedUp)
        (map SinglePlay.getDistanceGained
             (ByType.ofType ty
                (filter (Query.agrees tested 1 3 SinglePlay.middle
                           SinglePlay.outside_two_minutes SinglePlay.even)
                        (IndexSet.records Samples.indexes)))).
Proof.
  apply (lookup_reports_plays_agreeing_with_query Samples.log2 (fun _ => 0) 7
           Samples.indexes (DataStore.getPlaySummaryStats Samples.indexed)
           Samples.tree Samples.tree 1 3 SinglePlay.middle
           SinglePlay.outside_two_minutes SinglePlay.even Examples.lookedUp).
  - exact SampleFacts.indexes_invariant.
  - vm_compute. reflexivity.
  - left. reflexivity.
  - vm_compute. reflexivity.
Defined.

(** ** Dropping an index *)

Module DropFacts.
Import SinglePlay PlayIndexSet Shape.

Lemma tracked_dropIndex_pos c s :
  (1 <= tracked s)%nat -> (1 <= tracked (dropIndex c s))%nat.
Proof.
  unfold tracked, dropIndex, getIndexesAvailable, PlayCharacteristicSet.size,
    PlayCharacteristicSet.elements.
  destruct s as [[[] [] [] [] []] ? ? ? ? ?]; destruct c; simpl; lia.
Qed.

End DropFacts.

(** X23: Dropping an index never loses a play: a consistent index set stays
    consistent when a characteristic is dropped, holds the same plays, and
    still tracks a characteristic if it tracked one, because the last
    index is left alone. *)
Theorem dropIndex_keeps_the_plays
    (c : SinglePlay.PlayCharacteristic) (s : PlayIndexSet.t) :
  IndexSet.invariant s ->
  IndexSet.invariant (PlayIndexSet.dropIndex c s)
  /\ Permutation (IndexSet.records (PlayIndexSet.dropIndex c s))
                 (IndexSet.records s)
  /\ ((1 <= Shape.tracked s)%nat ->
      (1 <= Shape.tracked (PlayIndexSet.dropIndex c s))%nat).
Proof.
  intro Inv. split; [apply InvariantFacts.dropIndex_invariant; exact Inv|].
  split; [apply RecordFacts.records_dropIndex; exact Inv|].
  apply DropFacts.tracked_dropIndex_pos.
Qed.

Lemma dropIndex_keeps_the_plays_witness :
  IndexSet.invariant (PlayIndexSet.dropIndex SinglePlay.down_number Samples.indexes)
  /\ Permutation
       (IndexSet.records (PlayIndexSet.dropIndex SinglePlay.down_number
                            Samples.indexes))
       (IndexSet.records Samples.indexes)
  /\ ((1 <= Shape.tracked Samples.indexes)%nat ->
      (1 <= Shape.tracked (PlayIndexSet.dropIndex SinglePlay.down_number
                             Samples.indexes))%nat).
Proof.
  apply (dropIndex_keeps_the_plays SinglePlay.down_number Samples.indexes).
  exact SampleFacts.indexes_invariant.
Defined.

(** ** Filling a store, loading seasons, reading the command line *)

Module StoreFacts.
Import SinglePlay.

Lemma filled_spec d :
  Store.filled d ->
  map _refId (DataStore._data d)
  = map Z.of_nat (seq 0 (length (DataStore._data d)))
  /\ Forall (fun p => 0 <= _down p < 256) (DataStore._data d)
  /\ DataStore.getIndexes d = PlayIndexSet.PlayIndexSet.
Proof.
  induction 1 as [|ty down dist yard mins own opp gain turned d _ IH].
  - repeat split. constructor.
  - destruct IH as [Hid [Hdown Hidx]].
    unfold DataStore.insertPlay. cbn [DataStore._data DataStore.getIndexes
                                      DataStore._indexes].
    split; [|split].
    + rewrite map_app, length_app, Nat.add_1_r, seq_S, map_app, Hid.
      reflexivity.
    + apply Forall_app. split; [exact Hdown|].
      constructor; [|constructor].
      unfold SinglePlay.SinglePlay. cbn [_down]. unfold to_uchar.
      apply Z.mod_pos_bound. lia.
    + exact Hidx.
Qed.

Lemma NoDup_positions (l : list nat) : NoDup l -> NoDup (map Z.of_nat l).
Proof.
  induction 1 as [|a l Ha _ IH]; simpl; constructor; [|exact IH].
  intro Hin. apply in_map_iff in Hin. destruct Hin as [b [E Hb]].
  apply Nat2Z.inj in E. subst b. contradiction.
Qed.

End StoreFacts.

Module ScoreFacts.
Import SinglePlay.

Lemma category_of_difference own opp :
  -32768 < own - opp < 32768 ->
  ScoreDifferential_val (scoreToScoreDifferential own opp)
  = let d := own - opp in
    if d <? -14 then 0 else if d <? -7 then 1 else if d <? 0 then 2
    else if d =? 0 then 3 else if d <=? 7 then 4 else if d <=? 14 then 5
    else 6.
Proof.
  intro H. unfold scoreToScoreDifferential.
  rewrite LeafFacts.to_short_small by lia. cbv zeta.
  repeat match goal with
         | |- context [if ?b then _ else _] => destruct b
         end; reflexivity.
Qed.

End ScoreFacts.

Module LoadFacts.
Import PlayLoader PlaySummaryFactory.

Section Seasons.

Variable loadSingleSeason : Z -> DataStore.t -> outcome DataStore.t.

Lemma bind_assoc {A B C : Type} (m : outcome A) (f : A -> outcome B)
    (g : B -> outcome C) :
  bind (bind m f) g = bind m (fun a => bind (f a) g).
Proof. destruct m; reflexivity. Qed.

Lemma bind_ext {A B : Type} (m : outcome A) (f g : A -> outcome B) :
  (forall a, f a = g a) -> bind m f = bind m g.
Proof. intro H. destruct m; simpl; [apply H | reflexivity]. Qed.

(** Counting down from [year] to [firstYear] loads the seasons between
    them, the latest first. *)
Lemma loadSeasons_spec count :
  forall fuel year firstYear d,
    (count < fuel)%nat ->
    0 < firstYear -> year < 65536 ->
    year = firstYear + Z.of_nat count - 1 ->
    loadSeasons loadSingleSeason fuel year firstYear d
    = foldM (fun d y => loadSingleSeason y d)
            (map (fun k => year - Z.of_nat k) (seq 0 count)) d.
Proof.
  induction count as [|count IH]; intros fuel year firstYear d Hf Hpos Hy E.
  - destruct fuel as [|fuel]; [lia|]. cbn [loadSeasons].
    rewrite Z.geb_leb. destruct (Z.leb_spec firstYear year); [lia|].
    reflexivity.
  - destruct fuel as [|fuel]; [lia|]. cbn [loadSeasons].
    rewrite Z.geb_leb. destruct (Z.leb_spec firstYear year); [|lia].
    cbn [seq map foldM]. rewrite Z.sub_0_r.
    apply bind_ext. intro d'.
    assert (Ew : to_ushort (year - 1) = year - 1)
      by (unfold to_ushort; apply Z.mod_small; lia).
    rewrite Ew.
    rewrite (IH fuel (year - 1) firstYear d') by lia.
    f_equal. rewrite <- seq_shift, map_map. apply map_ext. intro k. lia.
Qed.

End Seasons.

End LoadFacts.

Module MainFacts.
Import Main.

Lemma similiarTeams_us ts :
  Forall (fun t => t <> "-o"%string) ts ->
  forall rest a b,
    similiarTeams (ts ++ rest) true a b = similiarTeams rest true (a ++ ts) b.
Proof.
  induction 1 as [|t ts Ht _ IH]; intros rest a b.
  - rewrite app_nil_r. reflexivity.
  - cbn [app similiarTeams].
    destruct (String.eqb_spec t "-o"); [contradiction|].
    rewrite IH, <- app_assoc. reflexivity.
Qed.

Lemma similiarTeams_other os :
  Forall (fun o => o <> "-u"%string) os ->
  forall rest a b,
    similiarTeams (os ++ rest) false a b = similiarTeams rest false a (b ++ os).
Proof.
  induction 1 as [|o os Ho _ IH]; intros rest a b.
  - rewrite app_nil_r. reflexivity.
  - cbn [app similiarTeams].
    destruct (String.eqb_spec o "-u"); [contradiction|].
    rewrite IH, <- app_assoc. reflexivity.
Qed.

End MainFacts.

(** X24: Plays are numbered as they are inserted: in a store created empty and
    filled by [insertPlay] with no more plays than an [unsigned int]
    counts, the reference ID of every play is its position, so no two
    plays share one; every down is stored as a byte; and no index exists
    before [buildIndexes]. *)
Theorem inserted_plays_are_numbered_in_order (d : DataStore.t) :
  Store.filled d ->
  Z.of_nat (length (DataStore._data d)) <= 4294967296 ->
  map SinglePlay._refId (DataStore._data d)
  = map Z.of_nat (seq 0 (length (DataStore._data d)))
  /\ NoDup (map SinglePlay._refId (DataStore._data d))
  /\ Forall (fun p => 0 <= SinglePlay._down p < 256) (DataStore._data d)
  /\ DataStore.getIndexes d = PlayIndexSet.PlayIndexSet.
Proof.
  intros H _. destruct (StoreFacts.filled_spec d H) as [Hid [Hdown Hidx]].
  split; [exact Hid|]. split; [|split; assumption].
  rewrite Hid. apply StoreFacts.NoDup_positions. apply seq_NoDup.
Qed.

Lemma inserted_plays_are_numbered_in_order_witness :
  map SinglePlay._refId (DataStore._data Samples.store)
  = map Z.of_nat (seq 0 (length (DataStore._data Samples.store)))
  /\ NoDup (map SinglePlay._refId (DataStore._data Samples.store))
  /\ Forall (fun p => 0 <= SinglePlay._down p < 256)
            (DataStore._data Samples.store)
  /\ DataStore.getIndexes Samples.store = PlayIndexSet.PlayIndexSet.
Proof.
  apply (inserted_plays_are_numbered_in_order Samples.store).
  - unfold Samples.store. repeat apply Store.filled_insert.
    apply Store.filled_empty.
  - vm_compute. discriminate.
Defined.

(** X25: The score categories treat the two teams alike and follow the score:
    for scores whose difference fits a [short], exchanging the two scores
    mirrors the category, and a higher own score never gives a lower
    category. *)
Theorem score_categories_mirror_and_rise (ownScore oppScore higher : Z) :
  -32768 < ownScore - oppScore < 32768 ->
  ownScore <= higher -> higher - oppScore < 32768 ->
  SinglePlay.ScoreDifferential_val
    (SinglePlay.scoreToScoreDifferential oppScore ownScore)
  = 6 - SinglePlay.ScoreDifferential_val
          (SinglePlay.scoreToScoreDifferential ownScore oppScore)
  /\ SinglePlay.ScoreDifferential_val
       (SinglePlay.scoreToScoreDifferential ownScore oppScore)
     <= SinglePlay.ScoreDifferential_val
          (SinglePlay.scoreToScoreDifferential higher oppScore).
Proof.
  intros H Hle Hh.
  rewrite !ScoreFacts.category_of_difference by lia. cbv zeta.
  split.
  - repeat match goal with
           | |- context [?a <? ?b] => destruct (Z.ltb_spec a b)
           | |- context [?a <=? ?b] => destruct (Z.leb_spec a b)
           | |- context [?a =? ?b] => destruct (Z.eqb_spec a b)
           end; lia.
  - repeat match goal with
           | |- context [?a <? ?b] => destruct (Z.ltb_spec a b)
           | |- context [?a <=? ?b] => destruct (Z.leb_spec a b)
           | |- context [?a =? ?b] => destruct (Z.eqb_spec a b)
           end; lia.
Qed.

Lemma score_categories_mirror_and_rise_witness :
  SinglePlay.ScoreDifferential_val (SinglePlay.scoreToScoreDifferential 24 10)
  = 6 - SinglePlay.ScoreDifferential_val
          (SinglePlay.scoreToScoreDifferential 10 24)
  /\ SinglePlay.ScoreDifferential_val
       (SinglePlay.scoreToScoreDifferential 10 24)
     <= SinglePlay.ScoreDifferential_val
          (SinglePlay.scoreToScoreDifferential 17 24).
Proof.
  apply (score_categories_mirror_and_rise 10 24 17); lia.
Defined.

(** X26: [loadPlays] loads the latest seasons, at most four: for a year range
    that fits an [unsigned short] it loads the seasons 2011, 2010, ... in
    that order, as many as the range says but no more than the four up to
    2008, none for a range of zero, and then builds the indexes. *)
Theorem loadPlays_loads_latest_seasons
    (loadSingleSeason : Z -> DataStore.t -> outcome DataStore.t)
    (fuel : nat) (yearRange : Z) (dataStore : DataStore.t) :
  0 <= yearRange < 65536 ->
  (5 <= fuel)%nat ->
  PlayLoader.loadPlays loadSingleSeason fuel yearRange dataStore
  = (loaded <- PlaySummaryFactory.foldM
                 (fun d season => loadSingleSeason season d)
                 (map (fun k => 2011 - Z.of_nat k)
                      (seq 0 (Z.to_nat (Z.min yearRange 4))))
                 dataStore ;;
     DataStore.buildIndexes loaded).
Proof.
  intros Hr Hf. unfold PlayLoader.loadPlays. cbv zeta.
  f_equal.
  rewrite Z.gtb_ltb.
  destruct (Z.ltb_spec 2008 (2011 - yearRange + 1)) as [Hlt|Hge].
  - assert (Ew : to_ushort (2011 - yearRange + 1) = 2011 - yearRange + 1)
      by (unfold to_ushort; apply Z.mod_small; lia).
    rewrite Ew. rewrite Z.min_l by lia.
    apply LoadFacts.loadSeasons_spec; lia.
  - rewrite Z.min_r by lia.
    apply LoadFacts.loadSeasons_spec; simpl; lia.
Qed.

Lemma loadPlays_loads_latest_seasons_witness :
  PlayLoader.loadPlays (fun _ d => OK d) 5 3 Samples.store
  = (loaded <- PlaySummaryFactory.foldM
                 (fun d season => (fun _ d => OK d) season d)
                 (map (fun k => 2011 - Z.of_nat k)
                      (seq 0 (Z.to_nat (Z.min 3 4))))
                 Samples.store ;;
     DataStore.buildIndexes loaded).
Proof.
  apply (loadPlays_loads_latest_seasons (fun _ d => OK d) 5 3 Samples.store);
    lia.
Defined.

(** X27: The documented command line is understood as documented: after the two
    teams, [-u] followed by teams and [-o] followed by teams gives the first
    list as the teams similar to us and the second as the teams similar to
    the opponent, in order, provided no team of the first list is called
    [-o] and none of the second [-u]. *)
Theorem documented_command_line_is_understood
    (program us opponent : string) (likeUs likeOpponent : list string) :
  Forall (fun t => t <> "-o"%string) likeUs ->
  Forall (fun t => t <> "-u"%string) likeOpponent ->
  Main.arguments
    (program :: us :: opponent :: "-u"%string
       :: likeUs ++ "-o"%string :: likeOpponent)
  = Some (Main.mkTeams us opponent likeUs likeOpponent).
Proof.
  intros Hu Ho. unfold Main.arguments.
  set (argv := program :: us :: opponent :: "-u"%string
                 :: likeUs ++ "-o"%string :: likeOpponent).
  assert (Hlen : 5 <= Z.of_nat (length argv)).
  { unfold argv. cbn [length]. rewrite length_app. cbn [length]. lia. }
  destruct (Z.eqb_spec (Z.of_nat (length argv)) 3) as [E|_]; [lia|].
  rewrite Z.geb_leb. destruct (Z.leb_spec 5 (Z.of_nat (length argv))); [|lia].
  unfold argv. cbn [nth skipn negb].
  change (String.eqb "-u" "-u") with true. cbv iota. cbn [negb].
  rewrite MainFacts.similiarTeams_us by exact Hu.
  cbn [Main.similiarTeams]. change (String.eqb "-o" "-o") with true.
  cbv iota.
  rewrite <- (app_nil_r likeOpponent) at 1.
  rewrite MainFacts.similiarTeams_other by exact Ho.
  reflexivity.
Qed.

Lemma documented_command_line_is_understood_witness :
  Main.arguments
    ("tree" :: "NE" :: "NYJ" :: "-u"
       :: ["GB"; "NO"] ++ "-o" :: ["BAL"])%string
  = Some (Main.mkTeams "NE" "NYJ" ["GB"; "NO"] ["BAL"])%string.
Proof.
  apply (documented_command_line_is_understood "tree" "NE" "NYJ"
           ["GB"; "NO"]%string ["BAL"]%string).
  - repeat constructor; discriminate.
  - repeat constructor; discriminate.
Defined.

